(** * EO Web Viewer: the data indexer

    A shallow embedding of the data layer of the viewer
    ([web-app/src/data/iniLoader.ts], [indexer.ts], [mapLoader.ts],
    [questLoader.ts], [pubLoader.ts]) and the properties of it that the
    specification states.

    Conventions of the embedding.
    - A JavaScript string is a [string] of 8-bit code units.
    - A JavaScript number that the code obtains with [parseInt] is an
      integer of [Z]; the result of [parseFloat] is a [number], whose finite
      values are the exact rational the decimal literal denotes (the engine
      rounds that rational to the nearest binary64 value).
    - A JavaScript [Map] is an association list in insertion order
      ([JsMap]); an object stored in a table is identified by the key it is
      stored under, and a mutation of the object is an update in place of
      the table entry.
    - A promise settles to a [result]: [Ok v] when it is fulfilled, [Error
      msg] when it is rejected. *)

From Stdlib Require Import ZArith QArith Ascii String DecimalString.
From stdpp Require Import base option list strings.

Close Scope Q_scope.
Local Open Scope Z_scope.

(** ** JavaScript strings *)

Module Js.

Definition code (c : ascii) : nat := nat_of_ascii c.

  (** [\s], and what [String.prototype.trim] removes, among the code units
      below 256: TAB, LF, VT, FF, CR, SPACE and NBSP. *)
Definition isWhiteSpace (c : ascii) : bool :=
    let n := code c in
    ((9 <=? n) && (n <=? 13) || (n =? 32) || (n =? 160))%nat.

  (** [\d] *)
Definition isDigit (c : ascii) : bool :=
    let n := code c in ((48 <=? n) && (n <=? 57))%nat.

Fixpoint trimStart (s : string) : string :=
    match s with
    | String c s' => if isWhiteSpace c then trimStart s' else s
    | EmptyString => EmptyString
    end.

Fixpoint trimEnd (s : string) : string :=
    match s with
    | String c s' =>
        match trimEnd s' with
        | EmptyString => if isWhiteSpace c then EmptyString else String c EmptyString
        | t => String c t
        end
    | EmptyString => EmptyString
    end.

Definition trim (s : string) : string := trimEnd (trimStart s).

  (** [s.split(sep)] for a separator of one character: never the empty
      array, the empty string splits into one empty field. *)
Fixpoint split (sep : ascii) (s : string) : list string :=
    match s with
    | EmptyString => [EmptyString]
    | String c s' =>
        if Ascii.eqb c sep then EmptyString :: split sep s'
        else match split sep s' with
             | f :: fs => String c f :: fs
             | [] => [String c EmptyString]
             end
    end.

  (** [s.indexOf(c)], [None] for -1. *)
Fixpoint indexOf (c : ascii) (s : string) : option nat :=
    match s with
    | EmptyString => None
    | String d s' => if Ascii.eqb d c then Some 0%nat else S <$> indexOf c s'
    end.

  (** [s.substring(a)] and [s.substring(a, b)] for [a <= b]. *)
Fixpoint substringFrom (a : nat) (s : string) : string :=
    match a, s with
    | S a', String _ s' => substringFrom a' s'
    | _, _ => s
    end.

Definition substring (a b : nat) (s : string) : string :=
    String.substring a (b - a) s.

Definition startsWith (p s : string) : bool := String.prefix p s.

  (** [s.toLowerCase()] on the code units below 256: the letters A-Z and
      the Latin-1 capitals (all of C0-DE but the multiplication sign). *)
Definition lowerChar (c : ascii) : ascii :=
    let n := code c in
    if ((65 <=? n) && (n <=? 90) ||
        (192 <=? n) && (n <=? 222) && negb (n =? 215))%nat
    then ascii_of_nat (n + 32) else c.

Fixpoint toLowerCase (s : string) : string :=
    match s with
    | EmptyString => EmptyString
    | String c s' => String (lowerChar c) (toLowerCase s')
    end.

  (** Truthiness of a string: it is not empty. *)
Definition truthy (s : string) : bool :=
    match s with EmptyString => false | _ => true end.

  (** The longest prefix of characters in a class, and the rest. *)
Fixpoint span (p : ascii -> bool) (s : string) : string * string :=
    match s with
    | String c s' =>
        if p c then let '(a, b) := span p s' in (String c a, b)
        else (EmptyString, s)
    | EmptyString => (EmptyString, EmptyString)
    end.

Fixpoint digitsValue (acc : Z) (s : string) : Z :=
    match s with
    | String c s' => digitsValue (10 * acc + Z.of_nat (code c - 48)) s'
    | EmptyString => acc
    end.

  (** An optional sign: is it a minus, and the rest. *)
Definition sign (s : string) : bool * string :=
    match s with
    | String "-" s' => (true, s')
    | String "+" s' => (false, s')
    | _ => (false, s)
    end.

  (** [parseInt(s, 10)]: leading white space, an optional sign, the longest
      run of decimal digits; [None] is NaN. *)
Definition parseInt (s : string) : option Z :=
    let '(neg, s1) := sign (trimStart s) in
    let '(ds, _) := span isDigit s1 in
    match ds with
    | EmptyString => None
    | _ => Some (if neg then - digitsValue 0 ds else digitsValue 0 ds)
    end.

  (** The values of [parseFloat]. *)
Inductive number :=
  | NaN
  | Infinity (negative : bool)
  | Finite (q : Q).

Definition isNaN (x : number) : bool :=
    match x with NaN => true | _ => false end.

Definition decimal (neg : bool) (mant : Z) (exp10 : Z) : Q :=
    let m := if neg then - mant else mant in
    Qred (if 0 <=? exp10 then Qmake (m * 10 ^ exp10) 1
          else Qmake m (Z.to_pos (10 ^ (- exp10)))).

Definition exponentPart (s : string) : Z :=
    match s with
    | String c s' =>
        if Ascii.eqb c "e" || Ascii.eqb c "E" then
          let '(neg, s1) := sign s' in
          let '(ds, _) := span isDigit s1 in
          match ds with
          | EmptyString => 0
          | _ => if neg then - digitsValue 0 ds else digitsValue 0 ds
          end
        else 0
    | EmptyString => 0
    end.

  (** [parseFloat(s)]: leading white space, then the longest prefix that is
      a decimal literal: a sign, then [Infinity], or digits with an optional
      fraction and an optional exponent. *)
Definition parseFloat (s : string) : number :=
    let '(neg, s1) := sign (trimStart s) in
    if startsWith "Infinity" s1 then Infinity neg
    else
      let '(ip, r1) := span isDigit s1 in
      let '(fp, r2) :=
        match r1 with
        | String "." r =>
            let '(fp, r2) := span isDigit r in
            match ip, fp with
            | EmptyString, EmptyString => (EmptyString, r1)
            | _, _ => (fp, r2)
            end
        | _ => (EmptyString, r1)
        end in
      match ip, fp with
      | EmptyString, EmptyString => NaN
      | _, _ =>
          Finite (decimal neg (digitsValue 0 (ip +:+ fp))
                    (exponentPart r2 - Z.of_nat (String.length fp)))
      end.

  (** [String(n)] for an integer. *)
Definition toString (n : Z) : string := NilZero.string_of_int (Z.to_int n).

Fixpoint repeat (c : ascii) (n : nat) : string :=
    match n with O => EmptyString | S n' => String c (repeat c n') end.

  (** [s.padStart(n, c)] for a pad string of one character. *)
Definition padStart (n : nat) (c : ascii) (s : string) : string :=
    repeat c (n - String.length s) +:+ s.

End Js.

(** ** JavaScript [Map]: an association list in insertion order *)

Module JsMap.
Section Ops.
Context {K V : Type} `{EqDecision K}.

Definition t := list (K * V).

Definition empty : list (K * V) := [].

Fixpoint get (k : K) (m : list (K * V)) : option V :=
      match m with
      | [] => None
      | (k', v) :: m' => if decide (k = k') then Some v else get k m'
      end.

Definition has (k : K) (m : list (K * V)) : bool :=
      match get k m with Some _ => true | None => false end.

    (** [m.set(k, v)]: an existing key keeps its place in the iteration
        order, a new key goes last. *)
Fixpoint set (k : K) (v : V) (m : list (K * V)) : list (K * V) :=
      match m with
      | [] => [(k, v)]
      | (k', v') :: m' =>
          if decide (k = k') then (k, v) :: m' else (k', v') :: set k v m'
      end.

    (** A mutation [f] of the object stored under [k]. *)
Definition modify (k : K) (f : V -> V) (m : list (K * V)) : list (K * V) :=
      match get k m with
      | Some v => set k (f v) m
      | None => m
      end.

Definition keys (m : list (K * V)) : list K := m.*1.
Definition values (m : list (K * V)) : list V := m.*2.
Definition size (m : list (K * V)) : nat := length m.

    (** The keys of a [Map] are distinct. *)
Definition wf (m : list (K * V)) : Prop := NoDup (keys m).
End Ops.
End JsMap.

(** An array-valued field that may be [undefined]. *)
Definition arr {A} (o : option (list A)) : list A := default [] o.

(** [a.push(x)] on a field that holds an array. *)
Definition push {A} (x : A) (o : option (list A)) : option (list A) :=
  Some (arr o ++ [x]).


(** ** Settled promises and fetch responses *)

Inductive result (A : Type) : Type :=
| Ok (value : A)
| Error (message : string).
Arguments Ok {A} value.
Arguments Error {A} message.

(** The outcome of an async function: bind continues with the value the
    awaited promise is fulfilled with, and a rejection propagates. *)
Definition bind {A B} (r : result A) (k : A -> result B) : result B :=
  match r with
  | Ok a => k a
  | Error msg => Error msg
  end.

(** [try { await p } catch { return v }] *)
Definition catch {A} (r : result A) (handler : result A) : result A :=
  match r with
  | Ok a => Ok a
  | Error _ => handler
  end.

(** What [fetch(url)] gives: it rejects, or it resolves to a response with
    its [ok] flag, its status text and its body. *)
Inductive Response :=
| NetworkError (message : string)
| HttpResponse (ok : bool) (statusText : string) (body : string).

(** The content origin: a response for every URL. *)
Definition Origin := string -> Response.

(** ** The data model ([types/game.ts], as the loaders and the indexer use it) *)

Module ItemDrop.
Record t := mk {
  itemId : Z;
  itemName : string;
  minAmount : Z;
  maxAmount : Z;
  dropRate : Js.number }.
Definition with_itemName (n : string) (d : t) : t :=
  mk (itemId d) n (minAmount d) (maxAmount d) (dropRate d).
End ItemDrop.

Module NpcDrop.
Record t := mk {
  npcId : Z;
  npcName : string;
  minAmount : Z;
  maxAmount : Z;
  dropRate : Js.number }.
End NpcDrop.

Module CraftIngredient.
Record t := mk {
  itemId : Z;
  itemName : string;
  amount : Z }.
Definition with_itemName (n : string) (i : t) : t := mk (itemId i) n (amount i).
End CraftIngredient.

Module ShopInfo.
Record t := mk {
  shopId : Z;
  shopName : string;
  npcId : option Z;
  npcName : option string;
  buyPrice : Z;
  sellPrice : Z }.
End ShopInfo.

Module CraftInfo.
Record t := mk {
  shopId : Z;
  shopName : string;
  npcId : option Z;
  npcName : option string;
  ingredients : list CraftIngredient.t }.
End CraftInfo.

(** An entry of [npc.shopItems]. *)
Module NpcShopItem.
Record t := mk {
  itemId : Z;
  itemName : string;
  buyPrice : Z;
  sellPrice : Z }.
End NpcShopItem.

(** An entry of [npc.craftItems]. *)
Module NpcCraftItem.
Record t := mk {
  resultItemId : Z;
  resultItemName : string;
  ingredients : list CraftIngredient.t }.
End NpcCraftItem.

Module PetStats.
Record t := mk {
  str : Z; int : Z; wis : Z; agi : Z; con : Z; cha : Z;
  armor : Z; evade : Z; accuracy : Z; minDamage : Z; maxDamage : Z }.
End PetStats.

Module PetInfo.
Record t := mk {
  itemId : Z;
  itemName : string;
  stats : PetStats.t }.
Definition with_itemName (n : string) (p : t) : t := mk (itemId p) n (stats p).
End PetInfo.

Module SpecialDropInfo.
Record t := mk {
  effect : Z;
  serverMessage : bool }.
End SpecialDropInfo.

Module SpecialSpawnInfo.
Record t := mk {
  spawnFromNpcId : Z;
  spawnFromNpcName : string;
  chance : Js.number;
  amount : Z;
  message : option string }.
Definition with_spawnFromNpcName (n : string) (s : t) : t :=
  mk (spawnFromNpcId s) n (chance s) (amount s) (message s).
End SpecialSpawnInfo.

Inductive CastType := target | aoe.

Module SpellcastInfo.
Record t := mk {
  spellId : Z;
  spellName : string;
  castType : CastType;
  damage : Z;
  chance : Js.number }.
Definition with_spellName (n : string) (c : t) : t :=
  mk (spellId c) n (castType c) (damage c) (chance c).
End SpellcastInfo.

Module MapSpawnInfo.
Record t := mk {
  mapId : Z;
  mapName : string;
  x : Z;
  y : Z;
  spawnType : Z;
  spawnTime : Z;
  amount : Z }.
End MapSpawnInfo.

Inductive QuestRole := dialogue | kill.

Module QuestInvolvement.
Record t := mk {
  questId : Z;
  questName : string;
  role : QuestRole }.
End QuestInvolvement.

Module QuestReward.
Record t := mk {
  questId : Z;
  questName : string;
  amount : Z }.
End QuestReward.

Module QuestRequirement.
Record t := mk {
  questId : Z;
  questName : string;
  count : Z }.
End QuestRequirement.

(** *** Items *)

Module ItemStats.
Record t := mk {
  type : Z; subType : Z; weight : Z;
  hp : Z; tp : Z; minDamage : Z; maxDamage : Z;
  accuracy : Z; evade : Z; armor : Z;
  str : Z; int : Z; wis : Z; agi : Z; con : Z; cha : Z;
  levelRequirement : Z; classRequirement : Z;
  strRequirement : Z; intRequirement : Z; wisRequirement : Z;
  agiRequirement : Z; conRequirement : Z; chaRequirement : Z;
  spec1 : Z; spec2 : Z; spec3 : Z }.
End ItemStats.

Module GameItem.
Record t := mk {
  id : Z;
  name : string;
  graphicId : Z;
  stats : ItemStats.t;
  dropsFrom : option (list NpcDrop.t);
  soldAt : option (list ShopInfo.t);
  craftedAt : option (list CraftInfo.t);
  isSpecialDrop : option SpecialDropInfo.t;
  questRewards : option (list QuestReward.t);
  questRequirements : option (list QuestRequirement.t) }.

Definition with_dropsFrom v (i : t) : t :=
  mk (id i) (name i) (graphicId i) (stats i) v (soldAt i) (craftedAt i)
     (isSpecialDrop i) (questRewards i) (questRequirements i).
Definition with_soldAt v (i : t) : t :=
  mk (id i) (name i) (graphicId i) (stats i) (dropsFrom i) v (craftedAt i)
     (isSpecialDrop i) (questRewards i) (questRequirements i).
Definition with_craftedAt v (i : t) : t :=
  mk (id i) (name i) (graphicId i) (stats i) (dropsFrom i) (soldAt i) v
     (isSpecialDrop i) (questRewards i) (questRequirements i).
Definition with_isSpecialDrop v (i : t) : t :=
  mk (id i) (name i) (graphicId i) (stats i) (dropsFrom i) (soldAt i)
     (craftedAt i) v (questRewards i) (questRequirements i).
Definition with_questRewards v (i : t) : t :=
  mk (id i) (name i) (graphicId i) (stats i) (dropsFrom i) (soldAt i)
     (craftedAt i) (isSpecialDrop i) v (questRequirements i).
Definition with_questRequirements v (i : t) : t :=
  mk (id i) (name i) (graphicId i) (stats i) (dropsFrom i) (soldAt i)
     (craftedAt i) (isSpecialDrop i) (questRewards i) v.
End GameItem.

(** *** NPCs *)

Module NpcStats.
Record t := mk {
  boss : bool; child : bool; type : Z;
  hp : Z; minDamage : Z; maxDamage : Z;
  accuracy : Z; evade : Z; armor : Z;
  exp : Z }.
End NpcStats.

Module GameNpc.
Record t := mk {
  id : Z;
  name : string;
  graphicId : Z;
  behaviorId : Z;
  stats : NpcStats.t;
  drops : option (list ItemDrop.t);
  spawnsOnMaps : option (list MapSpawnInfo.t);
  petVersion : option PetInfo.t;
  isSpecialSpawn : option SpecialSpawnInfo.t;
  spellcasting : option SpellcastInfo.t;
  questInvolvement : option (list QuestInvolvement.t);
  shopItems : option (list NpcShopItem.t);
  craftItems : option (list NpcCraftItem.t) }.

Definition with_drops v (n : t) : t :=
  mk (id n) (name n) (graphicId n) (behaviorId n) (stats n) v
     (spawnsOnMaps n) (petVersion n) (isSpecialSpawn n) (spellcasting n)
     (questInvolvement n) (shopItems n) (craftItems n).
Definition with_spawnsOnMaps v (n : t) : t :=
  mk (id n) (name n) (graphicId n) (behaviorId n) (stats n) (drops n)
     v (petVersion n) (isSpecialSpawn n) (spellcasting n)
     (questInvolvement n) (shopItems n) (craftItems n).
Definition with_petVersion v (n : t) : t :=
  mk (id n) (name n) (graphicId n) (behaviorId n) (stats n) (drops n)
     (spawnsOnMaps n) v (isSpecialSpawn n) (spellcasting n)
     (questInvolvement n) (shopItems n) (craftItems n).
Definition with_isSpecialSpawn v (n : t) : t :=
  mk (id n) (name n) (graphicId n) (behaviorId n) (stats n) (drops n)
     (spawnsOnMaps n) (petVersion n) v (spellcasting n)
     (questInvolvement n) (shopItems n) (craftItems n).
Definition with_spellcasting v (n : t) : t :=
  mk (id n) (name n) (graphicId n) (behaviorId n) (stats n) (drops n)
     (spawnsOnMaps n) (petVersion n) (isSpecialSpawn n) v
     (questInvolvement n) (shopItems n) (craftItems n).
Definition with_questInvolvement v (n : t) : t :=
  mk (id n) (name n) (graphicId n) (behaviorId n) (stats n) (drops n)
     (spawnsOnMaps n) (petVersion n) (isSpecialSpawn n) (spellcasting n)
     v (shopItems n) (craftItems n).
Definition with_shopItems v (n : t) : t :=
  mk (id n) (name n) (graphicId n) (behaviorId n) (stats n) (drops n)
     (spawnsOnMaps n) (petVersion n) (isSpecialSpawn n) (spellcasting n)
     (questInvolvement n) v (craftItems n).
Definition with_craftItems v (n : t) : t :=
  mk (id n) (name n) (graphicId n) (behaviorId n) (stats n) (drops n)
     (spawnsOnMaps n) (petVersion n) (isSpecialSpawn n) (spellcasting n)
     (questInvolvement n) (shopItems n) v.
End GameNpc.

(** *** Spells, classes, maps *)

Module GameSpell.
Record t := mk {
  id : Z;
  name : string;
  shout : string;
  graphicId : Z;
  type : Z; targetRestrict : Z; target : Z;
  tpCost : Z; spCost : Z; castTime : Z;
  minDamage : Z; maxDamage : Z; accuracy : Z; hp : Z;
  levelRequirement : Z; classRequirement : Z;
  strRequirement : Z; intRequirement : Z; wisRequirement : Z;
  agiRequirement : Z; conRequirement : Z; chaRequirement : Z }.
End GameSpell.

Module GameClass.
Record t := mk {
  id : Z;
  name : string;
  parentType : Z;
  statGroup : Z;
  str : Z; int : Z; wis : Z; agi : Z; con : Z; cha : Z }.
End GameClass.

Module GameMap.
Record t := mk {
  id : Z;
  name : string }.
End GameMap.

(** *** Quests. The fields the indexer adds to the parsed references are
    [undefined] until it resolves them. *)

Module QuestNpc.
Record t := mk {
  npcId : Z;
  npcName : option string;
  enfId : option Z;
  graphicId : option Z }.
Definition resolved (name : string) (enf graphic : Z) (r : t) : t :=
  mk (npcId r) (Some name) (Some enf) (Some graphic).
End QuestNpc.

Module QuestRewardItem.
Record t := mk {
  itemId : Z;
  amount : Z;
  itemName : option string }.
Definition with_itemName (n : string) (r : t) : t :=
  mk (itemId r) (amount r) (Some n).
End QuestRewardItem.

Module QuestKill.
Record t := mk {
  npcId : Z;
  count : Z;
  npcName : option string;
  enfId : option Z;
  graphicId : option Z }.
Definition resolved (name : string) (enf graphic : Z) (r : t) : t :=
  mk (npcId r) (count r) (Some name) (Some enf) (Some graphic).
End QuestKill.

Module QuestItemReq.
Record t := mk {
  itemId : Z;
  count : Z;
  itemName : option string }.
Definition with_itemName (n : string) (r : t) : t :=
  mk (itemId r) (count r) (Some n).
End QuestItemReq.

Module GameQuest.
Record t := mk {
  id : Z;
  name : string;
  involvedNpcs : list QuestNpc.t;
  rewardItems : list QuestRewardItem.t;
  rewardExp : Z;
  killRequirements : list QuestKill.t;
  itemRequirements : list QuestItemReq.t }.
End GameQuest.

(** *** The published snapshot. The name indices hold the entity objects as
    they are when the build returns. *)

Module GameDatabase.
Record t := mk {
  items : list (Z * GameItem.t);
  npcs : list (Z * GameNpc.t);
  spells : list (Z * GameSpell.t);
  classes : list (Z * GameClass.t);
  maps : list (Z * GameMap.t);
  quests : list (Z * GameQuest.t);
  itemsByName : list (string * GameItem.t);
  npcsByName : list (string * GameNpc.t);
  spellsByName : list (string * GameSpell.t) }.
End GameDatabase.

(** ** Regular expressions

    The patterns of the loaders, as data. Repetition is over a character
    class only (as in every pattern of this program) and is greedy, with
    backtracking; capture groups are not nested, so the captures are in the
    order of the groups. *)

Module Regex.

Inductive t :=
| Eps
| Chr (p : ascii -> bool)
| Cat (r1 r2 : t)
| Star (p : ascii -> bool)
| Group (r : t)
| Opt (r : t).

Definition Plus (p : ascii -> bool) : t := Cat (Chr p) (Star p).

Fixpoint seq (rs : list t) : t :=
  match rs with
  | [] => Eps
  | r :: rs' => Cat r (seq rs')
  end.

(** A literal character, [\d], [\s], a negated class. *)
Definition ch (c : ascii) : t := Chr (Ascii.eqb c).
Definition oneOf (cs : list ascii) : ascii -> bool :=
  fun c => existsb (Ascii.eqb c) cs.
Definition noneOf (cs : list ascii) : ascii -> bool :=
  fun c => negb (oneOf cs c).

(** A literal word under the [i] flag. *)
Fixpoint word_i (w : string) : t :=
  match w with
  | EmptyString => Eps
  | String c w' =>
      Cat (Chr (fun d => Ascii.eqb (Js.lowerChar d) (Js.lowerChar c))) (word_i w')
  end.

(** What a match consumed between [s] and its suffix [rest]. *)
Definition consumed (s rest : string) : string :=
  String.substring 0 (String.length s - String.length rest) s.

Fixpoint star {X} (p : ascii -> bool) (s : string)
    (k : string -> option X) : option X :=
  match s with
  | String c s' =>
      if p c then
        match star p s' k with
        | Some x => Some x
        | None => k s
        end
      else k s
  | EmptyString => k s
  end.

(** Match [r] at the start of [s], then continue with [k] on the rest. *)
Fixpoint matchAt {X} (r : t) (s : string) (caps : list string)
    (k : string -> list string -> option X) : option X :=
  match r with
  | Eps => k s caps
  | Chr p =>
      match s with
      | String c s' => if p c then k s' caps else None
      | EmptyString => None
      end
  | Cat r1 r2 => matchAt r1 s caps (fun s' caps' => matchAt r2 s' caps' k)
  | Star p => star p s (fun s' => k s' caps)
  | Group r' =>
      matchAt r' s caps (fun s' caps' => k s' (caps' ++ [consumed s s']))
  | Opt r' =>
      match matchAt r' s caps k with
      | Some x => Some x
      | None => k s caps
      end
  end.

(** The leftmost match in [s]: its captures and what follows it. *)
Fixpoint search (r : t) (s : string) : option (list string * string) :=
  match matchAt r s [] (fun rest caps => Some (caps, rest)) with
  | Some x => Some x
  | None =>
      match s with
      | String _ s' => search r s'
      | EmptyString => None
      end
  end.

(** [s.match(r)] without the [g] flag: the captures of the leftmost match
    ([match[1]] is the first of the list). *)
Definition exec (r : t) (s : string) : option (list string) :=
  fst <$> search r s.

(** [s.matchAll(r)] with the [g] flag, for a pattern that matches no empty
    string: the successive matches, each searched after the previous one. *)
Fixpoint matchAllFrom (fuel : nat) (r : t) (s : string) : list (list string) :=
  match fuel with
  | O => []
  | S fuel' =>
      match search r s with
      | Some (caps, rest) => caps :: matchAllFrom fuel' r rest
      | None => []
      end
  end.

Definition matchAll (r : t) (s : string) : list (list string) :=
  matchAllFrom (S (String.length s)) r s.

(** [match[i]] for [i >= 1]; [None] is [undefined]. *)
Definition capture (i : nat) (caps : list string) : option string :=
  caps !! (i - 1)%nat.

(** [parseInt(match[i], 10)] for a group that captures [\d+]. *)
Definition captureInt (i : nat) (caps : list string) : Z :=
  default 0 (capture i caps ≫= Js.parseInt).

(** [parseFloat(match[i])]. *)
Definition captureFloat (i : nat) (caps : list string) : Js.number :=
  from_option Js.parseFloat Js.NaN (capture i caps).

Definition digits : t := Group (Plus Js.isDigit).
Definition spaces : t := Star Js.isWhiteSpace.

End Regex.

(** ** [iniLoader.ts] *)

Definition LF : ascii := "010"%char.
Definition QUOTE : ascii := "034"%char.
Definition APOSTROPHE : ascii := "039"%char.

Definition DATA_PATH : string := "/data".

Definition loadTextFile (origin : Origin) (path : string) : result string :=
  match origin (DATA_PATH +:+ "/" +:+ path) with
  | NetworkError msg => Error msg
  | HttpResponse ok statusText body =>
      if negb ok then Error ("Failed to load " +:+ path +:+ ": " +:+ statusText)
      else Ok body
  end.

Definition parseIniLine (line : string) : option (string * string) :=
  let trimmed := Js.trim line in
  if negb (Js.truthy trimmed) || Js.startsWith ";" trimmed || Js.startsWith "#" trimmed
  then None
  else
    match Js.indexOf "=" trimmed with
    | None => None
    | Some equalIndex =>
        Some (Js.trim (Js.substring 0 equalIndex trimmed),
              Js.trim (Js.substringFrom (equalIndex + 1) trimmed))
    end.

(** [value.split(',').map(s => s.trim()).filter(s => s !== '')], the
    expression that cuts the value of a drops, trade or craft line. *)
Definition csvParts (value : string) : list string :=
  filter (fun s => s <> EmptyString) (Js.trim <$> Js.split "," value).

(** *** drops.ini *)

(** One group of four of the loop of [loadDrops]. *)
Definition parseDrop (a b c d : string) : option ItemDrop.t :=
  match Js.parseInt a, Js.parseInt b, Js.parseInt c with
  | Some itemId, Some min, Some max =>
      let rate := Js.parseFloat d in
      if negb (Js.isNaN rate)
      then Some (ItemDrop.mk itemId EmptyString min max rate)
      else None
  | _, _, _ => None
  end.

(** The loop [for (let i = 0; i + 4 <= parts.length; i += 4)]. *)
Fixpoint dropGroups (parts : list string) : list ItemDrop.t :=
  match parts with
  | a :: b :: c :: d :: rest =>
      match parseDrop a b c d with
      | Some drop => drop :: dropGroups rest
      | None => dropGroups rest
      end
  | _ => []
  end.

Definition parseDropsValue (value : string) : list ItemDrop.t :=
  dropGroups (csvParts value).

Definition parseDropsLine (drops : list (Z * list ItemDrop.t)) (line : string)
    : list (Z * list ItemDrop.t) :=
  match parseIniLine line with
  | None => drops
  | Some (key, value) =>
      if Js.startsWith "[" key then drops
      else
        match Js.parseInt key with
        | None => drops
        | Some npcId =>
            let npcDrops := parseDropsValue value in
            if (0 <? length npcDrops)%nat then JsMap.set npcId npcDrops drops
            else drops
        end
  end.

Definition parseDrops (content : string) : list (Z * list ItemDrop.t) :=
  fold_left parseDropsLine (Js.split LF content) JsMap.empty.

Definition loadDrops (origin : Origin) : result (list (Z * list ItemDrop.t)) :=
  catch (bind (loadTextFile origin "drops.ini") (fun content =>
           Ok (parseDrops content)))
        (Ok JsMap.empty).

(** *** shops.ini *)

Module Trade.
Record t := mk {
  itemId : Z;
  buyPrice : Z;
  sellPrice : Z }.
End Trade.

Module Craft.
Record t := mk {
  resultItemId : Z;
  ingredients : list CraftIngredient.t }.
End Craft.

Module ShopData.
Record t := mk {
  id : Z;
  name : string;
  trades : list Trade.t;
  crafts : list Craft.t }.
End ShopData.

(** The loop [for (let i = 0; i + 3 <= parts.length; i += 3)]. *)
Fixpoint tradeGroups (parts : list string) : list Trade.t :=
  match parts with
  | a :: b :: c :: rest =>
      match Js.parseInt a, Js.parseInt b, Js.parseInt c with
      | Some itemId, Some buyPrice, Some sellPrice =>
          Trade.mk itemId buyPrice sellPrice :: tradeGroups rest
      | _, _, _ => tradeGroups rest
      end
  | _ => []
  end.

(** One ingredient slot: a pair (item id, amount), kept when both are
    positive numbers. *)
Definition ingredientSlot (ingr amt : string) : list CraftIngredient.t :=
  match Js.parseInt ingr, Js.parseInt amt with
  | Some ingrId, Some ingrAmt =>
      if (0 <? ingrId) && (0 <? ingrAmt)
      then [CraftIngredient.mk ingrId EmptyString ingrAmt]
      else []
  | _, _ => []
  end.

(** The loop [for (let i = 0; i + 9 <= parts.length; i += 9)]. *)
Fixpoint craftGroups (parts : list string) : list Craft.t :=
  match parts with
  | r :: i1 :: a1 :: i2 :: a2 :: i3 :: a3 :: i4 :: a4 :: rest =>
      match Js.parseInt r with
      | None => craftGroups rest
      | Some resultItemId =>
          let ingredients :=
            ingredientSlot i1 a1 ++ ingredientSlot i2 a2 ++
            ingredientSlot i3 a3 ++ ingredientSlot i4 a4 in
          if (0 <? length ingredients)%nat
          then Craft.mk resultItemId ingredients :: craftGroups rest
          else craftGroups rest
      end
  | _ => []
  end.

Definition shopProperty (property value : string) (shop : ShopData.t) : ShopData.t :=
  if String.eqb property "name" then
    ShopData.mk (ShopData.id shop) value (ShopData.trades shop) (ShopData.crafts shop)
  else if String.eqb property "trade" then
    ShopData.mk (ShopData.id shop) (ShopData.name shop)
      (ShopData.trades shop ++ tradeGroups (csvParts value)) (ShopData.crafts shop)
  else if String.eqb property "craft" then
    ShopData.mk (ShopData.id shop) (ShopData.name shop) (ShopData.trades shop)
      (ShopData.crafts shop ++ craftGroups (csvParts value))
  else shop.

Definition parseShopsLine (shops : list (Z * ShopData.t)) (line : string)
    : list (Z * ShopData.t) :=
  match parseIniLine line with
  | None => shops
  | Some (key, value) =>
      match Js.indexOf "." key with
      | None => shops
      | Some dotIndex =>
          match Js.parseInt (Js.substring 0 dotIndex key) with
          | None => shops
          | Some shopId =>
              let property := Js.substringFrom (dotIndex + 1) key in
              let shops1 :=
                if negb (JsMap.has shopId shops)
                then JsMap.set shopId (ShopData.mk shopId EmptyString [] []) shops
                else shops in
              JsMap.modify shopId (shopProperty property value) shops1
          end
      end
  end.

Definition parseShops (content : string) : list (Z * ShopData.t) :=
  fold_left parseShopsLine (Js.split LF content) JsMap.empty.

Definition loadShops (origin : Origin) : result (list (Z * ShopData.t)) :=
  catch (bind (loadTextFile origin "shops.ini") (fun content =>
           Ok (parseShops content)))
        (Ok JsMap.empty).

(** *** pets.ini *)

(** [/\{(\d+),(\d+),(\d+),(\d+),(\d+),(\d+),(\d+),(\d+),(\d+),(\d+),(\d+),(\d+)\}/] *)
Definition petPattern : Regex.t :=
  Regex.seq [Regex.ch "{";
    Regex.digits; Regex.ch ","; Regex.digits; Regex.ch ","; Regex.digits; Regex.ch ",";
    Regex.digits; Regex.ch ","; Regex.digits; Regex.ch ","; Regex.digits; Regex.ch ",";
    Regex.digits; Regex.ch ","; Regex.digits; Regex.ch ","; Regex.digits; Regex.ch ",";
    Regex.digits; Regex.ch ","; Regex.digits; Regex.ch ","; Regex.digits;
    Regex.ch "}"].

Definition parsePetsLine (pets : list (Z * PetInfo.t)) (line : string)
    : list (Z * PetInfo.t) :=
  match parseIniLine line with
  | None => pets
  | Some (key, value) =>
      match Js.parseInt key with
      | None => pets
      | Some itemId =>
          match Regex.exec petPattern value with
          | None => pets
          | Some m =>
              JsMap.set (Regex.captureInt 1 m)
                (PetInfo.mk itemId EmptyString
                   (PetStats.mk (Regex.captureInt 2 m) (Regex.captureInt 3 m)
                      (Regex.captureInt 4 m) (Regex.captureInt 5 m)
                      (Regex.captureInt 6 m) (Regex.captureInt 7 m)
                      (Regex.captureInt 8 m) (Regex.captureInt 9 m)
                      (Regex.captureInt 10 m) (Regex.captureInt 11 m)
                      (Regex.captureInt 12 m)))
                pets
          end
      end
  end.

Definition loadPets (origin : Origin) : result (list (Z * PetInfo.t)) :=
  bind (loadTextFile origin "pets.ini") (fun content =>
  Ok (fold_left parsePetsLine (Js.split LF content) JsMap.empty)).

(** *** specialdrops.ini *)

(** [/\{(\d+),(\d+)\}/] *)
Definition specialDropPattern : Regex.t :=
  Regex.seq [Regex.ch "{"; Regex.digits; Regex.ch ","; Regex.digits; Regex.ch "}"].

Definition parseSpecialDropsLine (specialDrops : list (Z * SpecialDropInfo.t))
    (line : string) : list (Z * SpecialDropInfo.t) :=
  match parseIniLine line with
  | None => specialDrops
  | Some (key, value) =>
      match Js.parseInt key with
      | None => specialDrops
      | Some itemId =>
          match Regex.exec specialDropPattern value with
          | None => specialDrops
          | Some m =>
              JsMap.set itemId
                (SpecialDropInfo.mk (Regex.captureInt 1 m)
                   (Regex.captureInt 2 m =? 1))
                specialDrops
          end
      end
  end.

Definition loadSpecialDrops (origin : Origin) : result (list (Z * SpecialDropInfo.t)) :=
  bind (loadTextFile origin "specialdrops.ini") (fun content =>
  Ok (fold_left parseSpecialDropsLine (Js.split LF content) JsMap.empty)).

(** *** specialmobs.ini *)

Definition digitOrDot (c : ascii) : bool := Js.isDigit c || Ascii.eqb c ".".

(** [/\{(\d+),(\d+),([\d.]+),(\d+)(?:,MESSAGE)?\}/], where MESSAGE is a
    double quote, a fifth group capturing any run of characters other than
    the double quote, and a double quote. *)
Definition specialMobPattern : Regex.t :=
  Regex.seq [Regex.ch "{"; Regex.digits; Regex.ch ","; Regex.digits; Regex.ch ",";
    Regex.Group (Regex.Plus digitOrDot); Regex.ch ","; Regex.digits;
    Regex.Opt (Regex.seq [Regex.ch ","; Regex.ch QUOTE;
                          Regex.Group (Regex.Star (Regex.noneOf [QUOTE]));
                          Regex.ch QUOTE]);
    Regex.ch "}"].

(** [match[5] || undefined] *)
Definition orUndefined (o : option string) : option string :=
  match o with
  | Some s => if Js.truthy s then Some s else None
  | None => None
  end.

Definition parseSpecialMobsLine (specialMobs : list SpecialSpawnInfo.t)
    (line : string) : list SpecialSpawnInfo.t :=
  match parseIniLine line with
  | None => specialMobs
  | Some (key, value) =>
      match Regex.exec specialMobPattern value with
      | None => specialMobs
      | Some m =>
          specialMobs ++
          [SpecialSpawnInfo.mk (Regex.captureInt 1 m) EmptyString
             (Regex.captureFloat 3 m) (Regex.captureInt 4 m)
             (orUndefined (Regex.capture 5 m))]
      end
  end.

Definition loadSpecialMobs (origin : Origin) : result (list SpecialSpawnInfo.t) :=
  bind (loadTextFile origin "specialmobs.ini") (fun content =>
  Ok (fold_left parseSpecialMobsLine (Js.split LF content) [])).

(** *** npcspellcast.ini *)

(** [/\{(\d+),(\d+),(\d+),([\d.]+)\}/g] *)
Definition spellcastPattern : Regex.t :=
  Regex.seq [Regex.ch "{"; Regex.digits; Regex.ch ","; Regex.digits; Regex.ch ",";
    Regex.digits; Regex.ch ","; Regex.Group (Regex.Plus digitOrDot); Regex.ch "}"].

Definition spellcastOfMatch (m : list string) : SpellcastInfo.t :=
  SpellcastInfo.mk (Regex.captureInt 1 m) EmptyString
    (if Regex.captureInt 2 m =? 0 then target else aoe)
    (Regex.captureInt 3 m) (Regex.captureFloat 4 m).

Definition parseNpcSpellcastsLine (spellcasts : list (Z * list SpellcastInfo.t))
    (line : string) : list (Z * list SpellcastInfo.t) :=
  match parseIniLine line with
  | None => spellcasts
  | Some (key, value) =>
      match Js.parseInt key with
      | None => spellcasts
      | Some npcId =>
          let npcCasts := spellcastOfMatch <$> Regex.matchAll spellcastPattern value in
          if (0 <? length npcCasts)%nat then JsMap.set npcId npcCasts spellcasts
          else spellcasts
      end
  end.

Definition loadNpcSpellcasts (origin : Origin) : result (list (Z * list SpellcastInfo.t)) :=
  bind (loadTextFile origin "npcspellcast.ini") (fun content =>
  Ok (fold_left parseNpcSpellcastsLine (Js.split LF content) JsMap.empty)).

(** ** [Promise.all]

    The promises of one call settle in an order the code does not control.
    A schedule picks, at each step, which of the pending promises settles
    next: step [t] settles the pending promise at position
    [sched t mod (number pending)], so every schedule is a completion order.
    [Promise.all] is rejected with the reason of the first promise that is
    rejected, in completion order; otherwise it is fulfilled with the values
    in the order of the array. *)

Module Promise.

Definition Schedule := nat -> nat.

Fixpoint settle (sched : Schedule) (t : nat) (fuel : nat) (pending : list nat)
    : list nat :=
  match fuel with
  | O => []
  | S fuel' =>
      let j := (sched t mod length pending)%nat in
      match pending !! j with
      | Some i => i :: settle sched (S t) fuel' (delete j pending)
      | None => []
      end
  end.

(** The order in which [n] promises settle. *)
Definition completionOrder (sched : Schedule) (n : nat) : list nat :=
  settle sched 0 n (seq 0 n).

Definition rejection {A} (r : result A) : option string :=
  match r with
  | Ok _ => None
  | Error msg => Some msg
  end.

(** The reason of the first rejection, in the given order. *)
Fixpoint firstRejection (order : list nat) (outcomes : list (option string))
    : option string :=
  match order with
  | [] => None
  | i :: order' =>
      match outcomes !! i with
      | Some (Some msg) => Some msg
      | _ => firstRejection order' outcomes
      end
  end.

(** The values of fulfilled promises, in the order of the array. *)
Fixpoint collect {A} (ps : list (result A)) : result (list A) :=
  match ps with
  | [] => Ok []
  | Ok a :: ps' =>
      match collect ps' with
      | Ok l => Ok (a :: l)
      | Error msg => Error msg
      end
  | Error msg :: _ => Error msg
  end.

Definition all {A} (sched : Schedule) (ps : list (result A)) : result (list A) :=
  match firstRejection (completionOrder sched (length ps)) (rejection <$> ps) with
  | Some msg => Error msg
  | None => collect ps
  end.

(** [Promise.all] of an array of four promises, destructured. *)
Definition all4 {A B C D} (sched : Schedule)
    (a : result A) (b : result B) (c : result C) (d : result D)
    : result (A * B * C * D) :=
  match firstRejection (completionOrder sched 4)
          [rejection a; rejection b; rejection c; rejection d] with
  | Some msg => Error msg
  | None =>
      bind a (fun a => bind b (fun b => bind c (fun c => bind d (fun d =>
      Ok (a, b, c, d)))))
  end.

(** [Promise.all] of an array of eight promises, destructured. *)
Definition all8 {A B C D E F G H} (sched : Schedule)
    (a : result A) (b : result B) (c : result C) (d : result D)
    (e : result E) (f : result F) (g : result G) (h : result H)
    : result (A * B * C * D * E * F * G * H) :=
  match firstRejection (completionOrder sched 8)
          [rejection a; rejection b; rejection c; rejection d;
           rejection e; rejection f; rejection g; rejection h] with
  | Some msg => Error msg
  | None =>
      bind a (fun a => bind b (fun b => bind c (fun c => bind d (fun d =>
      bind e (fun e => bind f (fun f => bind g (fun g => bind h (fun h =>
      Ok (a, b, c, d, e, f, g, h)))))))))
  end.

End Promise.

(** ** [pubLoader.ts] *)

(** The records of the eolib decoders, with the fields the loaders read. *)

Module EifRecord.
Record t := mk {
  name : string; graphicId : Z; type : Z; subtype : Z; weight : Z;
  hp : Z; tp : Z; minDamage : Z; maxDamage : Z;
  accuracy : Z; evade : Z; armor : Z;
  str : Z; intl : Z; wis : Z; agi : Z; con : Z; cha : Z;
  levelRequirement : Z; classRequirement : Z;
  strRequirement : Z; intRequirement : Z; wisRequirement : Z;
  agiRequirement : Z; conRequirement : Z; chaRequirement : Z;
  spec1 : option Z; spec2 : option Z; spec3 : option Z }.
End EifRecord.

Module EnfRecord.
Record t := mk {
  name : string; graphicId : Z; behaviorId : Z;
  boss : bool; child : bool; type : Z;
  hp : Z; minDamage : Z; maxDamage : Z;
  accuracy : Z; evade : Z; armor : Z;
  experience : Z }.
End EnfRecord.

Module EsfRecord.
Record t := mk {
  name : string; chant : string; graphicId : Z;
  type : Z; targetRestrict : Z; targetType : Z;
  tpCost : Z; spCost : Z; castTime : Z;
  minDamage : Z; maxDamage : Z; accuracy : Z; hpHeal : Z }.
End EsfRecord.

Module EcfRecord.
Record t := mk {
  name : string; parentType : Z; statGroup : Z;
  str : Z; intl : Z; wis : Z; agi : Z; con : Z; cha : Z }.
End EcfRecord.

Module EmfNpc.
Record t := mk {
  id : Z;
  x : Z;
  y : Z;
  spawnType : Z;
  spawnTime : Z;
  amount : Z }.
End EmfNpc.

Module Emf.
Record t := mk {
  name : string;
  npcs : list EmfNpc.t }.
End Emf.

(** The decoders of the eolib library, [X.deserialize(new EoReader(bytes))]:
    each gives the decoded file or throws. *)
Module Eolib.
Record t := mk {
  Eif_deserialize : string -> result (list EifRecord.t);
  Enf_deserialize : string -> result (list EnfRecord.t);
  Esf_deserialize : string -> result (list EsfRecord.t);
  Ecf_deserialize : string -> result (list EcfRecord.t);
  Emf_deserialize : string -> result Emf.t }.
End Eolib.

Definition loadFile (origin : Origin) (path : string) : result string :=
  match origin (DATA_PATH +:+ "/" +:+ path) with
  | NetworkError msg => Error msg
  | HttpResponse ok statusText body =>
      if negb ok then Error ("Failed to load " +:+ path +:+ ": " +:+ statusText)
      else Ok body
  end.

(** [records.forEach((record, index) => ...)] threading the table built. *)
Definition forEachIndexed {A T} (f : T -> A -> nat -> T) (records : list A) (init : T) : T :=
  fold_left (fun acc '(index, record) => f acc record index)
            (imap (fun index record => (index, record)) records) init.

(** [name && name.trim()] *)
Definition hasName (name : string) : bool :=
  Js.truthy name && Js.truthy (Js.trim name).

(** [x ?? 0] *)
Definition orZero (x : option Z) : Z := default 0 x.

(** [x || 0] on a number *)
Definition nonZeroOr0 (x : Z) : Z := if x =? 0 then 0 else x.

Definition itemOfRecord (record : EifRecord.t) (index : nat) : GameItem.t :=
  let id := Z.of_nat index + 1 in
  GameItem.mk id (EifRecord.name record) (EifRecord.graphicId record)
    (ItemStats.mk (EifRecord.type record) (EifRecord.subtype record)
       (EifRecord.weight record)
       (EifRecord.hp record) (EifRecord.tp record)
       (EifRecord.minDamage record) (EifRecord.maxDamage record)
       (EifRecord.accuracy record) (EifRecord.evade record) (EifRecord.armor record)
       (EifRecord.str record) (EifRecord.intl record) (EifRecord.wis record)
       (EifRecord.agi record) (EifRecord.con record) (EifRecord.cha record)
       (EifRecord.levelRequirement record) (EifRecord.classRequirement record)
       (EifRecord.strRequirement record) (EifRecord.intRequirement record)
       (EifRecord.wisRequirement record) (EifRecord.agiRequirement record)
       (EifRecord.conRequirement record) (EifRecord.chaRequirement record)
       (orZero (EifRecord.spec1 record)) (orZero (EifRecord.spec2 record))
       (orZero (EifRecord.spec3 record)))
    None None None None None None.

Definition addItem (items : list (Z * GameItem.t)) (record : EifRecord.t)
    (index : nat) : list (Z * GameItem.t) :=
  let item := itemOfRecord record index in
  if hasName (GameItem.name item) then JsMap.set (GameItem.id item) item items
  else items.

Definition loadItems (lib : Eolib.t) (origin : Origin) : result (list (Z * GameItem.t)) :=
  bind (loadFile origin "dat001.eif") (fun bytes =>
  bind (Eolib.Eif_deserialize lib bytes) (fun eif =>
  Ok (forEachIndexed addItem eif JsMap.empty))).

Definition npcOfRecord (record : EnfRecord.t) (index : nat) : GameNpc.t :=
  let id := Z.of_nat index + 1 in
  GameNpc.mk id (EnfRecord.name record) (EnfRecord.graphicId record)
    (EnfRecord.behaviorId record)
    (NpcStats.mk (EnfRecord.boss record || false) (EnfRecord.child record || false)
       (EnfRecord.type record)
       (EnfRecord.hp record) (EnfRecord.minDamage record) (EnfRecord.maxDamage record)
       (EnfRecord.accuracy record) (EnfRecord.evade record) (EnfRecord.armor record)
       (EnfRecord.experience record))
    None None None None None None None None.

Definition addNpc (npcs : list (Z * GameNpc.t)) (record : EnfRecord.t)
    (index : nat) : list (Z * GameNpc.t) :=
  let npc := npcOfRecord record index in
  if hasName (GameNpc.name npc) then JsMap.set (GameNpc.id npc) npc npcs
  else npcs.

Definition loadNpcs (lib : Eolib.t) (origin : Origin) : result (list (Z * GameNpc.t)) :=
  bind (loadFile origin "dtn001.enf") (fun bytes =>
  bind (Eolib.Enf_deserialize lib bytes) (fun enf =>
  Ok (forEachIndexed addNpc enf JsMap.empty))).

Definition spellOfRecord (record : EsfRecord.t) (index : nat) : GameSpell.t :=
  let id := Z.of_nat index + 1 in
  GameSpell.mk id (EsfRecord.name record) (EsfRecord.chant record)
    (EsfRecord.graphicId record)
    (EsfRecord.type record) (EsfRecord.targetRestrict record)
    (EsfRecord.targetType record)
    (EsfRecord.tpCost record) (EsfRecord.spCost record) (EsfRecord.castTime record)
    (EsfRecord.minDamage record) (EsfRecord.maxDamage record)
    (EsfRecord.accuracy record) (EsfRecord.hpHeal record)
    0 0 0 0 0 0 0 0.

Definition addSpell (spells : list (Z * GameSpell.t)) (record : EsfRecord.t)
    (index : nat) : list (Z * GameSpell.t) :=
  let spell := spellOfRecord record index in
  if hasName (GameSpell.name spell) then JsMap.set (GameSpell.id spell) spell spells
  else spells.

Definition loadSpells (lib : Eolib.t) (origin : Origin) : result (list (Z * GameSpell.t)) :=
  bind (loadFile origin "dsl001.esf") (fun bytes =>
  bind (Eolib.Esf_deserialize lib bytes) (fun esf =>
  Ok (forEachIndexed addSpell esf JsMap.empty))).

Definition classOfRecord (record : EcfRecord.t) (index : nat) : GameClass.t :=
  let id := Z.of_nat index + 1 in
  GameClass.mk id (EcfRecord.name record)
    (nonZeroOr0 (EcfRecord.parentType record)) (nonZeroOr0 (EcfRecord.statGroup record))
    (EcfRecord.str record) (EcfRecord.intl record) (EcfRecord.wis record)
    (EcfRecord.agi record) (EcfRecord.con record) (EcfRecord.cha record).

Definition addClass (classes : list (Z * GameClass.t)) (record : EcfRecord.t)
    (index : nat) : list (Z * GameClass.t) :=
  let gameClass := classOfRecord record index in
  if hasName (GameClass.name gameClass)
  then JsMap.set (GameClass.id gameClass) gameClass classes
  else classes.

Definition loadClasses (lib : Eolib.t) (origin : Origin) : result (list (Z * GameClass.t)) :=
  bind (loadFile origin "dat001.ecf") (fun bytes =>
  bind (Eolib.Ecf_deserialize lib bytes) (fun ecf =>
  Ok (forEachIndexed addClass ecf JsMap.empty))).

(** ** [mapLoader.ts] *)

Definition MAP_PATH : string := "/maps".

(** [String(id).padStart(5, '0') + ext] *)
Definition paddedName (id : Z) (ext : string) : string :=
  Js.padStart 5 "0" (Js.toString id) +:+ ext.

Definition mapUrl (mapId : Z) : string :=
  MAP_PATH +:+ "/" +:+ paddedName mapId ".emf".

(** [null] when the fetch rejects or the response is not ok. *)
Definition loadMapFile (origin : Origin) (mapId : Z) : option string :=
  match origin (mapUrl mapId) with
  | HttpResponse true _ body => Some body
  | _ => None
  end.

Module MapNpcSpawn.
Record t := mk {
  mapId : Z;
  mapName : string;
  npcId : Z;
  x : Z;
  y : Z;
  spawnType : Z;
  spawnTime : Z;
  amount : Z }.
End MapNpcSpawn.

Module MapData.
Record t := mk {
  maps : list (Z * GameMap.t);
  npcSpawns : list MapNpcSpawn.t }.
End MapData.

(** The ids [lo, lo+1, ..., hi] of a loop [for (let i = lo; i <= hi; i++)]. *)
Definition idRange (lo hi : Z) : list Z :=
  (fun k => lo + Z.of_nat k) <$> seq 0 (Z.to_nat (hi - lo + 1)).

Definition mapIds : list Z := idRange 0 400.

Definition spawnOfNpc (id : Z) (mapName : string) (npc : EmfNpc.t) : MapNpcSpawn.t :=
  MapNpcSpawn.mk id mapName (EmfNpc.id npc) (EmfNpc.x npc) (EmfNpc.y npc)
    (EmfNpc.spawnType npc) (EmfNpc.spawnTime npc) (EmfNpc.amount npc).

(** The body of the loop over the results of [loadMaps]. *)
Definition addMap (lib : Eolib.t) (acc : MapData.t) (r : Z * option string) : MapData.t :=
  let '(id, data) := r in
  match data with
  | None => acc
  | Some data =>
      if (String.length data <? 10)%nat then acc
      else
        match Eolib.Emf_deserialize lib data with
        | Error _ => acc
        | Ok emf =>
            let name :=
              if Js.truthy (Emf.name emf) then Emf.name emf
              else "Map " +:+ Js.toString id in
            MapData.mk (JsMap.set id (GameMap.mk id name) (MapData.maps acc))
              (MapData.npcSpawns acc ++ (spawnOfNpc id name <$> Emf.npcs emf))
        end
  end.

Definition loadMaps (lib : Eolib.t) (sched : Promise.Schedule) (origin : Origin)
    : result MapData.t :=
  let mapPromises := (fun i => Ok (i, loadMapFile origin i)) <$> mapIds in
  bind (Promise.all sched mapPromises) (fun results =>
  Ok (fold_left (addMap lib) results (MapData.mk JsMap.empty []))).

(** ** [questLoader.ts] *)

Definition QUEST_PATH : string := "/quests".

Definition questUrl (questId : Z) : string :=
  QUEST_PATH +:+ "/" +:+ paddedName questId ".eqf".

Definition loadQuestFile (origin : Origin) (questId : Z) : option string :=
  match origin (questUrl questId) with
  | HttpResponse true _ body => Some body
  | _ => None
  end.

Definition quoteChar : ascii -> bool := Regex.oneOf [QUOTE; APOSTROPHE].
Definition notQuoteChar : ascii -> bool := Regex.noneOf [QUOTE; APOSTROPHE].

(** [/questname\s+Q([^Q]+)Q/i], where Q is the class of the double quote
    and the apostrophe. *)
Definition questNamePattern : Regex.t :=
  Regex.seq [Regex.word_i "questname"; Regex.Plus Js.isWhiteSpace;
             Regex.Chr quoteChar; Regex.Group (Regex.Plus notQuoteChar);
             Regex.Chr quoteChar].

(** [/WORD\s*\(\s*(\d+)/i] *)
Definition call1Pattern (word : string) : Regex.t :=
  Regex.seq [Regex.word_i word; Regex.spaces; Regex.ch "("; Regex.spaces;
             Regex.digits].

(** [/WORD\s*\(\s*(\d+)\s*,\s*(\d+)/i] *)
Definition call2Pattern (word : string) : Regex.t :=
  Regex.seq [Regex.word_i word; Regex.spaces; Regex.ch "("; Regex.spaces;
             Regex.digits; Regex.spaces; Regex.ch ","; Regex.spaces; Regex.digits].

(** The state of the loop of [parseQuestDSL]. *)
Module QuestParse.
Record t := mk {
  name : string;
  involvedNpcs : list (Z * QuestNpc.t);
  rewardItems : list QuestRewardItem.t;
  rewardExp : Z;
  killRequirements : list QuestKill.t;
  itemRequirements : list QuestItemReq.t }.
End QuestParse.

(** One of the four directives that name a dialogue NPC. *)
Definition npcReference (word : string) (trimmed : string)
    (involvedNpcs : list (Z * QuestNpc.t)) : list (Z * QuestNpc.t) :=
  match Regex.exec (call1Pattern word) trimmed with
  | Some m =>
      let npcId := Regex.captureInt 1 m in
      if 0 <? npcId
      then JsMap.set npcId (QuestNpc.mk npcId None None None) involvedNpcs
      else involvedNpcs
  | None => involvedNpcs
  end.

Definition parseQuestLine (st : QuestParse.t) (line : string) : QuestParse.t :=
  let trimmed := Js.trim line in
  let name :=
    match Regex.exec questNamePattern trimmed with
    | Some m => default EmptyString (Regex.capture 1 m)
    | None => QuestParse.name st
    end in
  let involvedNpcs :=
    npcReference "TalkedToNpc" trimmed
      (npcReference "AddNpcChat" trimmed
        (npcReference "AddNpcInput" trimmed
          (npcReference "AddNpcText" trimmed (QuestParse.involvedNpcs st)))) in
  let rewardItems :=
    match Regex.exec (call2Pattern "GiveItem") trimmed with
    | Some m =>
        QuestParse.rewardItems st ++
        [QuestRewardItem.mk (Regex.captureInt 1 m) (Regex.captureInt 2 m) None]
    | None => QuestParse.rewardItems st
    end in
  let rewardExp :=
    match Regex.exec (call1Pattern "GiveExp") trimmed with
    | Some m => QuestParse.rewardExp st + Regex.captureInt 1 m
    | None => QuestParse.rewardExp st
    end in
  let killRequirements :=
    match Regex.exec (call2Pattern "KilledNpcs") trimmed with
    | Some m =>
        QuestParse.killRequirements st ++
        [QuestKill.mk (Regex.captureInt 1 m) (Regex.captureInt 2 m) None None None]
    | None => QuestParse.killRequirements st
    end in
  let itemRequirements :=
    match Regex.exec (call2Pattern "LostItems") trimmed with
    | Some m =>
        QuestParse.itemRequirements st ++
        [QuestItemReq.mk (Regex.captureInt 1 m) (Regex.captureInt 2 m) None]
    | None => QuestParse.itemRequirements st
    end in
  QuestParse.mk name involvedNpcs rewardItems rewardExp killRequirements
    itemRequirements.

Definition parseQuestDSL (id : Z) (content : string) : option GameQuest.t :=
  let lines := Js.split LF content in
  let defaultName := "Quest " +:+ Js.toString id in
  let st := fold_left parseQuestLine lines
              (QuestParse.mk defaultName JsMap.empty [] 0 [] []) in
  if String.eqb (QuestParse.name st) defaultName &&
     (JsMap.size (QuestParse.involvedNpcs st) =? 0)%nat
  then None
  else Some (GameQuest.mk id (QuestParse.name st)
               (JsMap.values (QuestParse.involvedNpcs st))
               (QuestParse.rewardItems st) (QuestParse.rewardExp st)
               (QuestParse.killRequirements st) (QuestParse.itemRequirements st)).

Definition questIds : list Z := idRange 1 150.

(** The body of the loop over the results of [loadQuests]. *)
Definition addQuest (quests : list (Z * GameQuest.t)) (r : Z * option string)
    : list (Z * GameQuest.t) :=
  let '(id, content) := r in
  match content with
  | None => quests
  | Some content =>
      if negb (Js.truthy content) then quests
      else
        match parseQuestDSL id content with
        | Some quest => JsMap.set id quest quests
        | None => quests
        end
  end.

Definition loadQuests (sched : Promise.Schedule) (origin : Origin)
    : result (list (Z * GameQuest.t)) :=
  let questPromises := (fun i => Ok (i, loadQuestFile origin i)) <$> questIds in
  bind (Promise.all sched questPromises) (fun results =>
  Ok (fold_left addQuest results JsMap.empty)).

(** ** [indexer.ts]

    The passes mutate the entity objects held by the tables; here each pass
    takes the tables and gives them back. *)

Definition Items := list (Z * GameItem.t).
Definition Npcs := list (Z * GameNpc.t).
Definition Spells := list (Z * GameSpell.t).

(** A loop over an array whose body may mutate the element it visits and
    the state around it. *)
Fixpoint forEachUpdate {S A} (f : S -> A -> S * A) (s : S) (l : list A) : S * list A :=
  match l with
  | [] => (s, [])
  | a :: l' =>
      let '(s1, a') := f s a in
      let '(s2, l'') := forEachUpdate f s1 l' in
      (s2, a' :: l'')
  end.

(** *** Drops *)

(** [npc.drops.push(drop)] *)
Definition pushDrop (drop : ItemDrop.t) (npc : GameNpc.t) : GameNpc.t :=
  GameNpc.with_drops (push drop (GameNpc.drops npc)) npc.

(** [item.dropsFrom.push(npcDrop)], on an array created when missing. *)
Definition pushDropsFrom (npcDrop : NpcDrop.t) (item : GameItem.t) : GameItem.t :=
  GameItem.with_dropsFrom (push npcDrop (GameItem.dropsFrom item)) item.

(** The body of the inner loop of [indexDrops], for the NPC object [npc]
    stored under [npcId]. *)
Definition indexDrop (npcId : Z) (npc : GameNpc.t) (st : Items * Npcs)
    (drop : ItemDrop.t) : Items * Npcs :=
  let '(items, npcs) := st in
  match JsMap.get (ItemDrop.itemId drop) items with
  | None => st
  | Some item =>
      let drop := ItemDrop.with_itemName (GameItem.name item) drop in
      let npcs := JsMap.modify npcId (pushDrop drop) npcs in
      let npcDrop :=
        NpcDrop.mk npcId (GameNpc.name npc) (ItemDrop.minAmount drop)
          (ItemDrop.maxAmount drop) (ItemDrop.dropRate drop) in
      let items := JsMap.modify (ItemDrop.itemId drop) (pushDropsFrom npcDrop) items in
      (items, npcs)
  end.

(** The body of the outer loop of [indexDrops]. *)
Definition indexNpcDrops (st : Items * Npcs) (entry : Z * list ItemDrop.t)
    : Items * Npcs :=
  let '(items, npcs) := st in
  let '(npcId, npcDrops) := entry in
  match JsMap.get npcId npcs with
  | None => st
  | Some npc =>
      let npcs := JsMap.modify npcId (GameNpc.with_drops (Some [])) npcs in
      fold_left (indexDrop npcId npc) npcDrops (items, npcs)
  end.

Definition indexDrops (items : Items) (npcs : Npcs)
    (drops : list (Z * list ItemDrop.t)) : Items * Npcs :=
  fold_left indexNpcDrops drops (items, npcs).

(** *** Shops *)

Definition indexTrade (shopId : Z) (shop : ShopData.t) (npc : option GameNpc.t)
    (st : Items * Npcs) (trade : Trade.t) : Items * Npcs :=
  let '(items, npcs) := st in
  match JsMap.get (Trade.itemId trade) items with
  | None => st
  | Some item =>
      let shopInfo :=
        ShopInfo.mk shopId (ShopData.name shop)
          (GameNpc.id <$> npc) (GameNpc.name <$> npc)
          (Trade.buyPrice trade) (Trade.sellPrice trade) in
      let items :=
        JsMap.modify (Trade.itemId trade)
          (fun i => GameItem.with_soldAt (push shopInfo (GameItem.soldAt i)) i)
          items in
      let npcs :=
        match npc with
        | Some _ =>
            JsMap.modify shopId
              (fun n => GameNpc.with_shopItems
                 (push (NpcShopItem.mk (Trade.itemId trade) (GameItem.name item)
                          (Trade.buyPrice trade) (Trade.sellPrice trade))
                       (GameNpc.shopItems n)) n)
              npcs
        | None => npcs
        end in
      (items, npcs)
  end.

(** [ingredient.itemName = ingredientItem.name] when the ingredient is a
    known item. *)
Definition nameIngredient (items : Items) (ingredient : CraftIngredient.t)
    : CraftIngredient.t :=
  match JsMap.get (CraftIngredient.itemId ingredient) items with
  | Some ingredientItem =>
      CraftIngredient.with_itemName (GameItem.name ingredientItem) ingredient
  | None => ingredient
  end.

Definition indexCraft (shopId : Z) (shop : ShopData.t) (npc : option GameNpc.t)
    (st : Items * Npcs) (craft : Craft.t) : Items * Npcs :=
  let '(items, npcs) := st in
  match JsMap.get (Craft.resultItemId craft) items with
  | None => st
  | Some resultItem =>
      let ingredients := nameIngredient items <$> Craft.ingredients craft in
      let craftInfo :=
        CraftInfo.mk shopId (ShopData.name shop)
          (GameNpc.id <$> npc) (GameNpc.name <$> npc) ingredients in
      let items :=
        JsMap.modify (Craft.resultItemId craft)
          (fun i => GameItem.with_craftedAt (push craftInfo (GameItem.craftedAt i)) i)
          items in
      let npcs :=
        match npc with
        | Some _ =>
            JsMap.modify shopId
              (fun n => GameNpc.with_craftItems
                 (push (NpcCraftItem.mk (Craft.resultItemId craft)
                          (GameItem.name resultItem) ingredients)
                       (GameNpc.craftItems n)) n)
              npcs
        | None => npcs
        end in
      (items, npcs)
  end.

Definition indexShop (st : Items * Npcs) (entry : Z * ShopData.t) : Items * Npcs :=
  let '(shopId, shop) := entry in
  let npc := JsMap.get shopId (snd st) in
  let st := fold_left (indexTrade shopId shop npc) (ShopData.trades shop) st in
  fold_left (indexCraft shopId shop npc) (ShopData.crafts shop) st.

Definition indexShops (items : Items) (npcs : Npcs)
    (shops : list (Z * ShopData.t)) : Items * Npcs :=
  fold_left indexShop shops (items, npcs).

(** *** Pets, special drops, special spawns *)

Definition indexPet (items : Items) (npcs : Npcs) (entry : Z * PetInfo.t) : Npcs :=
  let '(npcId, petInfo) := entry in
  match JsMap.get npcId npcs, JsMap.get (PetInfo.itemId petInfo) items with
  | Some npc, Some item =>
      let petInfo := PetInfo.with_itemName (GameItem.name item) petInfo in
      JsMap.modify npcId (GameNpc.with_petVersion (Some petInfo)) npcs
  | _, _ => npcs
  end.

Definition indexPets (items : Items) (npcs : Npcs) (pets : list (Z * PetInfo.t))
    : Npcs :=
  fold_left (indexPet items) pets npcs.

Definition indexSpecialDrop (items : Items) (entry : Z * SpecialDropInfo.t) : Items :=
  let '(itemId, info) := entry in
  match JsMap.get itemId items with
  | Some item => JsMap.modify itemId (GameItem.with_isSpecialDrop (Some info)) items
  | None => items
  end.

Definition indexSpecialDrops (items : Items)
    (specialDrops : list (Z * SpecialDropInfo.t)) : Items :=
  fold_left indexSpecialDrop specialDrops items.

Definition indexSpecialMob (npcs : Npcs) (spawn : SpecialSpawnInfo.t) : Npcs :=
  match JsMap.get (SpecialSpawnInfo.spawnFromNpcId spawn) npcs with
  | Some sourceNpc =>
      let spawn :=
        SpecialSpawnInfo.with_spawnFromNpcName (GameNpc.name sourceNpc) spawn in
      JsMap.modify (SpecialSpawnInfo.spawnFromNpcId spawn)
        (GameNpc.with_isSpecialSpawn (Some spawn)) npcs
  | None => npcs
  end.

Definition indexSpecialMobs (npcs : Npcs) (specialMobs : list SpecialSpawnInfo.t)
    : Npcs :=
  fold_left indexSpecialMob specialMobs npcs.

(** *** NPC spellcasting *)

(** [cast.spellName = spell.name] when the spell is known. *)
Definition nameCast (spells : Spells) (cast : SpellcastInfo.t) : SpellcastInfo.t :=
  match JsMap.get (SpellcastInfo.spellId cast) spells with
  | Some spell => SpellcastInfo.with_spellName (GameSpell.name spell) cast
  | None => cast
  end.

Definition indexNpcSpellcast (spells : Spells) (npcs : Npcs)
    (entry : Z * list SpellcastInfo.t) : Npcs :=
  let '(npcId, casts) := entry in
  match JsMap.get npcId npcs with
  | None => npcs
  | Some npc =>
      let casts := nameCast spells <$> casts in
      match casts with
      | first :: _ =>
          JsMap.modify npcId (GameNpc.with_spellcasting (Some first)) npcs
      | [] => npcs
      end
  end.

Definition indexNpcSpellcasts (npcs : Npcs) (spells : Spells)
    (spellcasts : list (Z * list SpellcastInfo.t)) : Npcs :=
  fold_left (indexNpcSpellcast spells) spellcasts npcs.

(** *** NPC spawns *)

Definition indexNpcSpawn (npcs : Npcs) (spawn : MapNpcSpawn.t) : Npcs :=
  match JsMap.get (MapNpcSpawn.npcId spawn) npcs with
  | None => npcs
  | Some npc =>
      let spawnInfo :=
        MapSpawnInfo.mk (MapNpcSpawn.mapId spawn) (MapNpcSpawn.mapName spawn)
          (MapNpcSpawn.x spawn) (MapNpcSpawn.y spawn)
          (MapNpcSpawn.spawnType spawn) (MapNpcSpawn.spawnTime spawn)
          (MapNpcSpawn.amount spawn) in
      JsMap.modify (MapNpcSpawn.npcId spawn)
        (fun n => GameNpc.with_spawnsOnMaps (push spawnInfo (GameNpc.spawnsOnMaps n)) n)
        npcs
  end.

Definition indexNpcSpawns (npcs : Npcs) (_maps : list (Z * GameMap.t))
    (npcSpawns : list MapNpcSpawn.t) : Npcs :=
  fold_left indexNpcSpawn npcSpawns npcs.

(** *** The vendor-id index

    [npcsByVendorId] holds the NPC objects of the table [npcs]; an entry is
    the key under which the object is stored in [npcs]. *)

Definition addVendor (npcsByVendorId : list (Z * Z)) (entry : Z * GameNpc.t)
    : list (Z * Z) :=
  let '(key, npc) := entry in
  if negb (GameNpc.behaviorId npc =? 0) && (0 <? GameNpc.behaviorId npc)
  then JsMap.set (GameNpc.behaviorId npc) key npcsByVendorId
  else npcsByVendorId.

Definition buildVendorIndex (npcs : Npcs) : list (Z * Z) :=
  fold_left addVendor npcs JsMap.empty.

(** [npcsByVendorId.get(id)]: the NPC object, with the key it has in [npcs]. *)
Definition vendorLookup (npcsByVendorId : list (Z * Z)) (npcs : Npcs) (id : Z)
    : option (Z * GameNpc.t) :=
  key ← JsMap.get id npcsByVendorId;
  npc ← JsMap.get key npcs;
  Some (key, npc).

(** *** Quests *)

Definition addInvolvement (key : Z) (involvement : QuestInvolvement.t) (npcs : Npcs)
    : Npcs :=
  JsMap.modify key
    (fun n => GameNpc.with_questInvolvement
                (push involvement (GameNpc.questInvolvement n)) n)
    npcs.

Definition indexQuestNpc (npcsByVendorId : list (Z * Z)) (quest : GameQuest.t)
    (npcs : Npcs) (npcData : QuestNpc.t) : Npcs * QuestNpc.t :=
  match vendorLookup npcsByVendorId npcs (QuestNpc.npcId npcData) with
  | None => (npcs, npcData)
  | Some (key, npc) =>
      let npcData :=
        QuestNpc.resolved (GameNpc.name npc) (GameNpc.id npc)
          (GameNpc.graphicId npc) npcData in
      let involvement :=
        QuestInvolvement.mk (GameQuest.id quest) (GameQuest.name quest) dialogue in
      (addInvolvement key involvement npcs, npcData)
  end.

Definition indexQuestReward (quest : GameQuest.t) (items : Items)
    (reward : QuestRewardItem.t) : Items * QuestRewardItem.t :=
  match JsMap.get (QuestRewardItem.itemId reward) items with
  | None => (items, reward)
  | Some item =>
      let reward := QuestRewardItem.with_itemName (GameItem.name item) reward in
      let questReward :=
        QuestReward.mk (GameQuest.id quest) (GameQuest.name quest)
          (QuestRewardItem.amount reward) in
      (JsMap.modify (QuestRewardItem.itemId reward)
         (fun i => GameItem.with_questRewards
                     (push questReward (GameItem.questRewards i)) i)
         items,
       reward)
  end.

Definition indexQuestKill (quest : GameQuest.t) (npcs : Npcs)
    (killReq : QuestKill.t) : Npcs * QuestKill.t :=
  match JsMap.get (QuestKill.npcId killReq) npcs with
  | Some npc =>
      let killReq' :=
        QuestKill.resolved (GameNpc.name npc) (GameNpc.id npc)
          (GameNpc.graphicId npc) killReq in
      let involvement :=
        QuestInvolvement.mk (GameQuest.id quest) (GameQuest.name quest) kill in
      (addInvolvement (QuestKill.npcId killReq) involvement npcs, killReq')
  | None => (npcs, killReq)
  end.

Definition indexQuestItemReq (quest : GameQuest.t) (items : Items)
    (itemReq : QuestItemReq.t) : Items * QuestItemReq.t :=
  match JsMap.get (QuestItemReq.itemId itemReq) items with
  | None => (items, itemReq)
  | Some item =>
      let itemReq := QuestItemReq.with_itemName (GameItem.name item) itemReq in
      let questReq :=
        QuestRequirement.mk (GameQuest.id quest) (GameQuest.name quest)
          (QuestItemReq.count itemReq) in
      (JsMap.modify (QuestItemReq.itemId itemReq)
         (fun i => GameItem.with_questRequirements
                     (push questReq (GameItem.questRequirements i)) i)
         items,
       itemReq)
  end.

(** The body of the loop of [indexQuests] over the quests. *)
Definition indexQuest (npcsByVendorId : list (Z * Z)) (st : Npcs * Items)
    (entry : Z * GameQuest.t) : (Npcs * Items) * (Z * GameQuest.t) :=
  let '(npcs, items) := st in
  let '(key, quest) := entry in
  let '(npcs, involvedNpcs) :=
    forEachUpdate (indexQuestNpc npcsByVendorId quest) npcs
      (GameQuest.involvedNpcs quest) in
  let '(items, rewardItems) :=
    forEachUpdate (indexQuestReward quest) items (GameQuest.rewardItems quest) in
  let '(npcs, killRequirements) :=
    forEachUpdate (indexQuestKill quest) npcs (GameQuest.killRequirements quest) in
  let '(items, itemRequirements) :=
    forEachUpdate (indexQuestItemReq quest) items (GameQuest.itemRequirements quest) in
  ((npcs, items),
   (key, GameQuest.mk (GameQuest.id quest) (GameQuest.name quest) involvedNpcs
           rewardItems (GameQuest.rewardExp quest) killRequirements
           itemRequirements)).

Definition indexQuests (npcs : Npcs) (items : Items)
    (quests : list (Z * GameQuest.t)) (npcsByVendorId : list (Z * Z))
    : (Npcs * Items) * list (Z * GameQuest.t) :=
  forEachUpdate (indexQuest npcsByVendorId) (npcs, items) quests.

(** *** The name indices *)

(** The loop that builds a name index from the values of a table. *)
Definition buildNameIndex {A} (name : A -> string) (values : list A)
    : list (string * A) :=
  fold_left
    (fun index x =>
       if Js.truthy (name x) then JsMap.set (Js.toLowerCase (name x)) x index
       else index)
    values JsMap.empty.

Definition itemsByName (items : Items) : list (string * GameItem.t) :=
  buildNameIndex GameItem.name (JsMap.values items).

Definition npcsByName (npcs : Npcs) : list (string * GameNpc.t) :=
  buildNameIndex GameNpc.name (JsMap.values npcs).

Definition spellsByName (spells : Spells) : list (string * GameSpell.t) :=
  buildNameIndex GameSpell.name (JsMap.values spells).

(** *** The build *)

(** A completion order for each [Promise.all] of the build. *)
Module Schedules.
Record t := mk {
  baseData : Promise.Schedule;
  relationshipData : Promise.Schedule;
  mapFiles : Promise.Schedule;
  questFiles : Promise.Schedule }.
End Schedules.

Definition loadGameDatabase (lib : Eolib.t) (scheds : Schedules.t) (origin : Origin)
    : result GameDatabase.t :=
  bind (Promise.all4 (Schedules.baseData scheds)
          (loadItems lib origin) (loadNpcs lib origin)
          (loadSpells lib origin) (loadClasses lib origin))
    (fun '(items, npcs, spells, classes) =>
  bind (Promise.all8 (Schedules.relationshipData scheds)
          (loadDrops origin) (loadShops origin) (loadPets origin)
          (loadSpecialDrops origin) (loadSpecialMobs origin)
          (loadNpcSpellcasts origin)
          (loadMaps lib (Schedules.mapFiles scheds) origin)
          (loadQuests (Schedules.questFiles scheds) origin))
    (fun '(drops, shops, pets, specialDrops, specialMobs, npcSpellcasts,
           mapData, quests) =>
  let maps := MapData.maps mapData in
  let npcSpawns := MapData.npcSpawns mapData in
  let '(items, npcs) := indexDrops items npcs drops in
  let '(items, npcs) := indexShops items npcs shops in
  let npcs := indexPets items npcs pets in
  let items := indexSpecialDrops items specialDrops in
  let npcs := indexSpecialMobs npcs specialMobs in
  let npcs := indexNpcSpellcasts npcs spells npcSpellcasts in
  let npcs := indexNpcSpawns npcs maps npcSpawns in
  let npcsByVendorId := buildVendorIndex npcs in
  let '((npcs, items), quests) := indexQuests npcs items quests npcsByVendorId in
  Ok (GameDatabase.mk items npcs spells classes maps quests
        (itemsByName items) (npcsByName npcs) (spellsByName spells)))).

(** ** The search hooks of [useGameData.tsx]

    A hook is the function its [useMemo] computes from the database of the
    context ([None] while it is not loaded) and the arguments of the hook.
    [Array.prototype.sort] and [String.prototype.localeCompare] belong to
    the engine and are parameters. *)

(** [hay.includes(needle)] *)
Fixpoint includes (needle hay : string) : bool :=
  Js.startsWith needle hay ||
  match hay with
  | String _ rest => includes needle rest
  | EmptyString => false
  end.

Section Search.
Variable sort : forall A : Type, (A -> A -> Z) -> list A -> list A.
Variable localeCompare : string -> string -> Z.

(** The comparator of the three search hooks: an exact match first, then by
    name. *)
Definition relevance {A} (name : A -> string) (lowerQuery : string) (a b : A) : Z :=
  let aExact := String.eqb (Js.toLowerCase (name a)) lowerQuery in
  let bExact := String.eqb (Js.toLowerCase (name b)) lowerQuery in
  if aExact && negb bExact then -1
  else if negb aExact && bExact then 1
  else localeCompare (name a) (name b).

(** The body the hooks [useItemSearch], [useNpcSearch] and [useSpellSearch]
    share, over the values of their table. *)
Definition nameSearch {A} (name : A -> string) (values : list A) (query : string)
    : list A :=
  if negb (Js.truthy (Js.trim query)) then []
  else
    let lowerQuery := Js.toLowerCase query in
    let results :=
      filter (fun x => includes lowerQuery (Js.toLowerCase (name x)) = true) values in
    take 50 (sort A (relevance name lowerQuery) results).

Definition useItemSearch (database : option GameDatabase.t) (query : string)
    : list GameItem.t :=
  match database with
  | None => []
  | Some db => nameSearch GameItem.name (JsMap.values (GameDatabase.items db)) query
  end.

Definition useNpcSearch (database : option GameDatabase.t) (query : string)
    : list GameNpc.t :=
  match database with
  | None => []
  | Some db => nameSearch GameNpc.name (JsMap.values (GameDatabase.npcs db)) query
  end.

Definition useSpellSearch (database : option GameDatabase.t) (query : string)
    : list GameSpell.t :=
  match database with
  | None => []
  | Some db => nameSearch GameSpell.name (JsMap.values (GameDatabase.spells db)) query
  end.

End Search.

(** [database?.items.get(id)] and its siblings *)
Definition useItem (database : option GameDatabase.t) (id : Z) : option GameItem.t :=
  db ← database; JsMap.get id (GameDatabase.items db).

Definition useNpc (database : option GameDatabase.t) (id : Z) : option GameNpc.t :=
  db ← database; JsMap.get id (GameDatabase.npcs db).

(** ** [Pagination.tsx] *)

Inductive PageItem :=
  | Page (n : Z)
  | Ellipsis.

Definition getPageNumbers (currentPage totalPages : Z) : list PageItem :=
  let maxVisible := 7 in
  if totalPages <=? maxVisible then Page <$> idRange 1 totalPages
  else
    [Page 1] ++
    (if 3 <? currentPage then [Ellipsis] else []) ++
    (Page <$> idRange (Z.max 2 (currentPage - 1))
                      (Z.min (totalPages - 1) (currentPage + 1))) ++
    (if currentPage <? totalPages - 2 then [Ellipsis] else []) ++
    [Page totalPages].

(** [startItem] and [endItem] of the component. *)
Definition startItem (currentPage itemsPerPage : Z) : Z :=
  (currentPage - 1) * itemsPerPage + 1.

Definition endItem (currentPage itemsPerPage totalItems : Z) : Z :=
  Z.min (currentPage * itemsPerPage) totalItems.

(** ** The image paths *)

(** The class of the characters that [sanitizeName] removes: slash,
    backslash, colon, star, question mark, double quote, angle brackets and
    bar. *)
Definition BACKSLASH : ascii := "092"%char.

Definition pathUnsafe (c : ascii) : bool :=
  Regex.oneOf ["/"%char; BACKSLASH; ":"%char; "*"%char; "?"%char; QUOTE;
               "<"%char; ">"%char; "|"%char] c.

Fixpoint removeChars (p : ascii -> bool) (s : string) : string :=
  match s with
  | String c s' => if p c then removeChars p s' else String c (removeChars p s')
  | EmptyString => EmptyString
  end.

Definition sanitizeName (name : string) : string :=
  if negb (Js.truthy name) then "Unknown"
  else Js.substring 0 50 (removeChars pathUnsafe name).

(** The characters [encodeURIComponent] leaves alone. *)
Definition unreserved (c : ascii) : bool :=
  let n := Js.code c in
  ((65 <=? n) && (n <=? 90) || (97 <=? n) && (n <=? 122) || Js.isDigit c ||
   Regex.oneOf ["-"; "_"; "."; "!"; "~"; "*"; "'"; "("; ")"]%char c)%nat.

Definition hexDigit (n : nat) : ascii :=
  nth n (list_ascii_of_string "0123456789ABCDEF") "0"%char.

Definition percent (byte : nat) : string :=
  String "%" (String (hexDigit (byte / 16)) (String (hexDigit (byte mod 16)) EmptyString)).

(** One code unit below 256: itself, or the percent escapes of its UTF-8
    encoding. *)
Definition encodeChar (c : ascii) : string :=
  let n := Js.code c in
  if unreserved c then String c EmptyString
  else if (n <? 128)%nat then percent n
  else percent (192 + n / 64) +:+ percent (128 + n mod 64).

Fixpoint encodeURIComponent (s : string) : string :=
  match s with
  | String c s' => encodeChar c +:+ encodeURIComponent s'
  | EmptyString => EmptyString
  end.

Definition encodePath (path : string) : string :=
  String.concat "/" (encodeURIComponent <$> Js.split "/" path).

Definition paddedId (id : Z) : string := Js.padStart 4 "0" (Js.toString id).

Definition getItemImageUrl (itemId : Z) (itemName : string) : string :=
  encodePath ("/gfx/Items/item_" +:+ paddedId itemId +:+ "_" +:+ sanitizeName itemName
              +:+ "/inventory/inventory_icon.bmp").

Definition getItemGroundUrl (itemId : Z) (itemName : string) : string :=
  encodePath ("/gfx/Items/item_" +:+ paddedId itemId +:+ "_" +:+ sanitizeName itemName
              +:+ "/ground/ground.bmp").

Definition getSpellIconUrl (spellId : Z) (spellName : string) : string :=
  encodePath ("/gfx/Spells/spell_" +:+ paddedId spellId +:+ "_" +:+ sanitizeName spellName
              +:+ "/icons/spell_icon.bmp").

(** ** The paging of the list pages *)

(** A relative index of [Array.prototype.slice] on an array of [len]
    elements. *)
Definition sliceIndex (len k : Z) : Z :=
  if k <? 0 then Z.max (len + k) 0 else Z.min k len.

(** [l.slice(a, b)] *)
Definition slice {A} (a b : Z) (l : list A) : list A :=
  let len := Z.of_nat (length l) in
  let from := sliceIndex len a in
  let to := sliceIndex len b in
  take (Z.to_nat (to - from)) (drop (Z.to_nat from) l).

(** [Math.ceil(length / itemsPerPage)] for a length and a positive page
    size. *)
Definition pageCount (len itemsPerPage : Z) : Z := - ((- len) / itemsPerPage).

(** [paginatedItems]: the part of the filtered list the page shows. *)
Definition paginatedItems {A} (filtered : list A) (currentPage itemsPerPage : Z)
    : list A :=
  let start := (currentPage - 1) * itemsPerPage in
  slice start (start + itemsPerPage) filtered.

(** ** The filtered search of [useGameData.tsx] *)

Inductive SortBy := byName | byId | byLevel.

(** The sets of selected types are lists of the selected values. *)
Module SearchFilters.
Record t := mk {
  itemTypes : list Z;
  npcTypes : list Z;
  sortBy : SortBy }.
End SearchFilters.

Module SearchResults.
Record t := mk {
  items : list GameItem.t;
  npcs : list GameNpc.t;
  spells : list GameSpell.t;
  quests : list GameQuest.t }.
End SearchResults.

(** [set.size > 0] and [set.has(x)] *)
Definition nonEmpty (set : list Z) : bool :=
  match set with [] => false | _ => true end.

Definition has (x : Z) (set : list Z) : bool := bool_decide (x ∈ set).

Section FilteredSearch.
Variable sort : forall A : Type, (A -> A -> Z) -> list A -> list A.
Variable localeCompare : string -> string -> Z.

(** The two tests of the loops, each the negation of the condition of a
    [continue]: the query, when there is one, and the type filter, when one
    is active. *)
Definition queryOk (hasQuery : bool) (lowerQuery name : string) : bool :=
  negb (hasQuery && negb (includes lowerQuery (Js.toLowerCase name))).

Definition typeOk (hasFilters : bool) (types : list Z) (type : Z) : bool :=
  negb (hasFilters && negb (has type types)).

Definition sortFn (sortBy : SortBy) (a b : GameItem.t) : Z :=
  match sortBy with
  | byId => GameItem.id a - GameItem.id b
  | byLevel =>
      ItemStats.levelRequirement (GameItem.stats a) -
      ItemStats.levelRequirement (GameItem.stats b)
  | byName => localeCompare (GameItem.name a) (GameItem.name b)
  end.

(** [(a, b) => filters.sortBy === 'id' ? a.id - b.id : a.name.localeCompare(b.name)] *)
Definition idOrName {A} (id : A -> Z) (name : A -> string) (sortBy : SortBy)
    (a b : A) : Z :=
  match sortBy with
  | byId => id a - id b
  | _ => localeCompare (name a) (name b)
  end.

Definition useFilteredGlobalSearch (database : option GameDatabase.t)
    (query : string) (filters : SearchFilters.t) : SearchResults.t :=
  match database with
  | None => SearchResults.mk [] [] [] []
  | Some database =>
      let lowerQuery := Js.trim (Js.toLowerCase query) in
      let hasQuery := (0 <? String.length lowerQuery)%nat in
      let hasItemFilters := nonEmpty (SearchFilters.itemTypes filters) in
      let hasNpcFilters := nonEmpty (SearchFilters.npcTypes filters) in
      let items :=
        if negb hasNpcFilters || hasItemFilters then
          filter (fun item =>
                    queryOk hasQuery lowerQuery (GameItem.name item) &&
                    typeOk hasItemFilters (SearchFilters.itemTypes filters)
                      (ItemStats.type (GameItem.stats item)) = true)
                 (JsMap.values (GameDatabase.items database))
        else [] in
      let npcs :=
        if negb hasItemFilters || hasNpcFilters then
          filter (fun npc =>
                    queryOk hasQuery lowerQuery (GameNpc.name npc) &&
                    typeOk hasNpcFilters (SearchFilters.npcTypes filters)
                      (NpcStats.type (GameNpc.stats npc)) = true)
                 (JsMap.values (GameDatabase.npcs database))
        else [] in
      let spells :=
        if negb hasItemFilters && negb hasNpcFilters then
          filter (fun spell =>
                    queryOk hasQuery lowerQuery (GameSpell.name spell) = true)
                 (JsMap.values (GameDatabase.spells database))
        else [] in
      let quests :=
        if negb hasItemFilters && negb hasNpcFilters then
          filter (fun quest =>
                    queryOk hasQuery lowerQuery (GameQuest.name quest) = true)
                 (JsMap.values (GameDatabase.quests database))
        else [] in
      let sortBy := SearchFilters.sortBy filters in
      let items := sort _ (sortFn sortBy) items in
      let npcs := sort _ (idOrName GameNpc.id GameNpc.name sortBy) npcs in
      let spells := sort _ (idOrName GameSpell.id GameSpell.name sortBy) spells in
      let quests := sort _ (idOrName GameQuest.id GameQuest.name sortBy) quests in
      let maxResults := if hasQuery then 50%nat else 100%nat in
      SearchResults.mk (take maxResults items) (take maxResults npcs)
        (take maxResults spells) (take maxResults quests)
  end.

End FilteredSearch.

(** ** Vocabulary of the properties *)

(** *** Lines of comma-separated values *)



Definition exampleDropsValue : string := "10,1,2,5.5,20,3,4,1.0".
Definition exampleDropsValue13 : string := "10,1,2,5.5,20,3,4,1.0,30,1,1,2.0,40".


(** *** Tables fresh from the loaders, and tables keyed by id *)

Definition freshItems (items : Items) : Prop :=
  forall k item, JsMap.get k items = Some item -> GameItem.dropsFrom item = None.

Definition freshNpcs (npcs : Npcs) : Prop :=
  forall k npc, JsMap.get k npcs = Some npc -> GameNpc.drops npc = None.

Definition keyedNpcs (npcs : Npcs) : Prop :=
  forall k npc, JsMap.get k npcs = Some npc -> GameNpc.id npc = k.

Definition keyedItems (items : Items) : Prop :=
  forall k item, JsMap.get k items = Some item -> GameItem.id item = k.

(** *** The two sides of the drop relationship *)

(** Every entry of an NPC's [drops] names a known item, carries its name,
    and is mirrored in the [dropsFrom] of that item. *)
Definition dropsMirrored (items : Items) (npcs : Npcs) : Prop :=
  forall npcId npc drop,
    JsMap.get npcId npcs = Some npc ->
    drop ∈ arr (GameNpc.drops npc) ->
    exists item,
      JsMap.get (ItemDrop.itemId drop) items = Some item /\
      ItemDrop.itemName drop = GameItem.name item /\
      NpcDrop.mk npcId (GameNpc.name npc) (ItemDrop.minAmount drop)
        (ItemDrop.maxAmount drop) (ItemDrop.dropRate drop)
        ∈ arr (GameItem.dropsFrom item).

(** Every entry of an item's [dropsFrom] names a known NPC, carries its
    name, and is mirrored in the [drops] of that NPC. *)
Definition dropsFromMirrored (items : Items) (npcs : Npcs) : Prop :=
  forall itemId item source,
    JsMap.get itemId items = Some item ->
    source ∈ arr (GameItem.dropsFrom item) ->
    exists npc,
      JsMap.get (NpcDrop.npcId source) npcs = Some npc /\
      NpcDrop.npcName source = GameNpc.name npc /\
      ItemDrop.mk itemId (GameItem.name item) (NpcDrop.minAmount source)
        (NpcDrop.maxAmount source) (NpcDrop.dropRate source)
        ∈ arr (GameNpc.drops npc).

(** The invariant of the loops of [indexDrops]: the two sides mirror each
    other, and every source recorded on an item is an NPC whose drop table
    the outer loop has reached ([reached] lists those NPC ids). *)
Definition dropsInvariant (reached : list Z) (st : Items * Npcs) : Prop :=
  dropsMirrored st.1 st.2 /\
  dropsFromMirrored st.1 st.2 /\
  forall itemId item source,
    JsMap.get itemId st.1 = Some item ->
    source ∈ arr (GameItem.dropsFrom item) ->
    NpcDrop.npcId source ∈ reached.

(** *** What a pass never changes of an entity *)

Definition itemCore (item : GameItem.t) : Z * string * Z :=
  (GameItem.id item, GameItem.name item, GameItem.graphicId item).

Definition npcCore (npc : GameNpc.t) : Z * string * Z * Z :=
  (GameNpc.id npc, GameNpc.name npc, GameNpc.graphicId npc, GameNpc.behaviorId npc).

(** The same keys, holding entities of the same identity. *)
Definition sameItems (items items' : Items) : Prop :=
  JsMap.keys items' = JsMap.keys items /\
  forall k, itemCore <$> JsMap.get k items' = itemCore <$> JsMap.get k items.

Definition sameNpcs (npcs npcs' : Npcs) : Prop :=
  JsMap.keys npcs' = JsMap.keys npcs /\
  forall k, npcCore <$> JsMap.get k npcs' = npcCore <$> JsMap.get k npcs.

(** *** Quest involvement only grows *)

(** Every NPC of [npcs] is in [npcs'] with the same identity and at least
    the same quest involvement. *)
Definition growsNpcs (npcs npcs' : Npcs) : Prop :=
  forall k npc,
    JsMap.get k npcs = Some npc ->
    exists npc',
      JsMap.get k npcs' = Some npc' /\
      npcCore npc' = npcCore npc /\
      forall e, e ∈ arr (GameNpc.questInvolvement npc) ->
                e ∈ arr (GameNpc.questInvolvement npc').

(** *** Example entities *)

Definition exampleItem (id : Z) (name : string) : GameItem.t :=
  GameItem.mk id name 0
    (ItemStats.mk 0 0 0 0 0 0 0 0 0 0 0 0 0 0 0 0 0 0 0 0 0 0 0 0 0 0 0)
    None None None None None None.

Definition exampleNpc (id : Z) (name : string) (behaviorId : Z) : GameNpc.t :=
  GameNpc.mk id name 0 behaviorId
    (NpcStats.mk false false 0 0 0 0 0 0 0 0)
    None None None None None None None None.

(** Two items named alike, in table order. *)
Definition twoPotions : Items :=
  [(3, exampleItem 3 "Potion"); (5, exampleItem 5 "Sword"); (7, exampleItem 7 "Potion")].

(** The state of [indexQuests] grows when its NPC table does. *)
Definition growsState (st st' : Npcs * Items) : Prop := growsNpcs st.1 st'.1.

(** A quest file with a dialogue directive for vendor id 500 and a kill
    requirement for NPC id 12, and a table in which the NPC with id 12 has
    the vendor id 500 while another NPC has the id 500. *)
Definition exampleQuestText : string :=
  "Main" +:+ String LF
  ("questname 'Rat Trouble'" +:+ String LF
  ("action AddNpcText(500, 'Please help');" +:+ String LF
  ("rule KilledNpcs(12, 5) goto Done" +:+ String LF EmptyString))).

Definition exampleQuests : list (Z * GameQuest.t) :=
  match parseQuestDSL 1 exampleQuestText with
  | Some quest => [(1, quest)]
  | None => []
  end.

Definition exampleQuestNpcs : Npcs :=
  [(12, exampleNpc 12 "Wise Man" 500); (500, exampleNpc 500 "Rat" 0)].

(** *** An example installation *)

Definition notFound : Response := HttpResponse false "Not Found" EmptyString.

Definition served (body : string) : Response := HttpResponse true "OK" body.

(** The origin [origin] with the file at [url] removed. *)
Definition withoutFile (url : string) (origin : Origin) : Origin :=
  fun u => if String.eqb u url then notFound else origin u.

Definition exampleEif : list EifRecord.t :=
  [ EifRecord.mk "Gold" 1 0 0 0 0 0 0 0 0 0 0 0 0 0 0 0 0 0 0 0 0 0 0 0 0 None None None;
    EifRecord.mk "Potion" 2 0 0 0 0 0 0 0 0 0 0 0 0 0 0 0 0 0 0 0 0 0 0 0 0 None None None ].

Definition exampleEnf : list EnfRecord.t :=
  [ EnfRecord.mk "Rat" 1 0 false false 0 10 1 2 0 0 0 5;
    EnfRecord.mk "Wise Man" 2 500 false false 0 0 0 0 0 0 0 0 ].

Definition exampleEsf : list EsfRecord.t :=
  [ EsfRecord.mk "Fire" "burn" 1 0 0 0 5 0 0 1 2 0 0 ].

Definition exampleEcf : list EcfRecord.t :=
  [ EcfRecord.mk "Peasant" 0 0 0 0 0 0 0 0 ].

(** Decoders that give the example tables whatever the bytes. *)
Definition exampleLib : Eolib.t :=
  Eolib.mk (fun _ => Ok exampleEif) (fun _ => Ok exampleEnf)
           (fun _ => Ok exampleEsf) (fun _ => Ok exampleEcf)
           (fun _ => Ok (Emf.mk "Aeven" [EmfNpc.mk 1 4 5 0 30 2])).

Definition exampleQuestText2 : string :=
  "questname 'Errand'" +:+ String LF
  ("action AddNpcText(500, 'Hello');" +:+ String LF
  ("rule KilledNpcs(1, 3) goto Done" +:+ String LF EmptyString)).

Definition exampleOrigin : Origin :=
  fun url =>
    if String.eqb url "/data/dat001.eif" then served "EIF"
    else if String.eqb url "/data/dtn001.enf" then served "ENF"
    else if String.eqb url "/data/dsl001.esf" then served "ESF"
    else if String.eqb url "/data/dat001.ecf" then served "ECF"
    else if String.eqb url "/data/drops.ini" then served "1 = 2,1,3,12.5"
    else if String.eqb url "/data/shops.ini" then served "2.name = Store"
    else if String.eqb url "/data/pets.ini" then served EmptyString
    else if String.eqb url "/data/specialdrops.ini" then served EmptyString
    else if String.eqb url "/data/specialmobs.ini" then served "1 = {1,2,0.5,1}"
    else if String.eqb url "/data/npcspellcast.ini" then served "1 = {1,0,10,5}"
    else if String.eqb url "/maps/00001.emf" then served "EMF-0123456789"
    else if String.eqb url "/quests/00001.eqf" then served exampleQuestText2
    else notFound.

Definition exampleSchedules : Schedules.t :=
  Schedules.mk (fun _ => 0%nat) (fun t => (3 * t + 2)%nat) (fun t => t) (fun _ => 7%nat).

Definition otherSchedules : Schedules.t :=
  Schedules.mk (fun t => t) (fun _ => 0%nat) (fun _ => 5%nat) (fun t => (2 * t)%nat).

(** A response that is no file: the fetch was rejected, or the status is
    not ok. *)
Definition unavailable (r : Response) : Prop :=
  match r with
  | HttpResponse true _ _ => False
  | _ => True
  end.

(** *** Example tables for the passes *)

Definition exampleDropItems : Items :=
  [(10, exampleItem 10 "Feather"); (20, exampleItem 20 "Gold")].

Definition exampleDropNpcs : Npcs :=
  [(1, exampleNpc 1 "Crow" 0); (2, exampleNpc 2 "Rat" 0)].

(** The drops of NPC 1 are the example line; NPC 2 drops item 20 and the
    unknown item 99; NPC 7 is unknown. *)
Definition exampleDropTable : list (Z * list ItemDrop.t) :=
  [(1, parseDropsValue exampleDropsValue);
   (2, parseDropsValue "20,1,1,50,99,1,1,50");
   (7, parseDropsValue "10,1,1,100")].

Definition exampleSpells : Spells :=
  [(1, GameSpell.mk 1 "Fire" "burn" 1 0 0 0 5 0 0 1 2 0 0 0 0 0 0 0 0 0 0)].

(** Two entries for NPC 1, parsed from one line. *)
Definition exampleSpellcasts : list (Z * list SpellcastInfo.t) :=
  parseNpcSpellcastsLine JsMap.empty "1 = {1,0,10,5} {2,1,20,2.5}".

Definition exampleQuest : GameQuest.t :=
  GameQuest.mk 1 "Rat Trouble"
    [QuestNpc.mk 500 None None None] [] 0
    [QuestKill.mk 12 5 None None None] [].

(** *** The input sources of a build: the URLs it fetches *)

Definition requestedUrls : list string :=
  [ "/data/dat001.eif"; "/data/dtn001.enf"; "/data/dsl001.esf"; "/data/dat001.ecf";
    "/data/drops.ini"; "/data/shops.ini"; "/data/pets.ini";
    "/data/specialdrops.ini"; "/data/specialmobs.ini"; "/data/npcspellcast.ini" ]
  ++ (mapUrl <$> mapIds) ++ (questUrl <$> questIds).

(** Two origins that serve the same sources. *)
Definition sameSources (origin origin' : Origin) : Prop :=
  forall url, url ∈ requestedUrls -> origin url = origin' url.

(** The example origin with one more file, which no build asks for. *)
Definition exampleOriginPlus : Origin :=
  fun url =>
    if String.eqb url "/quests/00151.eqf" then served exampleQuestText
    else exampleOrigin url.

(** *** Patterns that consume input *)

(** The least number of characters a match of the pattern consumes. *)
Fixpoint minLength (r : Regex.t) : nat :=
  match r with
  | Regex.Eps => 0
  | Regex.Chr _ => 1
  | Regex.Cat r1 r2 => minLength r1 + minLength r2
  | Regex.Star _ => 0
  | Regex.Group r' => minLength r'
  | Regex.Opt _ => 0
  end.

(** *** The two sides of the shop listings *)

Definition freshTrades (items : Items) (npcs : Npcs) : Prop :=
  (forall k item, JsMap.get k items = Some item -> GameItem.soldAt item = None) /\
  (forall k npc, JsMap.get k npcs = Some npc -> GameNpc.shopItems npc = None).

(** Every entry of an NPC's [shopItems] names a known item, carries its
    name, and is mirrored by a listing of that item at the shop with the
    NPC's key, with the NPC's id and name and the same prices. *)
Definition shopItemsMirrored (items : Items) (npcs : Npcs) : Prop :=
  forall k npc s,
    JsMap.get k npcs = Some npc ->
    s ∈ arr (GameNpc.shopItems npc) ->
    exists item shopName,
      JsMap.get (NpcShopItem.itemId s) items = Some item /\
      NpcShopItem.itemName s = GameItem.name item /\
      ShopInfo.mk k shopName (Some (GameNpc.id npc)) (Some (GameNpc.name npc))
        (NpcShopItem.buyPrice s) (NpcShopItem.sellPrice s)
        ∈ arr (GameItem.soldAt item).

(** Every listing of an item either is at a shop whose id is no NPC, and
    then has no NPC id and name, or carries the id and name of the NPC with
    the shop's id and is mirrored in the [shopItems] of that NPC. *)
Definition soldAtMirrored (items : Items) (npcs : Npcs) : Prop :=
  forall i item e,
    JsMap.get i items = Some item ->
    e ∈ arr (GameItem.soldAt item) ->
    match JsMap.get (ShopInfo.shopId e) npcs with
    | None => ShopInfo.npcId e = None /\ ShopInfo.npcName e = None
    | Some npc =>
        ShopInfo.npcId e = Some (GameNpc.id npc) /\
        ShopInfo.npcName e = Some (GameNpc.name npc) /\
        NpcShopItem.mk i (GameItem.name item) (ShopInfo.buyPrice e)
          (ShopInfo.sellPrice e) ∈ arr (GameNpc.shopItems npc)
    end.

Definition tradesInvariant (st : Items * Npcs) : Prop :=
  shopItemsMirrored st.1 st.2 /\ soldAtMirrored st.1 st.2.

(** What the trade listings read of an item and of an NPC. *)
Definition itemTradeView (item : GameItem.t) : string * option (list ShopInfo.t) :=
  (GameItem.name item, GameItem.soldAt item).

Definition npcTradeView (npc : GameNpc.t) : Z * string * option (list NpcShopItem.t) :=
  (GameNpc.id npc, GameNpc.name npc, GameNpc.shopItems npc).

Definition sameTradeView (st st' : Items * Npcs) : Prop :=
  (forall k, itemTradeView <$> JsMap.get k st'.1 = itemTradeView <$> JsMap.get k st.1) /\
  (forall k, npcTradeView <$> JsMap.get k st'.2 = npcTradeView <$> JsMap.get k st.2).

(** *** The two sides of the craft recipes *)

Definition freshCrafts (items : Items) (npcs : Npcs) : Prop :=
  (forall k item, JsMap.get k items = Some item -> GameItem.craftedAt item = None) /\
  (forall k npc, JsMap.get k npcs = Some npc -> GameNpc.craftItems npc = None).

Definition craftItemsMirrored (items : Items) (npcs : Npcs) : Prop :=
  forall k npc c,
    JsMap.get k npcs = Some npc ->
    c ∈ arr (GameNpc.craftItems npc) ->
    exists item shopName,
      JsMap.get (NpcCraftItem.resultItemId c) items = Some item /\
      NpcCraftItem.resultItemName c = GameItem.name item /\
      CraftInfo.mk k shopName (Some (GameNpc.id npc)) (Some (GameNpc.name npc))
        (NpcCraftItem.ingredients c) ∈ arr (GameItem.craftedAt item).

Definition craftedAtMirrored (items : Items) (npcs : Npcs) : Prop :=
  forall i item e,
    JsMap.get i items = Some item ->
    e ∈ arr (GameItem.craftedAt item) ->
    match JsMap.get (CraftInfo.shopId e) npcs with
    | None => CraftInfo.npcId e = None /\ CraftInfo.npcName e = None
    | Some npc =>
        CraftInfo.npcId e = Some (GameNpc.id npc) /\
        CraftInfo.npcName e = Some (GameNpc.name npc) /\
        NpcCraftItem.mk i (GameItem.name item) (CraftInfo.ingredients e)
          ∈ arr (GameNpc.craftItems npc)
    end.

(** Every ingredient of a recipe that is a known item carries its name. *)
Definition ingredientsNamed (items : Items) : Prop :=
  forall i item e ingredient ingredientItem,
    JsMap.get i items = Some item ->
    e ∈ arr (GameItem.craftedAt item) ->
    ingredient ∈ CraftInfo.ingredients e ->
    JsMap.get (CraftIngredient.itemId ingredient) items = Some ingredientItem ->
    CraftIngredient.itemName ingredient = GameItem.name ingredientItem.

Definition craftsInvariant (st : Items * Npcs) : Prop :=
  craftItemsMirrored st.1 st.2 /\ craftedAtMirrored st.1 st.2 /\
  ingredientsNamed st.1.

Definition itemCraftView (item : GameItem.t) : string * option (list CraftInfo.t) :=
  (GameItem.name item, GameItem.craftedAt item).

Definition npcCraftView (npc : GameNpc.t) : Z * string * option (list NpcCraftItem.t) :=
  (GameNpc.id npc, GameNpc.name npc, GameNpc.craftItems npc).

Definition sameCraftView (st st' : Items * Npcs) : Prop :=
  (forall k, itemCraftView <$> JsMap.get k st'.1 = itemCraftView <$> JsMap.get k st.1) /\
  (forall k, npcCraftView <$> JsMap.get k st'.2 = npcCraftView <$> JsMap.get k st.2).

(** *** What a pass leaves alone *)

(** The tables [m] and [m'] show the same under [view], key by key. *)
Definition sameView {V B} (view : V -> B) (m m' : list (Z * V)) : Prop :=
  forall k, view <$> JsMap.get k m' = view <$> JsMap.get k m.

(** *** The indexing phase of [loadGameDatabase]

    The part of [loadGameDatabase] after the two [Promise.all]: the eight
    passes in their order, and the database object that is returned. *)
Definition indexPhase (items : Items) (npcs : Npcs) (spells : Spells)
    (classes : list (Z * GameClass.t))
    (drops : list (Z * list ItemDrop.t)) (shops : list (Z * ShopData.t))
    (pets : list (Z * PetInfo.t)) (specialDrops : list (Z * SpecialDropInfo.t))
    (specialMobs : list SpecialSpawnInfo.t)
    (npcSpellcasts : list (Z * list SpellcastInfo.t))
    (mapData : MapData.t) (quests : list (Z * GameQuest.t)) : GameDatabase.t :=
  let maps := MapData.maps mapData in
  let npcSpawns := MapData.npcSpawns mapData in
  let '(items, npcs) := indexDrops items npcs drops in
  let '(items, npcs) := indexShops items npcs shops in
  let npcs := indexPets items npcs pets in
  let items := indexSpecialDrops items specialDrops in
  let npcs := indexSpecialMobs npcs specialMobs in
  let npcs := indexNpcSpellcasts npcs spells npcSpellcasts in
  let npcs := indexNpcSpawns npcs maps npcSpawns in
  let npcsByVendorId := buildVendorIndex npcs in
  let '((npcs, items), quests) := indexQuests npcs items quests npcsByVendorId in
  GameDatabase.mk items npcs spells classes maps quests
    (itemsByName items) (npcsByName npcs) (spellsByName spells).

(** *** Tables as the loaders give them *)

(** An item as [loadItems] creates it: stored under its id, with a name
    that is not blank, and none of the relationship fields. *)
Definition pristineItems (items : Items) : Prop :=
  forall k item,
    JsMap.get k items = Some item ->
    GameItem.id item = k /\ hasName (GameItem.name item) = true /\
    GameItem.dropsFrom item = None /\ GameItem.soldAt item = None /\
    GameItem.craftedAt item = None /\ GameItem.isSpecialDrop item = None /\
    GameItem.questRewards item = None /\ GameItem.questRequirements item = None.

Definition pristineNpcs (npcs : Npcs) : Prop :=
  forall k npc,
    JsMap.get k npcs = Some npc ->
    GameNpc.id npc = k /\ hasName (GameNpc.name npc) = true /\
    GameNpc.drops npc = None /\ GameNpc.spawnsOnMaps npc = None /\
    GameNpc.petVersion npc = None /\ GameNpc.isSpecialSpawn npc = None /\
    GameNpc.spellcasting npc = None /\ GameNpc.questInvolvement npc = None /\
    GameNpc.shopItems npc = None /\ GameNpc.craftItems npc = None.

(** *** An origin with stocked shops, a pet and a special drop *)

Definition stockedShops : string :=
  "2.name = Store" +:+ String LF
  ("2.trade = 2,10,5" +:+ String LF
  ("2.craft = 2,1,3,0,0,0,0,0,0" +:+ String LF
  ("9.trade = 1,1,1" +:+ String LF EmptyString))).

Definition stockedOrigin : Origin :=
  fun url =>
    if String.eqb url "/data/shops.ini" then served stockedShops
    else if String.eqb url "/data/pets.ini"
         then served "2 = {1,1,2,3,4,5,6,7,8,9,10,11}"
    else if String.eqb url "/data/specialdrops.ini" then served "2 = {3,1}"
    else exampleOrigin url.

(** *** What the pub files say of an entity *)

Definition itemRecord (item : GameItem.t) : Z * string * Z * ItemStats.t :=
  (GameItem.id item, GameItem.name item, GameItem.graphicId item,
   GameItem.stats item).

Definition npcRecord (npc : GameNpc.t) : Z * string * Z * Z * NpcStats.t :=
  (GameNpc.id npc, GameNpc.name npc, GameNpc.graphicId npc,
   GameNpc.behaviorId npc, GameNpc.stats npc).

(** *** What the single-valued passes assign *)

(** The entry [indexNpcSpawns] pushes for a spawn. *)
Definition spawnInfoOf (spawn : MapNpcSpawn.t) : MapSpawnInfo.t :=
  MapSpawnInfo.mk (MapNpcSpawn.mapId spawn) (MapNpcSpawn.mapName spawn)
    (MapNpcSpawn.x spawn) (MapNpcSpawn.y spawn)
    (MapNpcSpawn.spawnType spawn) (MapNpcSpawn.spawnTime spawn)
    (MapNpcSpawn.amount spawn).

(** The spawns of the NPC [k], in the order of the list. *)
Definition spawnsOf (k : Z) (npcSpawns : list MapNpcSpawn.t) : list MapNpcSpawn.t :=
  filter (fun spawn => MapNpcSpawn.npcId spawn = k) npcSpawns.

(** The special spawns out of the NPC [k], in the order of the file. *)
Definition specialSpawnsOf (k : Z) (specialMobs : list SpecialSpawnInfo.t)
    : list SpecialSpawnInfo.t :=
  filter (fun spawn => SpecialSpawnInfo.spawnFromNpcId spawn = k) specialMobs.

(** The example origin with two special spawns out of the same NPC. *)
Definition twiceSpecialOrigin : Origin :=
  fun url =>
    if String.eqb url "/data/specialmobs.ini"
    then served ("a = {1,2,0.5,1}" +:+ String LF ("b = {1,2,0.75,7}" +:+ EmptyString))
    else exampleOrigin url.

(** *** Quest rewards and requirements only grow *)

(** Every item of [items] is in [items'] with the same identity and at
    least the same quest rewards and requirements. *)
Definition growsItems (items items' : Items) : Prop :=
  forall k item,
    JsMap.get k items = Some item ->
    exists item',
      JsMap.get k items' = Some item' /\
      itemCore item' = itemCore item /\
      (forall e, e ∈ arr (GameItem.questRewards item) ->
                 e ∈ arr (GameItem.questRewards item')) /\
      (forall e, e ∈ arr (GameItem.questRequirements item) ->
                 e ∈ arr (GameItem.questRequirements item')).

Definition growsItemState (st st' : Npcs * Items) : Prop := growsItems st.2 st'.2.

(** A quest with a reward and an item requirement. *)
Definition exampleItemQuest : GameQuest.t :=
  GameQuest.mk 4 "Delivery" []
    [QuestRewardItem.mk 3 2 None; QuestRewardItem.mk 99 1 None] 0 []
    [QuestItemReq.mk 5 1 None].

(** *** Files the build cannot do without *)

(** The origin serves a file at [url] that [decode] accepts. *)
Definition decodes {A} (decode : string -> result A) (origin : Origin)
    (url : string) : Prop :=
  exists statusText body a,
    origin url = HttpResponse true statusText body /\ decode body = Ok a.

(** The origin serves a file at [url]. *)
Definition serves (origin : Origin) (url : string) : Prop :=
  exists statusText body, origin url = HttpResponse true statusText body.

(** *** The entity a pub file holds for an id

    The records of a pub file are numbered from 1 in file order; a record
    whose name is blank gives no entity. *)
Definition recordAt {A V} (make : A -> nat -> V) (named : A -> bool)
    (records : list A) (k : Z) : option V :=
  if decide (1 <= k) then
    match records !! Z.to_nat (k - 1) with
    | Some record =>
        if named record then Some (make record (Z.to_nat (k - 1))) else None
    | None => None
    end
  else None.

Definition exampleRecord (name : string) : EifRecord.t :=
  EifRecord.mk name 1 0 0 0 0 0 0 0 0 0 0 0 0 0 0 0 0 0 0 0 0 0 0 0 0 None None None.

(** A decoder whose item file has a blank record between two named ones. *)
Definition gappedLib : Eolib.t :=
  Eolib.mk (fun _ => Ok [exampleRecord "Gold"; exampleRecord "  "; exampleRecord "Potion"])
           (fun _ => Ok exampleEnf) (fun _ => Ok exampleEsf) (fun _ => Ok exampleEcf)
           (fun _ => Ok (Emf.mk "Aeven" [])).

(** *** What a scan finds under an id *)

(** The decoded map file of an id: the file is served, has at least ten
    bytes, and the decoder accepts it. *)
Definition decodedMap (lib : Eolib.t) (origin : Origin) (id : Z) : option Emf.t :=
  match loadMapFile origin id with
  | Some data =>
      if (String.length data <? 10)%nat then None
      else match Eolib.Emf_deserialize lib data with
           | Ok emf => Some emf
           | Error _ => None
           end
  | None => None
  end.

(** [emf.name || `Map ${id}`] *)
Definition mapNameOf (id : Z) (emf : Emf.t) : string :=
  if Js.truthy (Emf.name emf) then Emf.name emf else "Map " +:+ Js.toString id.

(** The parsed quest file of an id: the file is served, is not empty, and
    holds a quest. *)
Definition parsedQuest (origin : Origin) (id : Z) : option GameQuest.t :=
  match loadQuestFile origin id with
  | Some content =>
      if Js.truthy content then parseQuestDSL id content else None
  | None => None
  end.

(** A quest file that names the same dialogue NPC three times. *)
Definition exampleRepeatedQuestText : string :=
  "AddNpcText(500, 'Hello');" +:+ String LF
  ("AddNpcChat(3, 'Hi');" +:+ String LF
  ("AddNpcInput(500, 1, 'Yes');" +:+ String LF
  ("TalkedToNpc(500)" +:+ String LF EmptyString))).

(** *** The quest parser *)

(** The state of the parser loop: the dialogue NPCs are stored under their
    own positive id, once each, and nothing is resolved. *)
Definition questParseInvariant (st : QuestParse.t) : Prop :=
  JsMap.wf (QuestParse.involvedNpcs st) /\
  Forall (fun entry : Z * QuestNpc.t =>
            0 < entry.1 /\ entry.2 = QuestNpc.mk entry.1 None None None)
         (QuestParse.involvedNpcs st) /\
  Forall (fun r => QuestRewardItem.itemName r = None) (QuestParse.rewardItems st) /\
  Forall (fun r => r = QuestKill.mk (QuestKill.npcId r) (QuestKill.count r)
                        None None None)
         (QuestParse.killRequirements st) /\
  Forall (fun r => QuestItemReq.itemName r = None) (QuestParse.itemRequirements st).

(** *** Loaded shops *)

(** A recipe as the shops loader keeps it: one to four ingredients, each
    with a positive item id and a positive amount, none named yet. *)
Definition wellFormedCraft (craft : Craft.t) : Prop :=
  (1 <= length (Craft.ingredients craft) <= 4)%nat /\
  Forall (fun ingredient =>
            0 < CraftIngredient.itemId ingredient /\
            0 < CraftIngredient.amount ingredient /\
            CraftIngredient.itemName ingredient = EmptyString)
         (Craft.ingredients craft).

Definition wellFormedShop (entry : Z * ShopData.t) : Prop :=
  ShopData.id entry.2 = entry.1 /\ Forall wellFormedCraft (ShopData.crafts entry.2).

(** *** Loaded drop tables *)

(** The drop table a line of drops.ini gives, if any: the line is a key and
    a value, the key is an NPC id and no section header, and the value holds
    at least one drop. *)
Definition dropsOfLine (line : string) : option (Z * list ItemDrop.t) :=
  match parseIniLine line with
  | Some (key, value) =>
      if Js.startsWith "[" key then None
      else
        match Js.parseInt key with
        | Some npcId =>
            if (0 <? length (parseDropsValue value))%nat
            then Some (npcId, parseDropsValue value)
            else None
        | None => None
        end
  | None => None
  end.

(** A drops file with two lines for NPC 1. *)
Definition twiceDropsOrigin : Origin :=
  fun url =>
    if String.eqb url "/data/drops.ini"
    then served ("1 = 2,1,3,12.5" +:+ String LF ("1 = 1,5,5,100" +:+ EmptyString))
    else exampleOrigin url.

(** *** What the shops pass gives an item *)

(** The listing of a trade of the shop [entry], and the recipe of a craft of
    that shop, as the item receives them: with the id and the name of the NPC
    stored under the shop's id, when there is one. *)
Definition listingOf (npcs : Npcs) (entry : Z * ShopData.t) (trade : Trade.t)
    : ShopInfo.t :=
  ShopInfo.mk entry.1 (ShopData.name entry.2)
    (GameNpc.id <$> JsMap.get entry.1 npcs) (GameNpc.name <$> JsMap.get entry.1 npcs)
    (Trade.buyPrice trade) (Trade.sellPrice trade).

Definition recipeOf (items : Items) (npcs : Npcs) (entry : Z * ShopData.t)
    (craft : Craft.t) : CraftInfo.t :=
  CraftInfo.mk entry.1 (ShopData.name entry.2)
    (GameNpc.id <$> JsMap.get entry.1 npcs) (GameNpc.name <$> JsMap.get entry.1 npcs)
    (nameIngredient items <$> Craft.ingredients craft).

(** The state of the shops pass shows the names of the items and the
    identities of the NPCs it started with. *)
Definition shopsFrame (items0 : Items) (npcs0 : Npcs) (st : Items * Npcs) : Prop :=
  sameView GameItem.name items0 st.1 /\
  sameView (fun npc => (GameNpc.id npc, GameNpc.name npc)) npcs0 st.2.

(** *** What the drops pass gives an NPC *)

(** A drop of a table as the NPC receives it: with the name of its item,
    when the item is known. *)
Definition resolvedDrop (items : Items) (drop : ItemDrop.t) : option ItemDrop.t :=
  (fun item => ItemDrop.with_itemName (GameItem.name item) drop)
    <$> JsMap.get (ItemDrop.itemId drop) items.

(** A drops file that gives NPC 1 one known and one unknown item, and NPC 2
    only an unknown one. *)
Definition partlyKnownDropsOrigin : Origin :=
  fun url =>
    if String.eqb url "/data/drops.ini"
    then served ("1 = 99,1,1,50, 2,1,3,12.5" +:+ String LF
                 ("2 = 98,1,1,1" +:+ EmptyString))
    else exampleOrigin url.

(** *** An engine for the search hooks *)

(** Insertion into a list that is ordered by [cmp], and the insertion sort:
    one of the orders [Array.prototype.sort] may give. *)
Fixpoint insertBy {A} (cmp : A -> A -> Z) (x : A) (l : list A) : list A :=
  match l with
  | [] => [x]
  | y :: l' => if cmp x y <=? 0 then x :: l else y :: insertBy cmp x l'
  end.

Definition insertionSort (A : Type) (cmp : A -> A -> Z) (l : list A) : list A :=
  foldr (insertBy cmp) [] l.

(** The order of the code units, as a comparator. *)
Definition codeUnitCompare (a b : string) : Z :=
  match String.compare a b with
  | Lt => -1
  | Eq => 0
  | Gt => 1
  end.

(** A database of three items. *)
Definition goldItems : GameDatabase.t :=
  GameDatabase.mk
    [(1, exampleItem 1 "Marigold"); (2, exampleItem 2 "Gold");
     (3, exampleItem 3 "Golden Axe"); (4, exampleItem 4 "Potion")]
    [] [] [] [] [] [] [] [].

(** *** What a quest file says of a quest *)

(** A quest as the quest file gives it: its key, id, name and experience
    reward, and the ids and numbers of its references, without the names the
    indexer fills in. *)
Definition questShape (entry : Z * GameQuest.t)
    : Z * Z * string * Z * list Z * list (Z * Z) * list (Z * Z) * list (Z * Z) :=
  let quest := entry.2 in
  (entry.1, GameQuest.id quest, GameQuest.name quest, GameQuest.rewardExp quest,
   QuestNpc.npcId <$> GameQuest.involvedNpcs quest,
   (fun r => (QuestRewardItem.itemId r, QuestRewardItem.amount r))
     <$> GameQuest.rewardItems quest,
   (fun r => (QuestKill.npcId r, QuestKill.count r))
     <$> GameQuest.killRequirements quest,
   (fun r => (QuestItemReq.itemId r, QuestItemReq.count r))
     <$> GameQuest.itemRequirements quest).

(** * Properties *)

(** ** Tables *)

Section JsMapFacts.
Context {K V : Type} `{EqDecision K}.
Implicit Types (m : list (K * V)) (k : K) (v : V).

Lemma get_set_eq k v m : JsMap.get k (JsMap.set k v m) = Some v.
Proof.
  induction m as [|[k' v'] m IH]; simpl.
  - by rewrite decide_True.
  - destruct (decide (k = k')) as [->|Hne]; simpl.
    + by rewrite decide_True.
    + by rewrite decide_False.
Qed.

Lemma get_set_ne k k' v m :
  k <> k' -> JsMap.get k' (JsMap.set k v m) = JsMap.get k' m.
Proof.
  intros Hne. induction m as [|[k0 v0] m IH]; simpl.
  - by rewrite decide_False.
  - destruct (decide (k = k0)) as [->|Hne0]; simpl.
    + by rewrite !decide_False.
    + destruct (decide (k' = k0)); [reflexivity | exact IH].
Qed.

Lemma get_modify k k' (f : V -> V) m :
  JsMap.get k' (JsMap.modify k f m) =
  if decide (k = k') then f <$> JsMap.get k' m else JsMap.get k' m.
Proof.
  unfold JsMap.modify. destruct (decide (k = k')) as [->|Hne].
  - destruct (JsMap.get k' m) eqn:Hget; simpl.
    + apply get_set_eq.
    + exact Hget.
  - destruct (JsMap.get k m); [by apply get_set_ne | reflexivity].
Qed.

Lemma get_modify_eq k (f : V -> V) m :
  JsMap.get k (JsMap.modify k f m) = f <$> JsMap.get k m.
Proof. by rewrite get_modify, decide_True. Qed.

Lemma get_modify_ne k k' (f : V -> V) m :
  k <> k' -> JsMap.get k' (JsMap.modify k f m) = JsMap.get k' m.
Proof. intros. by rewrite get_modify, decide_False. Qed.

(** What is stored under a key after a mutation: the mutated object under
    the mutated key, the same object under any other key. *)
Lemma get_modify_Some k k' (f : V -> V) m v :
  JsMap.get k' (JsMap.modify k f m) = Some v ->
  (k = k' /\ exists old, JsMap.get k m = Some old /\ v = f old) \/
  (k <> k' /\ JsMap.get k' m = Some v).
Proof.
  rewrite get_modify. destruct (decide (k = k')) as [->|Hne].
  - destruct (JsMap.get k' m) as [old|]; simpl; [|discriminate].
    intros [= <-]. left. eauto.
  - intros Hget. by right.
Qed.

Lemma keys_set_present k v m :
  is_Some (JsMap.get k m) -> JsMap.keys (JsMap.set k v m) = JsMap.keys m.
Proof.
  unfold JsMap.keys. induction m as [|[k' v'] m IH]; simpl.
  - intros [? [=]].
  - destruct (decide (k = k')) as [->|Hne]; simpl; [reflexivity|].
    intros Hsome. f_equal. by apply IH.
Qed.

Lemma keys_modify k (f : V -> V) m :
  JsMap.keys (JsMap.modify k f m) = JsMap.keys m.
Proof.
  unfold JsMap.modify. destruct (JsMap.get k m) eqn:Hget; [|reflexivity].
  apply keys_set_present. by rewrite Hget.
Qed.

Lemma keys_set_absent k v m :
  JsMap.get k m = None -> JsMap.keys (JsMap.set k v m) = JsMap.keys m ++ [k].
Proof.
  unfold JsMap.keys. induction m as [|[k' v'] m IH]; simpl; [reflexivity|].
  destruct (decide (k = k')) as [->|Hne]; [discriminate|].
  intros Hnone. simpl. f_equal. by apply IH.
Qed.

Lemma get_is_Some_keys k m : is_Some (JsMap.get k m) <-> k ∈ JsMap.keys m.
Proof.
  unfold JsMap.keys. induction m as [|[k' v'] m IH]; simpl.
  - split; [intros [? [=]] | intros Hin; by apply elem_of_nil in Hin].
  - rewrite elem_of_cons. destruct (decide (k = k')) as [->|Hne].
    + split; eauto.
    + rewrite IH. split; [by right | by intros [?|?]].
Qed.

Lemma get_None_keys k m : JsMap.get k m = None <-> k ∉ JsMap.keys m.
Proof.
  rewrite <- get_is_Some_keys, eq_None_not_Some. reflexivity.
Qed.

Lemma wf_set k v m : JsMap.wf m -> JsMap.wf (JsMap.set k v m).
Proof.
  unfold JsMap.wf. intros Hwf. destruct (JsMap.get k m) eqn:Hget.
  - rewrite keys_set_present; [assumption | by rewrite Hget].
  - rewrite keys_set_absent by assumption.
    apply NoDup_app. split; [assumption|]. split; [|apply NoDup_singleton].
    intros x Hx Hx'. apply list_elem_of_singleton in Hx'. subst x.
    by apply get_None_keys in Hget.
Qed.

(** In a table with distinct keys, the entries are what [get] finds. *)
Lemma get_Some_elem_of k v m :
  JsMap.wf m -> (k, v) ∈ m <-> JsMap.get k m = Some v.
Proof.
  unfold JsMap.wf, JsMap.keys. induction m as [|[k' v'] m IH]; simpl.
  - intros _. split; [intros Hin; by apply elem_of_nil in Hin | discriminate].
  - rewrite NoDup_cons. intros [Hnotin Hnd]. rewrite elem_of_cons.
    destruct (decide (k = k')) as [->|Hne].
    + split.
      * intros [[= ->]|Hin]; [reflexivity|].
        destruct Hnotin. apply list_elem_of_fmap. by exists (k', v).
      * intros [= ->]. by left.
    + rewrite <- IH by assumption. split; [|by right].
      intros [[= -> ->]|Hin]; [by destruct Hne | assumption].
Qed.

End JsMapFacts.

Lemma elem_of_arr_push {A} (x y : A) (o : option (list A)) :
  x ∈ arr (push y o) <-> x ∈ arr o \/ x = y.
Proof.
  unfold push. simpl. rewrite elem_of_app, list_elem_of_singleton. reflexivity.
Qed.

(** ** Patterns *)

Lemma star_rest {X} (p : ascii -> bool) (s : string) (k : string -> option X) (x : X) :
  Regex.star p s k = Some x ->
  exists rest, k rest = Some x /\ (String.length rest <= String.length s)%nat.
Proof.
  induction s as [|c s IH]; simpl; [eauto|].
  destruct (p c); [|eauto].
  destruct (Regex.star p s k) as [y|] eqn:Hstar.
  - intros [= ->]. destruct (IH eq_refl) as (rest & Hk & Hlen).
    exists rest. split; [assumption | lia].
  - eauto.
Qed.

(** A match hands to its continuation a suffix shorter by at least the
    least length of the pattern. *)
Lemma matchAt_rest {X} (r : Regex.t) :
  forall (s : string) (caps : list string)
         (k : string -> list string -> option X) (x : X),
    Regex.matchAt r s caps k = Some x ->
    exists rest caps',
      k rest caps' = Some x /\
      (String.length rest + minLength r <= String.length s)%nat.
Proof.
  induction r as [|p|r1 IH1 r2 IH2|p|r IH|r IH]; intros s caps k x; simpl.
  - intros Hk. exists s, caps. split; [assumption | lia].
  - destruct s as [|c s]; [discriminate|]. destruct (p c); [|discriminate].
    intros Hk. exists s, caps. split; [assumption | simpl; lia].
  - intros Hm. apply IH1 in Hm as (s1 & caps1 & Hm & Hlen1).
    apply IH2 in Hm as (s2 & caps2 & Hk & Hlen2).
    exists s2, caps2. split; [assumption | lia].
  - intros Hm. apply star_rest in Hm as (rest & Hk & Hlen).
    exists rest, caps. split; [assumption | lia].
  - intros Hm. apply IH in Hm as (rest & caps' & Hk & Hlen). eauto.
  - destruct (Regex.matchAt r s caps k) as [y|] eqn:Hm.
    + intros [= ->]. apply IH in Hm as (rest & caps' & Hk & Hlen).
      exists rest, caps'. split; [assumption | lia].
    + intros Hk. exists s, caps. split; [assumption | lia].
Qed.

Lemma search_rest (r : Regex.t) (s : string) (caps : list string) (rest : string) :
  Regex.search r s = Some (caps, rest) ->
  (String.length rest + minLength r <= String.length s)%nat.
Proof.
  induction s as [|c s IH]; simpl.
  - destruct (Regex.matchAt r EmptyString [] _) as [y|] eqn:Hm; [|discriminate].
    intros [= ->]. apply matchAt_rest in Hm as (rest' & caps' & [= <- <-] & Hlen).
    exact Hlen.
  - destruct (Regex.matchAt r (String c s) [] _) as [y|] eqn:Hm.
    + intros [= ->]. apply matchAt_rest in Hm as (rest' & caps' & [= <- <-] & Hlen).
      exact Hlen.
    + intros Hs. apply IH in Hs. lia.
Qed.

(** For a pattern that matches no empty string, the matches of [matchAll]
    are all the matches: more steps give no other result. *)
Lemma matchAllFrom_enough (r : Regex.t) :
  (0 < minLength r)%nat ->
  forall (fuel fuel' : nat) (s : string),
    (String.length s < fuel)%nat -> (String.length s < fuel')%nat ->
    Regex.matchAllFrom fuel r s = Regex.matchAllFrom fuel' r s.
Proof.
  intros Hpos. induction fuel as [|fuel IH]; intros fuel' s Hf Hf'; [lia|].
  destruct fuel' as [|fuel']; [lia|]. simpl.
  destruct (Regex.search r s) as [[caps rest]|] eqn:Hs; [|reflexivity].
  apply search_rest in Hs. f_equal. apply IH; lia.
Qed.

Lemma spellcast_matches_complete (value : string) (fuel : nat) :
  (String.length value < fuel)%nat ->
  Regex.matchAllFrom fuel spellcastPattern value =
  Regex.matchAll spellcastPattern value.
Proof.
  intros Hfuel. unfold Regex.matchAll.
  apply matchAllFrom_enough; [cbn; lia | assumption | lia].
Qed.

(** ** Cutting a value into groups *)








(** A partial group at the end of the parts gives no drop. *)
Lemma dropGroups_short (tail : list string) :
  (length tail < 4)%nat -> dropGroups tail = [].
Proof.
  destruct tail as [|a [|b [|c [|d tail]]]]; simpl; intros; try reflexivity; lia.
Qed.

Lemma dropGroups_cons4 (a b c d : string) (rest : list string) :
  dropGroups (a :: b :: c :: d :: rest) =
  option_list (parseDrop a b c d) ++ dropGroups rest.
Proof. simpl. by destruct (parseDrop a b c d). Qed.

Lemma dropGroups_app (n : nat) : forall groups tail : list string,
  length groups = (4 * n)%nat ->
  dropGroups (groups ++ tail) = dropGroups groups ++ dropGroups tail.
Proof.
  induction n as [|n IH]; intros groups tail Hlen.
  - destruct groups; [reflexivity | simpl in Hlen; lia].
  - destruct groups as [|a [|b [|c [|d groups]]]]; simpl in Hlen; try lia.
    change ((a :: b :: c :: d :: groups) ++ tail)
      with (a :: b :: c :: d :: (groups ++ tail)).
    rewrite !dropGroups_cons4, IH by lia.
    by rewrite app_assoc.
Qed.

Lemma dropGroups_length (n : nat) : forall parts : list string,
  (length parts < 4 * S n)%nat -> (length (dropGroups parts) <= n)%nat.
Proof.
  induction n as [|n IH]; intros parts Hlen.
  - rewrite dropGroups_short by lia. simpl. lia.
  - destruct parts as [|a [|b [|c [|d parts]]]]; try (simpl; lia).
    rewrite dropGroups_cons4, length_app.
    assert (length (dropGroups parts) <= n)%nat by (apply IH; simpl in Hlen; lia).
    destruct (parseDrop a b c d); simpl; lia.
Qed.

(** C2, as stated, fails: five values after the two complete groups of the
    example line are not dropped entirely; the line gives three entries, one
    more than the line without them. *)
Lemma C2_five_extra_values_counterexample :
  length (parseDropsValue exampleDropsValue13) = 3%nat /\
  parseDropsValue exampleDropsValue13 <> parseDropsValue exampleDropsValue /\
  ~ (forall (groups extra : list string),
       (length groups mod 4 = 0)%nat -> length extra = 5%nat ->
       dropGroups (groups ++ extra) = dropGroups groups).
Proof.
  split; [reflexivity|]. split; [discriminate|].
  intros H.
  specialize (H ["10"; "1"; "2"; "5.5"; "20"; "3"; "4"; "1.0"]
                ["30"; "1"; "1"; "2.0"; "40"] eq_refl eq_refl).
  vm_compute in H. discriminate H.
Qed.

(** C2, amended. The example line gives exactly the two drop entries the
    specification names; for every list of parts, what follows the last
    complete group of four (one to three values) gives no entry, so that
    every value string gives the entries of its complete groups alone, at
    most one for each; and of five values after the complete groups, the
    first four are read as one more group and only the fifth is dropped. *)
Theorem C2_drop_groups_of_four :
  parseDropsValue exampleDropsValue =
    [ ItemDrop.mk 10 EmptyString 1 2 (Js.Finite (11 # 2));
      ItemDrop.mk 20 EmptyString 3 4 (Js.Finite (1 # 1)) ] /\
  (forall (groups tail : list string) (n : nat),
     length groups = (4 * n)%nat -> (length tail < 4)%nat ->
     dropGroups (groups ++ tail) = dropGroups groups /\
     (length (dropGroups (groups ++ tail)) <= n)%nat) /\
  (forall value : string,
     let parts := csvParts value in
     parseDropsValue value = dropGroups (take (4 * (length parts / 4)) parts) /\
     (length (parseDropsValue value) <= length parts / 4)%nat) /\
  parseDropsValue exampleDropsValue13 =
    parseDropsValue exampleDropsValue ++
    [ ItemDrop.mk 30 EmptyString 1 1 (Js.Finite (2 # 1)) ].
Proof.
  assert (Hgroups : forall (groups tail : list string) (n : nat),
     length groups = (4 * n)%nat -> (length tail < 4)%nat ->
     dropGroups (groups ++ tail) = dropGroups groups /\
     (length (dropGroups (groups ++ tail)) <= n)%nat).
  { intros groups tail n Hlen Htail.
    rewrite (dropGroups_app n) by assumption.
    rewrite (dropGroups_short tail), app_nil_r by assumption.
    split; [reflexivity|].
    apply dropGroups_length. lia. }
  split; [reflexivity|]. split; [exact Hgroups|]. split; [|reflexivity].
  intros value parts. unfold parseDropsValue. fold parts.
  set (n := (length parts / 4)%nat).
  assert (Hdiv : (length parts = 4 * n + length parts mod 4)%nat)
    by apply Nat.div_mod_eq.
  assert (Hmod : (length parts mod 4 < 4)%nat) by (apply Nat.mod_upper_bound; lia).
  destruct (Hgroups (take (4 * n) parts) (drop (4 * n) parts) n) as [Heq Hlen].
  - rewrite length_take. lia.
  - rewrite length_drop. lia.
  - rewrite take_drop in Heq, Hlen. by split.
Qed.

Lemma C2_drop_groups_of_four_witness :
  dropGroups (["10"; "1"; "2"; "5.5"] ++ ["20"; "3"; "4"]) =
  dropGroups ["10"; "1"; "2"; "5.5"].
Proof.
  destruct C2_drop_groups_of_four as (_ & H & _).
  apply (H ["10"; "1"; "2"; "5.5"] ["20"; "3"; "4"] 1%nat); simpl; lia.
Defined.



(** ** The drops pass *)

(** A loop keeps what its body keeps. *)
Lemma fold_left_invariant {S A} (P : S -> Prop) (f : S -> A -> S) (l : list A) :
  (forall s a, a ∈ l -> P s -> P (f s a)) ->
  forall s, P s -> P (fold_left f l s).
Proof.
  induction l as [|a l IH]; intros Hstep s Hs; simpl; [assumption|].
  apply IH.
  - intros s' a' Hin. apply Hstep. by right.
  - apply Hstep; [by left | assumption].
Qed.

(** The same, for a property of what the loop has visited so far. *)
Lemma fold_left_invariant_visited {S A} (P : list A -> S -> Prop)
    (f : S -> A -> S) (l : list A) :
  (forall visited a s, P visited s -> P (visited ++ [a]) (f s a)) ->
  forall visited s, P visited s -> P (visited ++ l) (fold_left f l s).
Proof.
  intros Hstep. induction l as [|a l IH]; intros visited s Hs; simpl.
  - by rewrite app_nil_r.
  - replace (visited ++ a :: l) with ((visited ++ [a]) ++ l)
      by (by rewrite <- app_assoc).
    apply IH, Hstep, Hs.
Qed.

(** A mutation of one item that keeps names and only adds sources keeps, for
    every item, its name and its sources. *)
Lemma items_grow (i j : Z) (f : GameItem.t -> GameItem.t) (items : Items)
    (item : GameItem.t) :
  (forall x, GameItem.name (f x) = GameItem.name x) ->
  (forall x e, e ∈ arr (GameItem.dropsFrom x) -> e ∈ arr (GameItem.dropsFrom (f x))) ->
  JsMap.get j items = Some item ->
  exists item',
    JsMap.get j (JsMap.modify i f items) = Some item' /\
    GameItem.name item' = GameItem.name item /\
    forall e, e ∈ arr (GameItem.dropsFrom item) -> e ∈ arr (GameItem.dropsFrom item').
Proof.
  intros Hname Hsup Hget. rewrite get_modify, Hget.
  destruct (decide (i = j)); simpl; eauto.
Qed.

Lemma npcs_grow (n k : Z) (f : GameNpc.t -> GameNpc.t) (npcs : Npcs)
    (npc : GameNpc.t) :
  (forall x, GameNpc.name (f x) = GameNpc.name x) ->
  (forall x d, d ∈ arr (GameNpc.drops x) -> d ∈ arr (GameNpc.drops (f x))) ->
  JsMap.get k npcs = Some npc ->
  exists npc',
    JsMap.get k (JsMap.modify n f npcs) = Some npc' /\
    GameNpc.name npc' = GameNpc.name npc /\
    forall d, d ∈ arr (GameNpc.drops npc) -> d ∈ arr (GameNpc.drops npc').
Proof.
  intros Hname Hsup Hget. rewrite get_modify, Hget.
  destruct (decide (n = k)); simpl; eauto.
Qed.

(** The invariant only asks more of a shorter list of reached NPCs. *)
Lemma dropsInvariant_weaken (reached reached' : list Z) (st : Items * Npcs) :
  reached ⊆ reached' -> dropsInvariant reached st -> dropsInvariant reached' st.
Proof.
  intros Hsub (H1 & H2 & H3). split; [|split]; try assumption.
  intros i item e Hget Hin. apply Hsub. eauto.
Qed.

(** One drop of the table of NPC [npcId], whose object had the name of
    [npc] when the outer loop looked it up. *)
Lemma indexDrop_invariant (reached : list Z) (npcId : Z) (npc : GameNpc.t)
    (st : Items * Npcs) (drop : ItemDrop.t) :
  npcId ∈ reached ->
  (exists cur, JsMap.get npcId st.2 = Some cur /\ GameNpc.name cur = GameNpc.name npc) ->
  dropsInvariant reached st ->
  let st' := indexDrop npcId npc st drop in
  (exists cur, JsMap.get npcId st'.2 = Some cur /\ GameNpc.name cur = GameNpc.name npc) /\
  dropsInvariant reached st'.
Proof.
  destruct st as [items npcs]. intros Hreached (cur & Hcur & Hname) (H1 & H2 & H3).
  cbn [fst snd] in *. unfold indexDrop.
  destruct (JsMap.get (ItemDrop.itemId drop) items) as [item|] eqn:Hitem;
    cbv zeta; cbn [fst snd].
  2:{ split; [eauto | split; [|split]; assumption]. }
  set (drop' := ItemDrop.with_itemName (GameItem.name item) drop).
  change (ItemDrop.itemId drop') with (ItemDrop.itemId drop).
  set (fN := pushDrop drop').
  set (source := NpcDrop.mk npcId (GameNpc.name npc) (ItemDrop.minAmount drop')
                   (ItemDrop.maxAmount drop') (ItemDrop.dropRate drop')).
  set (fI := pushDropsFrom source).
  assert (HfI : forall x e, e ∈ arr (GameItem.dropsFrom x) ->
                            e ∈ arr (GameItem.dropsFrom (fI x))).
  { intros x e He. simpl. apply elem_of_app. by left. }
  assert (HfN : forall x d, d ∈ arr (GameNpc.drops x) ->
                            d ∈ arr (GameNpc.drops (fN x))).
  { intros x d Hd. simpl. apply elem_of_app. by left. }
  assert (Hcur' : JsMap.get npcId (JsMap.modify npcId fN npcs) = Some (fN cur)).
  { by rewrite get_modify_eq, Hcur. }
  assert (Hitem' : JsMap.get (ItemDrop.itemId drop)
                     (JsMap.modify (ItemDrop.itemId drop) fI items) = Some (fI item)).
  { by rewrite get_modify_eq, Hitem. }
  split; [by exists (fN cur)|].
  split; [|split].
  - (* the NPC side *)
    intros k x d Hget Hin.
    assert (Hold : forall old, JsMap.get k npcs = Some old ->
                     d ∈ arr (GameNpc.drops old) ->
                     GameNpc.name x = GameNpc.name old ->
      exists item0,
        JsMap.get (ItemDrop.itemId d) (JsMap.modify (ItemDrop.itemId drop) fI items)
          = Some item0 /\
        ItemDrop.itemName d = GameItem.name item0 /\
        NpcDrop.mk k (GameNpc.name x) (ItemDrop.minAmount d) (ItemDrop.maxAmount d)
          (ItemDrop.dropRate d) ∈ arr (GameItem.dropsFrom item0)).
    { intros old Hgetold Hd Hnm.
      destruct (H1 k old d Hgetold Hd) as (item0 & Hget0 & Hn0 & Hin0).
      destruct (items_grow (ItemDrop.itemId drop) _ fI items item0
                  (fun _ => eq_refl) HfI Hget0) as (item0' & Hget0' & Hn0' & Hsup0).
      exists item0'. rewrite Hnm, Hn0'. auto. }
    apply get_modify_Some in Hget as [[<- (old & Hgetold & ->)]|[Hne Hget]].
    + apply elem_of_arr_push in Hin as [Hin | ->].
      * by apply (Hold old).
      * exists (fI item). split; [exact Hitem'|]. split; [reflexivity|].
        assert (old = cur) as -> by congruence.
        simpl. apply elem_of_app. right. apply list_elem_of_singleton.
        unfold source. by rewrite Hname.
    + by apply (Hold x).
  - (* the item side *)
    intros j x e Hget Hin.
    assert (Hold : forall old, JsMap.get j items = Some old ->
                     e ∈ arr (GameItem.dropsFrom old) ->
                     GameItem.name x = GameItem.name old ->
      exists npc0,
        JsMap.get (NpcDrop.npcId e) (JsMap.modify npcId fN npcs) = Some npc0 /\
        NpcDrop.npcName e = GameNpc.name npc0 /\
        ItemDrop.mk j (GameItem.name x) (NpcDrop.minAmount e) (NpcDrop.maxAmount e)
          (NpcDrop.dropRate e) ∈ arr (GameNpc.drops npc0)).
    { intros old Hgetold He Hnm.
      destruct (H2 j old e Hgetold He) as (npc0 & Hget0 & Hn0 & Hin0).
      destruct (npcs_grow npcId _ fN npcs npc0 (fun _ => eq_refl) HfN Hget0)
        as (npc0' & Hget0' & Hn0' & Hsup0).
      exists npc0'. rewrite Hnm, Hn0'. auto. }
    apply get_modify_Some in Hget as [[<- (old & Hgetold & ->)]|[Hne Hget]].
    + apply elem_of_arr_push in Hin as [Hin | ->].
      * by apply (Hold old).
      * exists (fN cur). split; [exact Hcur'|]. split; [simpl; congruence|].
        assert (old = item) as -> by congruence.
        simpl. apply elem_of_app. right. by apply list_elem_of_singleton.
    + by apply (Hold x).
  - (* the sources are reached NPCs *)
    intros j x e Hget Hin.
    apply get_modify_Some in Hget as [[<- (old & Hgetold & ->)]|[Hne Hget]].
    + apply elem_of_arr_push in Hin as [Hin | ->]; [eauto | exact Hreached].
    + eauto.
Qed.

(** The table of one NPC that is reached for the first time. *)
Lemma indexNpcDrops_invariant (reached : list Z) (st : Items * Npcs)
    (npcId : Z) (npcDrops : list ItemDrop.t) :
  npcId ∉ reached ->
  dropsInvariant reached st ->
  dropsInvariant (reached ++ [npcId]) (indexNpcDrops st (npcId, npcDrops)).
Proof.
  destruct st as [items npcs]. intros Hnew Hinv. unfold indexNpcDrops.
  destruct (JsMap.get npcId npcs) as [npc|] eqn:Hnpc.
  2:{ eapply dropsInvariant_weaken; [|exact Hinv].
      intros x Hx. apply elem_of_app. by left. }
  set (reset := GameNpc.with_drops (Some [])).
  assert (Hstart :
    (exists cur, JsMap.get npcId (items, JsMap.modify npcId reset npcs).2 = Some cur /\
                 GameNpc.name cur = GameNpc.name npc) /\
    dropsInvariant (reached ++ [npcId]) (items, JsMap.modify npcId reset npcs)).
  { destruct Hinv as (H1 & H2 & H3). simpl in *. split.
    { exists (reset npc). by rewrite get_modify_eq, Hnpc. }
    split; [|split]; simpl.
    - intros k x d Hget Hin.
      apply get_modify_Some in Hget as [[<- (old & Hgetold & ->)]|[Hne Hget]].
      + by apply elem_of_nil in Hin.
      + eauto.
    - intros j x e Hget Hin.
      destruct (H2 j x e Hget Hin) as (npc0 & Hget0 & Hn0 & Hin0).
      assert (NpcDrop.npcId e <> npcId) as Hne.
      { intros Heq. apply Hnew. rewrite <- Heq. eauto. }
      exists npc0. by rewrite get_modify_ne.
    - intros j x e Hget Hin. apply elem_of_app. left. eauto. }
  revert Hstart.
  generalize (items, JsMap.modify npcId reset npcs) as st0.
  induction npcDrops as [|d ds IH]; intros st0 [Hcur Hinv0]; simpl; [assumption|].
  apply IH. apply indexDrop_invariant; try assumption.
  apply elem_of_app. right. by apply list_elem_of_singleton.
Qed.

Lemma indexDrops_invariant (items : Items) (npcs : Npcs)
    (drops : list (Z * list ItemDrop.t)) :
  JsMap.wf drops -> freshItems items -> freshNpcs npcs ->
  dropsInvariant (JsMap.keys drops) (indexDrops items npcs drops).
Proof.
  intros Hwf Hitems Hnpcs. unfold indexDrops.
  assert (Hgen : forall visited st,
            NoDup (JsMap.keys visited ++ JsMap.keys drops) ->
            dropsInvariant (JsMap.keys visited) st ->
            dropsInvariant (JsMap.keys (visited ++ drops))
              (fold_left indexNpcDrops drops st)).
  { clear. induction drops as [|[n ds] drops IH]; intros visited st Hnd Hinv; simpl.
    - by rewrite app_nil_r.
    - replace (visited ++ (n, ds) :: drops) with ((visited ++ [(n, ds)]) ++ drops)
        by (by rewrite <- app_assoc).
      apply IH.
      + unfold JsMap.keys in *. rewrite fmap_app, <- app_assoc. exact Hnd.
      + unfold JsMap.keys in *. rewrite fmap_app. simpl.
        apply indexNpcDrops_invariant; [|assumption].
        apply NoDup_app in Hnd as (_ & Hdisj & _). intros Hin.
        apply (Hdisj n Hin). simpl. by left. }
  apply (Hgen [] (items, npcs)); [exact Hwf|].
  split; [|split]; simpl.
  - intros k x d Hget Hin. rewrite (Hnpcs k x Hget) in Hin. by apply elem_of_nil in Hin.
  - intros j x e Hget Hin. rewrite (Hitems j x Hget) in Hin. by apply elem_of_nil in Hin.
  - intros j x e Hget Hin. rewrite (Hitems j x Hget) in Hin. by apply elem_of_nil in Hin.
Qed.

(** ** What the passes leave alone *)

Lemma get_modify_proj {V B} (proj : V -> B) (f : V -> V) (k k' : Z)
    (m : list (Z * V)) :
  (forall x, proj (f x) = proj x) ->
  proj <$> JsMap.get k' (JsMap.modify k f m) = proj <$> JsMap.get k' m.
Proof.
  intros Hproj. rewrite get_modify. destruct (decide (k = k')); [|reflexivity].
  destruct (JsMap.get k' m); simpl; [|reflexivity]. by rewrite Hproj.
Qed.

Lemma sameItems_refl (items : Items) : sameItems items items.
Proof. by split. Qed.

Lemma sameNpcs_refl (npcs : Npcs) : sameNpcs npcs npcs.
Proof. by split. Qed.

Lemma sameItems_trans (a b c : Items) :
  sameItems a b -> sameItems b c -> sameItems a c.
Proof.
  intros [Hk1 Hc1] [Hk2 Hc2]. split; [congruence|].
  intros k. by rewrite Hc2, Hc1.
Qed.

Lemma sameNpcs_trans (a b c : Npcs) :
  sameNpcs a b -> sameNpcs b c -> sameNpcs a c.
Proof.
  intros [Hk1 Hc1] [Hk2 Hc2]. split; [congruence|].
  intros k. by rewrite Hc2, Hc1.
Qed.

Lemma sameItems_modify (items : Items) (k : Z) (f : GameItem.t -> GameItem.t) :
  (forall x, itemCore (f x) = itemCore x) ->
  sameItems items (JsMap.modify k f items).
Proof.
  intros Hf. split; [apply keys_modify|].
  intros k'. by apply get_modify_proj.
Qed.

Lemma sameNpcs_modify (npcs : Npcs) (k : Z) (f : GameNpc.t -> GameNpc.t) :
  (forall x, npcCore (f x) = npcCore x) ->
  sameNpcs npcs (JsMap.modify k f npcs).
Proof.
  intros Hf. split; [apply keys_modify|].
  intros k'. by apply get_modify_proj.
Qed.

Lemma sameItems_is_Some (items items' : Items) (k : Z) :
  sameItems items items' ->
  is_Some (JsMap.get k items') <-> is_Some (JsMap.get k items).
Proof.
  intros [_ Hcore]. specialize (Hcore k).
  destruct (JsMap.get k items'), (JsMap.get k items); simpl in Hcore;
    try discriminate; split; intros [? ?]; eauto; discriminate.
Qed.

Lemma sameNpcs_is_Some (npcs npcs' : Npcs) (k : Z) :
  sameNpcs npcs npcs' ->
  is_Some (JsMap.get k npcs') <-> is_Some (JsMap.get k npcs).
Proof.
  intros [_ Hcore]. specialize (Hcore k).
  destruct (JsMap.get k npcs'), (JsMap.get k npcs); simpl in Hcore;
    try discriminate; split; intros [? ?]; eauto; discriminate.
Qed.

Lemma sameNpcs_keyed (npcs npcs' : Npcs) :
  sameNpcs npcs npcs' -> keyedNpcs npcs -> keyedNpcs npcs'.
Proof.
  intros [_ Hcore] Hkeyed k npc Hget. specialize (Hcore k). rewrite Hget in Hcore.
  destruct (JsMap.get k npcs) as [old|] eqn:Hold; [|discriminate].
  injection Hcore as Hid _ _ _. rewrite Hid. by apply Hkeyed.
Qed.

Lemma sameItems_keyed (items items' : Items) :
  sameItems items items' -> keyedItems items -> keyedItems items'.
Proof.
  intros [_ Hcore] Hkeyed k item Hget. specialize (Hcore k). rewrite Hget in Hcore.
  destruct (JsMap.get k items) as [old|] eqn:Hold; [|discriminate].
  injection Hcore as Hid _ _. rewrite Hid. by apply Hkeyed.
Qed.

Lemma indexDrop_same (npcId : Z) (npc : GameNpc.t) (st : Items * Npcs)
    (drop : ItemDrop.t) :
  sameItems st.1 (indexDrop npcId npc st drop).1 /\
  sameNpcs st.2 (indexDrop npcId npc st drop).2.
Proof.
  destruct st as [items npcs]. unfold indexDrop.
  destruct (JsMap.get (ItemDrop.itemId drop) items); cbn [fst snd].
  - split; [by apply sameItems_modify | by apply sameNpcs_modify].
  - split; [apply sameItems_refl | apply sameNpcs_refl].
Qed.

Lemma indexNpcDrops_same (st : Items * Npcs) (entry : Z * list ItemDrop.t) :
  sameItems st.1 (indexNpcDrops st entry).1 /\
  sameNpcs st.2 (indexNpcDrops st entry).2.
Proof.
  destruct st as [items npcs], entry as [npcId npcDrops]. unfold indexNpcDrops.
  destruct (JsMap.get npcId npcs) as [npc|].
  2:{ split; [apply sameItems_refl | apply sameNpcs_refl]. }
  apply (fold_left_invariant
           (fun st' => sameItems items st'.1 /\ sameNpcs npcs st'.2)).
  - intros st' d _ [HI HN]. destruct (indexDrop_same npcId npc st' d).
    split; [by eapply sameItems_trans | by eapply sameNpcs_trans].
  - split; [apply sameItems_refl | by apply sameNpcs_modify].
Qed.

Lemma indexDrops_same (items : Items) (npcs : Npcs)
    (drops : list (Z * list ItemDrop.t)) :
  sameItems items (indexDrops items npcs drops).1 /\
  sameNpcs npcs (indexDrops items npcs drops).2.
Proof.
  apply (fold_left_invariant
           (fun st' => sameItems items st'.1 /\ sameNpcs npcs st'.2)).
  - intros st' e _ [HI HN]. destruct (indexNpcDrops_same st' e).
    split; [by eapply sameItems_trans | by eapply sameNpcs_trans].
  - split; [apply sameItems_refl | apply sameNpcs_refl].
Qed.

(** C4. After the drops pass over tables fresh from the loaders, every
    entry of an NPC's drops names an item of the table, carries that item's
    name, and has its mirror (the NPC's id and name, the same minimum,
    maximum and rate) among the sources of that item; every source of an
    item names an NPC of the table, carries that NPC's name, and has its
    mirror among the drops of that NPC. The ids are the keys of the tables. *)
Theorem C4_drops_mirrored_on_both_sides (items : Items) (npcs : Npcs)
    (drops : list (Z * list ItemDrop.t)) :
  JsMap.wf drops -> freshItems items -> freshNpcs npcs ->
  keyedItems items -> keyedNpcs npcs ->
  let items' := (indexDrops items npcs drops).1 in
  let npcs' := (indexDrops items npcs drops).2 in
  dropsMirrored items' npcs' /\ dropsFromMirrored items' npcs' /\
  keyedItems items' /\ keyedNpcs npcs'.
Proof.
  intros Hwf Hfi Hfn Hki Hkn items' npcs'.
  destruct (indexDrops_invariant items npcs drops Hwf Hfi Hfn) as (H1 & H2 & _).
  destruct (indexDrops_same items npcs drops) as [HI HN].
  split; [exact H1|]. split; [exact H2|].
  split; [by eapply sameItems_keyed | by eapply sameNpcs_keyed].
Qed.

(** ** Dangling references *)

(** C5. In the passes that join items and NPCs an edge needs both ends.
    Drops: the table of an unknown NPC, and a drop of an unknown item, leave
    both tables as they are; after the pass every drop entry and every
    source entry joins a key of the loaded NPC table and a key of the loaded
    item table. Pets: an unknown NPC or item leaves the NPCs as they are.
    Shops: a trade or a craft of an unknown item leaves both tables as they
    are; without an NPC under the shop id the NPC table is not touched, and
    the listing that the item receives is one of the shop alone, with no
    NPC id and no NPC name in it.
    Quests: a dialogue reference whose vendor id is not in the vendor index,
    a kill requirement of an unknown NPC id, a reward and a requirement of an
    unknown item id leave the tables and the reference as they are. The
    passes are total functions: none has a failing outcome. *)
Theorem C5_no_edge_without_both_ends :
  (forall (items : Items) (npcs : Npcs) npcId npcDrops,
     JsMap.get npcId npcs = None ->
     indexNpcDrops (items, npcs) (npcId, npcDrops) = (items, npcs)) /\
  (forall (items : Items) (npcs : Npcs) npcId npc drop,
     JsMap.get (ItemDrop.itemId drop) items = None ->
     indexDrop npcId npc (items, npcs) drop = (items, npcs)) /\
  (forall (items : Items) (npcs : Npcs) (drops : list (Z * list ItemDrop.t)),
     JsMap.wf drops -> freshItems items -> freshNpcs npcs ->
     let items' := (indexDrops items npcs drops).1 in
     let npcs' := (indexDrops items npcs drops).2 in
     (forall npcId npc drop,
        JsMap.get npcId npcs' = Some npc -> drop ∈ arr (GameNpc.drops npc) ->
        is_Some (JsMap.get npcId npcs) /\
        is_Some (JsMap.get (ItemDrop.itemId drop) items)) /\
     (forall itemId item source,
        JsMap.get itemId items' = Some item ->
        source ∈ arr (GameItem.dropsFrom item) ->
        is_Some (JsMap.get itemId items) /\
        is_Some (JsMap.get (NpcDrop.npcId source) npcs))) /\
  (forall (items : Items) (npcs : Npcs) npcId petInfo,
     JsMap.get npcId npcs = None \/
     JsMap.get (PetInfo.itemId petInfo) items = None ->
     indexPet items npcs (npcId, petInfo) = npcs) /\
  (forall (items : Items) (npcs : Npcs) shopId shop npc trade craft,
     (JsMap.get (Trade.itemId trade) items = None ->
      indexTrade shopId shop npc (items, npcs) trade = (items, npcs)) /\
     (JsMap.get (Craft.resultItemId craft) items = None ->
      indexCraft shopId shop npc (items, npcs) craft = (items, npcs)) /\
     (indexTrade shopId shop None (items, npcs) trade).2 = npcs /\
     (indexCraft shopId shop None (items, npcs) craft).2 = npcs /\
     (forall item,
        JsMap.get (Trade.itemId trade) items = Some item ->
        exists item',
          JsMap.get (Trade.itemId trade)
            (indexTrade shopId shop None (items, npcs) trade).1 = Some item' /\
          arr (GameItem.soldAt item') =
          arr (GameItem.soldAt item) ++
          [ShopInfo.mk shopId (ShopData.name shop) None None
             (Trade.buyPrice trade) (Trade.sellPrice trade)])) /\
  (forall (items : Items) (npcs : Npcs) npcsByVendorId quest
          npcData reward killReq itemReq,
     (JsMap.get (QuestNpc.npcId npcData) npcsByVendorId = None ->
      indexQuestNpc npcsByVendorId quest npcs npcData = (npcs, npcData)) /\
     (JsMap.get (QuestKill.npcId killReq) npcs = None ->
      indexQuestKill quest npcs killReq = (npcs, killReq)) /\
     (JsMap.get (QuestRewardItem.itemId reward) items = None ->
      indexQuestReward quest items reward = (items, reward)) /\
     (JsMap.get (QuestItemReq.itemId itemReq) items = None ->
      indexQuestItemReq quest items itemReq = (items, itemReq))).
Proof.
  repeat apply conj.
  - intros items npcs npcId npcDrops Hnone. unfold indexNpcDrops. by rewrite Hnone.
  - intros items npcs npcId npc drop Hnone. unfold indexDrop. by rewrite Hnone.
  - intros items npcs drops Hwf Hfi Hfn items' npcs'.
    destruct (indexDrops_invariant items npcs drops Hwf Hfi Hfn) as (H1 & H2 & _).
    destruct (indexDrops_same items npcs drops) as [HI HN].
    split.
    + intros npcId npc drop Hget Hin.
      destruct (H1 npcId npc drop Hget Hin) as (item & Hitem & _).
      split.
      * apply (sameNpcs_is_Some npcs npcs' npcId HN). by exists npc.
      * apply (sameItems_is_Some items items' _ HI). by exists item.
    + intros itemId item source Hget Hin.
      destruct (H2 itemId item source Hget Hin) as (npc & Hnpc & _).
      split.
      * apply (sameItems_is_Some items items' itemId HI). by exists item.
      * apply (sameNpcs_is_Some npcs npcs' _ HN). by exists npc.
  - intros items npcs npcId petInfo [Hnone|Hnone]; unfold indexPet; rewrite Hnone;
      [reflexivity | by destruct (JsMap.get npcId npcs)].
  - intros items npcs shopId shop npc trade craft. repeat apply conj.
    + intros Hnone. unfold indexTrade. by rewrite Hnone.
    + intros Hnone. unfold indexCraft. by rewrite Hnone.
    + unfold indexTrade. by destruct (JsMap.get (Trade.itemId trade) items).
    + unfold indexCraft. by destruct (JsMap.get (Craft.resultItemId craft) items).
    + intros item Hitem. unfold indexTrade. rewrite Hitem. cbn [fst].
      rewrite get_modify_eq, Hitem. simpl. eauto.
  - intros items npcs npcsByVendorId quest npcData reward killReq itemReq.
    repeat apply conj.
    + intros Hnone. unfold indexQuestNpc, vendorLookup. by rewrite Hnone.
    + intros Hnone. unfold indexQuestKill. by rewrite Hnone.
    + intros Hnone. unfold indexQuestReward. by rewrite Hnone.
    + intros Hnone. unfold indexQuestItemReq. by rewrite Hnone.
Qed.

(** ** The spellcasting pass *)

Lemma indexNpcSpellcast_other (spells : Spells) (npcs : Npcs) (n k : Z)
    (casts : list SpellcastInfo.t) :
  n <> k ->
  JsMap.get k (indexNpcSpellcast spells npcs (n, casts)) = JsMap.get k npcs.
Proof.
  intros Hne. unfold indexNpcSpellcast.
  destruct (JsMap.get n npcs); [|reflexivity].
  destruct (nameCast spells <$> casts); [reflexivity|].
  by apply get_modify_ne.
Qed.

Lemma indexNpcSpellcasts_other (spells : Spells) (k : Z)
    (spellcasts : list (Z * list SpellcastInfo.t)) :
  k ∉ JsMap.keys spellcasts ->
  forall npcs,
    JsMap.get k (fold_left (indexNpcSpellcast spells) spellcasts npcs) =
    JsMap.get k npcs.
Proof.
  unfold JsMap.keys.
  induction spellcasts as [|[n casts] rest IH]; intros Hnotin npcs; simpl;
    [reflexivity|].
  rewrite fmap_cons, not_elem_of_cons in Hnotin. destruct Hnotin as [Hne Hrest].
  rewrite IH by assumption. apply indexNpcSpellcast_other.
  intros ->. by apply Hne.
Qed.

(** C8. For an NPC of the table whose id has spellcast entries, the pass
    leaves in [npc.spellcasting] exactly the first entry of the list, with
    the name of its spell when the spell id is in the spell table and as
    parsed otherwise; the entries after the first have no effect on the
    NPC. *)
Theorem C8_first_spellcast_retained (npcs : Npcs) (spells : Spells)
    (spellcasts : list (Z * list SpellcastInfo.t)) (npcId : Z)
    (npc : GameNpc.t) (first : SpellcastInfo.t) (later : list SpellcastInfo.t) :
  JsMap.wf spellcasts ->
  JsMap.get npcId spellcasts = Some (first :: later) ->
  JsMap.get npcId npcs = Some npc ->
  JsMap.get npcId (indexNpcSpellcasts npcs spells spellcasts) =
    Some (GameNpc.with_spellcasting (Some (nameCast spells first)) npc) /\
  (forall spell, JsMap.get (SpellcastInfo.spellId first) spells = Some spell ->
     nameCast spells first =
     SpellcastInfo.mk (SpellcastInfo.spellId first) (GameSpell.name spell)
       (SpellcastInfo.castType first) (SpellcastInfo.damage first)
       (SpellcastInfo.chance first)) /\
  (JsMap.get (SpellcastInfo.spellId first) spells = None ->
     nameCast spells first = first).
Proof.
  intros Hwf Hcasts Hnpc. split; [|split].
  - apply get_Some_elem_of in Hcasts; [|assumption].
    apply list_elem_of_split in Hcasts as (before & after & ->).
    unfold JsMap.wf, JsMap.keys in Hwf.
    rewrite fmap_app, fmap_cons in Hwf. simpl in Hwf.
    apply NoDup_app in Hwf as (_ & Hbefore & Hafter).
    apply NoDup_cons in Hafter as [Hafter _].
    assert (Hnotbefore : npcId ∉ JsMap.keys before).
    { intros Hin. apply (Hbefore npcId Hin). by left. }
    unfold indexNpcSpellcasts. rewrite fold_left_app. cbn [fold_left].
    rewrite indexNpcSpellcasts_other by exact Hafter.
    unfold indexNpcSpellcast at 1.
    rewrite indexNpcSpellcasts_other by exact Hnotbefore.
    rewrite Hnpc. cbn [fmap list_fmap]. rewrite get_modify_eq.
    rewrite indexNpcSpellcasts_other by exact Hnotbefore.
    by rewrite Hnpc.
  - intros spell Hspell. unfold nameCast. by rewrite Hspell.
  - intros Hnone. unfold nameCast. by rewrite Hnone.
Qed.

(** ** The name indices *)

(** A loop that sets a key for the elements that qualify: under each key
    the last such element is found. *)
Lemma fold_set_last {A K V} `{EqDecision K} (cond : A -> bool) (key : A -> K)
    (val : A -> V) (k : K) (xs : list A) : forall init,
  JsMap.get k
    (fold_left (fun index x => if cond x then JsMap.set (key x) (val x) index
                               else index) xs init) =
  match last (filter (fun x => cond x = true /\ key x = k) xs) with
  | Some x => Some (val x)
  | None => JsMap.get k init
  end.
Proof.
  induction xs as [|x xs IH]; intros init; simpl; [reflexivity|].
  rewrite IH, filter_cons.
  destruct (decide (cond x = true /\ key x = k)) as [[Hc Hk]|Hno].
  - rewrite last_cons.
    destruct (last (filter _ xs)); [reflexivity|].
    by rewrite Hc, <- Hk, get_set_eq.
  - destruct (last (filter _ xs)); [reflexivity|].
    destruct (cond x) eqn:Hc; [|reflexivity].
    apply get_set_ne. intros Hk. apply Hno. by split.
Qed.

Lemma buildNameIndex_get {A} (name : A -> string) (values : list A) (key : string) :
  JsMap.get key (buildNameIndex name values) =
  last (filter (fun x => name x <> EmptyString /\ Js.toLowerCase (name x) = key)
               values).
Proof.
  unfold buildNameIndex.
  rewrite (fold_set_last (fun x => Js.truthy (name x))
             (fun x => Js.toLowerCase (name x)) (fun x => x) key values).
  simpl.
  replace (filter (fun x => Js.truthy (name x) = true /\
                            Js.toLowerCase (name x) = key) values)
    with (filter (fun x => name x <> EmptyString /\
                           Js.toLowerCase (name x) = key) values).
  - by destruct (last _).
  - apply list_filter_iff. intros x. destruct (name x); simpl; split; intros [Hn Hk]; split; done.
Qed.

(** C7. Each name index is keyed by the lowercased name: under the
    lowercased form of a query it holds the last entity, in the iteration
    order of the table, whose name is not empty and equals the query up to
    case. With two items named Potion, the key potion gives the later one. *)
Theorem C7_name_index_last_wins :
  (forall (items : Items) (query : string),
     JsMap.get (Js.toLowerCase query) (itemsByName items) =
     last (filter (fun item => GameItem.name item <> EmptyString /\
                     Js.toLowerCase (GameItem.name item) = Js.toLowerCase query)
                  (JsMap.values items))) /\
  (forall (npcs : Npcs) (query : string),
     JsMap.get (Js.toLowerCase query) (npcsByName npcs) =
     last (filter (fun npc => GameNpc.name npc <> EmptyString /\
                     Js.toLowerCase (GameNpc.name npc) = Js.toLowerCase query)
                  (JsMap.values npcs))) /\
  (forall (spells : Spells) (query : string),
     JsMap.get (Js.toLowerCase query) (spellsByName spells) =
     last (filter (fun spell => GameSpell.name spell <> EmptyString /\
                     Js.toLowerCase (GameSpell.name spell) = Js.toLowerCase query)
                  (JsMap.values spells))) /\
  JsMap.get "potion" (itemsByName twoPotions) = Some (exampleItem 7 "Potion") /\
  JsMap.get (Js.toLowerCase "POTION") (itemsByName twoPotions) =
    Some (exampleItem 7 "Potion").
Proof.
  repeat apply conj; try reflexivity.
  - intros items query. apply buildNameIndex_get.
  - intros npcs query. apply buildNameIndex_get.
  - intros spells query. apply buildNameIndex_get.
Qed.

(** ** The quest pass *)

Lemma forEachUpdate_lookup {S A} (R : S -> S -> Prop) (f : S -> A -> S * A) :
  (forall s, R s s) ->
  (forall s1 s2 s3, R s1 s2 -> R s2 s3 -> R s1 s3) ->
  (forall s a, R s (f s a).1) ->
  forall (l : list A) (s : S) (p : nat) (a : A),
    l !! p = Some a ->
    exists sp,
      R s sp /\
      (forEachUpdate f s l).2 !! p = Some (f sp a).2 /\
      R (f sp a).1 (forEachUpdate f s l).1.
Proof.
  intros Hrefl Htrans Hstep.
  assert (Hall : forall l s, R s (forEachUpdate f s l).1).
  { induction l as [|b l IH]; intros s; simpl; [apply Hrefl|].
    specialize (Hstep s b). destruct (f s b) as [s1 b'].
    specialize (IH s1). destruct (forEachUpdate f s1 l) as [s2 l']. simpl in *.
    by eapply Htrans. }
  induction l as [|b l IH]; intros s p a Hp; [by destruct p|].
  simpl. pose proof (Hstep s b) as Hsb. pose proof (Hall l (f s b).1) as Hrest.
  destruct p as [|p]; simpl in Hp.
  - injection Hp as ->. exists s. split; [apply Hrefl|].
    destruct (f s a) as [s1 a']. simpl in *.
    destruct (forEachUpdate f s1 l) as [s2 l']. by split.
  - destruct (IH (f s b).1 p a Hp) as (sp & Hsp & Hlook & Hend).
    exists sp. destruct (f s b) as [s1 b']. simpl in *.
    destruct (forEachUpdate f s1 l) as [s2 l']. simpl in *.
    split; [by eapply Htrans|]. by split.
Qed.

Lemma forEachUpdate_grows {S A} (R : S -> S -> Prop) (f : S -> A -> S * A) :
  (forall s, R s s) ->
  (forall s1 s2 s3, R s1 s2 -> R s2 s3 -> R s1 s3) ->
  (forall s a, R s (f s a).1) ->
  forall (l : list A) (s : S), R s (forEachUpdate f s l).1.
Proof.
  intros Hrefl Htrans Hstep. induction l as [|b l IH]; intros s; simpl; [apply Hrefl|].
  specialize (Hstep s b). destruct (f s b) as [s1 b'].
  specialize (IH s1). destruct (forEachUpdate f s1 l) as [s2 l']. simpl in *.
  by eapply Htrans.
Qed.

Lemma growsNpcs_refl (npcs : Npcs) : growsNpcs npcs npcs.
Proof. intros k npc Hget. exists npc. auto. Qed.

Lemma growsNpcs_trans (a b c : Npcs) :
  growsNpcs a b -> growsNpcs b c -> growsNpcs a c.
Proof.
  intros Hab Hbc k npc Hget.
  destruct (Hab k npc Hget) as (npc1 & Hget1 & Hcore1 & Hsup1).
  destruct (Hbc k npc1 Hget1) as (npc2 & Hget2 & Hcore2 & Hsup2).
  exists npc2. split; [assumption|]. split; [congruence | auto].
Qed.

Lemma growsNpcs_addInvolvement (key : Z) (involvement : QuestInvolvement.t)
    (npcs : Npcs) :
  growsNpcs npcs (addInvolvement key involvement npcs).
Proof.
  intros k npc Hget. unfold addInvolvement. rewrite get_modify, Hget.
  destruct (decide (key = k)) as [Heq|Hne]; simpl; [|eauto].
  eexists. split; [reflexivity|]. split; [reflexivity|].
  intros inv Hinv. simpl. apply elem_of_app. by left.
Qed.

Lemma get_addInvolvement (key : Z) (involvement : QuestInvolvement.t)
    (npcs : Npcs) (npc : GameNpc.t) :
  JsMap.get key npcs = Some npc ->
  exists npc',
    JsMap.get key (addInvolvement key involvement npcs) = Some npc' /\
    involvement ∈ arr (GameNpc.questInvolvement npc').
Proof.
  intros Hget. unfold addInvolvement. rewrite get_modify_eq, Hget. simpl.
  eexists. split; [reflexivity|].
  simpl. apply elem_of_app. right. by apply list_elem_of_singleton.
Qed.

Lemma indexQuestNpc_grows (npcsByVendorId : list (Z * Z)) (quest : GameQuest.t)
    (npcs : Npcs) (npcData : QuestNpc.t) :
  growsNpcs npcs (indexQuestNpc npcsByVendorId quest npcs npcData).1.
Proof.
  unfold indexQuestNpc.
  destruct (vendorLookup _ _ _) as [[key npc]|]; simpl;
    [apply growsNpcs_addInvolvement | apply growsNpcs_refl].
Qed.

Lemma indexQuestKill_grows (quest : GameQuest.t) (npcs : Npcs)
    (killReq : QuestKill.t) :
  growsNpcs npcs (indexQuestKill quest npcs killReq).1.
Proof.
  unfold indexQuestKill.
  destruct (JsMap.get _ _); simpl;
    [apply growsNpcs_addInvolvement | apply growsNpcs_refl].
Qed.

(** What [indexQuest] makes of the NPC table and of the quest. *)
Lemma indexQuest_unfold (npcsByVendorId : list (Z * Z)) (npcs : Npcs)
    (items : Items) (key : Z) (quest : GameQuest.t) :
  let talked :=
    forEachUpdate (indexQuestNpc npcsByVendorId quest) npcs
      (GameQuest.involvedNpcs quest) in
  let killed :=
    forEachUpdate (indexQuestKill quest) talked.1 (GameQuest.killRequirements quest) in
  let result := indexQuest npcsByVendorId (npcs, items) (key, quest) in
  result.1.1 = killed.1 /\
  result.2.1 = key /\
  GameQuest.id result.2.2 = GameQuest.id quest /\
  GameQuest.name result.2.2 = GameQuest.name quest /\
  GameQuest.involvedNpcs result.2.2 = talked.2 /\
  GameQuest.killRequirements result.2.2 = killed.2.
Proof.
  intros talked killed result. subst talked killed result. unfold indexQuest.
  destruct (forEachUpdate (indexQuestNpc _ _) _ _) as [npcs1 involved].
  destruct (forEachUpdate (indexQuestReward _) _ _) as [items1 rewards].
  cbn [fst snd].
  destruct (forEachUpdate (indexQuestKill _) _ _) as [npcs2 kills].
  destruct (forEachUpdate (indexQuestItemReq _) _ _) as [items2 reqs].
  by repeat split.
Qed.

Lemma growsState_refl (st : Npcs * Items) : growsState st st.
Proof. apply growsNpcs_refl. Qed.

Lemma growsState_trans (a b c : Npcs * Items) :
  growsState a b -> growsState b c -> growsState a c.
Proof. apply growsNpcs_trans. Qed.

Lemma indexQuest_grows (npcsByVendorId : list (Z * Z)) (st : Npcs * Items)
    (entry : Z * GameQuest.t) :
  growsState st (indexQuest npcsByVendorId st entry).1.
Proof.
  destruct st as [npcs items], entry as [key quest]. unfold growsState.
  destruct (indexQuest_unfold npcsByVendorId npcs items key quest) as (-> & _).
  cbn [fst].
  eapply growsNpcs_trans.
  - apply (forEachUpdate_grows growsNpcs _ growsNpcs_refl growsNpcs_trans
             (indexQuestNpc_grows npcsByVendorId quest)).
  - apply (forEachUpdate_grows growsNpcs _ growsNpcs_refl growsNpcs_trans
             (indexQuestKill_grows quest)).
Qed.

(** The vendor index holds, under a vendor id, the key of the last NPC of
    the table with that positive vendor id. *)
Lemma buildVendorIndex_get (npcs : Npcs) (vendorId : Z) :
  JsMap.get vendorId (buildVendorIndex npcs) =
  fst <$> last (filter (fun entry => 0 < GameNpc.behaviorId entry.2 /\
                                     GameNpc.behaviorId entry.2 = vendorId) npcs).
Proof.
  unfold buildVendorIndex.
  replace (fold_left addVendor npcs JsMap.empty)
    with (fold_left
            (fun index entry =>
               if negb (GameNpc.behaviorId entry.2 =? 0) && (0 <? GameNpc.behaviorId entry.2)
               then JsMap.set (GameNpc.behaviorId entry.2) entry.1 index
               else index) npcs JsMap.empty).
  2:{ generalize (JsMap.empty : list (Z * Z)).
      induction npcs as [|[k npc] npcs IH]; intros init; simpl; [reflexivity|].
      by rewrite IH. }
  rewrite (fold_set_last
             (fun entry : Z * GameNpc.t =>
                negb (GameNpc.behaviorId entry.2 =? 0) && (0 <? GameNpc.behaviorId entry.2))
             (fun entry => GameNpc.behaviorId entry.2) (fun entry => entry.1)).
  simpl.
  replace (filter (fun entry : Z * GameNpc.t =>
                     negb (GameNpc.behaviorId entry.2 =? 0) &&
                     (0 <? GameNpc.behaviorId entry.2) = true /\
                     GameNpc.behaviorId entry.2 = vendorId) npcs)
    with (filter (fun entry : Z * GameNpc.t =>
                    0 < GameNpc.behaviorId entry.2 /\
                    GameNpc.behaviorId entry.2 = vendorId) npcs).
  - by destruct (last _).
  - apply list_filter_iff. intros [k npc]. simpl.
    rewrite andb_true_iff, negb_true_iff, Z.eqb_neq, Z.ltb_lt. split.
    + intros [Hpos Heq]. split; [|assumption]. split; [lia | assumption].
    + intros [[_ Hpos] Heq]. by split.
Qed.

Lemma growsNpcs_keeps (a b : Npcs) (k : Z) (npc : GameNpc.t)
    (involvement : QuestInvolvement.t) :
  growsNpcs a b ->
  JsMap.get k a = Some npc ->
  involvement ∈ arr (GameNpc.questInvolvement npc) ->
  exists npc',
    JsMap.get k b = Some npc' /\ npcCore npc' = npcCore npc /\
    involvement ∈ arr (GameNpc.questInvolvement npc').
Proof.
  intros Hgrows Hget Hin. destruct (Hgrows k npc Hget) as (npc' & ? & ? & Hsup).
  exists npc'. auto.
Qed.

(** C3. Quest indexing looks a dialogue reference up in the vendor-id index
    built from the NPC table (under a vendor id: the last NPC with that
    positive vendor id): the reference keeps the vendor id it was written
    with and receives the name, the primary id ([enfId]) and the graphic of
    the NPC found, and that NPC receives a dialogue involvement entry with
    the quest's id and name. A kill requirement is looked up by its id in
    the NPC table itself: it receives the name, id and graphic of that NPC,
    which receives a kill involvement entry. *)
Theorem C3_quest_npc_resolution (npcs : Npcs) (items : Items)
    (quests : list (Z * GameQuest.t)) (i : nat) (questKey : Z)
    (quest : GameQuest.t) :
  let npcsByVendorId := buildVendorIndex npcs in
  let result := indexQuests npcs items quests npcsByVendorId in
  quests !! i = Some (questKey, quest) ->
  (forall vendorId,
     JsMap.get vendorId npcsByVendorId =
     fst <$> last (filter (fun entry => 0 < GameNpc.behaviorId entry.2 /\
                                        GameNpc.behaviorId entry.2 = vendorId) npcs)) /\
  exists quest',
    result.2 !! i = Some (questKey, quest') /\
    (forall p npcData key npc,
       GameQuest.involvedNpcs quest !! p = Some npcData ->
       JsMap.get (QuestNpc.npcId npcData) npcsByVendorId = Some key ->
       JsMap.get key npcs = Some npc ->
       GameQuest.involvedNpcs quest' !! p =
         Some (QuestNpc.mk (QuestNpc.npcId npcData) (Some (GameNpc.name npc))
                 (Some (GameNpc.id npc)) (Some (GameNpc.graphicId npc))) /\
       exists npc',
         JsMap.get key result.1.1 = Some npc' /\
         npcCore npc' = npcCore npc /\
         QuestInvolvement.mk (GameQuest.id quest) (GameQuest.name quest) dialogue
           ∈ arr (GameNpc.questInvolvement npc')) /\
    (forall p killReq npc,
       GameQuest.killRequirements quest !! p = Some killReq ->
       JsMap.get (QuestKill.npcId killReq) npcs = Some npc ->
       GameQuest.killRequirements quest' !! p =
         Some (QuestKill.mk (QuestKill.npcId killReq) (QuestKill.count killReq)
                 (Some (GameNpc.name npc)) (Some (GameNpc.id npc))
                 (Some (GameNpc.graphicId npc))) /\
       exists npc',
         JsMap.get (QuestKill.npcId killReq) result.1.1 = Some npc' /\
         npcCore npc' = npcCore npc /\
         QuestInvolvement.mk (GameQuest.id quest) (GameQuest.name quest) kill
           ∈ arr (GameNpc.questInvolvement npc')).
Proof.
  intros vend result Hquest. split; [apply buildVendorIndex_get|].
  destruct (forEachUpdate_lookup growsState (indexQuest vend)
              growsState_refl growsState_trans (indexQuest_grows vend)
              quests (npcs, items) i (questKey, quest) Hquest)
    as ([npcsI itemsI] & HgrowI & Hlook & Hend).
  fold (indexQuests npcs items quests vend) in Hlook, Hend. fold result in Hlook, Hend.
  destruct (indexQuest_unfold vend npcsI itemsI questKey quest)
    as (Hn & Hk & Hid & Hname & Hinv & Hkill).
  set (talked := forEachUpdate (indexQuestNpc vend quest) npcsI
                   (GameQuest.involvedNpcs quest)) in *.
  set (killed := forEachUpdate (indexQuestKill quest) talked.1
                   (GameQuest.killRequirements quest)) in *.
  assert (HgrowT : growsNpcs npcsI talked.1).
  { apply (forEachUpdate_grows growsNpcs _ growsNpcs_refl growsNpcs_trans
             (indexQuestNpc_grows vend quest)). }
  assert (HgrowK : growsNpcs talked.1 killed.1).
  { apply (forEachUpdate_grows growsNpcs _ growsNpcs_refl growsNpcs_trans
             (indexQuestKill_grows quest)). }
  unfold growsState in HgrowI, Hend. cbn [fst] in HgrowI. rewrite Hn in Hend.
  destruct (indexQuest vend (npcsI, itemsI) (questKey, quest)) as [stI [k' quest']].
  cbn [fst snd] in *. subst k'.
  exists quest'. split; [exact Hlook|]. split.
  - intros p npcData key npc Hp Hvend Hnpc.
    destruct (forEachUpdate_lookup growsNpcs (indexQuestNpc vend quest)
                growsNpcs_refl growsNpcs_trans (indexQuestNpc_grows vend quest)
                (GameQuest.involvedNpcs quest) npcsI p npcData Hp)
      as (npcsP & HgrowP & HlookP & HendP).
    fold talked in HlookP, HendP.
    destruct (growsNpcs_trans _ _ _ HgrowI HgrowP key npc Hnpc)
      as (npcP & HgetP & HcoreP & _).
    injection HcoreP as Hid' Hname' Hgraphic' Hbehavior'.
    unfold indexQuestNpc, vendorLookup in HlookP, HendP.
    rewrite Hvend in HlookP, HendP. simpl in HlookP, HendP.
    rewrite HgetP in HlookP, HendP. simpl in HlookP, HendP.
    split.
    + rewrite Hinv, HlookP. unfold QuestNpc.resolved. by rewrite Hid', Hname', Hgraphic'.
    + destruct (get_addInvolvement key
                  (QuestInvolvement.mk (GameQuest.id quest) (GameQuest.name quest)
                     dialogue) npcsP npcP HgetP) as (npc1 & Hget1 & Hin1).
      destruct (growsNpcs_addInvolvement key
                  (QuestInvolvement.mk (GameQuest.id quest) (GameQuest.name quest)
                     dialogue) npcsP key npcP HgetP) as (npc1' & Hget1' & Hcore1 & _).
      assert (npc1' = npc1) as -> by congruence.
      destruct (growsNpcs_keeps _ _ key npc1 _
                  (growsNpcs_trans _ _ _ HendP (growsNpcs_trans _ _ _ HgrowK Hend))
                  Hget1 Hin1) as (npc' & Hget' & Hcore' & Hin').
      exists npc'. split; [exact Hget'|]. split; [|exact Hin'].
      rewrite Hcore', Hcore1. unfold npcCore.
      by rewrite Hid', Hname', Hgraphic', Hbehavior'.
  - intros p killReq npc Hp Hnpc.
    destruct (forEachUpdate_lookup growsNpcs (indexQuestKill quest)
                growsNpcs_refl growsNpcs_trans (indexQuestKill_grows quest)
                (GameQuest.killRequirements quest) talked.1 p killReq Hp)
      as (npcsP & HgrowP & HlookP & HendP).
    fold killed in HlookP, HendP.
    destruct (growsNpcs_trans _ _ _ HgrowI (growsNpcs_trans _ _ _ HgrowT HgrowP)
                (QuestKill.npcId killReq) npc Hnpc)
      as (npcP & HgetP & HcoreP & _).
    injection HcoreP as Hid' Hname' Hgraphic' Hbehavior'.
    unfold indexQuestKill in HlookP, HendP.
    rewrite HgetP in HlookP, HendP. simpl in HlookP, HendP.
    split.
    + rewrite Hkill, HlookP. unfold QuestKill.resolved. by rewrite Hid', Hname', Hgraphic'.
    + destruct (get_addInvolvement (QuestKill.npcId killReq)
                  (QuestInvolvement.mk (GameQuest.id quest) (GameQuest.name quest)
                     kill) npcsP npcP HgetP) as (npc1 & Hget1 & Hin1).
      destruct (growsNpcs_addInvolvement (QuestKill.npcId killReq)
                  (QuestInvolvement.mk (GameQuest.id quest) (GameQuest.name quest)
                     kill) npcsP _ npcP HgetP) as (npc1' & Hget1' & Hcore1 & _).
      assert (npc1' = npc1) as -> by congruence.
      destruct (growsNpcs_keeps _ _ _ npc1 _ (growsNpcs_trans _ _ _ HendP Hend)
                  Hget1 Hin1) as (npc' & Hget' & Hcore' & Hin').
      exists npc'. split; [exact Hget'|]. split; [|exact Hin'].
      rewrite Hcore', Hcore1. unfold npcCore.
      by rewrite Hid', Hname', Hgraphic', Hbehavior'.
Qed.

(** ** Promises *)

Lemma bind_Ok {A B} (r : result A) (k : A -> result B) (b : B) :
  bind r k = Ok b -> exists a, r = Ok a /\ k a = Ok b.
Proof. destruct r as [a|msg]; simpl; [eauto | discriminate]. Qed.

(** Every promise settles exactly once. *)
Lemma settle_Permutation (sched : Promise.Schedule) (fuel : nat) :
  forall (t : nat) (pending : list nat),
    length pending = fuel -> Promise.settle sched t fuel pending ≡ₚ pending.
Proof.
  induction fuel as [|fuel IH]; intros t pending Hlen.
  - by destruct pending.
  - simpl.
    assert (Hlt : (sched t mod length pending < length pending)%nat).
    { apply Nat.mod_upper_bound. lia. }
    destruct (lookup_lt_is_Some_2 _ _ Hlt) as [i Hi]. rewrite Hi.
    rewrite IH.
    + symmetry. by apply delete_Permutation.
    + rewrite length_delete by eauto. lia.
Qed.

Lemma completionOrder_Permutation (sched : Promise.Schedule) (n : nat) :
  Promise.completionOrder sched n ≡ₚ seq 0 n.
Proof. apply settle_Permutation, length_seq. Qed.

Lemma firstRejection_None (order : list nat) (outcomes : list (option string)) :
  Forall (fun o => o = None) outcomes ->
  Promise.firstRejection order outcomes = None.
Proof.
  intros Hall. induction order as [|i order IH]; simpl; [reflexivity|].
  destruct (outcomes !! i) as [[msg|]|] eqn:Hi; try exact IH.
  rewrite Forall_forall in Hall.
  specialize (Hall (Some msg) (list_elem_of_lookup_2 _ _ _ Hi)). discriminate.
Qed.

(** A rejected promise that settles is noticed. *)
Lemma firstRejection_Some (order : list nat) (outcomes : list (option string))
    (i : nat) (msg : string) :
  i ∈ order -> outcomes !! i = Some (Some msg) ->
  exists msg', Promise.firstRejection order outcomes = Some msg'.
Proof.
  intros Hin Hi. induction order as [|j order IH]; [by apply elem_of_nil in Hin|].
  simpl. apply elem_of_cons in Hin as [<-|Hin].
  - rewrite Hi. eauto.
  - destruct (outcomes !! j) as [[msg'|]|]; eauto.
Qed.

Lemma collect_fulfilled {A} (values : list A) :
  Promise.collect (Ok <$> values) = Ok values.
Proof.
  induction values as [|a values IH]; [reflexivity|].
  rewrite fmap_cons. cbn [Promise.collect]. by rewrite IH.
Qed.

(** When no promise is rejected the completion order does not matter. *)
Lemma all_fulfilled {A} (sched : Promise.Schedule) (values : list A) :
  Promise.all sched (Ok <$> values) = Ok values.
Proof.
  unfold Promise.all. rewrite firstRejection_None; [apply collect_fulfilled|].
  rewrite <- list_fmap_compose. apply Forall_fmap, Forall_true. reflexivity.
Qed.

(** [Promise.all] is rejected exactly when one of its promises is. *)
Lemma all_rejected_iff {A} (sched : Promise.Schedule) (ps : list (result A)) :
  (exists msg, Promise.all sched ps = Error msg) <->
  (exists i msg, ps !! i = Some (Error msg)).
Proof.
  unfold Promise.all. split.
  - intros [msg Hall].
    assert (Hcollect : forall l : list (result A), forall m,
              Promise.collect l = Error m -> exists i m', l !! i = Some (Error m')).
    { induction l as [|[a|m0] l IH]; intros m; simpl; [discriminate| |].
      - destruct (Promise.collect l) eqn:Hl; [discriminate|].
        intros _. destruct (IH _ eq_refl) as (i & m' & Hi). by exists (S i), m'.
      - intros _. by exists 0%nat, m0. }
    destruct (Promise.firstRejection _ _) as [m|] eqn:Hfirst; [|eauto].
    clear Hall. revert Hfirst.
    generalize (Promise.completionOrder sched (length ps)).
    induction l as [|i l IH]; simpl; [discriminate|].
    destruct ((Promise.rejection <$> ps) !! i) as [[m'|]|] eqn:Hi; [|exact IH..].
    intros _. rewrite list_lookup_fmap in Hi.
    destruct (ps !! i) as [[a|m'']|] eqn:Hp; simpl in Hi; try discriminate.
    eauto.
  - intros (i & msg & Hi).
    destruct (firstRejection_Some (Promise.completionOrder sched (length ps))
                (Promise.rejection <$> ps) i msg) as [msg' Hfirst].
    + rewrite completionOrder_Permutation. apply elem_of_seq.
      apply lookup_lt_Some in Hi. lia.
    + by rewrite list_lookup_fmap, Hi.
    + rewrite Hfirst. eauto.
Qed.

Lemma all4_fulfilled {A B C D} (sched : Promise.Schedule) (a : A) (b : B) (c : C)
    (d : D) :
  Promise.all4 sched (Ok a) (Ok b) (Ok c) (Ok d) = Ok (a, b, c, d).
Proof.
  unfold Promise.all4. rewrite firstRejection_None; [reflexivity|].
  repeat constructor.
Qed.

Lemma all4_Ok {A B C D} (sched : Promise.Schedule) (ra : result A) (rb : result B)
    (rc : result C) (rd : result D) (a : A) (b : B) (c : C) (d : D) :
  Promise.all4 sched ra rb rc rd = Ok (a, b, c, d) ->
  ra = Ok a /\ rb = Ok b /\ rc = Ok c /\ rd = Ok d.
Proof.
  unfold Promise.all4. destruct (Promise.firstRejection _ _); [discriminate|].
  destruct ra, rb, rc, rd; simpl; try discriminate. by intros [= -> -> -> ->].
Qed.

Lemma all8_fulfilled {A B C D E F G H} (sched : Promise.Schedule)
    (a : A) (b : B) (c : C) (d : D) (e : E) (f : F) (g : G) (h : H) :
  Promise.all8 sched (Ok a) (Ok b) (Ok c) (Ok d) (Ok e) (Ok f) (Ok g) (Ok h) =
  Ok (a, b, c, d, e, f, g, h).
Proof.
  unfold Promise.all8. rewrite firstRejection_None; [reflexivity|].
  repeat constructor.
Qed.

Lemma all8_Ok {A B C D E F G H} (sched : Promise.Schedule)
    (ra : result A) (rb : result B) (rc : result C) (rd : result D)
    (re : result E) (rf : result F) (rg : result G) (rh : result H)
    (a : A) (b : B) (c : C) (d : D) (e : E) (f : F) (g : G) (h : H) :
  Promise.all8 sched ra rb rc rd re rf rg rh = Ok (a, b, c, d, e, f, g, h) ->
  ra = Ok a /\ rb = Ok b /\ rc = Ok c /\ rd = Ok d /\
  re = Ok e /\ rf = Ok f /\ rg = Ok g /\ rh = Ok h.
Proof.
  unfold Promise.all8. destruct (Promise.firstRejection _ _); [discriminate|].
  destruct ra, rb, rc, rd, re, rf, rg, rh; simpl; try discriminate.
  by intros [= -> -> -> -> -> -> -> ->].
Qed.

(** The fifth promise of eight is [loadSpecialMobs]: when it is rejected,
    so is [Promise.all]. *)
Lemma all8_fifth_rejected {A B C D E F G H} (sched : Promise.Schedule)
    (ra : result A) (rb : result B) (rc : result C) (rd : result D)
    (rf : result F) (rg : result G) (rh : result H) (msg : string) :
  exists msg',
    Promise.all8 sched ra rb rc rd (@Error E msg) rf rg rh = Error msg'.
Proof.
  unfold Promise.all8. destruct (Promise.firstRejection _ _); [eauto|].
  destruct ra, rb, rc, rd; simpl; eauto.
Qed.

(** ** The map and quest loaders *)

Lemma elem_of_idRange (lo hi x : Z) : x ∈ idRange lo hi <-> lo <= x <= hi.
Proof.
  unfold idRange. rewrite list_elem_of_fmap. split.
  - intros (k & -> & Hk). apply elem_of_seq in Hk. lia.
  - intros Hx. exists (Z.to_nat (x - lo)). split; [lia|].
    apply elem_of_seq. lia.
Qed.

Lemma NoDup_idRange (lo hi : Z) : NoDup (idRange lo hi).
Proof.
  unfold idRange. apply NoDup_fmap_2_strong; [|apply NoDup_seq].
  intros x y _ _ Heq. lia.
Qed.

Lemma loadMaps_eq (lib : Eolib.t) (sched : Promise.Schedule) (origin : Origin) :
  loadMaps lib sched origin =
  Ok (fold_left (addMap lib) ((fun i => (i, loadMapFile origin i)) <$> mapIds)
        (MapData.mk JsMap.empty [])).
Proof.
  unfold loadMaps.
  rewrite (list_fmap_compose (fun i => (i, loadMapFile origin i)) Ok).
  by rewrite all_fulfilled.
Qed.

Lemma loadQuests_eq (sched : Promise.Schedule) (origin : Origin) :
  loadQuests sched origin =
  Ok (fold_left addQuest ((fun i => (i, loadQuestFile origin i)) <$> questIds)
        JsMap.empty).
Proof.
  unfold loadQuests.
  rewrite (list_fmap_compose (fun i => (i, loadQuestFile origin i)) Ok).
  by rewrite all_fulfilled.
Qed.

Lemma get_set_Some {V} (k k' : Z) (v v' : V) (m : list (Z * V)) :
  JsMap.get k' (JsMap.set k v m) = Some v' ->
  (k' = k /\ v' = v) \/ JsMap.get k' m = Some v'.
Proof.
  destruct (decide (k = k')) as [->|Hne].
  - rewrite get_set_eq. intros [= ->]. by left.
  - rewrite get_set_ne by assumption. by right.
Qed.

Lemma addMap_range (lib : Eolib.t) (ids : list Z) (fetch : Z -> option string) :
  forall acc,
    (forall k m, JsMap.get k (MapData.maps acc) = Some m ->
                 k ∈ ids /\ GameMap.id m = k) ->
    Forall (fun spawn => MapNpcSpawn.mapId spawn ∈ ids) (MapData.npcSpawns acc) ->
    let acc' := fold_left (addMap lib) ((fun i => (i, fetch i)) <$> ids) acc in
    (forall k m, JsMap.get k (MapData.maps acc') = Some m ->
                 k ∈ ids /\ GameMap.id m = k) /\
    Forall (fun spawn => MapNpcSpawn.mapId spawn ∈ ids) (MapData.npcSpawns acc').
Proof.
  intros acc Hmaps Hspawns.
  apply (fold_left_invariant
           (fun acc' =>
              (forall k m, JsMap.get k (MapData.maps acc') = Some m ->
                           k ∈ ids /\ GameMap.id m = k) /\
              Forall (fun spawn => MapNpcSpawn.mapId spawn ∈ ids)
                     (MapData.npcSpawns acc')));
    [|by split].
  intros acc' [id data] Hin [Hm Hs].
  apply list_elem_of_fmap in Hin as (i & [= -> ->] & Hi).
  unfold addMap. destruct (fetch i) as [bytes|]; [|by split].
  destruct (String.length bytes <? 10)%nat; [by split|].
  destruct (Eolib.Emf_deserialize lib bytes) as [emf|]; [|by split].
  simpl. split.
  - intros k m Hget. apply get_set_Some in Hget as [[-> ->]|Hget]; [by split | eauto].
  - apply Forall_app. split; [assumption|].
    apply Forall_fmap, Forall_true. intros npc. exact Hi.
Qed.

Lemma addQuest_range (ids : list Z) (fetch : Z -> option string) :
  forall quests,
    (forall k q, JsMap.get k quests = Some q -> k ∈ ids /\ GameQuest.id q = k) ->
    forall k q,
      JsMap.get k (fold_left addQuest ((fun i => (i, fetch i)) <$> ids) quests) = Some q ->
      k ∈ ids /\ GameQuest.id q = k.
Proof.
  intros quests Hquests.
  apply (fold_left_invariant
           (fun quests' => forall k q, JsMap.get k quests' = Some q ->
                                       k ∈ ids /\ GameQuest.id q = k));
    [|assumption].
  intros quests' [id content] Hin Hq.
  apply list_elem_of_fmap in Hin as (i & [= -> ->] & Hi).
  unfold addQuest. destruct (fetch i) as [text|]; [|assumption].
  destruct (negb (Js.truthy text)); [assumption|].
  destruct (parseQuestDSL i text) as [quest|] eqn:Hparse; [|assumption].
  intros k q Hget. apply get_set_Some in Hget as [[-> ->]|Hget]; [|eauto].
  split; [assumption|].
  unfold parseQuestDSL in Hparse.
  destruct (_ && _) in Hparse; [discriminate|]. by injection Hparse as <-.
Qed.

(** The quest pass keeps the keys and the ids of the quests. *)
Lemma indexQuests_get (npcsByVendorId : list (Z * Z))
    (quests : list (Z * GameQuest.t)) :
  forall (st : Npcs * Items) (k : Z) (q' : GameQuest.t),
    JsMap.get k (forEachUpdate (indexQuest npcsByVendorId) st quests).2 = Some q' ->
    exists q, JsMap.get k quests = Some q /\ GameQuest.id q' = GameQuest.id q.
Proof.
  induction quests as [|[key quest] quests IH]; intros st k q'; simpl;
    [discriminate|].
  destruct st as [npcs items].
  destruct (indexQuest_unfold npcsByVendorId npcs items key quest)
    as (_ & Hk & Hid & _).
  destruct (indexQuest npcsByVendorId (npcs, items) (key, quest))
    as [st1 [key1 quest1]].
  cbn [fst snd] in Hk, Hid. subst key1.
  specialize (IH st1 k q').
  destruct (forEachUpdate (indexQuest npcsByVendorId) st1 quests) as [st2 quests'].
  cbn [snd] in *. simpl.
  destruct (decide (k = key)); [|exact IH].
  intros [= <-]. eauto.
Qed.

(** ** The build *)

(** What a successful build has awaited, and where its maps and quests come
    from. *)
Lemma loadGameDatabase_Ok (lib : Eolib.t) (scheds : Schedules.t) (origin : Origin)
    (db : GameDatabase.t) :
  loadGameDatabase lib scheds origin = Ok db ->
  exists mapData quests npcs items npcsByVendorId,
    loadMaps lib (Schedules.mapFiles scheds) origin = Ok mapData /\
    loadQuests (Schedules.questFiles scheds) origin = Ok quests /\
    (exists specialMobs, loadSpecialMobs origin = Ok specialMobs) /\
    GameDatabase.maps db = MapData.maps mapData /\
    GameDatabase.quests db = (indexQuests npcs items quests npcsByVendorId).2.
Proof.
  unfold loadGameDatabase. intros Hbuild.
  apply bind_Ok in Hbuild as ([[[items npcs] spells] classes] & Hbase & Hbuild).
  apply bind_Ok in Hbuild
    as ([[[[[[[drops shops] pets] specialDrops] specialMobs] npcSpellcasts]
          mapData] quests] & Hrel & Hbuild).
  apply all8_Ok in Hrel as (_ & _ & _ & _ & Hmobs & _ & Hmaps & Hquests).
  destruct (indexDrops items npcs drops) as [items1 npcs1].
  destruct (indexShops items1 npcs1 shops) as [items2 npcs2].
  set (npcs3 := indexNpcSpawns _ _ _) in Hbuild.
  set (items3 := indexSpecialDrops _ _) in Hbuild.
  destruct (indexQuests npcs3 items3 quests (buildVendorIndex npcs3))
    as [[npcs4 items4] quests'] eqn:Hindex.
  injection Hbuild as <-.
  exists mapData, quests, npcs3, items3, (buildVendorIndex npcs3).
  rewrite Hindex. repeat split; eauto.
Qed.

(** C1, on the code: when specialmobs.ini is no file, [loadSpecialMobs] is
    rejected ([loadTextFile] throws and nothing catches it) and the build is
    rejected with it, whatever the other sources and the completion order.
    On the example installation the build fails with the message of
    [loadTextFile], while the same installation without drops.ini, which
    [loadDrops] catches, builds. A specialmobs.ini that is served empty does
    give no special spawn: the pass leaves the NPCs as they are. *)
Theorem C1_missing_special_mobs_rejects_the_build :
  (forall lib scheds origin,
     unavailable (origin "/data/specialmobs.ini") ->
     (exists msg, loadSpecialMobs origin = Error msg) /\
     exists msg, loadGameDatabase lib scheds origin = Error msg) /\
  loadGameDatabase exampleLib exampleSchedules
    (withoutFile "/data/specialmobs.ini" exampleOrigin) =
    Error "Failed to load specialmobs.ini: Not Found" /\
  (exists db, loadGameDatabase exampleLib exampleSchedules exampleOrigin = Ok db) /\
  (exists db, loadGameDatabase exampleLib exampleSchedules
                (withoutFile "/data/drops.ini" exampleOrigin) = Ok db) /\
  (forall origin statusText npcs,
     origin "/data/specialmobs.ini" = HttpResponse true statusText EmptyString ->
     loadSpecialMobs origin = Ok [] /\ indexSpecialMobs npcs [] = npcs).
Proof.
  split; [|split; [vm_compute; reflexivity|
           split; [eexists; vm_compute; reflexivity|
           split; [eexists; vm_compute; reflexivity|]]]].
  2:{ intros origin statusText npcs Hserved. split; [|reflexivity].
      unfold loadSpecialMobs, loadTextFile.
      change (DATA_PATH +:+ "/" +:+ "specialmobs.ini") with "/data/specialmobs.ini".
      by rewrite Hserved. }
  intros lib scheds origin Hgone.
  assert (Hmobs : exists msg, loadSpecialMobs origin = Error msg).
  { unfold loadSpecialMobs, loadTextFile.
    change (DATA_PATH +:+ "/" +:+ "specialmobs.ini") with "/data/specialmobs.ini".
    destruct (origin "/data/specialmobs.ini") as [msg|[|] statusText body];
      simpl in *; [eauto | contradiction | eauto]. }
  split; [exact Hmobs|]. destruct Hmobs as [msg Hmobs].
  unfold loadGameDatabase.
  destruct (Promise.all4 _ _ _ _ _) as [[[[items npcs] spells] classes]|msg'];
    simpl; [|eauto].
  rewrite Hmobs.
  destruct (all8_fifth_rejected (E := list SpecialSpawnInfo.t)
              (Schedules.relationshipData scheds)
              (loadDrops origin) (loadShops origin) (loadPets origin)
              (loadSpecialDrops origin) (loadNpcSpellcasts origin)
              (loadMaps lib (Schedules.mapFiles scheds) origin)
              (loadQuests (Schedules.questFiles scheds) origin) msg)
    as [msg' Hall].
  rewrite Hall. simpl. eauto.
Qed.

(** Each loader reads its own file only. *)
Lemma loadTextFile_sameSources (origin origin' : Origin) (path : string) :
  origin (DATA_PATH +:+ "/" +:+ path) = origin' (DATA_PATH +:+ "/" +:+ path) ->
  loadTextFile origin path = loadTextFile origin' path.
Proof. unfold loadTextFile. by intros ->. Qed.

Lemma loadFile_sameSources (origin origin' : Origin) (path : string) :
  origin (DATA_PATH +:+ "/" +:+ path) = origin' (DATA_PATH +:+ "/" +:+ path) ->
  loadFile origin path = loadFile origin' path.
Proof. unfold loadFile. by intros ->. Qed.

Ltac requested_data_file :=
  apply elem_of_app; left; cbn;
  rewrite ?elem_of_cons; auto 12.

(** With the same decoders and the same completion orders, origins that
    serve the same sources give the same build. *)
Lemma loadGameDatabase_sameSources (lib : Eolib.t) (scheds : Schedules.t)
    (origin origin' : Origin) :
  sameSources origin origin' ->
  loadGameDatabase lib scheds origin = loadGameDatabase lib scheds origin'.
Proof.
  intros Hsame. unfold loadGameDatabase.
  assert (Hitems : loadItems lib origin = loadItems lib origin').
  { unfold loadItems. rewrite (loadFile_sameSources origin origin'); [reflexivity|].
    apply Hsame. requested_data_file. }
  assert (Hnpcs : loadNpcs lib origin = loadNpcs lib origin').
  { unfold loadNpcs. rewrite (loadFile_sameSources origin origin'); [reflexivity|].
    apply Hsame. requested_data_file. }
  assert (Hspells : loadSpells lib origin = loadSpells lib origin').
  { unfold loadSpells. rewrite (loadFile_sameSources origin origin'); [reflexivity|].
    apply Hsame. requested_data_file. }
  assert (Hclasses : loadClasses lib origin = loadClasses lib origin').
  { unfold loadClasses. rewrite (loadFile_sameSources origin origin'); [reflexivity|].
    apply Hsame. requested_data_file. }
  assert (Hdrops : loadDrops origin = loadDrops origin').
  { unfold loadDrops. rewrite (loadTextFile_sameSources origin origin'); [reflexivity|].
    apply Hsame. requested_data_file. }
  assert (Hshops : loadShops origin = loadShops origin').
  { unfold loadShops. rewrite (loadTextFile_sameSources origin origin'); [reflexivity|].
    apply Hsame. requested_data_file. }
  assert (Hpets : loadPets origin = loadPets origin').
  { unfold loadPets. rewrite (loadTextFile_sameSources origin origin'); [reflexivity|].
    apply Hsame. requested_data_file. }
  assert (Hsd : loadSpecialDrops origin = loadSpecialDrops origin').
  { unfold loadSpecialDrops.
    rewrite (loadTextFile_sameSources origin origin'); [reflexivity|].
    apply Hsame. requested_data_file. }
  assert (Hsm : loadSpecialMobs origin = loadSpecialMobs origin').
  { unfold loadSpecialMobs.
    rewrite (loadTextFile_sameSources origin origin'); [reflexivity|].
    apply Hsame. requested_data_file. }
  assert (Hsc : loadNpcSpellcasts origin = loadNpcSpellcasts origin').
  { unfold loadNpcSpellcasts.
    rewrite (loadTextFile_sameSources origin origin'); [reflexivity|].
    apply Hsame. requested_data_file. }
  assert (Hmaps : forall sched, loadMaps lib sched origin = loadMaps lib sched origin').
  { intros sched. rewrite !loadMaps_eq. do 2 f_equal.
    apply list_fmap_ext. intros i id Hi. unfold loadMapFile.
    rewrite Hsame; [reflexivity|].
    apply elem_of_app. right. apply elem_of_app. left.
    apply list_elem_of_fmap. exists id. split; [reflexivity|].
    by eapply list_elem_of_lookup_2. }
  assert (Hquests : forall sched, loadQuests sched origin = loadQuests sched origin').
  { intros sched. rewrite !loadQuests_eq. do 2 f_equal.
    apply list_fmap_ext. intros i id Hi. unfold loadQuestFile.
    rewrite Hsame; [reflexivity|].
    apply elem_of_app. right. apply elem_of_app. right.
    apply list_elem_of_fmap. exists id. split; [reflexivity|].
    by eapply list_elem_of_lookup_2. }
  by rewrite Hitems, Hnpcs, Hspells, Hclasses, Hdrops, Hshops, Hpets, Hsd, Hsm, Hsc,
    Hmaps, Hquests.
Qed.

(** A successful build does not depend on the completion orders. *)
Lemma loadGameDatabase_any_schedule (lib : Eolib.t) (origin : Origin)
    (scheds scheds' : Schedules.t) (db : GameDatabase.t) :
  loadGameDatabase lib scheds origin = Ok db ->
  loadGameDatabase lib scheds' origin = Ok db.
Proof.
  unfold loadGameDatabase. intros Hbuild.
  apply bind_Ok in Hbuild as ([[[items npcs] spells] classes] & Hbase & Hbuild).
  apply bind_Ok in Hbuild
    as ([[[[[[[drops shops] pets] specialDrops] specialMobs] npcSpellcasts]
          mapData] quests] & Hrel & Hbuild).
  apply all4_Ok in Hbase as (-> & -> & -> & ->).
  apply all8_Ok in Hrel as (-> & -> & -> & -> & -> & -> & Hmaps & Hquests).
  rewrite loadMaps_eq in Hmaps. rewrite loadQuests_eq in Hquests.
  rewrite all4_fulfilled. cbn [bind].
  rewrite loadMaps_eq, Hmaps, loadQuests_eq, Hquests.
  rewrite all8_fulfilled. cbn [bind]. exact Hbuild.
Qed.

(** C6. The build is a function of its input sources: two runs with the
    same decoders, on origins that answer alike for the files a build
    fetches, give the same snapshot (the same tables, entity by entity, and
    the same name indices), whatever the order in which the fetches of each
    run complete. *)
Theorem C6_build_is_deterministic (lib : Eolib.t) (origin origin' : Origin)
    (scheds scheds' : Schedules.t) (db : GameDatabase.t) :
  sameSources origin origin' ->
  loadGameDatabase lib scheds origin = Ok db ->
  loadGameDatabase lib scheds' origin' = Ok db.
Proof.
  intros Hsame Hbuild.
  rewrite <- (loadGameDatabase_sameSources lib scheds' origin origin' Hsame).
  by apply (loadGameDatabase_any_schedule lib origin scheds).
Qed.

(** ** What the loaders establish *)

Lemma fold_set_wf {A K V} `{EqDecision K} (step : list (K * V) -> A -> list (K * V))
    (xs : list A) :
  (forall m x, JsMap.wf m -> JsMap.wf (step m x)) ->
  forall init, JsMap.wf init -> JsMap.wf (fold_left step xs init).
Proof.
  intros Hstep. induction xs as [|x xs IH]; intros init Hinit; simpl; auto.
Qed.

Lemma wf_empty {K V} : JsMap.wf (JsMap.empty : list (K * V)).
Proof. apply NoDup_nil_2. Qed.

(** The drop tables have distinct NPC ids. *)
Lemma parseDrops_wf (content : string) : JsMap.wf (parseDrops content).
Proof.
  unfold parseDrops. apply fold_set_wf; [|apply wf_empty].
  intros m line Hwf. unfold parseDropsLine.
  destruct (parseIniLine line) as [[key val]|]; [|assumption].
  destruct (Js.startsWith "[" key); [assumption|].
  destruct (Js.parseInt key); [|assumption].
  destruct (0 <? length (parseDropsValue val))%nat; [by apply wf_set | assumption].
Qed.

Lemma loadDrops_wf (origin : Origin) (drops : list (Z * list ItemDrop.t)) :
  loadDrops origin = Ok drops -> JsMap.wf drops.
Proof.
  unfold loadDrops. destruct (loadTextFile origin "drops.ini"); simpl.
  - intros [= <-]. apply parseDrops_wf.
  - intros [= <-]. apply wf_empty.
Qed.

(** The spellcast tables have distinct NPC ids. *)
Lemma loadNpcSpellcasts_wf (origin : Origin)
    (spellcasts : list (Z * list SpellcastInfo.t)) :
  loadNpcSpellcasts origin = Ok spellcasts -> JsMap.wf spellcasts.
Proof.
  unfold loadNpcSpellcasts. destruct (loadTextFile origin "npcspellcast.ini"); simpl;
    [|discriminate].
  intros [= <-]. apply fold_set_wf; [|apply wf_empty].
  intros m line Hwf. unfold parseNpcSpellcastsLine.
  destruct (parseIniLine line) as [[key val]|]; [|assumption].
  destruct (Js.parseInt key); [|assumption].
  destruct (0 <? length _)%nat; [by apply wf_set | assumption].
Qed.

(** A table built by [forEach] with [set] of entities that satisfy [P]. *)
Lemma forEachIndexed_table {A V} (P : Z -> V -> Prop)
    (add : list (Z * V) -> A -> nat -> list (Z * V)) (records : list A) :
  (forall m record index,
     (forall k v, JsMap.get k m = Some v -> P k v) ->
     forall k v, JsMap.get k (add m record index) = Some v -> P k v) ->
  forall k v,
    JsMap.get k (forEachIndexed add records JsMap.empty) = Some v -> P k v.
Proof.
  intros Hadd. unfold forEachIndexed.
  apply (fold_left_invariant (fun m => forall k v, JsMap.get k m = Some v -> P k v)).
  - intros m [index record] _ Hm. by apply Hadd.
  - intros k v. discriminate.
Qed.

(** The items of the loader are keyed by their id and have no sources. *)
Lemma loadItems_fresh (lib : Eolib.t) (origin : Origin) (items : Items) :
  loadItems lib origin = Ok items -> freshItems items /\ keyedItems items.
Proof.
  unfold loadItems. intros Hload.
  apply bind_Ok in Hload as (bytes & _ & Hload).
  apply bind_Ok in Hload as (eif & _ & [= <-]).
  assert (Hboth : forall k item,
            JsMap.get k (forEachIndexed addItem eif JsMap.empty) = Some item ->
            GameItem.dropsFrom item = None /\ GameItem.id item = k).
  { apply forEachIndexed_table. intros m record index Hm k item. unfold addItem.
    destruct (hasName _); [|apply Hm].
    intros Hget. apply get_set_Some in Hget as [[-> ->]|Hget]; [by split | eauto]. }
  split; intros k item Hget; by destruct (Hboth k item Hget).
Qed.

(** The NPCs of the loader are keyed by their id and have no drops. *)
Lemma loadNpcs_fresh (lib : Eolib.t) (origin : Origin) (npcs : Npcs) :
  loadNpcs lib origin = Ok npcs -> freshNpcs npcs /\ keyedNpcs npcs.
Proof.
  unfold loadNpcs. intros Hload.
  apply bind_Ok in Hload as (bytes & _ & Hload).
  apply bind_Ok in Hload as (enf & _ & [= <-]).
  assert (Hboth : forall k npc,
            JsMap.get k (forEachIndexed addNpc enf JsMap.empty) = Some npc ->
            GameNpc.drops npc = None /\ GameNpc.id npc = k).
  { apply forEachIndexed_table. intros m record index Hm k npc. unfold addNpc.
    destruct (hasName _); [|apply Hm].
    intros Hget. apply get_set_Some in Hget as [[-> ->]|Hget]; [by split | eauto]. }
  split; intros k npc Hget; by destruct (Hboth k npc Hget).
Qed.

(** The drops pass of the build runs on tables that meet the conditions of
    the mirror property. *)
Lemma drops_pass_of_the_build (lib : Eolib.t) (origin : Origin) (items : Items)
    (npcs : Npcs) (drops : list (Z * list ItemDrop.t)) :
  loadItems lib origin = Ok items ->
  loadNpcs lib origin = Ok npcs ->
  loadDrops origin = Ok drops ->
  dropsMirrored (indexDrops items npcs drops).1 (indexDrops items npcs drops).2 /\
  dropsFromMirrored (indexDrops items npcs drops).1 (indexDrops items npcs drops).2.
Proof.
  intros Hitems Hnpcs Hdrops.
  destruct (loadItems_fresh _ _ _ Hitems) as [Hfi _].
  destruct (loadNpcs_fresh _ _ _ Hnpcs) as [Hfn _].
  destruct (indexDrops_invariant items npcs drops (loadDrops_wf _ _ Hdrops) Hfi Hfn)
    as (H1 & H2 & _).
  by split.
Qed.

(** ** The properties on the examples *)

(** Facts of a concrete table, by going through its entries. *)
Ltac table_fact :=
  let k := fresh "k" in
  let x := fresh "x" in
  intros k x; cbn;
  repeat (case_decide; [intros [= <-]; subst; reflexivity|]);
  discriminate.

Ltac distinct_keys :=
  unfold JsMap.wf; cbn;
  repeat (apply NoDup_cons_2;
          [rewrite ?elem_of_cons, elem_of_nil; intros ?; intuition discriminate|]);
  apply NoDup_nil_2.

Lemma exampleDropTable_wf : JsMap.wf exampleDropTable.
Proof. distinct_keys. Qed.

Lemma exampleDropItems_fresh : freshItems exampleDropItems.
Proof. table_fact. Qed.

Lemma exampleDropItems_keyed : keyedItems exampleDropItems.
Proof. table_fact. Qed.

Lemma exampleDropNpcs_fresh : freshNpcs exampleDropNpcs.
Proof. table_fact. Qed.

Lemma exampleDropNpcs_keyed : keyedNpcs exampleDropNpcs.
Proof. table_fact. Qed.

Lemma exampleSpellcasts_wf : JsMap.wf exampleSpellcasts.
Proof. distinct_keys. Qed.

Lemma C4_drops_mirrored_on_both_sides_witness :
  dropsMirrored (indexDrops exampleDropItems exampleDropNpcs exampleDropTable).1
                (indexDrops exampleDropItems exampleDropNpcs exampleDropTable).2 /\
  dropsFromMirrored (indexDrops exampleDropItems exampleDropNpcs exampleDropTable).1
                    (indexDrops exampleDropItems exampleDropNpcs exampleDropTable).2.
Proof.
  destruct (C4_drops_mirrored_on_both_sides exampleDropItems exampleDropNpcs
              exampleDropTable exampleDropTable_wf exampleDropItems_fresh
              exampleDropNpcs_fresh exampleDropItems_keyed exampleDropNpcs_keyed)
    as (H1 & H2 & _).
  split; assumption.
Defined.

Lemma C5_no_edge_without_both_ends_witness :
  indexNpcDrops (exampleDropItems, exampleDropNpcs) (7, parseDropsValue "10,1,1,100") =
    (exampleDropItems, exampleDropNpcs) /\
  indexDrop 2 (exampleNpc 2 "Rat" 0) (exampleDropItems, exampleDropNpcs)
    (ItemDrop.mk 99 EmptyString 1 1 (Js.Finite (50 # 1))) =
    (exampleDropItems, exampleDropNpcs) /\
  indexQuestNpc (buildVendorIndex exampleQuestNpcs) exampleQuest exampleQuestNpcs
    (QuestNpc.mk 12 None None None) =
    (exampleQuestNpcs, QuestNpc.mk 12 None None None) /\
  (forall npc drop,
     JsMap.get 2 (indexDrops exampleDropItems exampleDropNpcs exampleDropTable).2
       = Some npc ->
     drop ∈ arr (GameNpc.drops npc) ->
     is_Some (JsMap.get (ItemDrop.itemId drop) exampleDropItems)).
Proof.
  destruct C5_no_edge_without_both_ends as (HA & HB & HC & _ & _ & HQ).
  split; [apply HA; reflexivity|].
  split; [apply HB; reflexivity|].
  split.
  - apply (HQ [] exampleQuestNpcs (buildVendorIndex exampleQuestNpcs) exampleQuest
             (QuestNpc.mk 12 None None None)
             (QuestRewardItem.mk 0 0 None) (QuestKill.mk 0 0 None None None)
             (QuestItemReq.mk 0 0 None)).
    reflexivity.
  - intros npc drop Hget Hin.
    destruct (HC exampleDropItems exampleDropNpcs exampleDropTable
                exampleDropTable_wf exampleDropItems_fresh exampleDropNpcs_fresh)
      as [Hnpc _].
    by destruct (Hnpc 2 npc drop Hget Hin).
Defined.

Lemma C8_first_spellcast_retained_witness :
  JsMap.get 1 (indexNpcSpellcasts exampleDropNpcs exampleSpells exampleSpellcasts) =
  Some (GameNpc.with_spellcasting
          (Some (SpellcastInfo.mk 1 "Fire" target 10 (Js.Finite (5 # 1))))
          (exampleNpc 1 "Crow" 0)).
Proof.
  destruct (C8_first_spellcast_retained exampleDropNpcs exampleSpells
              exampleSpellcasts 1 (exampleNpc 1 "Crow" 0)
              (SpellcastInfo.mk 1 EmptyString target 10 (Js.Finite (5 # 1)))
              [SpellcastInfo.mk 2 EmptyString aoe 20 (Js.Finite (5 # 2))]
              exampleSpellcasts_wf eq_refl eq_refl) as (H & _).
  exact H.
Defined.

Lemma C3_quest_npc_resolution_witness :
  exists quest',
    (indexQuests exampleQuestNpcs [] exampleQuests
       (buildVendorIndex exampleQuestNpcs)).2 !! 0%nat = Some (1, quest') /\
    GameQuest.involvedNpcs quest' !! 0%nat =
      Some (QuestNpc.mk 500 (Some "Wise Man") (Some 12) (Some 0)) /\
    GameQuest.killRequirements quest' !! 0%nat =
      Some (QuestKill.mk 12 5 (Some "Wise Man") (Some 12) (Some 0)).
Proof.
  destruct (C3_quest_npc_resolution exampleQuestNpcs [] exampleQuests 0 1
              exampleQuest eq_refl) as (_ & quest' & Hquest & Htalk & Hkill).
  exists quest'. split; [exact Hquest|]. split.
  - by destruct (Htalk 0%nat (QuestNpc.mk 500 None None None) 12
                   (exampleNpc 12 "Wise Man" 500) eq_refl eq_refl eq_refl).
  - by destruct (Hkill 0%nat (QuestKill.mk 12 5 None None None)
                   (exampleNpc 12 "Wise Man" 500) eq_refl eq_refl).
Defined.

Lemma C1_missing_special_mobs_rejects_the_build_witness :
  exists msg,
    loadGameDatabase exampleLib otherSchedules
      (withoutFile "/data/specialmobs.ini" exampleOrigin) = Error msg.
Proof.
  destruct C1_missing_special_mobs_rejects_the_build as (H & _).
  apply (H exampleLib otherSchedules
           (withoutFile "/data/specialmobs.ini" exampleOrigin)).
  exact I.
Defined.

Lemma exampleOriginPlus_sameSources : sameSources exampleOrigin exampleOriginPlus.
Proof.
  assert (Hall : Forall (fun url => url <> "/quests/00151.eqf") requestedUrls).
  { apply (bool_decide_unpack _). vm_compute. exact I. }
  rewrite Forall_forall in Hall.
  intros url Hin. unfold exampleOriginPlus.
  destruct (String.eqb url "/quests/00151.eqf") eqn:Heq; [|reflexivity].
  apply String.eqb_eq in Heq. by destruct (Hall url Hin).
Qed.

Lemma C6_build_is_deterministic_witness :
  exists db,
    loadGameDatabase exampleLib exampleSchedules exampleOrigin = Ok db /\
    loadGameDatabase exampleLib otherSchedules exampleOriginPlus = Ok db.
Proof.
  eexists. split; [vm_compute; reflexivity|].
  apply (C6_build_is_deterministic exampleLib exampleOrigin exampleOriginPlus
           exampleSchedules otherSchedules).
  - exact exampleOriginPlus_sameSources.
  - vm_compute. reflexivity.
Defined.

(** ** Every pass keeps the entities it was given *)

Lemma fold_left_same {A} (step : Items * Npcs -> A -> Items * Npcs) (l : list A) :
  (forall st a, sameItems st.1 (step st a).1 /\ sameNpcs st.2 (step st a).2) ->
  forall st,
    sameItems st.1 (fold_left step l st).1 /\ sameNpcs st.2 (fold_left step l st).2.
Proof.
  intros Hstep st.
  apply (fold_left_invariant
           (fun st' => sameItems st.1 st'.1 /\ sameNpcs st.2 st'.2)).
  - intros st' a _ [HI HN]. destruct (Hstep st' a).
    split; [by eapply sameItems_trans | by eapply sameNpcs_trans].
  - split; [apply sameItems_refl | apply sameNpcs_refl].
Qed.

Lemma fold_left_sameNpcs {A} (step : Npcs -> A -> Npcs) (l : list A) :
  (forall npcs a, sameNpcs npcs (step npcs a)) ->
  forall npcs, sameNpcs npcs (fold_left step l npcs).
Proof.
  intros Hstep npcs. apply (fold_left_invariant (fun npcs' => sameNpcs npcs npcs')).
  - intros npcs' a _ HN. eapply sameNpcs_trans; [exact HN | apply Hstep].
  - apply sameNpcs_refl.
Qed.

Lemma fold_left_sameItems {A} (step : Items -> A -> Items) (l : list A) :
  (forall items a, sameItems items (step items a)) ->
  forall items, sameItems items (fold_left step l items).
Proof.
  intros Hstep items. apply (fold_left_invariant (fun items' => sameItems items items')).
  - intros items' a _ HI. eapply sameItems_trans; [exact HI | apply Hstep].
  - apply sameItems_refl.
Qed.

Lemma indexTrade_same (shopId : Z) (shop : ShopData.t) (npc : option GameNpc.t)
    (st : Items * Npcs) (trade : Trade.t) :
  sameItems st.1 (indexTrade shopId shop npc st trade).1 /\
  sameNpcs st.2 (indexTrade shopId shop npc st trade).2.
Proof.
  destruct st as [items npcs]. unfold indexTrade.
  destruct (JsMap.get (Trade.itemId trade) items); cbn [fst snd].
  - split; [by apply sameItems_modify|].
    destruct npc; [by apply sameNpcs_modify | apply sameNpcs_refl].
  - split; [apply sameItems_refl | apply sameNpcs_refl].
Qed.

Lemma indexCraft_same (shopId : Z) (shop : ShopData.t) (npc : option GameNpc.t)
    (st : Items * Npcs) (craft : Craft.t) :
  sameItems st.1 (indexCraft shopId shop npc st craft).1 /\
  sameNpcs st.2 (indexCraft shopId shop npc st craft).2.
Proof.
  destruct st as [items npcs]. unfold indexCraft.
  destruct (JsMap.get (Craft.resultItemId craft) items); cbn [fst snd].
  - split; [by apply sameItems_modify|].
    destruct npc; [by apply sameNpcs_modify | apply sameNpcs_refl].
  - split; [apply sameItems_refl | apply sameNpcs_refl].
Qed.

Lemma indexShop_same (st : Items * Npcs) (entry : Z * ShopData.t) :
  sameItems st.1 (indexShop st entry).1 /\ sameNpcs st.2 (indexShop st entry).2.
Proof.
  destruct entry as [shopId shop]. unfold indexShop.
  destruct (fold_left_same (indexTrade shopId shop (JsMap.get shopId st.2))
              (ShopData.trades shop) (indexTrade_same _ _ _) st) as [HI HN].
  destruct (fold_left_same (indexCraft shopId shop (JsMap.get shopId st.2))
              (ShopData.crafts shop) (indexCraft_same _ _ _)
              (fold_left (indexTrade shopId shop (JsMap.get shopId st.2))
                 (ShopData.trades shop) st)) as [HI' HN'].
  split; [by eapply sameItems_trans | by eapply sameNpcs_trans].
Qed.

Lemma indexShops_same (items : Items) (npcs : Npcs) (shops : list (Z * ShopData.t)) :
  sameItems items (indexShops items npcs shops).1 /\
  sameNpcs npcs (indexShops items npcs shops).2.
Proof. apply (fold_left_same indexShop shops indexShop_same (items, npcs)). Qed.

Lemma indexPets_same (items : Items) (npcs : Npcs) (pets : list (Z * PetInfo.t)) :
  sameNpcs npcs (indexPets items npcs pets).
Proof.
  apply fold_left_sameNpcs. intros npcs' [npcId petInfo]. unfold indexPet.
  destruct (JsMap.get npcId npcs'); [|apply sameNpcs_refl].
  destruct (JsMap.get (PetInfo.itemId petInfo) items); [|apply sameNpcs_refl].
  by apply sameNpcs_modify.
Qed.

Lemma indexSpecialDrops_same (items : Items)
    (specialDrops : list (Z * SpecialDropInfo.t)) :
  sameItems items (indexSpecialDrops items specialDrops).
Proof.
  apply fold_left_sameItems. intros items' [itemId info]. unfold indexSpecialDrop.
  destruct (JsMap.get itemId items'); [by apply sameItems_modify | apply sameItems_refl].
Qed.

Lemma indexSpecialMobs_same (npcs : Npcs) (specialMobs : list SpecialSpawnInfo.t) :
  sameNpcs npcs (indexSpecialMobs npcs specialMobs).
Proof.
  apply fold_left_sameNpcs. intros npcs' spawn. unfold indexSpecialMob.
  destruct (JsMap.get _ npcs'); [by apply sameNpcs_modify | apply sameNpcs_refl].
Qed.

Lemma indexNpcSpellcasts_same (npcs : Npcs) (spells : Spells)
    (spellcasts : list (Z * list SpellcastInfo.t)) :
  sameNpcs npcs (indexNpcSpellcasts npcs spells spellcasts).
Proof.
  apply fold_left_sameNpcs. intros npcs' [npcId casts]. unfold indexNpcSpellcast.
  destruct (JsMap.get npcId npcs'); [|apply sameNpcs_refl].
  destruct (nameCast spells <$> casts); [apply sameNpcs_refl|].
  by apply sameNpcs_modify.
Qed.

Lemma indexNpcSpawns_same (npcs : Npcs) (maps : list (Z * GameMap.t))
    (npcSpawns : list MapNpcSpawn.t) :
  sameNpcs npcs (indexNpcSpawns npcs maps npcSpawns).
Proof.
  apply fold_left_sameNpcs. intros npcs' spawn. unfold indexNpcSpawn.
  destruct (JsMap.get _ npcs'); [by apply sameNpcs_modify | apply sameNpcs_refl].
Qed.

(** A loop of [forEachUpdate] keeps what each of its steps keeps. *)
Lemma forEachUpdate_keeps {S A} (R : S -> S -> Prop) (f : S -> A -> S * A) :
  (forall s, R s s) ->
  (forall s1 s2 s3, R s1 s2 -> R s2 s3 -> R s1 s3) ->
  (forall s a, R s (f s a).1) ->
  forall (l : list A) (s : S), R s (forEachUpdate f s l).1.
Proof. apply forEachUpdate_grows. Qed.

Lemma indexQuestNpc_same (npcsByVendorId : list (Z * Z)) (quest : GameQuest.t)
    (npcs : Npcs) (npcData : QuestNpc.t) :
  sameNpcs npcs (indexQuestNpc npcsByVendorId quest npcs npcData).1.
Proof.
  unfold indexQuestNpc. destruct (vendorLookup _ _ _) as [[key npc]|]; simpl;
    [by apply sameNpcs_modify | apply sameNpcs_refl].
Qed.

Lemma indexQuestKill_same (quest : GameQuest.t) (npcs : Npcs) (killReq : QuestKill.t) :
  sameNpcs npcs (indexQuestKill quest npcs killReq).1.
Proof.
  unfold indexQuestKill. destruct (JsMap.get _ _); simpl;
    [by apply sameNpcs_modify | apply sameNpcs_refl].
Qed.

Lemma indexQuestReward_same (quest : GameQuest.t) (items : Items)
    (reward : QuestRewardItem.t) :
  sameItems items (indexQuestReward quest items reward).1.
Proof.
  unfold indexQuestReward. destruct (JsMap.get _ _); simpl;
    [by apply sameItems_modify | apply sameItems_refl].
Qed.

Lemma indexQuestItemReq_same (quest : GameQuest.t) (items : Items)
    (itemReq : QuestItemReq.t) :
  sameItems items (indexQuestItemReq quest items itemReq).1.
Proof.
  unfold indexQuestItemReq. destruct (JsMap.get _ _); simpl;
    [by apply sameItems_modify | apply sameItems_refl].
Qed.

(** The four loops of [indexQuest], one after the other. *)
Lemma indexQuest_loops (npcsByVendorId : list (Z * Z)) (npcs : Npcs)
    (items : Items) (key : Z) (quest : GameQuest.t) :
  let talked :=
    forEachUpdate (indexQuestNpc npcsByVendorId quest) npcs
      (GameQuest.involvedNpcs quest) in
  let rewarded :=
    forEachUpdate (indexQuestReward quest) items (GameQuest.rewardItems quest) in
  let killed :=
    forEachUpdate (indexQuestKill quest) talked.1 (GameQuest.killRequirements quest) in
  let required :=
    forEachUpdate (indexQuestItemReq quest) rewarded.1
      (GameQuest.itemRequirements quest) in
  indexQuest npcsByVendorId (npcs, items) (key, quest) =
  ((killed.1, required.1),
   (key, GameQuest.mk (GameQuest.id quest) (GameQuest.name quest) talked.2
           rewarded.2 (GameQuest.rewardExp quest) killed.2 required.2)).
Proof.
  intros talked rewarded killed required.
  subst talked rewarded killed required. unfold indexQuest.
  destruct (forEachUpdate (indexQuestNpc _ _) _ _) as [npcs1 involved].
  destruct (forEachUpdate (indexQuestReward _) _ _) as [items1 rewards].
  cbn [fst snd].
  destruct (forEachUpdate (indexQuestKill _) _ _) as [npcs2 kills].
  by destruct (forEachUpdate (indexQuestItemReq _) _ _) as [items2 reqs].
Qed.

Lemma indexQuest_same (npcsByVendorId : list (Z * Z)) (st : Npcs * Items)
    (entry : Z * GameQuest.t) :
  sameNpcs st.1 (indexQuest npcsByVendorId st entry).1.1 /\
  sameItems st.2 (indexQuest npcsByVendorId st entry).1.2.
Proof.
  destruct st as [npcs items], entry as [key quest].
  rewrite indexQuest_loops. cbn [fst snd]. split.
  - eapply sameNpcs_trans.
    + apply (forEachUpdate_keeps sameNpcs _ sameNpcs_refl sameNpcs_trans
               (indexQuestNpc_same npcsByVendorId quest)).
    + apply (forEachUpdate_keeps sameNpcs _ sameNpcs_refl sameNpcs_trans
               (indexQuestKill_same quest)).
  - eapply sameItems_trans.
    + apply (forEachUpdate_keeps sameItems _ sameItems_refl sameItems_trans
               (indexQuestReward_same quest)).
    + apply (forEachUpdate_keeps sameItems _ sameItems_refl sameItems_trans
               (indexQuestItemReq_same quest)).
Qed.

Lemma indexQuests_same (npcs : Npcs) (items : Items)
    (quests : list (Z * GameQuest.t)) (npcsByVendorId : list (Z * Z)) :
  sameNpcs npcs (indexQuests npcs items quests npcsByVendorId).1.1 /\
  sameItems items (indexQuests npcs items quests npcsByVendorId).1.2.
Proof.
  unfold indexQuests.
  apply (forEachUpdate_keeps
           (fun st st' : Npcs * Items => sameNpcs st.1 st'.1 /\ sameItems st.2 st'.2)
           (indexQuest npcsByVendorId)).
  - intros st. split; [apply sameNpcs_refl | apply sameItems_refl].
  - intros s1 s2 s3 [H1 H2] [H3 H4].
    split; [by eapply sameNpcs_trans | by eapply sameItems_trans].
  - intros st entry. apply indexQuest_same.
Qed.

(** ** The shops pass *)

(** Reading a view after knowing it is the same. *)
Lemma same_view_Some {V B} (view : V -> B) (m m' : list (Z * V)) (k : Z) (v' : V) :
  view <$> JsMap.get k m' = view <$> JsMap.get k m ->
  JsMap.get k m' = Some v' ->
  exists v, JsMap.get k m = Some v /\ view v = view v'.
Proof.
  intros Hview Hget. rewrite Hget in Hview.
  destruct (JsMap.get k m) as [v|]; [|discriminate].
  exists v. split; [reflexivity|]. by injection Hview.
Qed.

Lemma same_view_None {V B} (view : V -> B) (m m' : list (Z * V)) (k : Z) :
  view <$> JsMap.get k m' = view <$> JsMap.get k m ->
  JsMap.get k m' = None -> JsMap.get k m = None.
Proof.
  intros Hview Hget. rewrite Hget in Hview. by destruct (JsMap.get k m).
Qed.

(** The trade listings are mirrored in a state that shows the same item
    names, listings, NPC identities and shop items. *)
Lemma tradesInvariant_sameTradeView (st st' : Items * Npcs) :
  sameTradeView st st' -> tradesInvariant st -> tradesInvariant st'.
Proof.
  destruct st as [items npcs], st' as [items' npcs'].
  intros [HI HN] [H1 H2]. cbn [fst snd] in *. split; cbn [fst snd].
  - intros k npc' s Hget Hin.
    destruct (same_view_Some _ _ _ _ _ (HN k) Hget) as (npc & Hnpc & Hv).
    injection Hv as Hid Hname Hshop.
    rewrite <- Hshop in Hin.
    destruct (H1 k npc s Hnpc Hin) as (item & shopName & Hitem & Hnm & He).
    pose proof (HI (NpcShopItem.itemId s)) as Hview. rewrite Hitem in Hview.
    destruct (JsMap.get (NpcShopItem.itemId s) items') as [item'|] eqn:Hitem';
      [|discriminate].
    injection Hview as Hname' Hsold'.
    exists item', shopName. split; [reflexivity|].
    split; [congruence|]. rewrite Hsold', <- Hid, <- Hname. exact He.
  - intros i item' e Hget Hin.
    destruct (same_view_Some _ _ _ _ _ (HI i) Hget) as (item & Hitem & Hv).
    injection Hv as Hname Hsold. rewrite <- Hsold in Hin.
    specialize (H2 i item e Hitem Hin).
    pose proof (HN (ShopInfo.shopId e)) as Hview.
    destruct (JsMap.get (ShopInfo.shopId e) npcs) as [npc|];
      destruct (JsMap.get (ShopInfo.shopId e) npcs') as [npc'|];
      try discriminate; [|exact H2].
    injection Hview as Hid' Hname' Hshop'.
    destruct H2 as (Hi & Hn & Hs). rewrite Hid', Hname', Hshop', <- Hname.
    by split.
Qed.

Lemma sameTradeView_refl (st : Items * Npcs) : sameTradeView st st.
Proof. by split. Qed.

Lemma sameTradeView_trans (a b c : Items * Npcs) :
  sameTradeView a b -> sameTradeView b c -> sameTradeView a c.
Proof.
  intros [H1 H2] [H3 H4]. split; intros k; [by rewrite H3, H1 | by rewrite H4, H2].
Qed.

Lemma indexCraft_sameTradeView (shopId : Z) (shop : ShopData.t)
    (npc : option GameNpc.t) (st : Items * Npcs) (craft : Craft.t) :
  sameTradeView st (indexCraft shopId shop npc st craft).
Proof.
  destruct st as [items npcs]. unfold indexCraft.
  destruct (JsMap.get (Craft.resultItemId craft) items); [|apply sameTradeView_refl].
  split; cbn [fst snd]; intros k.
  - by apply get_modify_proj.
  - destruct npc; [by apply get_modify_proj | reflexivity].
Qed.

(** One trade of the shop [shopId], whose NPC (if any) the loop over the
    shops looked up as [npc]. *)
Lemma indexTrade_invariant (shopId : Z) (shop : ShopData.t) (npc : option GameNpc.t)
    (st : Items * Npcs) (trade : Trade.t) :
  npcCore <$> JsMap.get shopId st.2 = npcCore <$> npc ->
  tradesInvariant st ->
  tradesInvariant (indexTrade shopId shop npc st trade).
Proof.
  destruct st as [items npcs]. unfold tradesInvariant at 1. cbn [fst snd].
  intros Hsnap [H1 H2]. unfold indexTrade.
  destruct (JsMap.get (Trade.itemId trade) items) as [item|] eqn:Hitem;
    [|by split].
  set (shopInfo := ShopInfo.mk shopId (ShopData.name shop) (GameNpc.id <$> npc)
                     (GameNpc.name <$> npc) (Trade.buyPrice trade)
                     (Trade.sellPrice trade)).
  set (fI := fun i : GameItem.t =>
               GameItem.with_soldAt (push shopInfo (GameItem.soldAt i)) i).
  set (shopItem := NpcShopItem.mk (Trade.itemId trade) (GameItem.name item)
                     (Trade.buyPrice trade) (Trade.sellPrice trade)).
  set (fN := fun n : GameNpc.t =>
               GameNpc.with_shopItems (push shopItem (GameNpc.shopItems n)) n).
  set (npcs' := match npc with
                | Some _ => JsMap.modify shopId fN npcs
                | None => npcs
                end).
  assert (Hitems : forall j x, JsMap.get j items = Some x ->
            exists x', JsMap.get j (JsMap.modify (Trade.itemId trade) fI items) = Some x' /\
                       GameItem.name x' = GameItem.name x /\
                       forall e, e ∈ arr (GameItem.soldAt x) ->
                                 e ∈ arr (GameItem.soldAt x')).
  { intros j x Hj. rewrite get_modify, Hj.
    destruct (decide (Trade.itemId trade = j)); simpl; [|eauto].
    eexists. split; [reflexivity|]. split; [reflexivity|].
    intros e0 He. simpl. apply elem_of_app. by left. }
  assert (Hnpcs : forall k x, JsMap.get k npcs = Some x ->
            exists x', JsMap.get k npcs' = Some x' /\
                       GameNpc.id x' = GameNpc.id x /\
                       GameNpc.name x' = GameNpc.name x /\
                       forall s, s ∈ arr (GameNpc.shopItems x) ->
                                 s ∈ arr (GameNpc.shopItems x')).
  { intros k x Hk. subst npcs'. destruct npc as [snap|]; [|eauto 6].
    rewrite get_modify, Hk.
    destruct (decide (shopId = k)); simpl; [|eauto 6].
    eexists. split; [reflexivity|]. repeat split.
    intros s0 Hs. simpl. apply elem_of_app. by left. }
  assert (Hnone : forall k, JsMap.get k npcs = None -> JsMap.get k npcs' = None).
  { intros k Hk. subst npcs'. destruct npc as [snap|]; [|assumption].
    rewrite get_modify, Hk. by destruct (decide (shopId = k)). }
  cbn [fst snd]. split; cbn [fst snd].
  - (* the NPC side *)
    intros k x s Hget Hin.
    assert (Hold : forall old, JsMap.get k npcs = Some old ->
              s ∈ arr (GameNpc.shopItems old) ->
              GameNpc.id x = GameNpc.id old -> GameNpc.name x = GameNpc.name old ->
              exists item0 shopName,
                JsMap.get (NpcShopItem.itemId s)
                  (JsMap.modify (Trade.itemId trade) fI items) = Some item0 /\
                NpcShopItem.itemName s = GameItem.name item0 /\
                ShopInfo.mk k shopName (Some (GameNpc.id x)) (Some (GameNpc.name x))
                  (NpcShopItem.buyPrice s) (NpcShopItem.sellPrice s)
                  ∈ arr (GameItem.soldAt item0)).
    { intros old Hgetold Hs Hid Hnm.
      destruct (H1 k old s Hgetold Hs) as (item0 & shopName & Hget0 & Hn0 & He0).
      destruct (Hitems _ _ Hget0) as (item0' & Hget0' & Hn0' & Hsup).
      exists item0', shopName. rewrite Hid, Hnm, Hn0'. auto. }
    subst npcs'. destruct npc as [snap|]; [|by apply (Hold x)].
    apply get_modify_Some in Hget as [[<- (old & Hgetold & ->)]|[Hne Hget]];
      [|by apply (Hold x)].
    apply elem_of_arr_push in Hin as [Hin | ->]; [by apply (Hold old)|].
    exists (fI item), (ShopData.name shop).
    split; [by rewrite get_modify_eq, Hitem|]. split; [reflexivity|].
    rewrite Hgetold in Hsnap. injection Hsnap as Hid Hname _ _.
    simpl. apply elem_of_app. right. apply list_elem_of_singleton.
    unfold shopInfo. simpl. by rewrite Hid, Hname.
  - (* the item side *)
    intros j x e Hget Hin.
    assert (Hold : forall old, JsMap.get j items = Some old ->
              e ∈ arr (GameItem.soldAt old) ->
              GameItem.name x = GameItem.name old ->
              match JsMap.get (ShopInfo.shopId e) npcs' with
              | None => ShopInfo.npcId e = None /\ ShopInfo.npcName e = None
              | Some npc0 =>
                  ShopInfo.npcId e = Some (GameNpc.id npc0) /\
                  ShopInfo.npcName e = Some (GameNpc.name npc0) /\
                  NpcShopItem.mk j (GameItem.name x) (ShopInfo.buyPrice e)
                    (ShopInfo.sellPrice e) ∈ arr (GameNpc.shopItems npc0)
              end).
    { intros old Hgetold He Hnm. specialize (H2 j old e Hgetold He).
      destruct (JsMap.get (ShopInfo.shopId e) npcs) as [npc0|] eqn:Hnpc0.
      - destruct (Hnpcs _ _ Hnpc0) as (npc0' & Hget0' & Hid0 & Hn0 & Hsup).
        rewrite Hget0', Hid0, Hn0, Hnm. destruct H2 as (? & ? & ?). auto.
      - by rewrite (Hnone _ Hnpc0). }
    apply get_modify_Some in Hget as [[<- (old & Hgetold & ->)]|[Hne Hget]];
      [|by apply (Hold x)].
    apply elem_of_arr_push in Hin as [Hin | ->]; [by apply (Hold old)|].
    assert (old = item) as -> by congruence.
    unfold shopInfo at 1. cbn [ShopInfo.shopId].
    subst npcs'. destruct npc as [snap|].
    + destruct (JsMap.get shopId npcs) as [cur|] eqn:Hcur; [|discriminate].
      injection Hsnap as Hid Hname _ _.
      rewrite get_modify_eq, Hcur. simpl. rewrite Hid, Hname.
      split; [reflexivity|]. split; [reflexivity|].
      apply elem_of_app. right. by apply list_elem_of_singleton.
    + destruct (JsMap.get shopId npcs); [discriminate | by split].
Qed.

Lemma npcCore_sameTradeView (st st' : Items * Npcs) (k : Z) :
  sameNpcs st.2 st'.2 ->
  npcCore <$> JsMap.get k st'.2 = npcCore <$> JsMap.get k st.2.
Proof. intros [_ H]. apply H. Qed.

(** One shop. *)
Lemma indexShop_tradesInvariant (st : Items * Npcs) (entry : Z * ShopData.t) :
  tradesInvariant st -> tradesInvariant (indexShop st entry).
Proof.
  destruct entry as [shopId shop]. intros Hinv. unfold indexShop.
  set (npc := JsMap.get shopId st.2).
  assert (Htrades :
    let st1 := fold_left (indexTrade shopId shop npc) (ShopData.trades shop) st in
    tradesInvariant st1 /\ npcCore <$> JsMap.get shopId st1.2 = npcCore <$> npc).
  { apply (fold_left_invariant
             (fun st1 => tradesInvariant st1 /\
                         npcCore <$> JsMap.get shopId st1.2 = npcCore <$> npc)).
    - intros st1 trade _ [Hi Hs]. split; [by apply indexTrade_invariant|].
      destruct (indexTrade_same shopId shop npc st1 trade) as [_ [_ HN]].
      by rewrite HN.
    - by split. }
  destruct Htrades as [Hinv1 _].
  apply (fold_left_invariant tradesInvariant); [|exact Hinv1].
  intros st2 craft _ Hinv2.
  eapply tradesInvariant_sameTradeView; [apply indexCraft_sameTradeView | exact Hinv2].
Qed.

Lemma indexShops_tradesInvariant (items : Items) (npcs : Npcs)
    (shops : list (Z * ShopData.t)) :
  freshTrades items npcs -> tradesInvariant (indexShops items npcs shops).
Proof.
  intros [Hfi Hfn]. unfold indexShops.
  apply (fold_left_invariant tradesInvariant).
  - intros st entry _. apply indexShop_tradesInvariant.
  - split; cbn [fst snd].
    + intros k npc s Hget Hin. rewrite (Hfn k npc Hget) in Hin.
      by apply elem_of_nil in Hin.
    + intros i item e Hget Hin. rewrite (Hfi i item Hget) in Hin.
      by apply elem_of_nil in Hin.
Qed.

(** ** The recipes of the shops pass *)

Lemma craftsInvariant_sameCraftView (st st' : Items * Npcs) :
  sameCraftView st st' -> craftsInvariant st -> craftsInvariant st'.
Proof.
  destruct st as [items npcs], st' as [items' npcs'].
  unfold craftsInvariant, sameCraftView. cbn [fst snd].
  intros [HI HN] (H1 & H2 & H3). split; [|split].
  - intros k npc' c Hget Hin.
    destruct (same_view_Some _ _ _ _ _ (HN k) Hget) as (npc & Hnpc & Hv).
    injection Hv as Hid Hname Hcraft.
    rewrite <- Hcraft in Hin.
    destruct (H1 k npc c Hnpc Hin) as (item & shopName & Hitem & Hnm & He).
    pose proof (HI (NpcCraftItem.resultItemId c)) as Hview. rewrite Hitem in Hview.
    destruct (JsMap.get (NpcCraftItem.resultItemId c) items') as [item'|] eqn:Hitem';
      [|discriminate].
    injection Hview as Hname' Hcrafted'.
    exists item', shopName. split; [reflexivity|].
    split; [congruence|]. rewrite Hcrafted', <- Hid, <- Hname. exact He.
  - intros i item' e Hget Hin.
    destruct (same_view_Some _ _ _ _ _ (HI i) Hget) as (item & Hitem & Hv).
    injection Hv as Hname Hcrafted. rewrite <- Hcrafted in Hin.
    specialize (H2 i item e Hitem Hin).
    pose proof (HN (CraftInfo.shopId e)) as Hview.
    destruct (JsMap.get (CraftInfo.shopId e) npcs) as [npc|];
      destruct (JsMap.get (CraftInfo.shopId e) npcs') as [npc'|];
      try discriminate; [|exact H2].
    injection Hview as Hid' Hname' Hcraft'.
    destruct H2 as (Hi & Hn & Hs). rewrite Hid', Hname', Hcraft', <- Hname.
    by split.
  - intros i item' e ingredient ingredientItem' Hget Hin Hingr Hget'.
    destruct (same_view_Some _ _ _ _ _ (HI i) Hget) as (item & Hitem & Hv).
    injection Hv as Hname Hcrafted. rewrite <- Hcrafted in Hin.
    destruct (same_view_Some _ _ _ _ _ (HI _) Hget') as (ingredientItem & Hitem' & Hv').
    injection Hv' as Hname' _.
    rewrite <- Hname'. by apply (H3 i item e).
Qed.

Lemma indexTrade_sameCraftView (shopId : Z) (shop : ShopData.t)
    (npc : option GameNpc.t) (st : Items * Npcs) (trade : Trade.t) :
  sameCraftView st (indexTrade shopId shop npc st trade).
Proof.
  destruct st as [items npcs]. unfold indexTrade.
  destruct (JsMap.get (Trade.itemId trade) items); [|by split].
  split; cbn [fst snd]; intros k.
  - by apply get_modify_proj.
  - destruct npc; [by apply get_modify_proj | reflexivity].
Qed.

(** Naming an ingredient keeps its item id, and gives it the name of its
    item when that is known. *)
Lemma nameIngredient_named (items : Items) (ingredient : CraftIngredient.t)
    (ingredientItem : GameItem.t) :
  JsMap.get (CraftIngredient.itemId (nameIngredient items ingredient)) items
    = Some ingredientItem ->
  CraftIngredient.itemName (nameIngredient items ingredient)
    = GameItem.name ingredientItem.
Proof.
  unfold nameIngredient.
  destruct (JsMap.get (CraftIngredient.itemId ingredient) items) as [x|] eqn:Hx.
  - simpl. rewrite Hx. by intros [= ->].
  - rewrite Hx. discriminate.
Qed.

(** One recipe of the shop [shopId], whose NPC (if any) the loop over the
    shops looked up as [npc]. *)
Lemma indexCraft_invariant (shopId : Z) (shop : ShopData.t) (npc : option GameNpc.t)
    (st : Items * Npcs) (craft : Craft.t) :
  npcCore <$> JsMap.get shopId st.2 = npcCore <$> npc ->
  craftsInvariant st ->
  craftsInvariant (indexCraft shopId shop npc st craft).
Proof.
  destruct st as [items npcs]. unfold craftsInvariant at 1. cbn [fst snd].
  intros Hsnap (H1 & H2 & H3). unfold indexCraft.
  destruct (JsMap.get (Craft.resultItemId craft) items) as [item|] eqn:Hitem;
    [|by split].
  set (ingredients := nameIngredient items <$> Craft.ingredients craft).
  set (craftInfo := CraftInfo.mk shopId (ShopData.name shop) (GameNpc.id <$> npc)
                      (GameNpc.name <$> npc) ingredients).
  set (fI := fun i : GameItem.t =>
               GameItem.with_craftedAt (push craftInfo (GameItem.craftedAt i)) i).
  set (craftItem := NpcCraftItem.mk (Craft.resultItemId craft) (GameItem.name item)
                      ingredients).
  set (fN := fun n : GameNpc.t =>
               GameNpc.with_craftItems (push craftItem (GameNpc.craftItems n)) n).
  set (npcs' := match npc with
                | Some _ => JsMap.modify shopId fN npcs
                | None => npcs
                end).
  assert (Hitems : forall j x, JsMap.get j items = Some x ->
            exists x', JsMap.get j (JsMap.modify (Craft.resultItemId craft) fI items) = Some x' /\
                       GameItem.name x' = GameItem.name x /\
                       forall e0, e0 ∈ arr (GameItem.craftedAt x) ->
                                  e0 ∈ arr (GameItem.craftedAt x')).
  { intros j x Hj. rewrite get_modify, Hj.
    destruct (decide (Craft.resultItemId craft = j)); simpl; [|eauto].
    eexists. split; [reflexivity|]. split; [reflexivity|].
    intros e0 He. simpl. apply elem_of_app. by left. }
  assert (Hnpcs : forall k x, JsMap.get k npcs = Some x ->
            exists x', JsMap.get k npcs' = Some x' /\
                       GameNpc.id x' = GameNpc.id x /\
                       GameNpc.name x' = GameNpc.name x /\
                       forall c, c ∈ arr (GameNpc.craftItems x) ->
                                 c ∈ arr (GameNpc.craftItems x')).
  { intros k x Hk. subst npcs'. destruct npc as [snap|]; [|eauto 6].
    rewrite get_modify, Hk.
    destruct (decide (shopId = k)); simpl; [|eauto 6].
    eexists. split; [reflexivity|]. repeat split.
    intros c0 Hc. simpl. apply elem_of_app. by left. }
  assert (Hnone : forall k, JsMap.get k npcs = None -> JsMap.get k npcs' = None).
  { intros k Hk. subst npcs'. destruct npc as [snap|]; [|assumption].
    rewrite get_modify, Hk. by destruct (decide (shopId = k)). }
  assert (Hback : forall j x', JsMap.get j (JsMap.modify (Craft.resultItemId craft) fI items) = Some x' ->
            exists x, JsMap.get j items = Some x /\ GameItem.name x' = GameItem.name x).
  { intros j x' Hj. rewrite get_modify in Hj.
    destruct (JsMap.get j items) as [x|];
      [|by destruct (decide (Craft.resultItemId craft = j))].
    exists x. split; [reflexivity|].
    destruct (decide (Craft.resultItemId craft = j)); by injection Hj as <-. }
  unfold craftsInvariant. cbn [fst snd]. split; [|split].
  - (* the NPC side *)
    intros k x c Hget Hin.
    assert (Hold : forall old, JsMap.get k npcs = Some old ->
              c ∈ arr (GameNpc.craftItems old) ->
              GameNpc.id x = GameNpc.id old -> GameNpc.name x = GameNpc.name old ->
              exists item0 shopName,
                JsMap.get (NpcCraftItem.resultItemId c)
                  (JsMap.modify (Craft.resultItemId craft) fI items) = Some item0 /\
                NpcCraftItem.resultItemName c = GameItem.name item0 /\
                CraftInfo.mk k shopName (Some (GameNpc.id x)) (Some (GameNpc.name x))
                  (NpcCraftItem.ingredients c) ∈ arr (GameItem.craftedAt item0)).
    { intros old Hgetold Hc Hid Hnm.
      destruct (H1 k old c Hgetold Hc) as (item0 & shopName & Hget0 & Hn0 & He0).
      destruct (Hitems _ _ Hget0) as (item0' & Hget0' & Hn0' & Hsup).
      exists item0', shopName. rewrite Hid, Hnm, Hn0'. auto. }
    subst npcs'. destruct npc as [snap|]; [|by apply (Hold x)].
    apply get_modify_Some in Hget as [[<- (old & Hgetold & ->)]|[Hne Hget]];
      [|by apply (Hold x)].
    apply elem_of_arr_push in Hin as [Hin | ->]; [by apply (Hold old)|].
    exists (fI item), (ShopData.name shop).
    split; [by rewrite get_modify_eq, Hitem|]. split; [reflexivity|].
    rewrite Hgetold in Hsnap. injection Hsnap as Hid Hname _ _.
    simpl. apply elem_of_app. right. apply list_elem_of_singleton.
    unfold craftInfo. simpl. by rewrite Hid, Hname.
  - (* the item side *)
    intros j x e Hget Hin.
    assert (Hold : forall old, JsMap.get j items = Some old ->
              e ∈ arr (GameItem.craftedAt old) ->
              GameItem.name x = GameItem.name old ->
              match JsMap.get (CraftInfo.shopId e) npcs' with
              | None => CraftInfo.npcId e = None /\ CraftInfo.npcName e = None
              | Some npc0 =>
                  CraftInfo.npcId e = Some (GameNpc.id npc0) /\
                  CraftInfo.npcName e = Some (GameNpc.name npc0) /\
                  NpcCraftItem.mk j (GameItem.name x) (CraftInfo.ingredients e)
                    ∈ arr (GameNpc.craftItems npc0)
              end).
    { intros old Hgetold He Hnm. specialize (H2 j old e Hgetold He).
      destruct (JsMap.get (CraftInfo.shopId e) npcs) as [npc0|] eqn:Hnpc0.
      - destruct (Hnpcs _ _ Hnpc0) as (npc0' & Hget0' & Hid0 & Hn0 & Hsup).
        rewrite Hget0', Hid0, Hn0, Hnm. destruct H2 as (? & ? & ?). auto.
      - by rewrite (Hnone _ Hnpc0). }
    apply get_modify_Some in Hget as [[<- (old & Hgetold & ->)]|[Hne Hget]];
      [|by apply (Hold x)].
    apply elem_of_arr_push in Hin as [Hin | ->]; [by apply (Hold old)|].
    assert (old = item) as -> by congruence.
    unfold craftInfo at 1. cbn [CraftInfo.shopId].
    subst npcs'. destruct npc as [snap|].
    + destruct (JsMap.get shopId npcs) as [cur|] eqn:Hcur; [|discriminate].
      injection Hsnap as Hid Hname _ _.
      rewrite get_modify_eq, Hcur. simpl. rewrite Hid, Hname.
      split; [reflexivity|]. split; [reflexivity|].
      apply elem_of_app. right. by apply list_elem_of_singleton.
    + destruct (JsMap.get shopId npcs); [discriminate | by split].
  - (* the ingredients *)
    intros j x e ingredient ingredientItem' Hget Hin Hingr Hget'.
    destruct (Hback _ _ Hget') as (ingredientItem & Hget0 & ->).
    apply get_modify_Some in Hget as [[<- (old & Hgetold & ->)]|[Hne Hget]];
      [|by apply (H3 j x e)].
    apply elem_of_arr_push in Hin as [Hin | ->]; [by apply (H3 (Craft.resultItemId craft) old e)|].
    unfold craftInfo in Hingr. cbn [CraftInfo.ingredients] in Hingr.
    unfold ingredients in Hingr.
    apply list_elem_of_fmap in Hingr as (raw & -> & _).
    by apply nameIngredient_named.
Qed.

(** One shop. *)
Lemma indexShop_craftsInvariant (st : Items * Npcs) (entry : Z * ShopData.t) :
  craftsInvariant st -> craftsInvariant (indexShop st entry).
Proof.
  destruct entry as [shopId shop]. intros Hinv. unfold indexShop.
  set (npc := JsMap.get shopId st.2).
  set (st1 := fold_left (indexTrade shopId shop npc) (ShopData.trades shop) st).
  assert (Htrades : craftsInvariant st1 /\
                    npcCore <$> JsMap.get shopId st1.2 = npcCore <$> npc).
  { apply (fold_left_invariant
             (fun st1 => craftsInvariant st1 /\
                         npcCore <$> JsMap.get shopId st1.2 = npcCore <$> npc)).
    - intros st2 trade _ [Hi Hs]. split.
      + eapply craftsInvariant_sameCraftView;
          [apply indexTrade_sameCraftView | exact Hi].
      + destruct (indexTrade_same shopId shop npc st2 trade) as [_ [_ HN]].
        by rewrite HN.
    - by split. }
  apply (fold_left_invariant
           (fun st2 => craftsInvariant st2 /\
                       npcCore <$> JsMap.get shopId st2.2 = npcCore <$> npc));
    [|exact Htrades].
  intros st2 craft _ [Hi Hs]. split; [by apply indexCraft_invariant|].
  destruct (indexCraft_same shopId shop npc st2 craft) as [_ [_ HN]].
  by rewrite HN.
Qed.

Lemma indexShops_craftsInvariant (items : Items) (npcs : Npcs)
    (shops : list (Z * ShopData.t)) :
  freshCrafts items npcs -> craftsInvariant (indexShops items npcs shops).
Proof.
  intros [Hfi Hfn]. unfold indexShops.
  apply (fold_left_invariant craftsInvariant).
  - intros st entry _. apply indexShop_craftsInvariant.
  - split; [|split]; cbn [fst snd].
    + intros k npc s Hget Hin. rewrite (Hfn k npc Hget) in Hin.
      by apply elem_of_nil in Hin.
    + intros i item e Hget Hin. rewrite (Hfi i item Hget) in Hin.
      by apply elem_of_nil in Hin.
    + intros i item e ? ? Hget Hin. rewrite (Hfi i item Hget) in Hin.
      by apply elem_of_nil in Hin.
Qed.

(** ** What each pass leaves alone

    A pass changes entities only through the setters of its own fields, so
    whatever does not read those fields shows the same before and after. *)

Lemma sameView_refl {V B} (view : V -> B) (m : list (Z * V)) : sameView view m m.
Proof. by intros k. Qed.

Lemma sameView_trans {V B} (view : V -> B) (m1 m2 m3 : list (Z * V)) :
  sameView view m1 m2 -> sameView view m2 m3 -> sameView view m1 m3.
Proof. intros H1 H2 k. by rewrite H2, H1. Qed.

Lemma sameView_modify {V B} (view : V -> B) (k : Z) (f : V -> V) (m : list (Z * V)) :
  (forall x, view (f x) = view x) -> sameView view m (JsMap.modify k f m).
Proof. intros Hf k'. by apply get_modify_proj. Qed.

Lemma sameView_Some {V B} (view : V -> B) (m m' : list (Z * V)) (k : Z) (v' : V) :
  sameView view m m' -> JsMap.get k m' = Some v' ->
  exists v, JsMap.get k m = Some v /\ view v = view v'.
Proof. intros Hview. apply same_view_Some, Hview. Qed.

Lemma sameView_Some_fwd {V B} (view : V -> B) (m m' : list (Z * V)) (k : Z) (v : V) :
  sameView view m m' -> JsMap.get k m = Some v ->
  exists v', JsMap.get k m' = Some v' /\ view v' = view v.
Proof.
  intros Hview Hget. specialize (Hview k). rewrite Hget in Hview.
  destruct (JsMap.get k m') as [v'|]; [|discriminate].
  exists v'. split; [reflexivity|]. by injection Hview.
Qed.

Lemma sameView_None {V B} (view : V -> B) (m m' : list (Z * V)) (k : Z) :
  sameView view m m' -> JsMap.get k m' = None -> JsMap.get k m = None.
Proof. intros Hview. apply (same_view_None view), Hview. Qed.

Lemma sameView_None_fwd {V B} (view : V -> B) (m m' : list (Z * V)) (k : Z) :
  sameView view m m' -> JsMap.get k m = None -> JsMap.get k m' = None.
Proof.
  intros Hview Hget. specialize (Hview k). rewrite Hget in Hview.
  by destruct (JsMap.get k m').
Qed.

Lemma fold_left_sameView {A V B} (view : V -> B)
    (step : list (Z * V) -> A -> list (Z * V)) (l : list A) :
  (forall m a, sameView view m (step m a)) ->
  forall m, sameView view m (fold_left step l m).
Proof.
  intros Hstep m. apply (fold_left_invariant (fun m' => sameView view m m')).
  - intros m' a _ H. eapply sameView_trans; [exact H | apply Hstep].
  - apply sameView_refl.
Qed.

Lemma fold_left_sameViews {A V1 V2 B1 B2} (view1 : V1 -> B1) (view2 : V2 -> B2)
    (step : list (Z * V1) * list (Z * V2) -> A -> list (Z * V1) * list (Z * V2))
    (l : list A) :
  (forall st a, sameView view1 st.1 (step st a).1 /\
                sameView view2 st.2 (step st a).2) ->
  forall st, sameView view1 st.1 (fold_left step l st).1 /\
             sameView view2 st.2 (fold_left step l st).2.
Proof.
  intros Hstep st.
  apply (fold_left_invariant
           (fun st' => sameView view1 st.1 st'.1 /\ sameView view2 st.2 st'.2)).
  - intros st' a _ [H1 H2]. destruct (Hstep st' a).
    split; by eapply sameView_trans.
  - split; apply sameView_refl.
Qed.

Section Views.
Context {BI BN : Type} (vi : GameItem.t -> BI) (vn : GameNpc.t -> BN).

Lemma indexDrops_view (items : Items) (npcs : Npcs)
    (drops : list (Z * list ItemDrop.t)) :
  (forall v x, vi (GameItem.with_dropsFrom v x) = vi x) ->
  (forall v x, vn (GameNpc.with_drops v x) = vn x) ->
  sameView vi items (indexDrops items npcs drops).1 /\
  sameView vn npcs (indexDrops items npcs drops).2.
Proof.
  intros Hi Hn. unfold indexDrops.
  apply (fold_left_sameViews vi vn indexNpcDrops drops). clear items npcs.
  intros [items npcs] [npcId npcDrops]. unfold indexNpcDrops.
  destruct (JsMap.get npcId npcs) as [npc|]; [|split; apply sameView_refl].
  destruct (fold_left_sameViews vi vn (indexDrop npcId npc) npcDrops) with
    (st := (items, JsMap.modify npcId (GameNpc.with_drops (Some [])) npcs))
    as [H1 H2].
  { intros [items' npcs'] drop. unfold indexDrop.
    destruct (JsMap.get (ItemDrop.itemId drop) items');
      [|split; apply sameView_refl].
    cbv zeta. cbn [fst snd].
    split; apply sameView_modify; intros x; [apply Hi | apply Hn]. }
  cbn [fst snd] in *. split; [exact H1|].
  eapply sameView_trans; [|exact H2]. apply sameView_modify. intros x. apply Hn.
Qed.

Lemma indexShops_view (items : Items) (npcs : Npcs) (shops : list (Z * ShopData.t)) :
  (forall v x, vi (GameItem.with_soldAt v x) = vi x) ->
  (forall v x, vi (GameItem.with_craftedAt v x) = vi x) ->
  (forall v x, vn (GameNpc.with_shopItems v x) = vn x) ->
  (forall v x, vn (GameNpc.with_craftItems v x) = vn x) ->
  sameView vi items (indexShops items npcs shops).1 /\
  sameView vn npcs (indexShops items npcs shops).2.
Proof.
  intros Hs Hc Hsi Hci. unfold indexShops.
  apply (fold_left_sameViews vi vn indexShop shops). clear items npcs.
  intros st [shopId shop]. unfold indexShop.
  set (npc := JsMap.get shopId st.2).
  destruct (fold_left_sameViews vi vn (indexTrade shopId shop npc)
              (ShopData.trades shop)) with (st := st) as [H1 H2].
  { intros [items npcs] trade. unfold indexTrade.
    destruct (JsMap.get (Trade.itemId trade) items); [|split; apply sameView_refl].
    cbn [fst snd]. split; [apply sameView_modify; intros x; apply Hs|].
    destruct npc; [apply sameView_modify; intros x; apply Hsi | apply sameView_refl]. }
  destruct (fold_left_sameViews vi vn (indexCraft shopId shop npc)
              (ShopData.crafts shop))
    with (st := fold_left (indexTrade shopId shop npc) (ShopData.trades shop) st)
    as [H3 H4].
  { intros [items npcs] craft. unfold indexCraft.
    destruct (JsMap.get (Craft.resultItemId craft) items);
      [|split; apply sameView_refl].
    cbn [fst snd]. split; [apply sameView_modify; intros x; apply Hc|].
    destruct npc; [apply sameView_modify; intros x; apply Hci | apply sameView_refl]. }
  split; by eapply sameView_trans.
Qed.

Lemma indexPets_view (items : Items) (npcs : Npcs) (pets : list (Z * PetInfo.t)) :
  (forall v x, vn (GameNpc.with_petVersion v x) = vn x) ->
  sameView vn npcs (indexPets items npcs pets).
Proof.
  intros Hn. apply fold_left_sameView. intros m [npcId petInfo]. unfold indexPet.
  destruct (JsMap.get npcId m); [|apply sameView_refl].
  destruct (JsMap.get (PetInfo.itemId petInfo) items); [|apply sameView_refl].
  apply sameView_modify. intros x. apply Hn.
Qed.

Lemma indexSpecialDrops_view (items : Items)
    (specialDrops : list (Z * SpecialDropInfo.t)) :
  (forall v x, vi (GameItem.with_isSpecialDrop v x) = vi x) ->
  sameView vi items (indexSpecialDrops items specialDrops).
Proof.
  intros Hi. apply fold_left_sameView. intros m [itemId info]. unfold indexSpecialDrop.
  destruct (JsMap.get itemId m); [|apply sameView_refl].
  apply sameView_modify. intros x. apply Hi.
Qed.

Lemma indexSpecialMobs_view (npcs : Npcs) (specialMobs : list SpecialSpawnInfo.t) :
  (forall v x, vn (GameNpc.with_isSpecialSpawn v x) = vn x) ->
  sameView vn npcs (indexSpecialMobs npcs specialMobs).
Proof.
  intros Hn. apply fold_left_sameView. intros m spawn. unfold indexSpecialMob.
  destruct (JsMap.get _ m); [|apply sameView_refl].
  apply sameView_modify. intros x. apply Hn.
Qed.

Lemma indexNpcSpellcasts_view (npcs : Npcs) (spells : Spells)
    (spellcasts : list (Z * list SpellcastInfo.t)) :
  (forall v x, vn (GameNpc.with_spellcasting v x) = vn x) ->
  sameView vn npcs (indexNpcSpellcasts npcs spells spellcasts).
Proof.
  intros Hn. apply fold_left_sameView. intros m [npcId casts].
  unfold indexNpcSpellcast.
  destruct (JsMap.get npcId m); [|apply sameView_refl].
  destruct (nameCast spells <$> casts); [apply sameView_refl|].
  apply sameView_modify. intros x. apply Hn.
Qed.

Lemma indexNpcSpawns_view (npcs : Npcs) (maps : list (Z * GameMap.t))
    (npcSpawns : list MapNpcSpawn.t) :
  (forall v x, vn (GameNpc.with_spawnsOnMaps v x) = vn x) ->
  sameView vn npcs (indexNpcSpawns npcs maps npcSpawns).
Proof.
  intros Hn. apply fold_left_sameView. intros m spawn. unfold indexNpcSpawn.
  destruct (JsMap.get _ m); [|apply sameView_refl].
  apply sameView_modify. intros x. apply Hn.
Qed.

Lemma indexQuests_view (npcs : Npcs) (items : Items)
    (quests : list (Z * GameQuest.t)) (npcsByVendorId : list (Z * Z)) :
  (forall v x, vi (GameItem.with_questRewards v x) = vi x) ->
  (forall v x, vi (GameItem.with_questRequirements v x) = vi x) ->
  (forall v x, vn (GameNpc.with_questInvolvement v x) = vn x) ->
  sameView vn npcs (indexQuests npcs items quests npcsByVendorId).1.1 /\
  sameView vi items (indexQuests npcs items quests npcsByVendorId).1.2.
Proof.
  intros Hr Hq Hn. unfold indexQuests.
  apply (forEachUpdate_keeps
           (fun st st' : Npcs * Items =>
              sameView vn st.1 st'.1 /\ sameView vi st.2 st'.2)).
  - intros st. split; apply sameView_refl.
  - intros s1 s2 s3 [H1 H2] [H3 H4]. split; by eapply sameView_trans.
  - intros [npcs0 items0] [key quest]. rewrite indexQuest_loops. cbn [fst snd].
    assert (Htalk : forall m npcData,
              sameView vn m (indexQuestNpc npcsByVendorId quest m npcData).1).
    { intros m npcData. unfold indexQuestNpc.
      destruct (vendorLookup _ _ _) as [[k0 npc]|]; simpl; [|apply sameView_refl].
      apply sameView_modify. intros x. apply Hn. }
    assert (Hkill : forall m killReq,
              sameView vn m (indexQuestKill quest m killReq).1).
    { intros m killReq. unfold indexQuestKill.
      destruct (JsMap.get _ m); simpl; [|apply sameView_refl].
      apply sameView_modify. intros x. apply Hn. }
    assert (Hreward : forall m reward,
              sameView vi m (indexQuestReward quest m reward).1).
    { intros m reward. unfold indexQuestReward.
      destruct (JsMap.get _ m); simpl; [|apply sameView_refl].
      apply sameView_modify. intros x. apply Hr. }
    assert (Hreq : forall m itemReq,
              sameView vi m (indexQuestItemReq quest m itemReq).1).
    { intros m itemReq. unfold indexQuestItemReq.
      destruct (JsMap.get _ m); simpl; [|apply sameView_refl].
      apply sameView_modify. intros x. apply Hq. }
    split.
    + eapply sameView_trans.
      * apply (forEachUpdate_keeps (sameView vn) _ (sameView_refl vn)
                 (sameView_trans vn) Htalk).
      * apply (forEachUpdate_keeps (sameView vn) _ (sameView_refl vn)
                 (sameView_trans vn) Hkill).
    + eapply sameView_trans.
      * apply (forEachUpdate_keeps (sameView vi) _ (sameView_refl vi)
                 (sameView_trans vi) Hreward).
      * apply (forEachUpdate_keeps (sameView vi) _ (sameView_refl vi)
                 (sameView_trans vi) Hreq).
Qed.

End Views.

(** ** The build as loading followed by the indexing phase *)

Lemma loadGameDatabase_indexPhase (lib : Eolib.t) (scheds : Schedules.t)
    (origin : Origin) (db : GameDatabase.t) :
  loadGameDatabase lib scheds origin = Ok db <->
  exists items npcs spells classes drops shops pets specialDrops specialMobs
         npcSpellcasts mapData quests,
    loadItems lib origin = Ok items /\ loadNpcs lib origin = Ok npcs /\
    loadSpells lib origin = Ok spells /\ loadClasses lib origin = Ok classes /\
    loadDrops origin = Ok drops /\ loadShops origin = Ok shops /\
    loadPets origin = Ok pets /\ loadSpecialDrops origin = Ok specialDrops /\
    loadSpecialMobs origin = Ok specialMobs /\
    loadNpcSpellcasts origin = Ok npcSpellcasts /\
    loadMaps lib (Schedules.mapFiles scheds) origin = Ok mapData /\
    loadQuests (Schedules.questFiles scheds) origin = Ok quests /\
    db = indexPhase items npcs spells classes drops shops pets specialDrops
           specialMobs npcSpellcasts mapData quests.
Proof.
  split.
  - unfold loadGameDatabase. intros Hbuild.
    apply bind_Ok in Hbuild as ([[[items npcs] spells] classes] & Hbase & Hbuild).
    apply bind_Ok in Hbuild
      as ([[[[[[[drops shops] pets] specialDrops] specialMobs] npcSpellcasts]
            mapData] quests] & Hrel & Hbuild).
    apply all4_Ok in Hbase as (? & ? & ? & ?).
    apply all8_Ok in Hrel as (? & ? & ? & ? & ? & ? & ? & ?).
    exists items, npcs, spells, classes, drops, shops, pets, specialDrops,
           specialMobs, npcSpellcasts, mapData, quests.
    repeat (split; [assumption|]).
    unfold indexPhase.
    destruct (indexDrops items npcs drops) as [items1 npcs1].
    destruct (indexShops items1 npcs1 shops) as [items2 npcs2].
    destruct (indexQuests _ _ _ _) as [[npcs4 items4] quests'].
    by injection Hbuild as <-.
  - intros (items & npcs & spells & classes & drops & shops & pets & specialDrops &
            specialMobs & npcSpellcasts & mapData & quests &
            Hi & Hn & Hs & Hc & Hd & Hsh & Hp & Hsd & Hsm & Hsc & Hm & Hq & ->).
    unfold loadGameDatabase.
    rewrite Hi, Hn, Hs, Hc, Hd, Hsh, Hp, Hsd, Hsm, Hsc, Hm, Hq.
    rewrite all4_fulfilled, all8_fulfilled. simpl. unfold indexPhase.
    destruct (indexDrops items npcs drops) as [items1 npcs1].
    destruct (indexShops items1 npcs1 shops) as [items2 npcs2].
    by destruct (indexQuests _ _ _ _) as [[npcs4 items4] quests'].
Qed.

(** The stages of the indexing phase, by name. *)
Lemma indexPhase_stages (items : Items) (npcs : Npcs) (spells : Spells)
    (classes : list (Z * GameClass.t))
    (drops : list (Z * list ItemDrop.t)) (shops : list (Z * ShopData.t))
    (pets : list (Z * PetInfo.t)) (specialDrops : list (Z * SpecialDropInfo.t))
    (specialMobs : list SpecialSpawnInfo.t)
    (npcSpellcasts : list (Z * list SpellcastInfo.t))
    (mapData : MapData.t) (quests : list (Z * GameQuest.t)) :
  let dropped := indexDrops items npcs drops in
  let shopped := indexShops dropped.1 dropped.2 shops in
  let petted := indexPets shopped.1 shopped.2 pets in
  let items3 := indexSpecialDrops shopped.1 specialDrops in
  let mobbed := indexSpecialMobs petted specialMobs in
  let casting := indexNpcSpellcasts mobbed spells npcSpellcasts in
  let spawned :=
    indexNpcSpawns casting (MapData.maps mapData) (MapData.npcSpawns mapData) in
  let quested := indexQuests spawned items3 quests (buildVendorIndex spawned) in
  indexPhase items npcs spells classes drops shops pets specialDrops specialMobs
    npcSpellcasts mapData quests =
  GameDatabase.mk quested.1.2 quested.1.1 spells classes (MapData.maps mapData)
    quested.2 (itemsByName quested.1.2) (npcsByName quested.1.1)
    (spellsByName spells).
Proof.
  cbv zeta. unfold indexPhase.
  destruct (indexDrops items npcs drops) as [items1 npcs1]. cbn [fst snd].
  destruct (indexShops items1 npcs1 shops) as [items2 npcs2]. cbn [fst snd].
  by destruct (indexQuests _ _ _ _) as [[npcs4 items4] quests'].
Qed.

(** ** The tables of the loaders *)

Lemma loadItems_pristine (lib : Eolib.t) (origin : Origin) (items : Items) :
  loadItems lib origin = Ok items -> pristineItems items.
Proof.
  unfold loadItems. intros Hload.
  apply bind_Ok in Hload as (bytes & _ & Hload).
  apply bind_Ok in Hload as (eif & _ & [= <-]).
  unfold pristineItems. apply forEachIndexed_table.
  intros m record index Hm k item. unfold addItem.
  destruct (hasName _) eqn:Hname; [|apply Hm].
  intros Hget. apply get_set_Some in Hget as [[-> ->]|Hget]; [|eauto].
  split; [reflexivity|]. split; [exact Hname|]. by repeat split.
Qed.

Lemma loadNpcs_pristine (lib : Eolib.t) (origin : Origin) (npcs : Npcs) :
  loadNpcs lib origin = Ok npcs -> pristineNpcs npcs.
Proof.
  unfold loadNpcs. intros Hload.
  apply bind_Ok in Hload as (bytes & _ & Hload).
  apply bind_Ok in Hload as (enf & _ & [= <-]).
  unfold pristineNpcs. apply forEachIndexed_table.
  intros m record index Hm k npc. unfold addNpc.
  destruct (hasName _) eqn:Hname; [|apply Hm].
  intros Hget. apply get_set_Some in Hget as [[-> ->]|Hget]; [|eauto].
  split; [reflexivity|]. split; [exact Hname|]. by repeat split.
Qed.

(** ** One view across several passes *)

Section ViewOfOneTable.
Context {B : Type}.

Lemma indexDrops_view_items (vi : GameItem.t -> B) (items : Items) (npcs : Npcs)
    (drops : list (Z * list ItemDrop.t)) :
  (forall v x, vi (GameItem.with_dropsFrom v x) = vi x) ->
  sameView vi items (indexDrops items npcs drops).1.
Proof. intros H. by apply (indexDrops_view vi (fun _ => tt)). Qed.

Lemma indexDrops_view_npcs (vn : GameNpc.t -> B) (items : Items) (npcs : Npcs)
    (drops : list (Z * list ItemDrop.t)) :
  (forall v x, vn (GameNpc.with_drops v x) = vn x) ->
  sameView vn npcs (indexDrops items npcs drops).2.
Proof. intros H. by apply (indexDrops_view (fun _ => tt) vn). Qed.

Lemma indexShops_view_items (vi : GameItem.t -> B) (items : Items) (npcs : Npcs)
    (shops : list (Z * ShopData.t)) :
  (forall v x, vi (GameItem.with_soldAt v x) = vi x) ->
  (forall v x, vi (GameItem.with_craftedAt v x) = vi x) ->
  sameView vi items (indexShops items npcs shops).1.
Proof. intros H1 H2. by apply (indexShops_view vi (fun _ => tt)). Qed.

Lemma indexShops_view_npcs (vn : GameNpc.t -> B) (items : Items) (npcs : Npcs)
    (shops : list (Z * ShopData.t)) :
  (forall v x, vn (GameNpc.with_shopItems v x) = vn x) ->
  (forall v x, vn (GameNpc.with_craftItems v x) = vn x) ->
  sameView vn npcs (indexShops items npcs shops).2.
Proof. intros H1 H2. by apply (indexShops_view (fun _ => tt) vn). Qed.

Lemma indexQuests_view_items (vi : GameItem.t -> B) (npcs : Npcs) (items : Items)
    (quests : list (Z * GameQuest.t)) (npcsByVendorId : list (Z * Z)) :
  (forall v x, vi (GameItem.with_questRewards v x) = vi x) ->
  (forall v x, vi (GameItem.with_questRequirements v x) = vi x) ->
  sameView vi items (indexQuests npcs items quests npcsByVendorId).1.2.
Proof. intros H1 H2. by apply (indexQuests_view vi (fun _ => tt)). Qed.

Lemma indexQuests_view_npcs (vn : GameNpc.t -> B) (npcs : Npcs) (items : Items)
    (quests : list (Z * GameQuest.t)) (npcsByVendorId : list (Z * Z)) :
  (forall v x, vn (GameNpc.with_questInvolvement v x) = vn x) ->
  sameView vn npcs (indexQuests npcs items quests npcsByVendorId).1.1.
Proof. intros H. by apply (indexQuests_view (fun _ => tt) vn). Qed.

End ViewOfOneTable.

(** A view that no pass between two stages writes is the same at both. *)
Ltac frames :=
  first
    [ apply sameView_refl
    | eapply sameView_trans;
      [| first
           [ apply indexPets_view; intros; reflexivity
           | apply indexSpecialDrops_view; intros; reflexivity
           | apply indexSpecialMobs_view; intros; reflexivity
           | apply indexNpcSpellcasts_view; intros; reflexivity
           | apply indexNpcSpawns_view; intros; reflexivity
           | apply indexDrops_view_items; intros; reflexivity
           | apply indexDrops_view_npcs; intros; reflexivity
           | apply indexShops_view_items; intros; reflexivity
           | apply indexShops_view_npcs; intros; reflexivity
           | apply indexQuests_view_items; intros; reflexivity
           | apply indexQuests_view_npcs; intros; reflexivity ] ];
      frames ].

(** The items and the NPCs of a stage have the keys and the identity of the
    loaded ones. *)
Lemma indexPhase_same (items : Items) (npcs : Npcs) (spells : Spells)
    (classes : list (Z * GameClass.t))
    (drops : list (Z * list ItemDrop.t)) (shops : list (Z * ShopData.t))
    (pets : list (Z * PetInfo.t)) (specialDrops : list (Z * SpecialDropInfo.t))
    (specialMobs : list SpecialSpawnInfo.t)
    (npcSpellcasts : list (Z * list SpellcastInfo.t))
    (mapData : MapData.t) (quests : list (Z * GameQuest.t)) :
  let db := indexPhase items npcs spells classes drops shops pets specialDrops
              specialMobs npcSpellcasts mapData quests in
  sameItems items (GameDatabase.items db) /\ sameNpcs npcs (GameDatabase.npcs db).
Proof.
  cbv zeta. rewrite indexPhase_stages. cbn [GameDatabase.items GameDatabase.npcs].
  destruct (indexDrops_same items npcs drops) as [HI1 HN1].
  destruct (indexShops_same (indexDrops items npcs drops).1
              (indexDrops items npcs drops).2 shops) as [HI2 HN2].
  match goal with
  | |- context [indexQuests ?n ?i ?q ?v] =>
      destruct (indexQuests_same n i q v) as [HN8 HI8]
  end.
  split.
  - eapply sameItems_trans; [|exact HI8].
    eapply sameItems_trans; [|apply indexSpecialDrops_same].
    by eapply sameItems_trans.
  - eapply sameNpcs_trans; [|exact HN8].
    eapply sameNpcs_trans; [|apply indexNpcSpawns_same].
    eapply sameNpcs_trans; [|apply indexNpcSpellcasts_same].
    eapply sameNpcs_trans; [|apply indexSpecialMobs_same].
    eapply sameNpcs_trans; [|apply indexPets_same].
    by eapply sameNpcs_trans.
Qed.

(** ** The passes that assign one field *)

Lemma modify_absent {V} (k : Z) (f : V -> V) (m : list (Z * V)) :
  JsMap.get k m = None -> JsMap.modify k f m = m.
Proof. unfold JsMap.modify. by intros ->. Qed.

(** A loop over the entries of a [Map] that assigns the field of the entity
    under the entry's key, when the entry gives a value: afterwards the
    field holds the value of the entity's entry, if that gives one. *)
Lemma fold_assign {V A F} (field : V -> option F) (setF : option F -> V -> V)
    (h : A -> option F) (step : list (Z * V) -> Z * A -> list (Z * V)) :
  (forall v x, field (setF v x) = v) ->
  (forall m k a,
     step m (k, a) = match h a with
                     | Some b => JsMap.modify k (setF (Some b)) m
                     | None => m
                     end) ->
  forall (entries : list (Z * A)) (m : list (Z * V)) (k : Z),
    JsMap.wf entries ->
    field <$> JsMap.get k (fold_left step entries m) =
    (fun x => match JsMap.get k entries ≫= h with
              | Some b => Some b
              | None => field x
              end) <$> JsMap.get k m.
Proof.
  intros Hfield Hstep entries.
  induction entries as [|[k0 a] rest IH]; intros m k Hwf.
  - reflexivity.
  - apply NoDup_cons in Hwf as [Hk0 Hwf]. cbn [fmap list_fmap fst] in Hk0.
    cbn [fold_left].
    rewrite (IH _ k Hwf), Hstep. cbn [JsMap.get].
    destruct (decide (k = k0)) as [->|Hne].
    + apply (get_None_keys k0 rest) in Hk0. rewrite Hk0. cbn [mbind option_bind].
      destruct (h a) as [b|]; [|reflexivity].
      rewrite get_modify_eq. destruct (JsMap.get k0 m); [|reflexivity].
      simpl. by rewrite Hfield.
    + destruct (h a) as [b|]; [|reflexivity].
      by rewrite get_modify_ne.
Qed.

(** *** Pets *)

Lemma loadPets_wf (origin : Origin) (pets : list (Z * PetInfo.t)) :
  loadPets origin = Ok pets -> JsMap.wf pets.
Proof.
  unfold loadPets. destruct (loadTextFile origin "pets.ini"); simpl; [|discriminate].
  intros [= <-]. apply fold_set_wf; [|apply wf_empty].
  intros m line Hwf. unfold parsePetsLine.
  destruct (parseIniLine line) as [[key val]|]; [|assumption].
  destruct (Js.parseInt key); [|assumption].
  destruct (Regex.exec petPattern val); [by apply wf_set | assumption].
Qed.

Lemma indexPets_get (items : Items) (npcs : Npcs) (pets : list (Z * PetInfo.t))
    (k : Z) :
  JsMap.wf pets ->
  GameNpc.petVersion <$> JsMap.get k (indexPets items npcs pets) =
  (fun npc =>
     match JsMap.get k pets ≫= (fun petInfo =>
             (fun item => PetInfo.with_itemName (GameItem.name item) petInfo)
               <$> JsMap.get (PetInfo.itemId petInfo) items) with
     | Some petInfo => Some petInfo
     | None => GameNpc.petVersion npc
     end) <$> JsMap.get k npcs.
Proof.
  unfold indexPets. apply (fold_assign GameNpc.petVersion GameNpc.with_petVersion).
  - reflexivity.
  - intros m npcId petInfo. unfold indexPet.
    destruct (JsMap.get (PetInfo.itemId petInfo) items) as [item|]; simpl.
    + destruct (JsMap.get npcId m) eqn:Hget; [reflexivity|].
      by rewrite modify_absent.
    + by destruct (JsMap.get npcId m).
Qed.

(** *** Special drops *)

Lemma loadSpecialDrops_wf (origin : Origin)
    (specialDrops : list (Z * SpecialDropInfo.t)) :
  loadSpecialDrops origin = Ok specialDrops -> JsMap.wf specialDrops.
Proof.
  unfold loadSpecialDrops.
  destruct (loadTextFile origin "specialdrops.ini"); simpl; [|discriminate].
  intros [= <-]. apply fold_set_wf; [|apply wf_empty].
  intros m line Hwf. unfold parseSpecialDropsLine.
  destruct (parseIniLine line) as [[key val]|]; [|assumption].
  destruct (Js.parseInt key); [|assumption].
  destruct (Regex.exec specialDropPattern val); [by apply wf_set | assumption].
Qed.

Lemma indexSpecialDrops_get (items : Items)
    (specialDrops : list (Z * SpecialDropInfo.t)) (k : Z) :
  JsMap.wf specialDrops ->
  GameItem.isSpecialDrop <$> JsMap.get k (indexSpecialDrops items specialDrops) =
  (fun item =>
     match JsMap.get k specialDrops with
     | Some info => Some info
     | None => GameItem.isSpecialDrop item
     end) <$> JsMap.get k items.
Proof.
  intros Hwf. unfold indexSpecialDrops.
  rewrite (fold_assign GameItem.isSpecialDrop GameItem.with_isSpecialDrop Some
             indexSpecialDrop); [|reflexivity| |exact Hwf].
  - by destruct (JsMap.get k specialDrops).
  - intros m itemId info. unfold indexSpecialDrop.
    destruct (JsMap.get itemId m) eqn:Hget; [reflexivity|].
    by rewrite modify_absent.
Qed.

(** *** Special mobs *)

Lemma indexSpecialMobs_get (npcs : Npcs) (specialMobs : list SpecialSpawnInfo.t)
    (k : Z) :
  (fun npc => (GameNpc.name npc, GameNpc.isSpecialSpawn npc))
    <$> JsMap.get k (indexSpecialMobs npcs specialMobs) =
  (fun npc =>
     (GameNpc.name npc,
      match last (specialSpawnsOf k specialMobs) with
      | Some spawn =>
          Some (SpecialSpawnInfo.with_spawnFromNpcName (GameNpc.name npc) spawn)
      | None => GameNpc.isSpecialSpawn npc
      end)) <$> JsMap.get k npcs.
Proof.
  unfold indexSpecialMobs, specialSpawnsOf.
  induction specialMobs as [|spawn l IH] using rev_ind.
  - reflexivity.
  - rewrite fold_left_app. cbn [fold_left].
    set (m := fold_left indexSpecialMob l npcs) in *.
    rewrite filter_app, filter_cons, filter_nil.
    unfold indexSpecialMob at 1.
    destruct (decide (SpecialSpawnInfo.spawnFromNpcId spawn = k)) as [Heq|Hne].
    + rewrite last_snoc. subst k.
      destruct (JsMap.get (SpecialSpawnInfo.spawnFromNpcId spawn) m)
        as [sourceNpc|] eqn:Hsource.
      * cbn [SpecialSpawnInfo.with_spawnFromNpcName SpecialSpawnInfo.spawnFromNpcId].
        rewrite get_modify_eq, Hsource.
        destruct (JsMap.get (SpecialSpawnInfo.spawnFromNpcId spawn) npcs) as [npc|];
          [|discriminate].
        simpl in *. injection IH as Hname _. by rewrite Hname.
      * rewrite Hsource.
        by destruct (JsMap.get (SpecialSpawnInfo.spawnFromNpcId spawn) npcs).
    + rewrite app_nil_r.
      destruct (JsMap.get (SpecialSpawnInfo.spawnFromNpcId spawn) m); [|exact IH].
      cbn [SpecialSpawnInfo.with_spawnFromNpcName SpecialSpawnInfo.spawnFromNpcId].
      by rewrite get_modify_ne.
Qed.

(** *** NPC spawns *)

Lemma indexNpcSpawns_get (npcs : Npcs) (maps : list (Z * GameMap.t))
    (npcSpawns : list MapNpcSpawn.t) (k : Z) :
  GameNpc.spawnsOnMaps <$> JsMap.get k (indexNpcSpawns npcs maps npcSpawns) =
  (fun npc =>
     match spawnsOf k npcSpawns with
     | [] => GameNpc.spawnsOnMaps npc
     | spawns => Some (arr (GameNpc.spawnsOnMaps npc) ++ (spawnInfoOf <$> spawns))
     end) <$> JsMap.get k npcs.
Proof.
  unfold indexNpcSpawns, spawnsOf.
  induction npcSpawns as [|spawn l IH] using rev_ind.
  - reflexivity.
  - rewrite fold_left_app. cbn [fold_left].
    set (m := fold_left indexNpcSpawn l npcs) in *.
    rewrite filter_app, filter_cons, filter_nil.
    assert (Hstep : indexNpcSpawn m spawn =
              JsMap.modify (MapNpcSpawn.npcId spawn)
                (fun n => GameNpc.with_spawnsOnMaps
                            (push (spawnInfoOf spawn) (GameNpc.spawnsOnMaps n)) n) m).
    { unfold indexNpcSpawn.
      destruct (JsMap.get (MapNpcSpawn.npcId spawn) m) eqn:Hget; [reflexivity|].
      by rewrite modify_absent. }
    rewrite Hstep.
    destruct (decide (MapNpcSpawn.npcId spawn = k)) as [Heq|Hne].
    + subst k. rewrite get_modify_eq.
      destruct (JsMap.get (MapNpcSpawn.npcId spawn) m) as [cur|];
        destruct (JsMap.get (MapNpcSpawn.npcId spawn) npcs) as [npc|];
        try discriminate; [|reflexivity].
      simpl in *. injection IH as ->. f_equal. unfold push. 
      destruct (filter _ l) as [|y r]; simpl.
      * reflexivity.
      * f_equal. by rewrite fmap_app, <- app_assoc.
    + rewrite app_nil_r, get_modify_ne by exact Hne. exact IH.
Qed.

(** ** The item side of the quest pass *)

Lemma growsItems_refl (items : Items) : growsItems items items.
Proof. intros k item Hget. exists item. auto. Qed.

Lemma growsItems_trans (a b c : Items) :
  growsItems a b -> growsItems b c -> growsItems a c.
Proof.
  intros Hab Hbc k item Hget.
  destruct (Hab k item Hget) as (item1 & Hget1 & Hcore1 & Hr1 & Hq1).
  destruct (Hbc k item1 Hget1) as (item2 & Hget2 & Hcore2 & Hr2 & Hq2).
  exists item2. split; [assumption|]. split; [congruence|]. split; auto.
Qed.

Lemma indexQuestReward_grows (quest : GameQuest.t) (items : Items)
    (reward : QuestRewardItem.t) :
  growsItems items (indexQuestReward quest items reward).1.
Proof.
  unfold indexQuestReward.
  destruct (JsMap.get (QuestRewardItem.itemId reward) items) as [found|];
    [|apply growsItems_refl].
  cbn [fst QuestRewardItem.with_itemName QuestRewardItem.itemId].
  intros k item Hget. rewrite get_modify, Hget.
  destruct (decide (QuestRewardItem.itemId reward = k)); simpl; [|eauto 6].
  eexists. split; [reflexivity|]. split; [reflexivity|]. split; [|auto].
  intros e0 He. simpl. apply elem_of_app. by left.
Qed.

Lemma indexQuestItemReq_grows (quest : GameQuest.t) (items : Items)
    (itemReq : QuestItemReq.t) :
  growsItems items (indexQuestItemReq quest items itemReq).1.
Proof.
  unfold indexQuestItemReq.
  destruct (JsMap.get (QuestItemReq.itemId itemReq) items) as [found|];
    [|apply growsItems_refl].
  cbn [fst QuestItemReq.with_itemName QuestItemReq.itemId].
  intros k item Hget. rewrite get_modify, Hget.
  destruct (decide (QuestItemReq.itemId itemReq = k)); simpl; [|eauto 6].
  eexists. split; [reflexivity|]. split; [reflexivity|]. split; [auto|].
  intros e0 He. simpl. apply elem_of_app. by left.
Qed.

Lemma growsItemState_refl (st : Npcs * Items) : growsItemState st st.
Proof. apply growsItems_refl. Qed.

Lemma growsItemState_trans (a b c : Npcs * Items) :
  growsItemState a b -> growsItemState b c -> growsItemState a c.
Proof. apply growsItems_trans. Qed.

Lemma indexQuest_growsItems (npcsByVendorId : list (Z * Z)) (st : Npcs * Items)
    (entry : Z * GameQuest.t) :
  growsItemState st (indexQuest npcsByVendorId st entry).1.
Proof.
  destruct st as [npcs items], entry as [key quest]. unfold growsItemState.
  rewrite indexQuest_loops. cbn [fst snd].
  eapply growsItems_trans.
  - apply (forEachUpdate_grows growsItems _ growsItems_refl growsItems_trans
             (indexQuestReward_grows quest)).
  - apply (forEachUpdate_grows growsItems _ growsItems_refl growsItems_trans
             (indexQuestItemReq_grows quest)).
Qed.

(** A reward of [quest] at the state [items]: what becomes of the reward
    and of the item it names. *)
Lemma indexQuestReward_at (quest : GameQuest.t) (items0 items : Items)
    (reward : QuestRewardItem.t) :
  growsItems items0 items ->
  match JsMap.get (QuestRewardItem.itemId reward) items0 with
  | Some item =>
      (indexQuestReward quest items reward).2 =
        QuestRewardItem.with_itemName (GameItem.name item) reward /\
      exists item',
        JsMap.get (QuestRewardItem.itemId reward)
          (indexQuestReward quest items reward).1 = Some item' /\
        itemCore item' = itemCore item /\
        QuestReward.mk (GameQuest.id quest) (GameQuest.name quest)
          (QuestRewardItem.amount reward) ∈ arr (GameItem.questRewards item')
  | None => True
  end.
Proof.
  intros Hgrows.
  destruct (JsMap.get (QuestRewardItem.itemId reward) items0) as [item|] eqn:Hget0;
    [|exact I].
  destruct (Hgrows _ _ Hget0) as (cur & Hcur & Hcore & _).
  unfold indexQuestReward. rewrite Hcur.
  cbn [fst snd QuestRewardItem.with_itemName QuestRewardItem.itemId
       QuestRewardItem.amount].
  injection Hcore as Hid Hname Hgraphic. rewrite Hname. split; [reflexivity|].
  rewrite get_modify_eq, Hcur. simpl. eexists. split; [reflexivity|].
  split; [unfold itemCore; simpl; congruence|].
  simpl. apply elem_of_app. right. by apply list_elem_of_singleton.
Qed.

Lemma indexQuestItemReq_at (quest : GameQuest.t) (items0 items : Items)
    (itemReq : QuestItemReq.t) :
  growsItems items0 items ->
  match JsMap.get (QuestItemReq.itemId itemReq) items0 with
  | Some item =>
      (indexQuestItemReq quest items itemReq).2 =
        QuestItemReq.with_itemName (GameItem.name item) itemReq /\
      exists item',
        JsMap.get (QuestItemReq.itemId itemReq)
          (indexQuestItemReq quest items itemReq).1 = Some item' /\
        itemCore item' = itemCore item /\
        QuestRequirement.mk (GameQuest.id quest) (GameQuest.name quest)
          (QuestItemReq.count itemReq) ∈ arr (GameItem.questRequirements item')
  | None => True
  end.
Proof.
  intros Hgrows.
  destruct (JsMap.get (QuestItemReq.itemId itemReq) items0) as [item|] eqn:Hget0;
    [|exact I].
  destruct (Hgrows _ _ Hget0) as (cur & Hcur & Hcore & _).
  unfold indexQuestItemReq. rewrite Hcur.
  cbn [fst snd QuestItemReq.with_itemName QuestItemReq.itemId QuestItemReq.count].
  injection Hcore as Hid Hname Hgraphic. rewrite Hname. split; [reflexivity|].
  rewrite get_modify_eq, Hcur. simpl. eexists. split; [reflexivity|].
  split; [unfold itemCore; simpl; congruence|].
  simpl. apply elem_of_app. right. by apply list_elem_of_singleton.
Qed.

(** An item that is not in the table is in no later table either. *)
Lemma growsItems_None (items items' : Items) (k : Z) :
  sameItems items items' -> JsMap.get k items = None -> JsMap.get k items' = None.
Proof.
  intros [_ Hsame] Hnone. specialize (Hsame k). rewrite Hnone in Hsame.
  by destruct (JsMap.get k items').
Qed.

(** ** The pub loaders *)

Lemma forEachIndexed_snoc {A T} (f : T -> A -> nat -> T) (records : list A) (x : A)
    (init : T) :
  forEachIndexed f (records ++ [x]) init =
  f (forEachIndexed f records init) x (length records).
Proof.
  unfold forEachIndexed. rewrite imap_app, fold_left_app. simpl.
  by rewrite Nat.add_0_r.
Qed.

(** A table built by [forEach((record, index) => ...)] that stores the
    entity made of a record under [index + 1]. *)
Lemma forEachIndexed_get {A V} (make : A -> nat -> V) (named : A -> bool)
    (add : list (Z * V) -> A -> nat -> list (Z * V)) :
  (forall m record index,
     add m record index =
     if named record then JsMap.set (Z.of_nat index + 1) (make record index) m
     else m) ->
  forall (records : list A) (k : Z),
    JsMap.get k (forEachIndexed add records JsMap.empty) =
    recordAt make named records k.
Proof.
  intros Hadd records k. unfold recordAt.
  induction records as [|x l IH] using rev_ind.
  - change (JsMap.get k (forEachIndexed add [] JsMap.empty)) with (@None V).
    destruct (decide (1 <= k)); [|reflexivity].
    by destruct (Z.to_nat (k - 1)).
  - rewrite forEachIndexed_snoc, Hadd.
    destruct (decide (k = Z.of_nat (length l) + 1)) as [->|Hne].
    + rewrite decide_True by lia.
      replace (Z.to_nat (Z.of_nat (length l) + 1 - 1)) with (length l) by lia.
      rewrite list_lookup_middle by reflexivity.
      destruct (named x); [apply get_set_eq|].
      rewrite IH, decide_True by lia.
      replace (Z.to_nat (Z.of_nat (length l) + 1 - 1)) with (length l) by lia.
      by rewrite lookup_ge_None_2.
    + assert (Hrest : JsMap.get k
                (if named x
                 then JsMap.set (Z.of_nat (length l) + 1) (make x (length l))
                        (forEachIndexed add l JsMap.empty)
                 else forEachIndexed add l JsMap.empty) =
              JsMap.get k (forEachIndexed add l JsMap.empty)).
      { destruct (named x); [|reflexivity]. apply get_set_ne. congruence. }
      rewrite Hrest, IH. destruct (decide (1 <= k)) as [Hk|]; [|reflexivity].
      destruct (decide (Z.to_nat (k - 1) < length l)%nat) as [Hlt|Hge].
      * by rewrite lookup_app_l.
      * rewrite !lookup_ge_None_2; [reflexivity| |lia].
        rewrite length_app. simpl. lia.
Qed.

Lemma loadFile_Ok (origin : Origin) (path bytes : string) :
  loadFile origin path = Ok bytes ->
  exists statusText,
    origin (DATA_PATH +:+ "/" +:+ path) = HttpResponse true statusText bytes.
Proof.
  unfold loadFile.
  destruct (origin (DATA_PATH +:+ "/" +:+ path)) as [msg|[|] statusText body];
    simpl; [discriminate| |discriminate].
  intros [= ->]. eauto.
Qed.

(** X10. The id of an entity is the position of its record in its pub file,
    counted from 1: a table loaded from a pub file holds, under an id, the
    entity made of the record at that position when the record's name is not
    blank, and nothing otherwise. A blank record leaves a gap; later ids are
    not renumbered. This holds of the items, NPCs, spells and classes. *)
Theorem X10_pub_ids_are_file_positions (lib : Eolib.t) (origin : Origin) :
  (forall items,
     loadItems lib origin = Ok items ->
     exists statusText bytes eif,
       origin "/data/dat001.eif" = HttpResponse true statusText bytes /\
       Eolib.Eif_deserialize lib bytes = Ok eif /\
       forall k, JsMap.get k items =
                 recordAt itemOfRecord (fun r => hasName (EifRecord.name r)) eif k) /\
  (forall npcs,
     loadNpcs lib origin = Ok npcs ->
     exists statusText bytes enf,
       origin "/data/dtn001.enf" = HttpResponse true statusText bytes /\
       Eolib.Enf_deserialize lib bytes = Ok enf /\
       forall k, JsMap.get k npcs =
                 recordAt npcOfRecord (fun r => hasName (EnfRecord.name r)) enf k) /\
  (forall spells,
     loadSpells lib origin = Ok spells ->
     exists statusText bytes esf,
       origin "/data/dsl001.esf" = HttpResponse true statusText bytes /\
       Eolib.Esf_deserialize lib bytes = Ok esf /\
       forall k, JsMap.get k spells =
                 recordAt spellOfRecord (fun r => hasName (EsfRecord.name r)) esf k) /\
  (forall classes,
     loadClasses lib origin = Ok classes ->
     exists statusText bytes ecf,
       origin "/data/dat001.ecf" = HttpResponse true statusText bytes /\
       Eolib.Ecf_deserialize lib bytes = Ok ecf /\
       forall k, JsMap.get k classes =
                 recordAt classOfRecord (fun r => hasName (EcfRecord.name r)) ecf k).
Proof.
  split; [|split; [|split]].
  - intros items Hload. unfold loadItems in Hload.
    apply bind_Ok in Hload as (bytes & Hfile & Hload).
    apply bind_Ok in Hload as (eif & Hdecode & [= <-]).
    apply loadFile_Ok in Hfile as [statusText Hfile].
    exists statusText, bytes, eif. split; [exact Hfile|]. split; [exact Hdecode|].
    intros k. by apply forEachIndexed_get.
  - intros npcs Hload. unfold loadNpcs in Hload.
    apply bind_Ok in Hload as (bytes & Hfile & Hload).
    apply bind_Ok in Hload as (enf & Hdecode & [= <-]).
    apply loadFile_Ok in Hfile as [statusText Hfile].
    exists statusText, bytes, enf. split; [exact Hfile|]. split; [exact Hdecode|].
    intros k. by apply forEachIndexed_get.
  - intros spells Hload. unfold loadSpells in Hload.
    apply bind_Ok in Hload as (bytes & Hfile & Hload).
    apply bind_Ok in Hload as (esf & Hdecode & [= <-]).
    apply loadFile_Ok in Hfile as [statusText Hfile].
    exists statusText, bytes, esf. split; [exact Hfile|]. split; [exact Hdecode|].
    intros k. by apply forEachIndexed_get.
  - intros classes Hload. unfold loadClasses in Hload.
    apply bind_Ok in Hload as (bytes & Hfile & Hload).
    apply bind_Ok in Hload as (ecf & Hdecode & [= <-]).
    apply loadFile_Ok in Hfile as [statusText Hfile].
    exists statusText, bytes, ecf. split; [exact Hfile|]. split; [exact Hdecode|].
    intros k. by apply forEachIndexed_get.
Qed.

Lemma X10_pub_ids_are_file_positions_witness :
  exists items,
    loadItems gappedLib exampleOrigin = Ok items /\
    JsMap.get 1 items = Some (itemOfRecord (exampleRecord "Gold") 0) /\
    JsMap.get 2 items = None /\
    JsMap.get 3 items = Some (itemOfRecord (exampleRecord "Potion") 2) /\
    JsMap.get 4 items = None /\ JsMap.get 0 items = None.
Proof.
  eexists. split; [reflexivity|].
  destruct (X10_pub_ids_are_file_positions gappedLib exampleOrigin) as (H & _).
  destruct (H _ eq_refl) as (statusText & bytes & eif & Hfile & Hdecode & Hget).
  injection Hdecode as <-.
  rewrite !Hget. by repeat split.
Defined.

(** ** The scans of the map and quest loaders *)

Lemma set_absent {V} (k : Z) (v : V) (m : list (Z * V)) :
  JsMap.get k m = None -> JsMap.set k v m = m ++ [(k, v)].
Proof.
  induction m as [|[k' v'] m IH]; simpl; [reflexivity|].
  destruct (decide (k = k')); [discriminate|]. intros Hget. by rewrite IH.
Qed.

Lemma get_app_None {V} (k : Z) (m1 m2 : list (Z * V)) :
  JsMap.get k m1 = None -> JsMap.get k m2 = None -> JsMap.get k (m1 ++ m2) = None.
Proof.
  intros H1 H2. induction m1 as [|[k' v'] m1 IH]; simpl in *; [exact H2|].
  destruct (decide (k = k')); [discriminate | by apply IH].
Qed.

(** A scan that stores what it finds for an id under that id: the table
    lists the ids with a find, in the order of the scan. *)
Lemma scan_table {V} (find : Z -> option V) (ids : list Z) :
  NoDup ids ->
  forall init,
    (forall id, id ∈ ids -> JsMap.get id init = None) ->
    fold_left (fun acc id => match find id with
                             | Some v => JsMap.set id v acc
                             | None => acc
                             end) ids init =
    init ++ omap (fun id => (fun v => (id, v)) <$> find id) ids.
Proof.
  induction ids as [|id ids IH]; intros Hnodup init Hfresh.
  - by rewrite app_nil_r.
  - apply NoDup_cons in Hnodup as [Hid Hnodup]. simpl.
    destruct (find id) as [v|] eqn:Hfind; simpl.
    + rewrite IH; [|exact Hnodup|].
      * rewrite set_absent by (apply Hfresh, elem_of_cons; by left). by rewrite <- app_assoc.
      * intros id' Hin. rewrite get_set_ne; [apply Hfresh, elem_of_cons; by right|].
        intros ->. contradiction.
    + apply IH; [exact Hnodup|]. intros id' Hin. apply Hfresh, elem_of_cons. by right.
Qed.

Lemma addMap_decoded (lib : Eolib.t) (origin : Origin) (acc : MapData.t) (id : Z) :
  addMap lib acc (id, loadMapFile origin id) =
  match decodedMap lib origin id with
  | Some emf =>
      MapData.mk (JsMap.set id (GameMap.mk id (mapNameOf id emf)) (MapData.maps acc))
        (MapData.npcSpawns acc ++ (spawnOfNpc id (mapNameOf id emf) <$> Emf.npcs emf))
  | None => acc
  end.
Proof.
  unfold addMap, decodedMap. destruct (loadMapFile origin id) as [data|]; [|reflexivity].
  destruct (String.length data <? 10)%nat; [reflexivity|].
  by destruct (Eolib.Emf_deserialize lib data).
Qed.

Lemma scan_maps (lib : Eolib.t) (origin : Origin) (ids : list Z) :
  NoDup ids ->
  forall acc,
    (forall id, id ∈ ids -> JsMap.get id (MapData.maps acc) = None) ->
    fold_left (addMap lib) ((fun i => (i, loadMapFile origin i)) <$> ids) acc =
    MapData.mk
      (MapData.maps acc ++
       omap (fun id => (fun emf => (id, GameMap.mk id (mapNameOf id emf)))
                         <$> decodedMap lib origin id) ids)
      (MapData.npcSpawns acc ++
       (ids ≫= fun id => match decodedMap lib origin id with
                         | Some emf => spawnOfNpc id (mapNameOf id emf) <$> Emf.npcs emf
                         | None => []
                         end)).
Proof.
  induction ids as [|id ids IH]; intros Hnodup acc Hfresh.
  - simpl. rewrite !app_nil_r. by destruct acc.
  - apply NoDup_cons in Hnodup as [Hid Hnodup].
    rewrite fmap_cons. cbn [fold_left]. rewrite addMap_decoded. simpl.
    destruct (decodedMap lib origin id) as [emf|] eqn:Hfind; simpl.
    + rewrite IH; [|exact Hnodup|]; cbn [MapData.maps MapData.npcSpawns].
      * rewrite set_absent by (apply Hfresh, elem_of_cons; by left).
        by rewrite <- !app_assoc.
      * intros id' Hin. rewrite get_set_ne; [apply Hfresh, elem_of_cons; by right|].
        intros ->. contradiction.
    + rewrite IH; [reflexivity | exact Hnodup|].
      intros id' Hin. apply Hfresh, elem_of_cons. by right.
Qed.

(** What the map loader gives. *)
Lemma loadMaps_content (lib : Eolib.t) (sched : Promise.Schedule) (origin : Origin) :
  loadMaps lib sched origin =
  Ok (MapData.mk
        (omap (fun id => (fun emf => (id, GameMap.mk id (mapNameOf id emf)))
                           <$> decodedMap lib origin id) mapIds)
        (mapIds ≫= fun id =>
           match decodedMap lib origin id with
           | Some emf => spawnOfNpc id (mapNameOf id emf) <$> Emf.npcs emf
           | None => []
           end)).
Proof.
  rewrite loadMaps_eq. f_equal.
  by rewrite (scan_maps lib origin mapIds (NoDup_idRange 0 400)).
Qed.

(** X11. The map loader always gives a result, which is exactly this: the
    maps are those ids of 0 to 400, in ascending order, whose file is served,
    has at least ten bytes and is accepted by the decoder, each under its own
    id and named by the file, or Map and the id when the file has no name;
    the spawns are the NPCs of those maps in the same order, each carrying
    the id and the name of its map. A file that is missing, short or
    malformed is skipped and affects nothing else. *)
Theorem X11_loaded_maps (lib : Eolib.t) (sched : Promise.Schedule) (origin : Origin) :
  loadMaps lib sched origin =
  Ok (MapData.mk
        (omap (fun id => (fun emf => (id, GameMap.mk id (mapNameOf id emf)))
                           <$> decodedMap lib origin id) mapIds)
        (mapIds ≫= fun id =>
           match decodedMap lib origin id with
           | Some emf => spawnOfNpc id (mapNameOf id emf) <$> Emf.npcs emf
           | None => []
           end)).
Proof. apply loadMaps_content. Qed.

Lemma addQuest_parsed (origin : Origin) (quests : list (Z * GameQuest.t)) (id : Z) :
  addQuest quests (id, loadQuestFile origin id) =
  match parsedQuest origin id with
  | Some quest => JsMap.set id quest quests
  | None => quests
  end.
Proof.
  unfold addQuest, parsedQuest.
  destruct (loadQuestFile origin id) as [content|]; [|reflexivity].
  by destruct (Js.truthy content).
Qed.

(** What the quest loader gives. *)
Lemma loadQuests_content (sched : Promise.Schedule) (origin : Origin) :
  loadQuests sched origin =
  Ok (omap (fun id => (fun quest => (id, quest)) <$> parsedQuest origin id) questIds).
Proof.
  rewrite loadQuests_eq. f_equal.
  transitivity (fold_left (fun acc id => match parsedQuest origin id with
                                         | Some quest => JsMap.set id quest acc
                                         | None => acc
                                         end) questIds JsMap.empty).
  - generalize (JsMap.empty : list (Z * GameQuest.t)).
    induction questIds as [|id ids IH]; intros init; [reflexivity|].
    rewrite fmap_cons. cbn [fold_left]. by rewrite addQuest_parsed, IH.
  - by rewrite (scan_table (parsedQuest origin) questIds (NoDup_idRange 1 150)
                  JsMap.empty).
Qed.

(** X12. The quest loader always gives a result, which is exactly this: the
    quests are those ids of 1 to 150, in ascending order, whose file is
    served, is not empty and parses to a quest, each under its own id. A file
    that is missing, empty or holds no quest is skipped and affects nothing
    else. *)
Theorem X12_loaded_quests (sched : Promise.Schedule) (origin : Origin) :
  loadQuests sched origin =
  Ok (omap (fun id => (fun quest => (id, quest)) <$> parsedQuest origin id) questIds).
Proof. apply loadQuests_content. Qed.

(** ** The quest parser *)

Lemma Forall_set {V} (P : Z * V -> Prop) (k : Z) (v : V) (m : list (Z * V)) :
  Forall P m -> P (k, v) -> Forall P (JsMap.set k v m).
Proof.
  intros Hm Hkv. induction Hm as [|[k' v'] m Hx Hm IH]; simpl.
  - by constructor.
  - destruct (decide (k = k')); constructor; auto.
Qed.

Lemma npcReference_invariant (word trimmed : string)
    (involvedNpcs : list (Z * QuestNpc.t)) :
  JsMap.wf involvedNpcs /\
  Forall (fun entry : Z * QuestNpc.t =>
            0 < entry.1 /\ entry.2 = QuestNpc.mk entry.1 None None None)
         involvedNpcs ->
  JsMap.wf (npcReference word trimmed involvedNpcs) /\
  Forall (fun entry : Z * QuestNpc.t =>
            0 < entry.1 /\ entry.2 = QuestNpc.mk entry.1 None None None)
         (npcReference word trimmed involvedNpcs).
Proof.
  intros [Hwf Hall]. unfold npcReference.
  destruct (Regex.exec (call1Pattern word) trimmed) as [m|]; [|by split].
  destruct (0 <? Regex.captureInt 1 m) eqn:Hpos; [|by split].
  apply Z.ltb_lt in Hpos. split; [by apply wf_set|].
  apply Forall_set; [exact Hall | by split].
Qed.

Lemma parseQuestLine_invariant (st : QuestParse.t) (line : string) :
  questParseInvariant st -> questParseInvariant (parseQuestLine st line).
Proof.
  intros (Hwf & Hnpcs & Hrewards & Hkills & Hreqs).
  unfold parseQuestLine, questParseInvariant.
  cbn [QuestParse.involvedNpcs QuestParse.rewardItems QuestParse.killRequirements
       QuestParse.itemRequirements].
  assert (Hrefs := npcReference_invariant "TalkedToNpc" (Js.trim line) _
            (npcReference_invariant "AddNpcChat" (Js.trim line) _
               (npcReference_invariant "AddNpcInput" (Js.trim line) _
                  (npcReference_invariant "AddNpcText" (Js.trim line) _
                     (conj Hwf Hnpcs))))).
  destruct Hrefs as [Hwf' Hnpcs'].
  split; [exact Hwf'|]. split; [exact Hnpcs'|]. split; [|split].
  - destruct (Regex.exec (call2Pattern "GiveItem") _); [|exact Hrewards].
    apply Forall_app. split; [exact Hrewards | by repeat constructor].
  - destruct (Regex.exec (call2Pattern "KilledNpcs") _); [|exact Hkills].
    apply Forall_app. split; [exact Hkills | by repeat constructor].
  - destruct (Regex.exec (call2Pattern "LostItems") _); [|exact Hreqs].
    apply Forall_app. split; [exact Hreqs | by repeat constructor].
Qed.

(** X13. A quest that the quest parser returns has the id it was asked for;
    its dialogue NPCs have positive ids and each id occurs once, however
    often the file names it; the parser resolves nothing: no reference
    carries a name, a primary id or a graphic; and a quest is returned only
    if the file gives it a name or at least one dialogue NPC. *)
Theorem X13_parsed_quest_is_unresolved (id : Z) (content : string)
    (quest : GameQuest.t) :
  parseQuestDSL id content = Some quest ->
  GameQuest.id quest = id /\
  NoDup (QuestNpc.npcId <$> GameQuest.involvedNpcs quest) /\
  Forall (fun n => 0 < QuestNpc.npcId n /\
                   n = QuestNpc.mk (QuestNpc.npcId n) None None None)
         (GameQuest.involvedNpcs quest) /\
  Forall (fun r => QuestRewardItem.itemName r = None) (GameQuest.rewardItems quest) /\
  Forall (fun r => r = QuestKill.mk (QuestKill.npcId r) (QuestKill.count r)
                        None None None)
         (GameQuest.killRequirements quest) /\
  Forall (fun r => QuestItemReq.itemName r = None)
         (GameQuest.itemRequirements quest) /\
  (GameQuest.name quest = "Quest " +:+ Js.toString id ->
   GameQuest.involvedNpcs quest <> []).
Proof.
  unfold parseQuestDSL.
  set (st := fold_left parseQuestLine (Js.split LF content) _).
  assert (Hinv : questParseInvariant st).
  { apply (fold_left_invariant questParseInvariant).
    - intros st' line _. apply parseQuestLine_invariant.
    - split; [apply wf_empty|]. by repeat split. }
  destruct Hinv as (Hwf & Hnpcs & Hrewards & Hkills & Hreqs).
  destruct (String.eqb (QuestParse.name st) _ && _) eqn:Hnone; [discriminate|].
  intros [= <-].
  cbn [GameQuest.id GameQuest.name GameQuest.involvedNpcs GameQuest.rewardItems
       GameQuest.killRequirements GameQuest.itemRequirements].
  split; [reflexivity|].
  assert (Hids : QuestNpc.npcId <$> JsMap.values (QuestParse.involvedNpcs st) =
                 JsMap.keys (QuestParse.involvedNpcs st)).
  { unfold JsMap.values, JsMap.keys. clear Hwf Hnone.
    induction Hnpcs as [|[k n] m [_ Hn] Hm IH]; [reflexivity|].
    simpl in *. rewrite Hn at 1. simpl. f_equal. exact IH. }
  split; [by rewrite Hids|]. split.
  - unfold JsMap.values. clear Hwf Hnone Hids.
    induction Hnpcs as [|[k n] m [Hk Hn] Hm IH]; [constructor|].
    simpl in *. constructor; [|exact IH]. rewrite Hn. simpl. by split.
  - split; [exact Hrewards|]. split; [exact Hkills|]. split; [exact Hreqs|].
    intros Hname Hnil. rewrite Hname, String.eqb_refl in Hnone. simpl in Hnone.
    unfold JsMap.values, JsMap.size in *.
    destruct (QuestParse.involvedNpcs st); [discriminate Hnone | discriminate Hnil].
Qed.

Lemma X13_parsed_quest_is_unresolved_witness :
  exists quest,
    parseQuestDSL 7 exampleRepeatedQuestText = Some quest /\
    GameQuest.id quest = 7 /\
    GameQuest.involvedNpcs quest =
      [QuestNpc.mk 500 None None None; QuestNpc.mk 3 None None None] /\
    NoDup (QuestNpc.npcId <$> GameQuest.involvedNpcs quest).
Proof.
  eexists. split; [vm_compute; reflexivity|].
  destruct (X13_parsed_quest_is_unresolved 7 exampleRepeatedQuestText _
              ltac:(vm_compute; reflexivity)) as (Hid & Hnodup & _).
  split; [exact Hid|]. split; [reflexivity | exact Hnodup].
Defined.

(** ** Properties of the published database *)

(** The stages of a successful build. *)
Ltac build_stages Hbuild :=
  apply loadGameDatabase_indexPhase in Hbuild
    as (items & npcs & spells & classes & drops & shops & pets & specialDrops &
        specialMobs & npcSpellcasts & mapData & quests &
        Hitems & Hnpcs & Hspells & Hclasses & Hdrops & Hshops & Hpets &
        HspecialDrops & HspecialMobs & HnpcSpellcasts & HmapData & Hquests & ->);
  rewrite indexPhase_stages;
  cbn [GameDatabase.items GameDatabase.npcs GameDatabase.spells
       GameDatabase.classes GameDatabase.maps GameDatabase.quests
       GameDatabase.itemsByName GameDatabase.npcsByName GameDatabase.spellsByName].

(** X1. A successful build publishes the entities of the four pub files as
    they were loaded: the items and the NPCs under the same keys in the same
    order, each with the id, name, graphic (and NPC behaviour) and stats it
    was loaded with, and the spells and classes unchanged. *)
Theorem X1_build_publishes_loaded_entities (lib : Eolib.t) (scheds : Schedules.t)
    (origin : Origin) (db : GameDatabase.t) :
  loadGameDatabase lib scheds origin = Ok db ->
  exists items npcs,
    loadItems lib origin = Ok items /\
    loadNpcs lib origin = Ok npcs /\
    loadSpells lib origin = Ok (GameDatabase.spells db) /\
    loadClasses lib origin = Ok (GameDatabase.classes db) /\
    JsMap.keys (GameDatabase.items db) = JsMap.keys items /\
    sameView itemRecord items (GameDatabase.items db) /\
    JsMap.keys (GameDatabase.npcs db) = JsMap.keys npcs /\
    sameView npcRecord npcs (GameDatabase.npcs db).
Proof.
  intros Hbuild.
  apply loadGameDatabase_indexPhase in Hbuild
    as (items & npcs & spells & classes & drops & shops & pets & specialDrops &
        specialMobs & npcSpellcasts & mapData & quests &
        Hitems & Hnpcs & Hspells & Hclasses & _ & _ & _ & _ & _ & _ & _ & _ & ->).
  exists items, npcs.
  destruct (indexPhase_same items npcs spells classes drops shops pets specialDrops
              specialMobs npcSpellcasts mapData quests) as [[HkI _] [HkN _]].
  split; [exact Hitems|]. split; [exact Hnpcs|].
  rewrite indexPhase_stages in *.
  cbn [GameDatabase.items GameDatabase.npcs GameDatabase.spells
       GameDatabase.classes] in *.
  split; [exact Hspells|]. split; [exact Hclasses|].
  split; [exact HkI|]. split; [frames|]. split; [exact HkN | frames].
Qed.

Lemma X1_build_publishes_loaded_entities_witness :
  exists db items npcs,
    loadGameDatabase exampleLib exampleSchedules stockedOrigin = Ok db /\
    loadItems exampleLib stockedOrigin = Ok items /\
    loadNpcs exampleLib stockedOrigin = Ok npcs /\
    JsMap.keys (GameDatabase.items db) = JsMap.keys items /\
    sameView itemRecord items (GameDatabase.items db) /\
    JsMap.keys (GameDatabase.npcs db) = JsMap.keys npcs /\
    sameView npcRecord npcs (GameDatabase.npcs db).
Proof.
  eexists.
  destruct (X1_build_publishes_loaded_entities exampleLib exampleSchedules
              stockedOrigin _ ltac:(vm_compute; reflexivity))
    as (items & npcs & H1 & H2 & _ & _ & H3 & H4 & H5 & H6).
  exists items, npcs. split; [vm_compute; reflexivity|]. by repeat split.
Defined.

(** The shop pass starts from tables without listings. *)
Lemma freshTrades_after_drops (items : Items) (npcs : Npcs)
    (drops : list (Z * list ItemDrop.t)) :
  pristineItems items -> pristineNpcs npcs ->
  freshTrades (indexDrops items npcs drops).1 (indexDrops items npcs drops).2.
Proof.
  intros HI HN. split.
  - intros k item' Hget.
    destruct (sameView_Some GameItem.soldAt items (indexDrops items npcs drops).1 k item'
                ltac:(frames) Hget) as (item & Hitem & <-).
    apply (HI k item Hitem).
  - intros k npc' Hget.
    destruct (sameView_Some GameNpc.shopItems npcs (indexDrops items npcs drops).2 k npc'
                ltac:(frames) Hget) as (npc & Hnpc & <-).
    apply (HN k npc Hnpc).
Qed.

Lemma freshCrafts_after_drops (items : Items) (npcs : Npcs)
    (drops : list (Z * list ItemDrop.t)) :
  pristineItems items -> pristineNpcs npcs ->
  freshCrafts (indexDrops items npcs drops).1 (indexDrops items npcs drops).2.
Proof.
  intros HI HN. split.
  - intros k item' Hget.
    destruct (sameView_Some GameItem.craftedAt items (indexDrops items npcs drops).1 k item'
                ltac:(frames) Hget) as (item & Hitem & <-).
    apply (HI k item Hitem).
  - intros k npc' Hget.
    destruct (sameView_Some GameNpc.craftItems npcs (indexDrops items npcs drops).2 k npc'
                ltac:(frames) Hget) as (npc & Hnpc & <-).
    apply (HN k npc Hnpc).
Qed.

(** X2. In a published database the shop listings agree on both sides. Every
    entry of an NPC's shopItems names an item of the database, carries its
    name, and is mirrored by a soldAt listing of that item for the shop with
    the NPC's key, with the NPC's id and name and the same two prices. Every
    soldAt listing of an item, when its shop id is the key of an NPC, carries
    that NPC's id and name and is mirrored in that NPC's shopItems; when it
    is not, the listing has neither NPC id nor NPC name. *)
Theorem X2_shop_listings_mirrored (lib : Eolib.t) (scheds : Schedules.t)
    (origin : Origin) (db : GameDatabase.t) :
  loadGameDatabase lib scheds origin = Ok db ->
  shopItemsMirrored (GameDatabase.items db) (GameDatabase.npcs db) /\
  soldAtMirrored (GameDatabase.items db) (GameDatabase.npcs db).
Proof.
  intros Hbuild. build_stages Hbuild.
  apply loadItems_pristine in Hitems. apply loadNpcs_pristine in Hnpcs.
  pose proof (indexShops_tradesInvariant _ _ shops
                (freshTrades_after_drops items npcs drops Hitems Hnpcs)) as Hinv.
  match goal with
  | |- shopItemsMirrored ?i ?n /\ _ => change (tradesInvariant (i, n))
  end.
  eapply tradesInvariant_sameTradeView; [|exact Hinv].
  split; cbn [fst snd]; frames.
Qed.

Lemma X2_shop_listings_mirrored_witness :
  exists db,
    loadGameDatabase exampleLib exampleSchedules stockedOrigin = Ok db /\
    shopItemsMirrored (GameDatabase.items db) (GameDatabase.npcs db) /\
    soldAtMirrored (GameDatabase.items db) (GameDatabase.npcs db).
Proof.
  eexists. split; [vm_compute; reflexivity|].
  apply (X2_shop_listings_mirrored exampleLib exampleSchedules stockedOrigin).
  vm_compute. reflexivity.
Defined.

(** X3. In a published database the craft recipes agree on both sides. Every
    entry of an NPC's craftItems names an item of the database as its result,
    carries its name, and is mirrored by a craftedAt recipe of that item for
    the shop with the NPC's key, with the NPC's id and name and the same
    ingredients; every craftedAt recipe of an item, when its shop id is the
    key of an NPC, carries that NPC's id and name and is mirrored in that
    NPC's craftItems, and otherwise has neither; and every ingredient of a
    recipe that is an item of the database carries that item's name. *)
Theorem X3_craft_recipes_mirrored (lib : Eolib.t) (scheds : Schedules.t)
    (origin : Origin) (db : GameDatabase.t) :
  loadGameDatabase lib scheds origin = Ok db ->
  craftItemsMirrored (GameDatabase.items db) (GameDatabase.npcs db) /\
  craftedAtMirrored (GameDatabase.items db) (GameDatabase.npcs db) /\
  ingredientsNamed (GameDatabase.items db).
Proof.
  intros Hbuild. build_stages Hbuild.
  apply loadItems_pristine in Hitems. apply loadNpcs_pristine in Hnpcs.
  pose proof (indexShops_craftsInvariant _ _ shops
                (freshCrafts_after_drops items npcs drops Hitems Hnpcs)) as Hinv.
  match goal with
  | |- craftItemsMirrored ?i ?n /\ _ => change (craftsInvariant (i, n))
  end.
  eapply craftsInvariant_sameCraftView; [|exact Hinv].
  split; cbn [fst snd]; frames.
Qed.

Lemma X3_craft_recipes_mirrored_witness :
  exists db,
    loadGameDatabase exampleLib exampleSchedules stockedOrigin = Ok db /\
    craftItemsMirrored (GameDatabase.items db) (GameDatabase.npcs db) /\
    craftedAtMirrored (GameDatabase.items db) (GameDatabase.npcs db) /\
    ingredientsNamed (GameDatabase.items db).
Proof.
  eexists. split; [vm_compute; reflexivity|].
  apply (X3_craft_recipes_mirrored exampleLib exampleSchedules stockedOrigin).
  vm_compute. reflexivity.
Defined.

(** Names for the stages of the indexing phase in a goal. *)
Ltac name_stages :=
  match goal with
  | |- context [indexDrops ?i ?n ?d] => set (dropped := indexDrops i n d) in *
  | _ : context [indexDrops ?i ?n ?d] |- _ => set (dropped := indexDrops i n d) in *
  end;
  match goal with
  | |- context [indexShops ?i ?n ?s] => set (shopped := indexShops i n s) in *
  | _ : context [indexShops ?i ?n ?s] |- _ => set (shopped := indexShops i n s) in *
  end;
  match goal with
  | |- context [indexPets ?i ?n ?p] => set (petted := indexPets i n p) in *
  | _ : context [indexPets ?i ?n ?p] |- _ => set (petted := indexPets i n p) in *
  end;
  match goal with
  | |- context [indexSpecialDrops ?i ?s] => set (items3 := indexSpecialDrops i s) in *
  | _ : context [indexSpecialDrops ?i ?s] |- _ => set (items3 := indexSpecialDrops i s) in *
  end;
  match goal with
  | |- context [indexSpecialMobs ?n ?s] => set (mobbed := indexSpecialMobs n s) in *
  | _ : context [indexSpecialMobs ?n ?s] |- _ => set (mobbed := indexSpecialMobs n s) in *
  end;
  match goal with
  | |- context [indexNpcSpellcasts ?n ?s ?c] => set (casting := indexNpcSpellcasts n s c) in *
  | _ : context [indexNpcSpellcasts ?n ?s ?c] |- _ => set (casting := indexNpcSpellcasts n s c) in *
  end;
  match goal with
  | |- context [indexNpcSpawns ?n ?m ?s] => set (spawned := indexNpcSpawns n m s) in *
  | _ : context [indexNpcSpawns ?n ?m ?s] |- _ => set (spawned := indexNpcSpawns n m s) in *
  end;
  match goal with
  | |- context [indexQuests ?n ?i ?q ?v] => set (quested := indexQuests n i q v) in *
  | _ : context [indexQuests ?n ?i ?q ?v] |- _ => set (quested := indexQuests n i q v) in *
  end.

(** X4. In a published database an NPC has a pet version exactly when the
    pets file has an entry under the NPC's key whose item is an item of the
    database; the pet version is then that entry with the item's name. An
    entry whose NPC or item is unknown adds nothing. *)
Theorem X4_pet_version_of_published_npc (lib : Eolib.t) (scheds : Schedules.t)
    (origin : Origin) (db : GameDatabase.t) :
  loadGameDatabase lib scheds origin = Ok db ->
  exists pets,
    loadPets origin = Ok pets /\
    forall k npc,
      JsMap.get k (GameDatabase.npcs db) = Some npc ->
      GameNpc.petVersion npc =
      match JsMap.get k pets with
      | Some petInfo =>
          match JsMap.get (PetInfo.itemId petInfo) (GameDatabase.items db) with
          | Some item => Some (PetInfo.with_itemName (GameItem.name item) petInfo)
          | None => None
          end
      | None => None
      end.
Proof.
  intros Hbuild. build_stages Hbuild. exists pets. split; [exact Hpets|].
  intros k npc Hget. name_stages.
  assert (Hafter : sameView GameNpc.petVersion petted quested.1.1)
    by (subst quested spawned casting mobbed petted; frames).
  assert (Hbefore : sameView GameNpc.petVersion npcs shopped.2)
    by (subst shopped dropped; frames).
  assert (Hnames : sameView GameItem.name shopped.1 quested.1.2)
    by (subst quested items3; frames).
  destruct (sameView_Some _ _ _ _ _ Hafter Hget) as (npc3 & Hget3 & <-).
  pose proof (indexPets_get shopped.1 shopped.2 pets k (loadPets_wf _ _ Hpets))
    as Hpet.
  fold petted in Hpet. rewrite Hget3 in Hpet.
  destruct (JsMap.get k shopped.2) as [npc2|] eqn:Hget2; [|discriminate].
  destruct (sameView_Some _ _ _ _ _ Hbefore Hget2) as (npc0 & Hget0 & Hfresh).
  apply loadNpcs_pristine in Hnpcs.
  destruct (Hnpcs k npc0 Hget0) as (_ & _ & _ & _ & Hnone & _).
  rewrite Hnone in Hfresh. simpl in Hpet. injection Hpet as ->.
  rewrite <- Hfresh.
  destruct (JsMap.get k pets) as [petInfo|]; [|reflexivity].
  cbn [mbind option_bind].
  specialize (Hnames (PetInfo.itemId petInfo)).
  destruct (JsMap.get (PetInfo.itemId petInfo) shopped.1) as [item|];
    destruct (JsMap.get (PetInfo.itemId petInfo) quested.1.2) as [item'|];
    try discriminate; [|reflexivity].
  simpl in *. by injection Hnames as ->.
Qed.

Lemma X4_pet_version_of_published_npc_witness :
  exists db npc,
    loadGameDatabase exampleLib exampleSchedules stockedOrigin = Ok db /\
    JsMap.get 1 (GameDatabase.npcs db) = Some npc /\
    GameNpc.petVersion npc =
      Some (PetInfo.mk 2 "Potion" (PetStats.mk 1 2 3 4 5 6 7 8 9 10 11)).
Proof.
  eexists.
  destruct (X4_pet_version_of_published_npc exampleLib exampleSchedules
              stockedOrigin _ ltac:(vm_compute; reflexivity))
    as (pets & Hpets & Hall).
  injection Hpets as <-.
  eexists. split; [vm_compute; reflexivity|].
  split; [vm_compute; reflexivity|].
  etransitivity; [exact (Hall 1 _ ltac:(vm_compute; reflexivity))|].
  vm_compute. reflexivity.
Defined.

(** X5. In a published database the special-drop field of an item is the
    entry of the special drops file under the item's key, and is missing
    when there is none. *)
Theorem X5_special_drop_of_published_item (lib : Eolib.t) (scheds : Schedules.t)
    (origin : Origin) (db : GameDatabase.t) :
  loadGameDatabase lib scheds origin = Ok db ->
  exists specialDrops,
    loadSpecialDrops origin = Ok specialDrops /\
    forall k item,
      JsMap.get k (GameDatabase.items db) = Some item ->
      GameItem.isSpecialDrop item = JsMap.get k specialDrops.
Proof.
  intros Hbuild. build_stages Hbuild. exists specialDrops.
  split; [exact HspecialDrops|].
  intros k item Hget. name_stages.
  assert (Hafter : sameView GameItem.isSpecialDrop items3 quested.1.2)
    by (subst quested; frames).
  assert (Hbefore : sameView GameItem.isSpecialDrop items shopped.1)
    by (subst shopped dropped; frames).
  destruct (sameView_Some _ _ _ _ _ Hafter Hget) as (item3 & Hget3 & <-).
  pose proof (indexSpecialDrops_get shopped.1 specialDrops k
                (loadSpecialDrops_wf _ _ HspecialDrops)) as Hdrop.
  fold items3 in Hdrop. rewrite Hget3 in Hdrop.
  destruct (JsMap.get k shopped.1) as [item2|] eqn:Hget2; [|discriminate].
  destruct (sameView_Some _ _ _ _ _ Hbefore Hget2) as (item0 & Hget0 & Hfresh).
  apply loadItems_pristine in Hitems.
  destruct (Hitems k item0 Hget0) as (_ & _ & _ & _ & _ & Hnone & _).
  rewrite Hnone in Hfresh. simpl in Hdrop. injection Hdrop as ->.
  rewrite <- Hfresh. by destruct (JsMap.get k specialDrops).
Qed.

Lemma X5_special_drop_of_published_item_witness :
  exists db item,
    loadGameDatabase exampleLib exampleSchedules stockedOrigin = Ok db /\
    JsMap.get 2 (GameDatabase.items db) = Some item /\
    GameItem.isSpecialDrop item = Some (SpecialDropInfo.mk 3 true).
Proof.
  eexists.
  destruct (X5_special_drop_of_published_item exampleLib exampleSchedules
              stockedOrigin _ ltac:(vm_compute; reflexivity))
    as (specialDrops & Hdrops & Hall).
  injection Hdrops as <-.
  eexists. split; [vm_compute; reflexivity|].
  split; [vm_compute; reflexivity|].
  etransitivity; [exact (Hall 2 _ ltac:(vm_compute; reflexivity))|].
  vm_compute. reflexivity.
Defined.

(** X6. In a published database the special-spawn field of an NPC is the
    last entry of the special mobs file that spawns out of the NPC's key,
    with the NPC's own name as the name of the source; it is missing when no
    entry spawns out of that key. Earlier entries for the same source NPC
    are overwritten. *)
Theorem X6_last_special_mob_wins (lib : Eolib.t) (scheds : Schedules.t)
    (origin : Origin) (db : GameDatabase.t) :
  loadGameDatabase lib scheds origin = Ok db ->
  exists specialMobs,
    loadSpecialMobs origin = Ok specialMobs /\
    forall k npc,
      JsMap.get k (GameDatabase.npcs db) = Some npc ->
      GameNpc.isSpecialSpawn npc =
      SpecialSpawnInfo.with_spawnFromNpcName (GameNpc.name npc)
        <$> last (specialSpawnsOf k specialMobs).
Proof.
  intros Hbuild. build_stages Hbuild. exists specialMobs.
  split; [exact HspecialMobs|].
  intros k npc Hget. name_stages.
  assert (Hafter : sameView (fun n => (GameNpc.name n, GameNpc.isSpecialSpawn n))
                     mobbed quested.1.1)
    by (subst quested spawned casting; frames).
  assert (Hbefore : sameView GameNpc.isSpecialSpawn npcs petted)
    by (subst petted shopped dropped; frames).
  destruct (sameView_Some _ _ _ _ _ Hafter Hget) as (npc4 & Hget4 & Hview).
  injection Hview as Hname <-.
  pose proof (indexSpecialMobs_get petted specialMobs k) as Hmob.
  fold mobbed in Hmob. rewrite Hget4 in Hmob.
  destruct (JsMap.get k petted) as [npc3|] eqn:Hget3; [|discriminate].
  destruct (sameView_Some _ _ _ _ _ Hbefore Hget3) as (npc0 & Hget0 & Hfresh).
  apply loadNpcs_pristine in Hnpcs.
  destruct (Hnpcs k npc0 Hget0) as (_ & _ & _ & _ & _ & Hnone & _).
  rewrite Hnone in Hfresh. simpl in Hmob. injection Hmob as Hname3 ->.
  rewrite <- Hfresh, <- Hname, Hname3.
  by destruct (last (specialSpawnsOf k specialMobs)).
Qed.

Lemma X6_last_special_mob_wins_witness :
  exists db npc,
    loadGameDatabase exampleLib exampleSchedules twiceSpecialOrigin = Ok db /\
    JsMap.get 1 (GameDatabase.npcs db) = Some npc /\
    GameNpc.isSpecialSpawn npc =
      Some (SpecialSpawnInfo.mk 1 "Rat" (Js.Finite (3 # 4)) 7 None).
Proof.
  eexists.
  destruct (X6_last_special_mob_wins exampleLib exampleSchedules
              twiceSpecialOrigin _ ltac:(vm_compute; reflexivity))
    as (specialMobs & Hmobs & Hall).
  injection Hmobs as <-.
  eexists. split; [vm_compute; reflexivity|].
  split; [vm_compute; reflexivity|].
  etransitivity; [exact (Hall 1 _ ltac:(vm_compute; reflexivity))|].
  vm_compute. reflexivity.
Defined.

(** The spawns of a published NPC are the spawns of its key in the loaded
    maps. *)
Lemma published_spawns (lib : Eolib.t) (scheds : Schedules.t)
    (origin : Origin) (db : GameDatabase.t) :
  loadGameDatabase lib scheds origin = Ok db ->
  exists mapData,
    loadMaps lib (Schedules.mapFiles scheds) origin = Ok mapData /\
    forall k npc,
      JsMap.get k (GameDatabase.npcs db) = Some npc ->
      GameNpc.spawnsOnMaps npc =
      match spawnsOf k (MapData.npcSpawns mapData) with
      | [] => None
      | spawns => Some (spawnInfoOf <$> spawns)
      end.
Proof.
  intros Hbuild. build_stages Hbuild. exists mapData.
  split; [exact HmapData|].
  intros k npc Hget. name_stages.
  assert (Hafter : sameView GameNpc.spawnsOnMaps spawned quested.1.1)
    by (subst quested; frames).
  assert (Hbefore : sameView GameNpc.spawnsOnMaps npcs casting)
    by (subst casting mobbed petted shopped dropped; frames).
  destruct (sameView_Some _ _ _ _ _ Hafter Hget) as (npc6 & Hget6 & <-).
  pose proof (indexNpcSpawns_get casting (MapData.maps mapData)
                (MapData.npcSpawns mapData) k) as Hspawn.
  fold spawned in Hspawn. rewrite Hget6 in Hspawn.
  destruct (JsMap.get k casting) as [npc5|] eqn:Hget5; [|discriminate].
  destruct (sameView_Some _ _ _ _ _ Hbefore Hget5) as (npc0 & Hget0 & Hfresh).
  apply loadNpcs_pristine in Hnpcs.
  destruct (Hnpcs k npc0 Hget0) as (_ & _ & _ & Hnone & _).
  rewrite Hnone in Hfresh. simpl in Hspawn. injection Hspawn as ->.
  rewrite <- Hfresh. reflexivity.
Qed.

(** X7. In a published database the spawns of an NPC are the spawns of its
    key in all the loaded maps, in the order of the maps and of the NPCs in
    each map, none missing and none added; an NPC that spawns nowhere has no
    spawn list at all. *)
Theorem X7_spawns_of_published_npc (lib : Eolib.t) (scheds : Schedules.t)
    (origin : Origin) (db : GameDatabase.t) :
  loadGameDatabase lib scheds origin = Ok db ->
  exists mapData,
    loadMaps lib (Schedules.mapFiles scheds) origin = Ok mapData /\
    forall k npc,
      JsMap.get k (GameDatabase.npcs db) = Some npc ->
      GameNpc.spawnsOnMaps npc =
      match spawnsOf k (MapData.npcSpawns mapData) with
      | [] => None
      | spawns => Some (spawnInfoOf <$> spawns)
      end.
Proof. apply published_spawns. Qed.

Lemma X7_spawns_of_published_npc_witness :
  exists db npc,
    loadGameDatabase exampleLib exampleSchedules stockedOrigin = Ok db /\
    JsMap.get 1 (GameDatabase.npcs db) = Some npc /\
    GameNpc.spawnsOnMaps npc = Some [MapSpawnInfo.mk 1 "Aeven" 4 5 0 30 2].
Proof.
  eexists.
  destruct (X7_spawns_of_published_npc exampleLib exampleSchedules
              stockedOrigin _ ltac:(vm_compute; reflexivity))
    as (mapData & Hmaps & Hall).
  rewrite loadMaps_eq in Hmaps. injection Hmaps as <-.
  eexists. split; [vm_compute; reflexivity|].
  split; [vm_compute; reflexivity|].
  etransitivity; [exact (Hall 1 _ ltac:(vm_compute; reflexivity))|].
  vm_compute. reflexivity.
Defined.

(** The item table of the quest pass grows and keeps its keys. *)
Lemma indexQuest_items (npcsByVendorId : list (Z * Z)) (st : Npcs * Items)
    (entry : Z * GameQuest.t) :
  growsItems st.2 (indexQuest npcsByVendorId st entry).1.2 /\
  sameItems st.2 (indexQuest npcsByVendorId st entry).1.2.
Proof.
  split; [apply indexQuest_growsItems | apply indexQuest_same].
Qed.

(** X8. Quest indexing looks every reward item and every required item of a
    quest up by its id in the item table. When the item is known, the
    reference receives the item's name and the item receives an entry with
    the quest's id and name and the amount (or count) of the reference; when
    it is not, the reference is left as it was. The quest keeps its key, id,
    name and experience reward. *)
Theorem X8_quest_item_resolution (npcs : Npcs) (items : Items)
    (quests : list (Z * GameQuest.t)) (npcsByVendorId : list (Z * Z))
    (i : nat) (questKey : Z) (quest : GameQuest.t) :
  let result := indexQuests npcs items quests npcsByVendorId in
  quests !! i = Some (questKey, quest) ->
  exists quest',
    result.2 !! i = Some (questKey, quest') /\
    GameQuest.id quest' = GameQuest.id quest /\
    GameQuest.name quest' = GameQuest.name quest /\
    GameQuest.rewardExp quest' = GameQuest.rewardExp quest /\
    (forall p reward,
       GameQuest.rewardItems quest !! p = Some reward ->
       match JsMap.get (QuestRewardItem.itemId reward) items with
       | Some item =>
           GameQuest.rewardItems quest' !! p =
             Some (QuestRewardItem.with_itemName (GameItem.name item) reward) /\
           exists item',
             JsMap.get (QuestRewardItem.itemId reward) result.1.2 = Some item' /\
             itemCore item' = itemCore item /\
             QuestReward.mk (GameQuest.id quest) (GameQuest.name quest)
               (QuestRewardItem.amount reward) ∈ arr (GameItem.questRewards item')
       | None => GameQuest.rewardItems quest' !! p = Some reward
       end) /\
    (forall p itemReq,
       GameQuest.itemRequirements quest !! p = Some itemReq ->
       match JsMap.get (QuestItemReq.itemId itemReq) items with
       | Some item =>
           GameQuest.itemRequirements quest' !! p =
             Some (QuestItemReq.with_itemName (GameItem.name item) itemReq) /\
           exists item',
             JsMap.get (QuestItemReq.itemId itemReq) result.1.2 = Some item' /\
             itemCore item' = itemCore item /\
             QuestRequirement.mk (GameQuest.id quest) (GameQuest.name quest)
               (QuestItemReq.count itemReq)
               ∈ arr (GameItem.questRequirements item')
       | None => GameQuest.itemRequirements quest' !! p = Some itemReq
       end).
Proof.
  intros result Hquest.
  set (R := fun a b : Items => growsItems a b /\ sameItems a b).
  assert (Rrefl : forall a, R a a).
  { intros a. split; [apply growsItems_refl | apply sameItems_refl]. }
  assert (Rtrans : forall a b c, R a b -> R b c -> R a c).
  { intros a b c [] []. split; [by eapply growsItems_trans | by eapply sameItems_trans]. }
  assert (Hreward : forall m reward, R m (indexQuestReward quest m reward).1).
  { intros m reward. split; [apply indexQuestReward_grows | apply indexQuestReward_same]. }
  assert (Hreq : forall m itemReq, R m (indexQuestItemReq quest m itemReq).1).
  { intros m itemReq.
    split; [apply indexQuestItemReq_grows | apply indexQuestItemReq_same]. }
  destruct (forEachUpdate_lookup (fun st st' : Npcs * Items => R st.2 st'.2)
              (indexQuest npcsByVendorId)
              (fun st => Rrefl st.2)
              (fun a b c => Rtrans a.2 b.2 c.2)
              (indexQuest_items npcsByVendorId)
              quests (npcs, items) i (questKey, quest) Hquest)
    as ([npcsI itemsI] & HgrowI & Hlook & Hend).
  fold (indexQuests npcs items quests npcsByVendorId) in Hlook, Hend.
  fold result in Hlook, Hend.
  rewrite indexQuest_loops in Hlook, Hend. cbn [fst snd] in HgrowI, Hlook, Hend.
  set (rewarded := forEachUpdate (indexQuestReward quest) itemsI
                     (GameQuest.rewardItems quest)) in *.
  set (required := forEachUpdate (indexQuestItemReq quest) rewarded.1
                     (GameQuest.itemRequirements quest)) in *.
  assert (HgrowR : R itemsI rewarded.1).
  { apply (forEachUpdate_grows R _ Rrefl Rtrans Hreward). }
  assert (HgrowQ : R rewarded.1 required.1).
  { apply (forEachUpdate_grows R _ Rrefl Rtrans Hreq). }
  eexists. split; [exact Hlook|].
  cbn [GameQuest.id GameQuest.name GameQuest.rewardExp GameQuest.rewardItems
       GameQuest.itemRequirements].
  split; [reflexivity|]. split; [reflexivity|]. split; [reflexivity|]. split.
  - intros p reward Hp.
    destruct (forEachUpdate_lookup R (indexQuestReward quest) Rrefl Rtrans Hreward
                (GameQuest.rewardItems quest) itemsI p reward Hp)
      as (sp & Hsp & Hlookp & Hendp).
    fold rewarded in Hlookp, Hendp.
    assert (Hfrom : R items sp) by (by eapply Rtrans).
    assert (Hto : R (indexQuestReward quest sp reward).1 result.1.2).
    { eapply Rtrans; [exact Hendp|]. eapply Rtrans; [exact HgrowQ | exact Hend]. }
    pose proof (indexQuestReward_at quest items sp reward (proj1 Hfrom)) as Hat.
    destruct (JsMap.get (QuestRewardItem.itemId reward) items) as [item|] eqn:Hget.
    + destruct Hat as (Hval & item1 & Hget1 & Hcore1 & Hin1).
      split; [by rewrite Hlookp, Hval|].
      destruct (proj1 Hto _ _ Hget1) as (item' & Hget' & Hcore' & Hr' & _).
      exists item'. split; [exact Hget'|]. split; [congruence | auto].
    + rewrite Hlookp. unfold indexQuestReward.
      by rewrite (growsItems_None items sp _ (proj2 Hfrom) Hget).
  - intros p itemReq Hp.
    destruct (forEachUpdate_lookup R (indexQuestItemReq quest) Rrefl Rtrans Hreq
                (GameQuest.itemRequirements quest) rewarded.1 p itemReq Hp)
      as (sp & Hsp & Hlookp & Hendp).
    fold required in Hlookp, Hendp.
    assert (Hfrom : R items sp).
    { eapply Rtrans; [exact HgrowI|]. by eapply Rtrans. }
    assert (Hto : R (indexQuestItemReq quest sp itemReq).1 result.1.2)
      by (by eapply Rtrans).
    pose proof (indexQuestItemReq_at quest items sp itemReq (proj1 Hfrom)) as Hat.
    destruct (JsMap.get (QuestItemReq.itemId itemReq) items) as [item|] eqn:Hget.
    + destruct Hat as (Hval & item1 & Hget1 & Hcore1 & Hin1).
      split; [by rewrite Hlookp, Hval|].
      destruct (proj1 Hto _ _ Hget1) as (item' & Hget' & Hcore' & _ & Hq').
      exists item'. split; [exact Hget'|]. split; [congruence | auto].
    + rewrite Hlookp. unfold indexQuestItemReq.
      by rewrite (growsItems_None items sp _ (proj2 Hfrom) Hget).
Qed.

Lemma X8_quest_item_resolution_witness :
  exists quest',
    (indexQuests exampleQuestNpcs twoPotions [(4, exampleItemQuest)]
       (buildVendorIndex exampleQuestNpcs)).2 !! 0%nat = Some (4, quest') /\
    GameQuest.rewardItems quest' !! 0%nat =
      Some (QuestRewardItem.mk 3 2 (Some "Potion")) /\
    GameQuest.rewardItems quest' !! 1%nat = Some (QuestRewardItem.mk 99 1 None) /\
    GameQuest.itemRequirements quest' !! 0%nat =
      Some (QuestItemReq.mk 5 1 (Some "Sword")).
Proof.
  destruct (X8_quest_item_resolution exampleQuestNpcs twoPotions
              [(4, exampleItemQuest)] (buildVendorIndex exampleQuestNpcs)
              0 4 exampleItemQuest eq_refl)
    as (quest' & Hquest & _ & _ & _ & Hrewards & Hreqs).
  exists quest'. split; [exact Hquest|]. split.
  - exact (proj1 (Hrewards 0%nat (QuestRewardItem.mk 3 2 None) eq_refl)).
  - split.
    + exact (Hrewards 1%nat (QuestRewardItem.mk 99 1 None) eq_refl).
    + exact (proj1 (Hreqs 0%nat (QuestItemReq.mk 5 1 None) eq_refl)).
Defined.

(** ** When the build succeeds *)

Lemma loadTextFile_Ok_iff (origin : Origin) (path : string) :
  (exists content, loadTextFile origin path = Ok content) <->
  serves origin (DATA_PATH +:+ "/" +:+ path).
Proof.
  unfold loadTextFile, serves.
  destruct (origin (DATA_PATH +:+ "/" +:+ path)) as [msg|[|] statusText body];
    simpl; split.
  - intros [? [=]].
  - intros (? & ? & [=]).
  - eauto.
  - eauto.
  - intros [? [=]].
  - intros (? & ? & [=]).
Qed.

Lemma loadFile_Ok_iff {A B} (decode : string -> result A) (k : A -> B)
    (origin : Origin) (path : string) :
  (exists b, bind (loadFile origin path)
               (fun bytes => bind (decode bytes) (fun a => Ok (k a))) = Ok b) <->
  decodes decode origin (DATA_PATH +:+ "/" +:+ path).
Proof.
  unfold loadFile, decodes.
  destruct (origin (DATA_PATH +:+ "/" +:+ path)) as [msg|[|] statusText body];
    simpl; split.
  - intros [? [=]].
  - intros (? & ? & ? & [=] & _).
  - intros [b Hb]. destruct (decode body) as [a|] eqn:Hdecode; [|discriminate].
    eauto 6.
  - intros (? & ? & a & [= <- <-] & ->). simpl. eauto.
  - intros [? [=]].
  - intros (? & ? & ? & [=] & _).
Qed.

Lemma loadDrops_total (origin : Origin) : exists drops, loadDrops origin = Ok drops.
Proof. unfold loadDrops. destruct (loadTextFile origin "drops.ini"); simpl; eauto. Qed.

Lemma loadShops_total (origin : Origin) : exists shops, loadShops origin = Ok shops.
Proof. unfold loadShops. destruct (loadTextFile origin "shops.ini"); simpl; eauto. Qed.

Lemma text_loader_Ok_iff {A} (parse : string -> A) (origin : Origin) (path : string) :
  (exists a, bind (loadTextFile origin path) (fun content => Ok (parse content)) = Ok a)
  <-> serves origin (DATA_PATH +:+ "/" +:+ path).
Proof.
  rewrite <- loadTextFile_Ok_iff. split.
  - intros [a Ha]. destruct (loadTextFile origin path); [eauto | discriminate].
  - intros [content ->]. simpl. eauto.
Qed.

(** X9. The build succeeds exactly when the origin serves the four pub
    files in a form the decoders accept, and serves pets.ini,
    specialdrops.ini, specialmobs.ini and npcspellcast.ini. Nothing else
    matters: not drops.ini or shops.ini, not any map or quest file, and not
    the order in which the requests complete. *)
Theorem X9_build_succeeds_iff (lib : Eolib.t) (scheds : Schedules.t)
    (origin : Origin) :
  (exists db, loadGameDatabase lib scheds origin = Ok db) <->
  decodes (Eolib.Eif_deserialize lib) origin "/data/dat001.eif" /\
  decodes (Eolib.Enf_deserialize lib) origin "/data/dtn001.enf" /\
  decodes (Eolib.Esf_deserialize lib) origin "/data/dsl001.esf" /\
  decodes (Eolib.Ecf_deserialize lib) origin "/data/dat001.ecf" /\
  serves origin "/data/pets.ini" /\
  serves origin "/data/specialdrops.ini" /\
  serves origin "/data/specialmobs.ini" /\
  serves origin "/data/npcspellcast.ini".
Proof.
  pose proof (loadFile_Ok_iff (Eolib.Eif_deserialize lib)
                (fun eif => forEachIndexed addItem eif JsMap.empty)
                origin "dat001.eif") as Heif.
  pose proof (loadFile_Ok_iff (Eolib.Enf_deserialize lib)
                (fun enf => forEachIndexed addNpc enf JsMap.empty)
                origin "dtn001.enf") as Henf.
  pose proof (loadFile_Ok_iff (Eolib.Esf_deserialize lib)
                (fun esf => forEachIndexed addSpell esf JsMap.empty)
                origin "dsl001.esf") as Hesf.
  pose proof (loadFile_Ok_iff (Eolib.Ecf_deserialize lib)
                (fun ecf => forEachIndexed addClass ecf JsMap.empty)
                origin "dat001.ecf") as Hecf.
  pose proof (text_loader_Ok_iff
                (fun content => fold_left parsePetsLine (Js.split LF content)
                                  JsMap.empty) origin "pets.ini") as Hpets.
  pose proof (text_loader_Ok_iff
                (fun content => fold_left parseSpecialDropsLine
                                  (Js.split LF content) JsMap.empty)
                origin "specialdrops.ini") as Hsd.
  pose proof (text_loader_Ok_iff
                (fun content => fold_left parseSpecialMobsLine
                                  (Js.split LF content) [])
                origin "specialmobs.ini") as Hsm.
  pose proof (text_loader_Ok_iff
                (fun content => fold_left parseNpcSpellcastsLine
                                  (Js.split LF content) JsMap.empty)
                origin "npcspellcast.ini") as Hsc.
  fold (loadItems lib origin) in Heif. fold (loadNpcs lib origin) in Henf.
  fold (loadSpells lib origin) in Hesf. fold (loadClasses lib origin) in Hecf.
  fold (loadPets origin) in Hpets. fold (loadSpecialDrops origin) in Hsd.
  fold (loadSpecialMobs origin) in Hsm. fold (loadNpcSpellcasts origin) in Hsc.
  change (DATA_PATH +:+ "/" +:+ "dat001.eif") with "/data/dat001.eif" in Heif.
  change (DATA_PATH +:+ "/" +:+ "dtn001.enf") with "/data/dtn001.enf" in Henf.
  change (DATA_PATH +:+ "/" +:+ "dsl001.esf") with "/data/dsl001.esf" in Hesf.
  change (DATA_PATH +:+ "/" +:+ "dat001.ecf") with "/data/dat001.ecf" in Hecf.
  change (DATA_PATH +:+ "/" +:+ "pets.ini") with "/data/pets.ini" in Hpets.
  change (DATA_PATH +:+ "/" +:+ "specialdrops.ini")
    with "/data/specialdrops.ini" in Hsd.
  change (DATA_PATH +:+ "/" +:+ "specialmobs.ini")
    with "/data/specialmobs.ini" in Hsm.
  change (DATA_PATH +:+ "/" +:+ "npcspellcast.ini")
    with "/data/npcspellcast.ini" in Hsc.
  rewrite <- Heif, <- Henf, <- Hesf, <- Hecf, <- Hpets, <- Hsd, <- Hsm, <- Hsc.
  split.
  - intros [db Hbuild]. apply loadGameDatabase_indexPhase in Hbuild
      as (items & npcs & spells & classes & drops & shops & pets & specialDrops &
          specialMobs & npcSpellcasts & mapData & quests &
          ? & ? & ? & ? & _ & _ & ? & ? & ? & ? & _).
    repeat split; eauto.
  - intros ([items Hi] & [npcs Hn] & [spells Hs] & [classes Hc] & [pets Hp] &
            [specialDrops Hd] & [specialMobs Hm] & [npcSpellcasts Hsp]).
    destruct (loadDrops_total origin) as [drops Hdrops].
    destruct (loadShops_total origin) as [shops Hshops].
    eexists. apply loadGameDatabase_indexPhase.
    exists items, npcs, spells, classes, drops, shops, pets, specialDrops,
           specialMobs, npcSpellcasts.
    eexists. eexists.
    repeat (split; [eassumption|]).
    split; [apply loadMaps_eq|]. split; [apply loadQuests_eq | reflexivity].
Qed.

(** ** Lines of an ini file *)

Section StringFacts.
Local Open Scope string_scope.

Lemma trimStart_app_nonws (x : string) (c : ascii) (y : string) :
  Js.isWhiteSpace c = false ->
  Js.trimStart (x +:+ String c y) = Js.trimStart x +:+ String c y.
Proof.
  intros Hc. induction x as [|d x IH]; simpl.
  - by rewrite Hc.
  - by destruct (Js.isWhiteSpace d).
Qed.

Lemma trimEnd_app_nonws (x : string) (c : ascii) (y : string) :
  Js.isWhiteSpace c = false ->
  Js.trimEnd (x +:+ String c y) = x +:+ String c (Js.trimEnd y).
Proof.
  intros Hc. induction x as [|d x IH]; simpl.
  - destruct (Js.trimEnd y); [by rewrite Hc | reflexivity].
  - rewrite IH. by destruct x.
Qed.

Lemma trimStart_idem (s : string) : Js.trimStart (Js.trimStart s) = Js.trimStart s.
Proof.
  induction s as [|c s IH]; simpl; [reflexivity|].
  destruct (Js.isWhiteSpace c) eqn:Hc; [exact IH|]. simpl. by rewrite Hc.
Qed.

Lemma trimEnd_idem (s : string) : Js.trimEnd (Js.trimEnd s) = Js.trimEnd s.
Proof.
  induction s as [|c s IH]; simpl; [reflexivity|].
  destruct (Js.trimEnd s) as [|d t] eqn:Ht.
  - destruct (Js.isWhiteSpace c) eqn:Hc; simpl; [reflexivity|]. by rewrite Hc.
  - simpl in *. by rewrite IH.
Qed.

Lemma trimEnd_head (c : ascii) (s : string) :
  Js.isWhiteSpace c = false ->
  exists t, Js.trimEnd (String c s) = String c t.
Proof.
  intros Hc. simpl. destruct (Js.trimEnd s); [rewrite Hc|]; eauto.
Qed.

Lemma trimStart_trimEnd (s : string) :
  Js.trimStart (Js.trimEnd s) = Js.trimEnd (Js.trimStart s).
Proof.
  induction s as [|c s IH]; [reflexivity|].
  destruct (Js.isWhiteSpace c) eqn:Hc.
  - change (Js.trimStart (String c s)) with
      (if Js.isWhiteSpace c then Js.trimStart s else String c s).
    rewrite Hc, <- IH. simpl.
    destruct (Js.trimEnd s) as [|d t]; simpl; by rewrite Hc.
  - change (Js.trimStart (String c s)) with
      (if Js.isWhiteSpace c then Js.trimStart s else String c s).
    rewrite Hc. destruct (trimEnd_head c s Hc) as [t ->]. simpl. by rewrite Hc.
Qed.

Lemma trim_trimEnd (s : string) : Js.trim (Js.trimEnd s) = Js.trim s.
Proof. unfold Js.trim. by rewrite trimStart_trimEnd, trimEnd_idem. Qed.

Lemma trim_trimStart (s : string) : Js.trim (Js.trimStart s) = Js.trim s.
Proof. unfold Js.trim. by rewrite trimStart_idem. Qed.

Lemma indexOf_cons_None (c d : ascii) (s : string) :
  Js.indexOf c (String d s) = None <-> Ascii.eqb d c = false /\ Js.indexOf c s = None.
Proof.
  simpl. destruct (Ascii.eqb d c); [split; [discriminate | by intros []]|].
  destruct (Js.indexOf c s); simpl; split; try discriminate; try done.
  by intros [].
Qed.

Lemma indexOf_trimStart_None (c : ascii) (s : string) :
  Js.indexOf c s = None -> Js.indexOf c (Js.trimStart s) = None.
Proof.
  induction s as [|d s IH]; [done|]. intros Hnone.
  change (Js.trimStart (String d s)) with
    (if Js.isWhiteSpace d then Js.trimStart s else String d s).
  destruct (Js.isWhiteSpace d); [|exact Hnone].
  apply IH. by apply indexOf_cons_None in Hnone as [_ ?].
Qed.

Lemma indexOf_trimEnd_None (c : ascii) (s : string) :
  Js.indexOf c s = None -> Js.indexOf c (Js.trimEnd s) = None.
Proof.
  induction s as [|d s IH]; [done|]. intros Hnone.
  apply indexOf_cons_None in Hnone as [Hd Hs]. specialize (IH Hs). simpl.
  destruct (Js.trimEnd s) as [|e t].
  - destruct (Js.isWhiteSpace d); [reflexivity|]. simpl. by rewrite Hd.
  - apply indexOf_cons_None. by split.
Qed.

Lemma indexOf_app_fresh (c : ascii) (x y : string) :
  Js.indexOf c x = None ->
  Js.indexOf c (x +:+ String c y) = Some (String.length x).
Proof.
  induction x as [|d x IH]; simpl.
  - by rewrite Ascii.eqb_refl.
  - intros Hnone. apply (indexOf_cons_None c d x) in Hnone as [Hd Hx].
    by rewrite Hd, IH.
Qed.

Lemma substring_prefix (x y : string) :
  String.substring 0 (String.length x) (x +:+ y) = x.
Proof.
  induction x as [|d x IH]; simpl; [by destruct y|]. by rewrite IH.
Qed.

Lemma substringFrom_app (x : string) (c : ascii) (y : string) :
  Js.substringFrom (String.length x + 1) (x +:+ String c y) = y.
Proof. induction x as [|d x IH]; simpl; [reflexivity | exact IH]. Qed.

Lemma startsWith_app (p c : ascii) (x y : string) :
  p <> c ->
  Js.startsWith (String p EmptyString) (x +:+ String c y) =
  Js.startsWith (String p EmptyString) x.
Proof.
  intros Hne. unfold Js.startsWith. destruct x as [|d x]; simpl.
  - by destruct (ascii_dec p c).
  - destruct (ascii_dec p d); [|reflexivity]. by destruct (x +:+ String c y), x.
Qed.

End StringFacts.

(** X14. [parseIniLine] cuts a line at its first equals sign: a line
    without one gives nothing; a line with one gives the text before it and
    the text after it, both trimmed, unless the first character of the line
    that is not white space is a semicolon or a hash, which makes it a
    comment. The value may contain further equals signs, and the key may be
    empty. *)
Theorem X14_ini_line_cut_at_first_equals :
  (forall line, Js.indexOf "=" line = None -> parseIniLine line = None) /\
  (forall key value,
     Js.indexOf "=" key = None ->
     parseIniLine (key +:+ String "=" value) =
     if Js.startsWith ";" (Js.trimStart key) || Js.startsWith "#" (Js.trimStart key)
     then None
     else Some (Js.trim key, Js.trim value)).
Proof.
  split.
  - intros line Hnone. unfold parseIniLine.
    destruct (negb _ || _ || _); [reflexivity|].
    unfold Js.trim. by rewrite indexOf_trimEnd_None by by apply indexOf_trimStart_None.
  - intros key value Hnone. unfold parseIniLine.
    assert (Hws : Js.isWhiteSpace "=" = false) by reflexivity.
    assert (Htrim : Js.trim (key +:+ String "=" value) =
                    Js.trimStart key +:+ String "=" (Js.trimEnd value)).
    { unfold Js.trim. by rewrite trimStart_app_nonws, trimEnd_app_nonws. }
    rewrite Htrim.
    assert (Htruthy : Js.truthy (Js.trimStart key +:+ String "=" (Js.trimEnd value))
                      = true) by (by destruct (Js.trimStart key)).
    rewrite Htruthy, !startsWith_app by discriminate. simpl negb. rewrite orb_false_l.
    destruct (Js.startsWith ";" (Js.trimStart key) ||
              Js.startsWith "#" (Js.trimStart key)); [reflexivity|].
    rewrite indexOf_app_fresh by by apply indexOf_trimStart_None.
    unfold Js.substring. rewrite Nat.sub_0_r, substring_prefix, substringFrom_app.
    by rewrite trim_trimStart, trim_trimEnd.
Qed.

Lemma X14_ini_line_cut_at_first_equals_witness :
  parseIniLine "no separator here" = None /\
  parseIniLine "  7.name =  Ye Olde = Shoppe  " = Some ("7.name", "Ye Olde = Shoppe") /\
  parseIniLine " ; 7.name = Store" = None.
Proof.
  destruct X14_ini_line_cut_at_first_equals as [Hnone Hcut].
  split; [exact (Hnone "no separator here" eq_refl)|].
  split.
  - exact (Hcut "  7.name " "  Ye Olde = Shoppe  " eq_refl).
  - exact (Hcut " ; 7.name " " Store" eq_refl).
Defined.

(** ** The shops loader *)

Lemma ingredientSlot_wellFormed (ingr amt : string) :
  (length (ingredientSlot ingr amt) <= 1)%nat /\
  Forall (fun ingredient =>
            0 < CraftIngredient.itemId ingredient /\
            0 < CraftIngredient.amount ingredient /\
            CraftIngredient.itemName ingredient = EmptyString)
         (ingredientSlot ingr amt).
Proof.
  unfold ingredientSlot.
  destruct (Js.parseInt ingr) as [ingrId|]; [|by split; [simpl; lia|]].
  destruct (Js.parseInt amt) as [ingrAmt|]; [|by split; [simpl; lia|]].
  destruct (0 <? ingrId) eqn:Hid; [|by split; [simpl; lia|]].
  destruct (0 <? ingrAmt) eqn:Hamt; [|by split; [simpl; lia|]].
  apply Z.ltb_lt in Hid, Hamt. simpl. split; [lia|]. by repeat constructor.
Qed.

Lemma craftGroups_wellFormed (n : nat) : forall parts : list string,
  (length parts < n)%nat -> Forall wellFormedCraft (craftGroups parts).
Proof.
  induction n as [|n IH]; intros parts Hlen; [lia|].
  destruct parts as [|r [|i1 [|a1 [|i2 [|a2 [|i3 [|a3 [|i4 [|a4 rest]]]]]]]]];
    try by constructor.
  assert (Hrest : Forall wellFormedCraft (craftGroups rest)).
  { apply IH. simpl in Hlen. lia. }
  cbn [craftGroups]. destruct (Js.parseInt r) as [resultItemId|]; [|exact Hrest].
  destruct (0 <? length _)%nat eqn:Hsome; [|exact Hrest].
  apply Nat.ltb_lt in Hsome. constructor; [|exact Hrest].
  destruct (ingredientSlot_wellFormed i1 a1) as [L1 F1].
  destruct (ingredientSlot_wellFormed i2 a2) as [L2 F2].
  destruct (ingredientSlot_wellFormed i3 a3) as [L3 F3].
  destruct (ingredientSlot_wellFormed i4 a4) as [L4 F4].
  split; cbn [Craft.ingredients].
  - rewrite !length_app in *. lia.
  - by rewrite !Forall_app.
Qed.

Lemma Forall_modify {V} (P : Z * V -> Prop) (k : Z) (f : V -> V) (m : list (Z * V)) :
  Forall P m -> (forall v, P (k, v) -> P (k, f v)) -> Forall P (JsMap.modify k f m).
Proof.
  intros Hm Hf. unfold JsMap.modify.
  destruct (JsMap.get k m) as [v|] eqn:Hget; [|exact Hm].
  apply Forall_set; [exact Hm|]. apply Hf.
  clear Hf. induction Hm as [|[k' v'] m Hx Hm IH]; [discriminate|].
  simpl in Hget. destruct (decide (k = k')) as [->|]; [|by apply IH].
  by injection Hget as <-.
Qed.

Lemma wf_modify {V} (k : Z) (f : V -> V) (m : list (Z * V)) :
  JsMap.wf m -> JsMap.wf (JsMap.modify k f m).
Proof. unfold JsMap.wf. by rewrite keys_modify. Qed.

Lemma shopProperty_wellFormed (property value : string) (k : Z) (shop : ShopData.t) :
  wellFormedShop (k, shop) -> wellFormedShop (k, shopProperty property value shop).
Proof.
  intros [Hid Hcrafts]. unfold shopProperty.
  destruct (String.eqb property "name"); [by split|].
  destruct (String.eqb property "trade"); [by split|].
  destruct (String.eqb property "craft"); [|by split].
  split; [exact Hid|]. cbn [snd ShopData.crafts]. apply Forall_app.
  split; [exact Hcrafts|].
  by apply (craftGroups_wellFormed (S (length (csvParts value)))); lia.
Qed.

Lemma parseShops_wellFormed (content : string) :
  JsMap.wf (parseShops content) /\ Forall wellFormedShop (parseShops content).
Proof.
  unfold parseShops.
  apply (fold_left_invariant (fun m => JsMap.wf m /\ Forall wellFormedShop m)).
  - intros m line _ [Hwf Hall]. unfold parseShopsLine.
    destruct (parseIniLine line) as [[key val]|]; [|by split].
    destruct (Js.indexOf "." key) as [dotIndex|]; [|by split].
    destruct (Js.parseInt _) as [shopId|]; [|by split].
    split.
    + apply wf_modify. destruct (negb _); [by apply wf_set | exact Hwf].
    + apply Forall_modify; [|intros v; apply shopProperty_wellFormed].
      destruct (negb _); [|exact Hall].
      apply Forall_set; [exact Hall|]. split; [reflexivity | constructor].
  - split; [apply wf_empty | constructor].
Qed.

(** X15. The shops loader never rejects: when shops.ini is not served it
    gives the empty table. Otherwise every shop is stored once, under its own
    id, and every recipe it keeps has one to four ingredients, each with a
    positive item id and a positive amount; a recipe without a usable
    ingredient is not kept. *)
Theorem X15_loaded_shops_are_well_formed (origin : Origin) :
  exists shops,
    loadShops origin = Ok shops /\
    (~ serves origin "/data/shops.ini" -> shops = []) /\
    JsMap.wf shops /\
    forall k shop,
      JsMap.get k shops = Some shop ->
      ShopData.id shop = k /\ Forall wellFormedCraft (ShopData.crafts shop).
Proof.
  unfold loadShops.
  pose proof (loadTextFile_Ok_iff origin "shops.ini") as Hserved.
  change (DATA_PATH +:+ "/" +:+ "shops.ini") with "/data/shops.ini" in Hserved.
  destruct (loadTextFile origin "shops.ini") as [content|msg]; simpl.
  - exists (parseShops content). split; [reflexivity|].
    split; [intros Hno; destruct Hno; apply Hserved; eauto|].
    destruct (parseShops_wellFormed content) as [Hwf Hall].
    split; [exact Hwf|]. intros k shop Hget.
    apply get_Some_elem_of in Hget; [|exact Hwf].
    rewrite Forall_forall in Hall. exact (Hall _ Hget).
  - exists []. split; [reflexivity|]. split; [reflexivity|].
    split; [apply wf_empty|]. intros k shop. discriminate.
Qed.

(** ** The drops loader *)

(** A loop that stores what an element gives under the key it gives: under
    each key the find of the last such element. *)
Lemma fold_set_omap_last {A V} (g : A -> option (Z * V)) (k : Z) (xs : list A) :
  forall init,
    JsMap.get k (fold_left (fun m x => match g x with
                                       | Some (key, v) => JsMap.set key v m
                                       | None => m
                                       end) xs init) =
    match last (filter (fun entry => entry.1 = k) (omap g xs)) with
    | Some entry => Some entry.2
    | None => JsMap.get k init
    end.
Proof.
  induction xs as [|x xs IH]; intros init; simpl; [reflexivity|].
  rewrite IH. destruct (g x) as [[key v]|]; simpl; [|reflexivity].
  rewrite filter_cons. simpl.
  destruct (decide (key = k)) as [->|Hne].
  - rewrite last_cons. destruct (last (filter _ _)); [reflexivity|].
    simpl. apply get_set_eq.
  - destruct (last (filter _ _)); [reflexivity|]. by apply get_set_ne.
Qed.

Lemma parseDropsLine_dropsOfLine (drops : list (Z * list ItemDrop.t)) (line : string) :
  parseDropsLine drops line =
  match dropsOfLine line with
  | Some (key, v) => JsMap.set key v drops
  | None => drops
  end.
Proof.
  unfold parseDropsLine, dropsOfLine.
  destruct (parseIniLine line) as [[key val]|]; [|reflexivity].
  destruct (Js.startsWith "[" key); [reflexivity|].
  destruct (Js.parseInt key); [|reflexivity].
  by destruct (0 <? length (parseDropsValue val))%nat.
Qed.

Lemma fold_left_same_step {A B} (f g : A -> B -> A) (l : list B) :
  (forall a b, f a b = g a b) -> forall a, fold_left f l a = fold_left g l a.
Proof.
  intros Hfg. induction l as [|b l IH]; intros a; [reflexivity|].
  cbn [fold_left]. by rewrite Hfg, IH.
Qed.

Lemma parseDrops_get (content : string) (k : Z) :
  JsMap.get k (parseDrops content) =
  snd <$> last (filter (fun entry => entry.1 = k)
                       (omap dropsOfLine (Js.split LF content))).
Proof.
  unfold parseDrops.
  rewrite (fold_left_same_step _ (fun m x => match dropsOfLine x with
                                             | Some (key, v) => JsMap.set key v m
                                             | None => m
                                             end) _ parseDropsLine_dropsOfLine).
  rewrite fold_set_omap_last. by destruct (last _).
Qed.

Lemma dropsOfLine_nonempty (line : string) (k : Z) (l : list ItemDrop.t) :
  dropsOfLine line = Some (k, l) -> l <> [].
Proof.
  unfold dropsOfLine. destruct (parseIniLine line) as [[key val]|]; [|discriminate].
  destruct (Js.startsWith "[" key); [discriminate|].
  destruct (Js.parseInt key); [|discriminate].
  destruct (0 <? length (parseDropsValue val))%nat eqn:Hlen; [|discriminate].
  intros [= <- <-] Hnil. by rewrite Hnil in Hlen.
Qed.

(** X16. The drops loader never rejects: when drops.ini is not served it
    gives the empty table. Otherwise the table of an NPC is the one of the
    last line of the file that gives a table for that NPC: a later line
    replaces an earlier one, it does not add to it. Every NPC is stored once,
    and no stored table is empty. *)
Theorem X16_last_drops_line_wins (origin : Origin) :
  exists drops,
    loadDrops origin = Ok drops /\
    JsMap.wf drops /\
    (forall k l, JsMap.get k drops = Some l -> l <> []) /\
    match origin "/data/drops.ini" with
    | HttpResponse true _ content =>
        forall k,
          JsMap.get k drops =
          snd <$> last (filter (fun entry => entry.1 = k)
                               (omap dropsOfLine (Js.split LF content)))
    | _ => drops = []
    end.
Proof.
  destruct (loadDrops_total origin) as [drops Hload]. exists drops.
  split; [exact Hload|]. split; [by apply (loadDrops_wf origin)|].
  unfold loadDrops, loadTextFile in Hload.
  change (DATA_PATH +:+ "/" +:+ "drops.ini") with "/data/drops.ini" in Hload.
  destruct (origin "/data/drops.ini") as [msg|[|] statusText content];
    simpl in Hload; injection Hload as <-; [by split| |by split].
  split; [|apply parseDrops_get].
  intros k l. rewrite parseDrops_get.
  destruct (last _) as [[k' l']|] eqn:Hlast; [|discriminate].
  intros [= <-]. apply last_Some_elem_of, list_elem_of_filter in Hlast as [_ Hin].
  apply list_elem_of_omap in Hin as (line & _ & Hline).
  by apply (dropsOfLine_nonempty line k').
Qed.

Lemma X16_last_drops_line_wins_witness :
  exists drops,
    loadDrops twiceDropsOrigin = Ok drops /\
    JsMap.get 1 drops = Some [ItemDrop.mk 1 EmptyString 5 5 (Js.Finite (100 # 1))].
Proof.
  destruct (X16_last_drops_line_wins twiceDropsOrigin)
    as (drops & Hload & _ & _ & Hget).
  exists drops. split; [exact Hload|].
  pose proof (Hget 1) as H1. vm_compute in H1. exact H1.
Defined.

(** ** What the shops pass gives an item, exactly *)

(** A loop each of whose steps appends to a list of the entity under a key:
    afterwards the list has grown by what the steps appended, in order. *)
Lemma fold_left_appends {S A E V} (Inv : S -> Prop) (tbl : S -> list (Z * V))
    (lst : V -> list E) (vals : A -> Z -> list E) (step : S -> A -> S) :
  (forall s a, Inv s -> Inv (step s a)) ->
  (forall s a k, Inv s ->
     lst <$> JsMap.get k (tbl (step s a)) =
     (fun v => lst v ++ vals a k) <$> JsMap.get k (tbl s)) ->
  forall xs s k, Inv s ->
    lst <$> JsMap.get k (tbl (fold_left step xs s)) =
    (fun v => lst v ++ (xs ≫= fun a => vals a k)) <$> JsMap.get k (tbl s).
Proof.
  intros Hinv Hstep xs. induction xs as [|a xs IH]; intros s k Hs.
  - simpl. destruct (JsMap.get k (tbl s)); simpl; [|reflexivity].
    by rewrite app_nil_r.
  - cbn [fold_left]. rewrite IH by by apply Hinv.
    specialize (Hstep s a k Hs).
    destruct (JsMap.get k (tbl (step s a))) as [v1|];
      destruct (JsMap.get k (tbl s)) as [v0|]; try discriminate; [|reflexivity].
    simpl in *. injection Hstep as ->. by rewrite <- app_assoc.
Qed.

Lemma bind_filter_singleton {A E} (P : A -> Prop) `{forall a, Decision (P a)}
    (val : A -> E) (xs : list A) :
  (xs ≫= fun a => if decide (P a) then [val a] else []) = val <$> filter P xs.
Proof.
  induction xs as [|a xs IH]; [reflexivity|].
  simpl. rewrite filter_cons.
  destruct (decide (P a)); simpl; [f_equal|]; exact IH.
Qed.

Lemma fmap_through_view {V B C} (view : V -> B) (g : B -> C) (o o' : option V) :
  view <$> o' = view <$> o ->
  (fun v => g (view v)) <$> o' = (fun v => g (view v)) <$> o.
Proof.
  destruct o, o'; simpl; try discriminate; [|reflexivity].
  by intros [= ->].
Qed.

Lemma fmap_app_nil {V E} (lst : V -> list E) (o : option V) :
  (fun v => lst v ++ []) <$> o = lst <$> o.
Proof. destruct o; simpl; [|reflexivity]. by rewrite app_nil_r. Qed.

(** One trade, seen from the listings of the item under [k]. *)
Lemma indexTrade_soldAt (shopId : Z) (shop : ShopData.t) (npc : option GameNpc.t)
    (st : Items * Npcs) (trade : Trade.t) (k : Z) :
  (fun item => arr (GameItem.soldAt item))
    <$> JsMap.get k (indexTrade shopId shop npc st trade).1 =
  (fun item =>
     arr (GameItem.soldAt item) ++
     if decide (Trade.itemId trade = k)
     then [ShopInfo.mk shopId (ShopData.name shop) (GameNpc.id <$> npc)
             (GameNpc.name <$> npc) (Trade.buyPrice trade) (Trade.sellPrice trade)]
     else []) <$> JsMap.get k st.1.
Proof.
  destruct st as [items npcs]. unfold indexTrade. cbn [fst].
  destruct (JsMap.get (Trade.itemId trade) items) as [item|] eqn:Hitem; cbn [fst].
  - rewrite get_modify. destruct (decide (Trade.itemId trade = k)) as [Heq|Hne].
    + rewrite <- Heq, Hitem. reflexivity.
    + by rewrite fmap_app_nil.
  - destruct (decide (Trade.itemId trade = k)) as [Heq|Hne].
    + rewrite <- Heq, Hitem. reflexivity.
    + by rewrite fmap_app_nil.
Qed.

Lemma indexCraft_craftedAt (shopId : Z) (shop : ShopData.t) (npc : option GameNpc.t)
    (st : Items * Npcs) (craft : Craft.t) (k : Z) :
  (fun item => arr (GameItem.craftedAt item))
    <$> JsMap.get k (indexCraft shopId shop npc st craft).1 =
  (fun item =>
     arr (GameItem.craftedAt item) ++
     if decide (Craft.resultItemId craft = k)
     then [CraftInfo.mk shopId (ShopData.name shop) (GameNpc.id <$> npc)
             (GameNpc.name <$> npc) (nameIngredient st.1 <$> Craft.ingredients craft)]
     else []) <$> JsMap.get k st.1.
Proof.
  destruct st as [items npcs]. unfold indexCraft. cbn [fst].
  destruct (JsMap.get (Craft.resultItemId craft) items) as [item|] eqn:Hitem;
    cbn [fst].
  - rewrite get_modify. destruct (decide (Craft.resultItemId craft = k)) as [Heq|Hne].
    + rewrite <- Heq, Hitem. reflexivity.
    + by rewrite fmap_app_nil.
  - destruct (decide (Craft.resultItemId craft = k)) as [Heq|Hne].
    + rewrite <- Heq, Hitem. reflexivity.
    + by rewrite fmap_app_nil.
Qed.

(** Naming an ingredient reads only the names of the items. *)
Lemma nameIngredient_sameView (items items' : Items) (ingredient : CraftIngredient.t) :
  sameView GameItem.name items items' ->
  nameIngredient items' ingredient = nameIngredient items ingredient.
Proof.
  intros Hview. unfold nameIngredient.
  specialize (Hview (CraftIngredient.itemId ingredient)).
  destruct (JsMap.get _ items') as [x'|]; destruct (JsMap.get _ items) as [x|];
    try discriminate; [|reflexivity].
  simpl in Hview. by injection Hview as ->.
Qed.

Lemma recipeOf_sameView (items items' : Items) (npcs npcs' : Npcs)
    (entry : Z * ShopData.t) (craft : Craft.t) :
  sameView GameItem.name items items' ->
  sameView (fun npc => (GameNpc.id npc, GameNpc.name npc)) npcs npcs' ->
  recipeOf items' npcs' entry craft = recipeOf items npcs entry craft.
Proof.
  intros HI HN. unfold recipeOf. specialize (HN entry.1).
  assert (Hid : GameNpc.id <$> JsMap.get entry.1 npcs' =
                GameNpc.id <$> JsMap.get entry.1 npcs).
  { destruct (JsMap.get entry.1 npcs'), (JsMap.get entry.1 npcs);
      try discriminate; [|reflexivity]. simpl in *. by injection HN as -> _. }
  assert (Hname : GameNpc.name <$> JsMap.get entry.1 npcs' =
                  GameNpc.name <$> JsMap.get entry.1 npcs).
  { destruct (JsMap.get entry.1 npcs'), (JsMap.get entry.1 npcs);
      try discriminate; [|reflexivity]. simpl in *. by injection HN as _ ->. }
  rewrite Hid, Hname. f_equal. apply list_fmap_ext. intros i ingredient _.
  by apply nameIngredient_sameView.
Qed.

Lemma listingOf_sameView (npcs npcs' : Npcs) (entry : Z * ShopData.t)
    (trade : Trade.t) :
  sameView (fun npc => (GameNpc.id npc, GameNpc.name npc)) npcs npcs' ->
  listingOf npcs' entry trade = listingOf npcs entry trade.
Proof.
  intros HN. unfold listingOf. specialize (HN entry.1).
  destruct (JsMap.get entry.1 npcs'), (JsMap.get entry.1 npcs);
    try discriminate; [|reflexivity].
  simpl in *. by injection HN as -> ->.
Qed.


Section ShopStepViews.
Context {BI BN : Type} (vi : GameItem.t -> BI) (vn : GameNpc.t -> BN).

Lemma indexTrade_view (shopId : Z) (shop : ShopData.t) (npc : option GameNpc.t)
    (st : Items * Npcs) (trade : Trade.t) :
  (forall v x, vi (GameItem.with_soldAt v x) = vi x) ->
  (forall v x, vn (GameNpc.with_shopItems v x) = vn x) ->
  sameView vi st.1 (indexTrade shopId shop npc st trade).1 /\
  sameView vn st.2 (indexTrade shopId shop npc st trade).2.
Proof.
  intros Hs Hsi. destruct st as [items npcs]. unfold indexTrade.
  destruct (JsMap.get (Trade.itemId trade) items); [|split; apply sameView_refl].
  cbn [fst snd]. split; [apply sameView_modify; intros x; apply Hs|].
  destruct npc; [apply sameView_modify; intros x; apply Hsi | apply sameView_refl].
Qed.

Lemma indexCraft_view (shopId : Z) (shop : ShopData.t) (npc : option GameNpc.t)
    (st : Items * Npcs) (craft : Craft.t) :
  (forall v x, vi (GameItem.with_craftedAt v x) = vi x) ->
  (forall v x, vn (GameNpc.with_craftItems v x) = vn x) ->
  sameView vi st.1 (indexCraft shopId shop npc st craft).1 /\
  sameView vn st.2 (indexCraft shopId shop npc st craft).2.
Proof.
  intros Hc Hci. destruct st as [items npcs]. unfold indexCraft.
  destruct (JsMap.get (Craft.resultItemId craft) items); [|split; apply sameView_refl].
  cbn [fst snd]. split; [apply sameView_modify; intros x; apply Hc|].
  destruct npc; [apply sameView_modify; intros x; apply Hci | apply sameView_refl].
Qed.

End ShopStepViews.

Lemma shopsFrame_trans (items0 : Items) (npcs0 : Npcs) (st st' : Items * Npcs) :
  shopsFrame items0 npcs0 st ->
  sameView GameItem.name st.1 st'.1 ->
  sameView (fun npc => (GameNpc.id npc, GameNpc.name npc)) st.2 st'.2 ->
  shopsFrame items0 npcs0 st'.
Proof. intros [HI HN] HI' HN'. split; by eapply sameView_trans. Qed.

Lemma indexTrade_shopsFrame (items0 : Items) (npcs0 : Npcs) (shopId : Z)
    (shop : ShopData.t) (npc : option GameNpc.t) (st : Items * Npcs) (trade : Trade.t) :
  shopsFrame items0 npcs0 st ->
  shopsFrame items0 npcs0 (indexTrade shopId shop npc st trade).
Proof.
  intros Hst.
  destruct (indexTrade_view GameItem.name
              (fun n => (GameNpc.id n, GameNpc.name n)) shopId shop npc st trade)
    as [HI HN]; [done..|].
  by eapply shopsFrame_trans.
Qed.

Lemma indexCraft_shopsFrame (items0 : Items) (npcs0 : Npcs) (shopId : Z)
    (shop : ShopData.t) (npc : option GameNpc.t) (st : Items * Npcs) (craft : Craft.t) :
  shopsFrame items0 npcs0 st ->
  shopsFrame items0 npcs0 (indexCraft shopId shop npc st craft).
Proof.
  intros Hst.
  destruct (indexCraft_view GameItem.name
              (fun n => (GameNpc.id n, GameNpc.name n)) shopId shop npc st craft)
    as [HI HN]; [done..|].
  by eapply shopsFrame_trans.
Qed.

Lemma indexShop_shopsFrame (items0 : Items) (npcs0 : Npcs) (st : Items * Npcs)
    (entry : Z * ShopData.t) :
  shopsFrame items0 npcs0 st -> shopsFrame items0 npcs0 (indexShop st entry).
Proof.
  destruct entry as [shopId shop]. intros Hst. unfold indexShop.
  apply (fold_left_invariant (shopsFrame items0 npcs0)).
  - intros st' craft _. apply indexCraft_shopsFrame.
  - apply (fold_left_invariant (shopsFrame items0 npcs0)); [|exact Hst].
    intros st' trade _. apply indexTrade_shopsFrame.
Qed.

(** One shop, seen from the listings and the recipes of the item under [k]. *)
Lemma indexShop_soldAt (items0 : Items) (npcs0 : Npcs) (st : Items * Npcs)
    (entry : Z * ShopData.t) (k : Z) :
  shopsFrame items0 npcs0 st ->
  (fun item => arr (GameItem.soldAt item)) <$> JsMap.get k (indexShop st entry).1 =
  (fun item =>
     arr (GameItem.soldAt item) ++
     (listingOf npcs0 entry
        <$> filter (fun trade => Trade.itemId trade = k) (ShopData.trades entry.2)))
    <$> JsMap.get k st.1.
Proof.
  intros Hst. destruct entry as [shopId shop]. unfold indexShop. cbn [snd].
  set (npc := JsMap.get shopId st.2).
  set (traded := fold_left (indexTrade shopId shop npc) (ShopData.trades shop) st).
  assert (Hcrafts : sameView (fun item => arr (GameItem.soldAt item)) traded.1
                      (fold_left (indexCraft shopId shop npc) (ShopData.crafts shop)
                         traded).1).
  { apply (fold_left_sameViews (fun item => arr (GameItem.soldAt item))
             (fun _ : GameNpc.t => tt)).
    intros st' craft. by apply indexCraft_view. }
  rewrite (Hcrafts k). subst traded.
  rewrite (fold_left_appends (fun _ => True) fst
             (fun item => arr (GameItem.soldAt item))
             (fun trade k' =>
                if decide (Trade.itemId trade = k')
                then [listingOf npcs0 (shopId, shop) trade] else [])
             (indexTrade shopId shop npc)); [|done| |done].
  - by rewrite bind_filter_singleton.
  - intros s trade k' _. rewrite indexTrade_soldAt.
    replace (listingOf npcs0 (shopId, shop) trade)
      with (listingOf st.2 (shopId, shop) trade);
      [reflexivity | apply listingOf_sameView, Hst].
Qed.

Lemma indexShop_craftedAt (items0 : Items) (npcs0 : Npcs) (st : Items * Npcs)
    (entry : Z * ShopData.t) (k : Z) :
  shopsFrame items0 npcs0 st ->
  (fun item => arr (GameItem.craftedAt item)) <$> JsMap.get k (indexShop st entry).1 =
  (fun item =>
     arr (GameItem.craftedAt item) ++
     (recipeOf items0 npcs0 entry
        <$> filter (fun craft => Craft.resultItemId craft = k)
                   (ShopData.crafts entry.2)))
    <$> JsMap.get k st.1.
Proof.
  intros Hst. destruct entry as [shopId shop]. unfold indexShop. cbn [snd].
  set (npc := JsMap.get shopId st.2).
  set (traded := fold_left (indexTrade shopId shop npc) (ShopData.trades shop) st).
  assert (Htraded : shopsFrame items0 npcs0 traded).
  { apply (fold_left_invariant (shopsFrame items0 npcs0)); [|exact Hst].
    intros st' trade _. apply indexTrade_shopsFrame. }
  assert (Htrades : sameView (fun item => arr (GameItem.craftedAt item)) st.1 traded.1).
  { apply (fold_left_sameViews (fun item => arr (GameItem.craftedAt item))
             (fun _ : GameNpc.t => tt)).
    intros st' trade. by apply indexTrade_view. }
  rewrite (fold_left_appends (shopsFrame items0 npcs0) fst
             (fun item => arr (GameItem.craftedAt item))
             (fun craft k' =>
                if decide (Craft.resultItemId craft = k')
                then [recipeOf items0 npcs0 (shopId, shop) craft] else [])
             (indexCraft shopId shop npc)); [| |
                                             |exact Htraded].
  - rewrite bind_filter_singleton.
    apply (fmap_through_view (fun item => arr (GameItem.craftedAt item))
             (fun l => l ++ _)), Htrades.
  - intros s craft. apply indexCraft_shopsFrame.
  - intros s craft k' Hs. rewrite indexCraft_craftedAt.
    replace (recipeOf items0 npcs0 (shopId, shop) craft)
      with (CraftInfo.mk shopId (ShopData.name shop) (GameNpc.id <$> npc)
              (GameNpc.name <$> npc)
              (nameIngredient s.1 <$> Craft.ingredients craft)); [reflexivity|].
    transitivity (recipeOf s.1 st.2 (shopId, shop) craft); [reflexivity|].
    apply recipeOf_sameView; [apply Hs | apply Hst].
Qed.

Lemma indexShops_soldAt (items : Items) (npcs : Npcs) (shops : list (Z * ShopData.t))
    (k : Z) :
  (fun item => arr (GameItem.soldAt item))
    <$> JsMap.get k (indexShops items npcs shops).1 =
  (fun item =>
     arr (GameItem.soldAt item) ++
     (shops ≫= fun entry =>
        listingOf npcs entry
          <$> filter (fun trade => Trade.itemId trade = k) (ShopData.trades entry.2)))
    <$> JsMap.get k items.
Proof.
  unfold indexShops.
  pose (vals := fun (entry : Z * ShopData.t) (k' : Z) =>
                  listingOf npcs entry
                    <$> filter (fun trade => Trade.itemId trade = k')
                               (ShopData.trades entry.2)).
  apply (fold_left_appends (shopsFrame items npcs) fst
           (fun item => arr (GameItem.soldAt item)) vals indexShop).
  - intros s entry. apply indexShop_shopsFrame.
  - intros s entry k'. apply indexShop_soldAt.
  - split; apply sameView_refl.
Qed.

Lemma indexShops_craftedAt (items : Items) (npcs : Npcs)
    (shops : list (Z * ShopData.t)) (k : Z) :
  (fun item => arr (GameItem.craftedAt item))
    <$> JsMap.get k (indexShops items npcs shops).1 =
  (fun item =>
     arr (GameItem.craftedAt item) ++
     (shops ≫= fun entry =>
        recipeOf items npcs entry
          <$> filter (fun craft => Craft.resultItemId craft = k)
                     (ShopData.crafts entry.2)))
    <$> JsMap.get k items.
Proof.
  unfold indexShops.
  pose (vals := fun (entry : Z * ShopData.t) (k' : Z) =>
                  recipeOf items npcs entry
                    <$> filter (fun craft => Craft.resultItemId craft = k')
                               (ShopData.crafts entry.2)).
  apply (fold_left_appends (shopsFrame items npcs) fst
           (fun item => arr (GameItem.craftedAt item)) vals indexShop).
  - intros s entry. apply indexShop_shopsFrame.
  - intros s entry k'. apply indexShop_craftedAt.
  - split; apply sameView_refl.
Qed.

Lemma bind_fmap_ext {A B C} (f g : A -> B -> C) (h : A -> list B) (l : list A) :
  (forall a b, f a b = g a b) ->
  (l ≫= fun a => f a <$> h a) = (l ≫= fun a => g a <$> h a).
Proof.
  intros Hfg. induction l as [|a l IH]; [reflexivity|].
  simpl. f_equal; [|exact IH]. apply list_fmap_ext. intros i b _. apply Hfg.
Qed.

(** X17. In a published database the shop listings of an item are exactly
    the trades of shops.ini that name the item's key, in the order of the
    shops and of the trades within each shop, none missing and none added,
    each with the shop's id and name, the prices of the trade, and the id and
    name of the NPC stored under the shop's id when there is one. Likewise
    the recipes of an item are exactly the crafts whose result is the item's
    key, with their ingredients named after the items of the database. *)
Theorem X17_shop_content_of_published_item (lib : Eolib.t) (scheds : Schedules.t)
    (origin : Origin) (db : GameDatabase.t) :
  loadGameDatabase lib scheds origin = Ok db ->
  exists shops,
    loadShops origin = Ok shops /\
    forall k item,
      JsMap.get k (GameDatabase.items db) = Some item ->
      arr (GameItem.soldAt item) =
        (shops ≫= fun entry =>
           listingOf (GameDatabase.npcs db) entry
             <$> filter (fun trade => Trade.itemId trade = k)
                        (ShopData.trades entry.2)) /\
      arr (GameItem.craftedAt item) =
        (shops ≫= fun entry =>
           recipeOf (GameDatabase.items db) (GameDatabase.npcs db) entry
             <$> filter (fun craft => Craft.resultItemId craft = k)
                        (ShopData.crafts entry.2)).
Proof.
  intros Hbuild. build_stages Hbuild. exists shops. split; [exact Hshops|].
  intros k item Hget. name_stages.
  assert (Hsold : sameView (fun i => arr (GameItem.soldAt i)) shopped.1 quested.1.2)
    by (subst quested items3; frames).
  assert (Hcrafted : sameView (fun i => arr (GameItem.craftedAt i)) shopped.1
                       quested.1.2)
    by (subst quested items3; frames).
  assert (Hnames : sameView GameItem.name dropped.1 quested.1.2)
    by (subst quested items3 shopped; frames).
  assert (Hnpcs' : sameView (fun n => (GameNpc.id n, GameNpc.name n)) dropped.2
                     quested.1.1)
    by (subst quested spawned casting mobbed petted shopped; frames).
  apply loadItems_pristine in Hitems. apply loadNpcs_pristine in Hnpcs.
  destruct (freshTrades_after_drops items npcs drops Hitems Hnpcs) as [Hft _].
  destruct (freshCrafts_after_drops items npcs drops Hitems Hnpcs) as [Hfc _].
  fold dropped in Hft, Hfc.
  split.
  - destruct (sameView_Some _ _ _ _ _ Hsold Hget) as (item2 & Hget2 & <-).
    pose proof (indexShops_soldAt dropped.1 dropped.2 shops k) as Hcontent.
    fold shopped in Hcontent. rewrite Hget2 in Hcontent.
    destruct (JsMap.get k dropped.1) as [item1|] eqn:Hget1; [|discriminate].
    simpl in Hcontent. injection Hcontent as ->.
    rewrite (Hft k item1 Hget1). simpl.
    apply bind_fmap_ext. intros entry trade. symmetry.
    by apply listingOf_sameView.
  - destruct (sameView_Some _ _ _ _ _ Hcrafted Hget) as (item2 & Hget2 & <-).
    pose proof (indexShops_craftedAt dropped.1 dropped.2 shops k) as Hcontent.
    fold shopped in Hcontent. rewrite Hget2 in Hcontent.
    destruct (JsMap.get k dropped.1) as [item1|] eqn:Hget1; [|discriminate].
    simpl in Hcontent. injection Hcontent as ->.
    rewrite (Hfc k item1 Hget1). simpl.
    apply bind_fmap_ext. intros entry craft. symmetry.
    by apply recipeOf_sameView.
Qed.

Lemma X17_shop_content_of_published_item_witness :
  exists db item,
    loadGameDatabase exampleLib exampleSchedules stockedOrigin = Ok db /\
    JsMap.get 2 (GameDatabase.items db) = Some item /\
    GameItem.soldAt item = Some [ShopInfo.mk 2 "Store" (Some 2) (Some "Wise Man") 10 5] /\
    arr (GameItem.craftedAt item) =
      [CraftInfo.mk 2 "Store" (Some 2) (Some "Wise Man")
         [CraftIngredient.mk 1 "Gold" 3]].
Proof.
  eexists.
  destruct (X17_shop_content_of_published_item exampleLib exampleSchedules
              stockedOrigin _ ltac:(vm_compute; reflexivity))
    as (shops & Hshops & Hall).
  vm_compute in Hshops. injection Hshops as <-.
  eexists. split; [vm_compute; reflexivity|].
  split; [vm_compute; reflexivity|]. split; [vm_compute; reflexivity|].
  etransitivity; [exact (proj2 (Hall 2 _ ltac:(vm_compute; reflexivity)))|].
  vm_compute. reflexivity.
Defined.

(** ** What the drops pass gives an NPC, exactly *)

(** A loop over the entries of a [Map] each of whose steps assigns a field
    of the entity under the entry's key: afterwards the field holds what the
    entity's entry assigns. *)
Lemma fold_assign_view {S V A F} (Inv : S -> Prop) (tbl : S -> list (Z * V))
    (field : V -> F) (h : A -> F) (step : S -> Z * A -> S) :
  (forall s e, Inv s -> Inv (step s e)) ->
  (forall s k a k', Inv s ->
     field <$> JsMap.get k' (tbl (step s (k, a))) =
     (fun v => if decide (k = k') then h a else field v) <$> JsMap.get k' (tbl s)) ->
  forall (entries : list (Z * A)) (s : S) (k' : Z),
    JsMap.wf entries -> Inv s ->
    field <$> JsMap.get k' (tbl (fold_left step entries s)) =
    (fun v => match JsMap.get k' entries with
              | Some a => h a
              | None => field v
              end) <$> JsMap.get k' (tbl s).
Proof.
  intros Hinv Hstep entries.
  induction entries as [|[k a] rest IH]; intros s k' Hwf Hs; [reflexivity|].
  apply NoDup_cons in Hwf as [Hk Hwf]. cbn [fmap list_fmap fst] in Hk.
  cbn [fold_left]. rewrite (IH _ k' Hwf (Hinv _ _ Hs)).
  specialize (Hstep s k a k' Hs). cbn [JsMap.get].
  destruct (JsMap.get k' (tbl (step s (k, a)))) as [v1|];
    destruct (JsMap.get k' (tbl s)) as [v0|]; try discriminate; [|reflexivity].
  simpl in *. injection Hstep as Hfield. f_equal.
  destruct (decide (k' = k)) as [->|Hne].
  - apply (get_None_keys k rest) in Hk. rewrite Hk.
    by rewrite decide_True in Hfield.
  - rewrite decide_False in Hfield by congruence.
    destruct (JsMap.get k' rest); [reflexivity | exact Hfield].
Qed.

Lemma indexDrop_names (items0 : Items) (npcId : Z) (npc : GameNpc.t)
    (st : Items * Npcs) (drop : ItemDrop.t) :
  sameView GameItem.name items0 st.1 ->
  sameView GameItem.name items0 (indexDrop npcId npc st drop).1.
Proof.
  intros Hst. eapply sameView_trans; [exact Hst|].
  destruct st as [items npcs]. unfold indexDrop.
  destruct (JsMap.get (ItemDrop.itemId drop) items); [|apply sameView_refl].
  cbv zeta. cbn [fst]. by apply sameView_modify.
Qed.

(** The drops of one table, seen from the NPC under [k']. *)
Lemma indexDrop_fold (items0 : Items) (npcId : Z) (npc : GameNpc.t)
    (l : list ItemDrop.t) :
  forall (st : Items * Npcs) (k' : Z),
    sameView GameItem.name items0 st.1 ->
    GameNpc.drops <$> JsMap.get k' (fold_left (indexDrop npcId npc) l st).2 =
    (fun n => if decide (npcId = k')
              then match omap (resolvedDrop items0) l with
                   | [] => GameNpc.drops n
                   | found => Some (arr (GameNpc.drops n) ++ found)
                   end
              else GameNpc.drops n) <$> JsMap.get k' st.2.
Proof.
  induction l as [|drop l IH]; intros st k' Hst.
  - simpl. by destruct (decide (npcId = k')).
  - cbn [fold_left]. rewrite IH by by apply indexDrop_names.
    pose proof (Hst (ItemDrop.itemId drop)) as Hname.
    destruct st as [items npcs]. cbn [fst snd] in *.
    change (omap (resolvedDrop items0) (drop :: l))
      with (match resolvedDrop items0 drop with
            | Some y => y :: omap (resolvedDrop items0) l
            | None => omap (resolvedDrop items0) l
            end).
    assert (Hres : resolvedDrop items0 drop =
              (fun item => ItemDrop.with_itemName (GameItem.name item) drop)
                <$> JsMap.get (ItemDrop.itemId drop) items0) by reflexivity.
    rewrite Hres. clear Hres. unfold indexDrop.
    destruct (JsMap.get (ItemDrop.itemId drop) items) as [item|] eqn:Hitem;
      destruct (JsMap.get (ItemDrop.itemId drop) items0) as [item0|];
      try discriminate; [|reflexivity].
    simpl in Hname. injection Hname as Hname. cbv zeta. cbn [fst snd].
    cbn [fmap option_fmap option_map]. rewrite get_modify.
    destruct (decide (npcId = k')) as [Heq|Hne]; [|reflexivity].
    destruct (JsMap.get k' npcs) as [n|]; [|reflexivity].
    simpl. f_equal. rewrite Hname.
    destruct (omap (resolvedDrop items0) l) as [|d r]; simpl.
    + reflexivity.
    + by rewrite <- app_assoc.
Qed.

Lemma indexNpcDrops_names (items0 : Items) (st : Items * Npcs)
    (entry : Z * list ItemDrop.t) :
  sameView GameItem.name items0 st.1 ->
  sameView GameItem.name items0 (indexNpcDrops st entry).1.
Proof.
  intros Hst. destruct st as [items npcs], entry as [npcId l]. unfold indexNpcDrops.
  destruct (JsMap.get npcId npcs) as [npc|]; [|exact Hst].
  apply (fold_left_invariant (fun s => sameView GameItem.name items0 s.1));
    [|exact Hst].
  intros s drop _. apply indexDrop_names.
Qed.

(** The drops pass, seen from the NPC under [k']: the NPC of a table gets a
    new list, with the drops of the table whose item is known. *)
Lemma indexDrops_drops (items : Items) (npcs : Npcs)
    (drops : list (Z * list ItemDrop.t)) (k' : Z) :
  JsMap.wf drops ->
  GameNpc.drops <$> JsMap.get k' (indexDrops items npcs drops).2 =
  (fun n => match JsMap.get k' drops with
            | Some l => Some (omap (resolvedDrop items) l)
            | None => GameNpc.drops n
            end) <$> JsMap.get k' npcs.
Proof.
  intros Hwf. unfold indexDrops.
  apply (fold_assign_view (fun s : Items * Npcs => sameView GameItem.name items s.1)
           snd GameNpc.drops
           (fun l => Some (omap (resolvedDrop items) l)) indexNpcDrops);
    [apply indexNpcDrops_names| |exact Hwf|apply sameView_refl].
  intros [items1 npcs1] npcId l k Hs. unfold indexNpcDrops.
  destruct (JsMap.get npcId npcs1) as [npc|] eqn:Hnpc.
  - rewrite (indexDrop_fold items) by exact Hs. cbn [snd].
    rewrite get_modify. destruct (decide (npcId = k)) as [->|Hne]; [|reflexivity].
    rewrite Hnpc. simpl. by destruct (omap (resolvedDrop items) l).
  - cbn [snd]. destruct (decide (npcId = k)) as [->|Hne]; [|reflexivity].
    by rewrite Hnpc.
Qed.

(** X18. In a published database an NPC has a drop list exactly when
    drops.ini has a table for the NPC's key, and the list is exactly the
    drops of that table whose item is an item of the database, in the order
    of the table, each with the item's name. A table none of whose items is
    known leaves the NPC with an empty list, not without one. *)
Theorem X18_drops_of_published_npc (lib : Eolib.t) (scheds : Schedules.t)
    (origin : Origin) (db : GameDatabase.t) :
  loadGameDatabase lib scheds origin = Ok db ->
  exists drops,
    loadDrops origin = Ok drops /\
    forall k npc,
      JsMap.get k (GameDatabase.npcs db) = Some npc ->
      GameNpc.drops npc =
      (fun table : list ItemDrop.t =>
         omap (resolvedDrop (GameDatabase.items db)) table) <$> JsMap.get k drops.
Proof.
  intros Hbuild. build_stages Hbuild. exists drops. split; [exact Hdrops|].
  intros k npc Hget. name_stages.
  assert (Hafter : sameView GameNpc.drops dropped.2 quested.1.1)
    by (subst quested spawned casting mobbed petted shopped; frames).
  assert (Hnames : sameView GameItem.name items quested.1.2)
    by (subst quested items3 shopped dropped; frames).
  destruct (sameView_Some _ _ _ _ _ Hafter Hget) as (npc1 & Hget1 & <-).
  pose proof (indexDrops_drops items npcs drops k (loadDrops_wf _ _ Hdrops))
    as Hcontent.
  fold dropped in Hcontent. rewrite Hget1 in Hcontent.
  destruct (JsMap.get k npcs) as [npc0|] eqn:Hget0; [|discriminate].
  simpl in Hcontent. injection Hcontent as ->.
  apply loadNpcs_pristine in Hnpcs.
  destruct (Hnpcs k npc0 Hget0) as (_ & _ & Hnone & _).
  destruct (JsMap.get k drops) as [l|]; [|exact Hnone].
  simpl. f_equal. clear -Hnames.
  induction l as [|drop l IH]; [reflexivity|].
  cbn [omap list_omap]. rewrite IH.
  replace (resolvedDrop quested.1.2 drop) with (resolvedDrop items drop);
    [reflexivity|].
  unfold resolvedDrop. specialize (Hnames (ItemDrop.itemId drop)).
  destruct (JsMap.get (ItemDrop.itemId drop) items);
    destruct (JsMap.get (ItemDrop.itemId drop) quested.1.2);
    try discriminate; [|reflexivity].
  simpl in *. by injection Hnames as ->.
Qed.

Lemma X18_drops_of_published_npc_witness :
  exists db rat wiseMan,
    loadGameDatabase exampleLib exampleSchedules partlyKnownDropsOrigin = Ok db /\
    JsMap.get 1 (GameDatabase.npcs db) = Some rat /\
    GameNpc.drops rat = Some [ItemDrop.mk 2 "Potion" 1 3 (Js.Finite (25 # 2))] /\
    JsMap.get 2 (GameDatabase.npcs db) = Some wiseMan /\
    GameNpc.drops wiseMan = Some [].
Proof.
  eexists.
  destruct (X18_drops_of_published_npc exampleLib exampleSchedules
              partlyKnownDropsOrigin _ ltac:(vm_compute; reflexivity))
    as (drops & Hdrops & Hall).
  vm_compute in Hdrops. injection Hdrops as <-.
  eexists. eexists. split; [vm_compute; reflexivity|].
  split; [vm_compute; reflexivity|]. split.
  - etransitivity; [exact (Hall 1 _ ltac:(vm_compute; reflexivity))|].
    vm_compute. reflexivity.
  - split; [vm_compute; reflexivity|].
    etransitivity; [exact (Hall 2 _ ltac:(vm_compute; reflexivity))|].
    vm_compute. reflexivity.
Defined.

(** ** The page numbers of the pagination bar *)

Lemma idRange_1 (lo hi : Z) : hi = lo -> idRange lo hi = [lo].
Proof.
  intros ->. unfold idRange. replace (lo - lo + 1) with 1 by lia. simpl.
  by rewrite Z.add_0_r.
Qed.

Lemma idRange_2 (lo hi : Z) : hi = lo + 1 -> idRange lo hi = [lo; lo + 1].
Proof.
  intros ->. unfold idRange. replace (lo + 1 - lo + 1) with 2 by lia. simpl.
  by rewrite Z.add_0_r.
Qed.

Lemma idRange_3 (lo hi : Z) : hi = lo + 2 -> idRange lo hi = [lo; lo + 1; lo + 2].
Proof.
  intros ->. unfold idRange. replace (lo + 2 - lo + 1) with 3 by lia. simpl.
  by rewrite Z.add_0_r.
Qed.

(** The bar of a long list, by the place of the current page. *)
Lemma getPageNumbers_long (currentPage totalPages : Z) :
  7 < totalPages -> 1 <= currentPage <= totalPages ->
  getPageNumbers currentPage totalPages =
  if decide (currentPage = 1) then [Page 1; Page 2; Ellipsis; Page totalPages]
  else if decide (currentPage = 2)
       then [Page 1; Page 2; Page 3; Ellipsis; Page totalPages]
  else if decide (currentPage = 3)
       then [Page 1; Page 2; Page 3; Page 4; Ellipsis; Page totalPages]
  else if decide (currentPage = totalPages)
       then [Page 1; Ellipsis; Page (currentPage - 1); Page totalPages]
  else if decide (currentPage = totalPages - 1)
       then [Page 1; Ellipsis; Page (currentPage - 1); Page currentPage;
             Page totalPages]
  else if decide (currentPage = totalPages - 2)
       then [Page 1; Ellipsis; Page (currentPage - 1); Page currentPage;
             Page (currentPage + 1); Page totalPages]
  else [Page 1; Ellipsis; Page (currentPage - 1); Page currentPage;
        Page (currentPage + 1); Ellipsis; Page totalPages].
Proof.
  intros Hlong Hcur. unfold getPageNumbers.
  destruct (Z.leb_spec totalPages 7); [lia|].
  repeat case_decide;
    destruct (Z.ltb_spec 3 currentPage); try lia;
    destruct (Z.ltb_spec currentPage (totalPages - 2)); try lia.
  - replace (Z.max 2 (currentPage - 1)) with 2 by lia.
    rewrite (idRange_1 2) by lia. reflexivity.
  - replace (Z.max 2 (currentPage - 1)) with 2 by lia.
    rewrite (idRange_2 2) by lia. reflexivity.
  - replace (Z.max 2 (currentPage - 1)) with 2 by lia.
    rewrite (idRange_3 2) by lia. reflexivity.
  - replace (Z.max 2 (currentPage - 1)) with (currentPage - 1) by lia.
    rewrite (idRange_1 (currentPage - 1)) by lia. reflexivity.
  - replace (Z.max 2 (currentPage - 1)) with (currentPage - 1) by lia.
    rewrite (idRange_2 (currentPage - 1)) by lia. simpl.
    replace (currentPage - 1 + 1) with currentPage by lia. reflexivity.
  - replace (Z.max 2 (currentPage - 1)) with (currentPage - 1) by lia.
    rewrite (idRange_3 (currentPage - 1)) by lia. simpl.
    replace (currentPage - 1 + 1) with currentPage by lia.
    replace (currentPage - 1 + 2) with (currentPage + 1) by lia. reflexivity.
  - replace (Z.max 2 (currentPage - 1)) with (currentPage - 1) by lia.
    rewrite (idRange_3 (currentPage - 1)) by lia. simpl.
    replace (currentPage - 1 + 1) with currentPage by lia.
    replace (currentPage - 1 + 2) with (currentPage + 1) by lia. reflexivity.
Qed.

Lemma getPageNumbers_short (currentPage totalPages : Z) :
  1 <= totalPages <= 7 ->
  getPageNumbers currentPage totalPages =
  take (Z.to_nat totalPages)
       [Page 1; Page 2; Page 3; Page 4; Page 5; Page 6; Page 7].
Proof.
  intros Hshort. unfold getPageNumbers.
  destruct (Z.leb_spec totalPages 7); [|lia].
  assert (Hcases : totalPages = 1 \/ totalPages = 2 \/ totalPages = 3 \/
                   totalPages = 4 \/ totalPages = 5 \/ totalPages = 6 \/
                   totalPages = 7) by lia.
  by destruct Hcases as [->|[->|[->|[->|[->|[->| ->]]]]]].
Qed.

(** Membership in a list that is written out. *)
Ltac member := repeat first [apply list_elem_of_here | apply list_elem_of_further].

(** A bar given as a list: what holds of two and three neighbours. *)
Ltac neighbours :=
  let i := fresh "i" in
  let a := fresh "a" in
  let b := fresh "b" in
  intros i a b;
  repeat (destruct i as [|i]; simpl;
          [try (intros [= <-]); try (intros [= <-]); try discriminate;
           try lia; eauto with lia|]);
  try discriminate.

(** X19. For a current page between 1 and the number of pages, the bar
    starts with page 1 and ends with the last page, shows the current page,
    and has at most seven entries. It is an honest abridgement of the list
    of pages: two page numbers next to each other are consecutive, and an
    ellipsis stands between two page numbers of which the second is at
    least two more than the first, so that the numbers shown increase and
    every ellipsis hides at least one page. *)
Theorem X19_page_numbers_abridge_honestly (currentPage totalPages : Z) :
  1 <= currentPage <= totalPages ->
  let pages := getPageNumbers currentPage totalPages in
  head pages = Some (Page 1) /\
  last pages = Some (Page totalPages) /\
  Page currentPage ∈ pages /\
  (length pages <= 7)%nat /\
  (forall i a b,
     pages !! i = Some (Page a) -> pages !! S i = Some (Page b) -> b = a + 1) /\
  (forall i a,
     pages !! i = Some (Page a) -> pages !! S i = Some Ellipsis ->
     exists b, pages !! S (S i) = Some (Page b) /\ a + 2 <= b).
Proof.
  intros Hcur pages. subst pages.
  destruct (decide (totalPages <= 7)) as [Hshort|Hlong].
  - rewrite getPageNumbers_short by lia.
    assert (Hcases : totalPages = 1 \/ totalPages = 2 \/ totalPages = 3 \/
                     totalPages = 4 \/ totalPages = 5 \/ totalPages = 6 \/
                     totalPages = 7) by lia.
    destruct Hcases as [->|[->|[->|[->|[->|[->| ->]]]]]]; simpl;
      (split; [reflexivity|]); (split; [reflexivity|]);
      (split; [assert (Hc : currentPage = 1 \/ currentPage = 2 \/ currentPage = 3 \/
                            currentPage = 4 \/ currentPage = 5 \/ currentPage = 6 \/
                            currentPage = 7) by lia;
               destruct Hc as [->|[->|[->|[->|[->|[->| ->]]]]]];
               try lia; member|]);
      (split; [lia|]); (split; [neighbours|]);
      intros i a; repeat (destruct i as [|i]; simpl; try discriminate).
  - rewrite getPageNumbers_long by lia.
    repeat case_decide; subst; simpl;
      (split; [reflexivity|]); (split; [reflexivity|]);
      (split; [member|]); (split; [lia|]); (split; [neighbours|]);
      intros i a;
      repeat (destruct i as [|i]; simpl;
              [try (intros [= <-]); try discriminate;
               try (intros _; eexists; split; [reflexivity | lia])|]);
      try discriminate.
Qed.

Lemma X19_page_numbers_abridge_honestly_witness :
  getPageNumbers 10 20 =
    [Page 1; Ellipsis; Page 9; Page 10; Page 11; Ellipsis; Page 20] /\
  Page 10 ∈ getPageNumbers 10 20 /\
  (length (getPageNumbers 10 20) <= 7)%nat.
Proof.
  split; [reflexivity|].
  destruct (X19_page_numbers_abridge_honestly 10 20 ltac:(lia))
    as (_ & _ & Hin & Hlen & _).
  by split.
Defined.

(** ** The search hooks *)

Lemma startsWith_refl (s : string) : Js.startsWith s s = true.
Proof.
  unfold Js.startsWith. induction s as [|c s IH]; simpl; [reflexivity|].
  by destruct (ascii_dec c c).
Qed.

Lemma includes_refl (s : string) : includes s s = true.
Proof. destruct s; [reflexivity|]. cbn [includes]. by rewrite startsWith_refl. Qed.

Section SearchFacts.
Context {A : Type} (sort : forall A : Type, (A -> A -> Z) -> list A -> list A)
  (localeCompare : string -> string -> Z) (name : A -> string).

(** An exact match never comes after another entity. *)
Lemma relevance_exact_first (lowerQuery : string) (a b : A) :
  relevance localeCompare name lowerQuery a b <= 0 ->
  Js.toLowerCase (name b) = lowerQuery ->
  Js.toLowerCase (name a) = lowerQuery.
Proof.
  unfold relevance. intros Hcmp Hb.
  destruct (String.eqb_spec (Js.toLowerCase (name a)) lowerQuery) as [|Ha];
    [assumption|].
  apply String.eqb_eq in Hb. rewrite Hb in Hcmp. simpl in Hcmp. lia.
Qed.

End SearchFacts.

(** X20. The name search of the hooks useItemSearch, useNpcSearch and
    useSpellSearch, for an engine whose sort returns the matches in an order
    that agrees with the comparator. A blank query gives no result, though a
    query is matched with its blanks. Otherwise there are at most fifty
    results, each an entity of the table whose name contains the query up to
    case; when at most fifty entities match, all of them are returned; an
    exact match never comes after an entity that is not one, so that if any
    entity is named exactly as the query asks, the first result is. *)
Theorem X20_name_search (A : Type)
    (sort : forall A : Type, (A -> A -> Z) -> list A -> list A)
    (localeCompare : string -> string -> Z) (name : A -> string)
    (values : list A) (query : string) :
  let lowerQuery := Js.toLowerCase query in
  let matching := fun x => includes lowerQuery (Js.toLowerCase (name x)) = true in
  let exact := fun x => Js.toLowerCase (name x) = lowerQuery in
  let cmp := relevance localeCompare name lowerQuery in
  let results := nameSearch sort localeCompare name values query in
  sort A cmp (filter matching values) ≡ₚ filter matching values ->
  (forall i j a b,
     (i < j)%nat ->
     sort A cmp (filter matching values) !! i = Some a ->
     sort A cmp (filter matching values) !! j = Some b ->
     cmp a b <= 0) ->
  (Js.trim query = EmptyString -> results = []) /\
  (length results <= 50)%nat /\
  (forall x, x ∈ results -> x ∈ values /\ matching x) /\
  (Js.trim query <> EmptyString -> (length (filter matching values) <= 50)%nat ->
   results ≡ₚ filter matching values) /\
  (forall i j a b,
     (i < j)%nat -> results !! i = Some a -> results !! j = Some b ->
     exact b -> exact a) /\
  (Js.trim query <> EmptyString ->
   forall x, x ∈ values -> exact x ->
   exists first, results !! 0%nat = Some first /\ exact first).
Proof.
  intros lowerQuery matching exact cmp results Hperm Hsorted.
  subst results. unfold nameSearch.
  fold lowerQuery. fold matching. fold cmp.
  set (sorted := sort A cmp (filter matching values)) in *.
  destruct (Js.trim query) as [|c rest] eqn:Htrim; cbn [Js.truthy negb].
  - split; [reflexivity|]. split; [simpl; lia|].
    split; [intros x Hx; by apply elem_of_nil in Hx|].
    split; [done|]. split; [|done].
    intros i j a b _ Hi. by rewrite lookup_nil in Hi.
  - split; [discriminate|].
    split; [rewrite length_take; lia|].
    split.
    { intros x Hx. apply elem_of_take in Hx as (i & Hx & _).
      apply list_elem_of_lookup_2 in Hx. rewrite Hperm in Hx.
      apply list_elem_of_filter in Hx as [Hm Hin]. by split. }
    split.
    { intros _ Hlen. rewrite take_ge; [exact Hperm|].
      by rewrite Hperm. }
    split.
    { intros i j a b Hij Hi Hj Hb.
      apply lookup_take_Some in Hi as [Hi _]. apply lookup_take_Some in Hj as [Hj _].
      apply (relevance_exact_first localeCompare name lowerQuery a b);
        [|exact Hb].
      by apply (Hsorted i j). }
    intros _ x Hin Hx.
    assert (Hmatch : x ∈ sorted).
    { rewrite Hperm. apply list_elem_of_filter. split; [|exact Hin].
      unfold matching. rewrite Hx. apply includes_refl. }
    apply list_elem_of_lookup_1 in Hmatch as [j Hj].
    destruct sorted as [|first sorted'] eqn:Hs; [by rewrite lookup_nil in Hj|].
    exists first. split; [reflexivity|].
    destruct j as [|j]; [simpl in Hj; by injection Hj as ->|].
    apply (relevance_exact_first localeCompare name lowerQuery first x);
      [|exact Hx].
    apply (Hsorted 0%nat (S j)); [lia|reflexivity|exact Hj].
Qed.

Lemma X20_name_search_witness :
  useItemSearch insertionSort codeUnitCompare (Some goldItems) "gold" =
    [exampleItem 2 "Gold"; exampleItem 3 "Golden Axe"; exampleItem 1 "Marigold"] /\
  useItemSearch insertionSort codeUnitCompare (Some goldItems) " gold" = [] /\
  exists first,
    useItemSearch insertionSort codeUnitCompare (Some goldItems) "gold" !! 0%nat
      = Some first /\
    Js.toLowerCase (GameItem.name first) = "gold".
Proof.
  split; [vm_compute; reflexivity|]. split; [vm_compute; reflexivity|].
  assert (Hperm :
    insertionSort GameItem.t (relevance codeUnitCompare GameItem.name "gold")
      [exampleItem 1 "Marigold"; exampleItem 2 "Gold"; exampleItem 3 "Golden Axe"]
    ≡ₚ [exampleItem 1 "Marigold"; exampleItem 2 "Gold"; exampleItem 3 "Golden Axe"]).
  { vm_compute.
    etransitivity; [|apply perm_swap]. apply perm_skip, perm_swap. }
  assert (Hsorted : forall i j a b,
    (i < j)%nat ->
    insertionSort GameItem.t (relevance codeUnitCompare GameItem.name "gold")
      [exampleItem 1 "Marigold"; exampleItem 2 "Gold"; exampleItem 3 "Golden Axe"]
      !! i = Some a ->
    insertionSort GameItem.t (relevance codeUnitCompare GameItem.name "gold")
      [exampleItem 1 "Marigold"; exampleItem 2 "Gold"; exampleItem 3 "Golden Axe"]
      !! j = Some b ->
    relevance codeUnitCompare GameItem.name "gold" a b <= 0).
  { intros i j a b Hij.
    destruct i as [|[|[|i]]]; destruct j as [|[|[|j]]]; try lia;
      try discriminate; intros [= <-] [= <-]; vm_compute; discriminate. }
  destruct (X20_name_search GameItem.t insertionSort codeUnitCompare GameItem.name
              (JsMap.values (GameDatabase.items goldItems)) "gold" Hperm Hsorted)
    as (_ & _ & _ & _ & _ & Hfirst).
  apply (Hfirst ltac:(discriminate) (exampleItem 2 "Gold")); [|reflexivity].
  apply list_elem_of_further, list_elem_of_here.
Defined.

(** ** The image paths *)

Section PathFacts.
Local Open Scope string_scope.

Lemma split_free (sep : ascii) (s : string) :
  Js.indexOf sep s = None -> Js.split sep s = [s].
Proof.
  induction s as [|c s IH]; [reflexivity|]. intros Hnone.
  apply indexOf_cons_None in Hnone as [Hc Hs]. simpl. by rewrite Hc, IH.
Qed.

Lemma split_app_sep (sep : ascii) (f rest : string) :
  Js.indexOf sep f = None ->
  Js.split sep (f +:+ String sep rest) = f :: Js.split sep rest.
Proof.
  induction f as [|c f IH]; simpl.
  - by rewrite Ascii.eqb_refl.
  - intros Hnone. apply (indexOf_cons_None sep c f) in Hnone as [Hc Hf].
    by rewrite Hc, IH.
Qed.

Lemma indexOf_app_None (c : ascii) (a b : string) :
  Js.indexOf c a = None -> Js.indexOf c b = None -> Js.indexOf c (a +:+ b) = None.
Proof.
  intros Ha Hb. induction a as [|d a IH]; [exact Hb|].
  apply indexOf_cons_None in Ha as [Hd Ha].
  change (String d a +:+ b) with (String d (a +:+ b)).
  apply indexOf_cons_None. split; [exact Hd | by apply IH].
Qed.

Lemma indexOf_uint (c : ascii) (d : Decimal.uint) :
  Js.isDigit c = false -> Js.indexOf c (NilEmpty.string_of_uint d) = None.
Proof.
  intros Hc. induction d; cbn [NilEmpty.string_of_uint]; [reflexivity|..];
    (apply (indexOf_cons_None c); split; [|exact IHd];
     apply Ascii.eqb_neq; intros <-; discriminate Hc).
Qed.

Lemma indexOf_toString (c : ascii) (n : Z) :
  Js.isDigit c = false -> c <> "-"%char -> Js.indexOf c (Js.toString n) = None.
Proof.
  intros Hc Hminus. unfold Js.toString, NilZero.string_of_int.
  assert (Hu : forall d, Js.indexOf c (NilZero.string_of_uint d) = None).
  { intros d. pose proof (indexOf_uint c d Hc) as Hd. destruct d; try exact Hd.
    apply (indexOf_cons_None c). split; [|reflexivity].
    apply Ascii.eqb_neq. intros <-. discriminate Hc. }
  destruct (Z.to_int n) as [d|d]; [apply Hu|].
  apply indexOf_cons_None. split; [|apply Hu].
  apply Ascii.eqb_neq. congruence.
Qed.

Lemma indexOf_repeat (c d : ascii) (n : nat) :
  c <> d -> Js.indexOf c (Js.repeat d n) = None.
Proof.
  intros Hne. induction n as [|n IH]; [reflexivity|]. simpl.
  apply Ascii.eqb_neq in Hne. rewrite Ascii.eqb_sym in Hne. by rewrite Hne, IH.
Qed.

Lemma indexOf_removeChars (p : ascii -> bool) (c : ascii) (s : string) :
  p c = true -> Js.indexOf c (removeChars p s) = None.
Proof.
  intros Hp. induction s as [|d s IH]; [reflexivity|]. simpl.
  destruct (p d) eqn:Hd; [exact IH|].
  apply indexOf_cons_None. split; [|exact IH].
  apply Ascii.eqb_neq. congruence.
Qed.

Lemma indexOf_substring (c : ascii) (s : string) :
  Js.indexOf c s = None ->
  forall a n, Js.indexOf c (String.substring a n s) = None.
Proof.
  induction s as [|d s IH]; intros Hnone a n.
  - by destruct a, n.
  - apply indexOf_cons_None in Hnone as [Hd Hs].
    destruct a as [|a]; simpl; [|by apply IH].
    destruct n as [|n]; [reflexivity|].
    apply indexOf_cons_None. split; [exact Hd | by apply IH].
Qed.

Lemma length_substring_le (s : string) :
  forall a n, (String.length (String.substring a n s) <= n)%nat.
Proof.
  induction s as [|d s IH]; intros a n.
  - destruct a, n; simpl; lia.
  - destruct a as [|a]; simpl; [|apply IH].
    destruct n as [|n]; simpl; [lia|]. specialize (IH 0%nat n). lia.
Qed.

Lemma indexOf_percent (c : ascii) (byte : nat) :
  c = "/"%char -> Js.indexOf c (percent byte) = None.
Proof.
  intros ->.
  assert (Hhex : forall n, Ascii.eqb (hexDigit n) "/" = false).
  { intros n. unfold hexDigit.
    do 17 (destruct n as [|n]; [reflexivity|]). by destruct n. }
  unfold percent.
  apply indexOf_cons_None. split; [reflexivity|].
  apply indexOf_cons_None. split; [apply Hhex|].
  apply indexOf_cons_None. split; [apply Hhex | reflexivity].
Qed.

Lemma indexOf_encodeURIComponent (s : string) :
  Js.indexOf "/" (encodeURIComponent s) = None.
Proof.
  induction s as [|c s IH]; [reflexivity|]. simpl.
  apply indexOf_app_None; [|exact IH]. unfold encodeChar.
  destruct (unreserved c) eqn:Hc.
  - apply indexOf_cons_None. split; [|reflexivity].
    destruct (Ascii.eqb_spec c "/") as [->|]; [discriminate Hc | reflexivity].
  - destruct (Js.code c <? 128)%nat; [by apply indexOf_percent|].
    apply indexOf_app_None; by apply indexOf_percent.
Qed.

End PathFacts.

Lemma sanitizeName_safe (name : string) (c : ascii) :
  pathUnsafe c = true -> Js.indexOf c (sanitizeName name) = None.
Proof.
  intros Hc. unfold sanitizeName. destruct (negb (Js.truthy name)).
  - unfold pathUnsafe, Regex.oneOf in Hc.
    apply indexOf_cons_None. split.
    { apply Ascii.eqb_neq. intros <-. vm_compute in Hc. discriminate Hc. }
    repeat (apply indexOf_cons_None; split;
            [apply Ascii.eqb_neq; intros <-; vm_compute in Hc; discriminate Hc|]).
    reflexivity.
  - unfold Js.substring. by apply indexOf_substring, indexOf_removeChars.
Qed.

Lemma paddedId_no_slash (id : Z) : Js.indexOf "/" (paddedId id) = None.
Proof.
  unfold paddedId, Js.padStart.
  apply indexOf_app_None; [by apply indexOf_repeat | by apply indexOf_toString].
Qed.

(** The folder of an entity, one segment of its image paths. *)
Lemma folder_no_slash (prefix : string) (id : Z) (name : string) :
  Js.indexOf "/" prefix = None ->
  Js.indexOf "/" (prefix +:+ paddedId id +:+ "_" +:+ sanitizeName name) = None.
Proof.
  intros Hprefix. apply indexOf_app_None; [exact Hprefix|].
  apply indexOf_app_None; [apply paddedId_no_slash|].
  apply indexOf_cons_None. split; [reflexivity|]. by apply sanitizeName_safe.
Qed.

Lemma append_assoc (a b c : string) : (a +:+ b) +:+ c = a +:+ (b +:+ c).
Proof.
  induction a as [|d a IH]; [reflexivity|].
  change (String d ((a +:+ b) +:+ c) = String d (a +:+ (b +:+ c))).
  by rewrite IH.
Qed.

(** Nothing is left of a name exactly when every character of it is
    removed. *)
Lemma removeChars_empty (p : ascii -> bool) (s : string) :
  removeChars p s = EmptyString <->
  Forall (fun c => p c = true) (list_ascii_of_string s).
Proof.
  induction s as [|d s IH]; simpl.
  - split; [constructor | reflexivity].
  - destruct (p d) eqn:Hd.
    + rewrite IH. split; [by constructor|]. intros Hall.
      by apply Forall_cons in Hall as [_ Hall].
    + split; [discriminate|]. intros Hall.
      apply Forall_cons in Hall as [Hd' _]. congruence.
Qed.

(** Cutting a name to fifty characters empties no name. *)
Lemma substring_start_empty (n : nat) (s : string) :
  String.substring 0 (S n) s = EmptyString <-> s = EmptyString.
Proof. destruct s; simpl; split; (reflexivity || discriminate). Qed.

Lemma sanitizeName_empty (name : string) :
  sanitizeName name = EmptyString <->
  name <> EmptyString /\
  Forall (fun c => pathUnsafe c = true) (list_ascii_of_string name).
Proof.
  unfold sanitizeName. destruct name as [|d name].
  - simpl. split; [discriminate | by intros [Hne _]].
  - cbn [Js.truthy negb]. unfold Js.substring.
    change (50 - 0)%nat with 50%nat.
    rewrite substring_start_empty, removeChars_empty.
    split; [by split | by intros [_ Hall]].
Qed.

(** X21. Whatever the name of an item or a spell, its image path has the
    same shape: the name, with the characters that are unsafe in a path
    removed and cut to fifty characters, stays inside the one folder segment
    of the path and can add no segment. The sanitized name never holds an
    unsafe character and is never longer than fifty characters; an empty name
    becomes Unknown, while a name that is not empty becomes empty exactly
    when it holds unsafe characters only. *)
Theorem X21_image_path_has_fixed_shape (id : Z) (name : string) :
  getItemImageUrl id name =
    "/gfx/Items/" +:+
    encodeURIComponent ("item_" +:+ paddedId id +:+ "_" +:+ sanitizeName name) +:+
    "/inventory/inventory_icon.bmp" /\
  getSpellIconUrl id name =
    "/gfx/Spells/" +:+
    encodeURIComponent ("spell_" +:+ paddedId id +:+ "_" +:+ sanitizeName name) +:+
    "/icons/spell_icon.bmp" /\
  (forall s, Js.indexOf "/" (encodeURIComponent s) = None) /\
  (forall c, pathUnsafe c = true -> Js.indexOf c (sanitizeName name) = None) /\
  (String.length (sanitizeName name) <= 50)%nat /\
  sanitizeName EmptyString = "Unknown" /\
  (sanitizeName name = EmptyString <->
   name <> EmptyString /\
   Forall (fun c => pathUnsafe c = true) (list_ascii_of_string name)).
Proof.
  split; [|split; [|split; [exact indexOf_encodeURIComponent|
                    split; [intros c; apply sanitizeName_safe|
                    split; [|split; [reflexivity|apply sanitizeName_empty]]]]]].
  - unfold getItemImageUrl, encodePath.
    set (folder := "item_" +:+ paddedId id +:+ "_" +:+ sanitizeName name).
    assert (Hfolder : Js.indexOf "/" folder = None) by (by apply folder_no_slash).
    replace ("/gfx/Items/item_" +:+ paddedId id +:+ "_" +:+ sanitizeName name
             +:+ "/inventory/inventory_icon.bmp")
      with (EmptyString +:+ String "/" ("gfx" +:+ String "/" ("Items" +:+ String "/"
              (folder +:+ String "/" ("inventory" +:+ String "/"
                 "inventory_icon.bmp")))))
      by (unfold folder; rewrite !append_assoc; reflexivity).
    rewrite !split_app_sep by (reflexivity || exact Hfolder).
    rewrite split_free by reflexivity. reflexivity.
  - unfold getSpellIconUrl, encodePath.
    set (folder := "spell_" +:+ paddedId id +:+ "_" +:+ sanitizeName name).
    assert (Hfolder : Js.indexOf "/" folder = None) by (by apply folder_no_slash).
    replace ("/gfx/Spells/spell_" +:+ paddedId id +:+ "_" +:+ sanitizeName name
             +:+ "/icons/spell_icon.bmp")
      with (EmptyString +:+ String "/" ("gfx" +:+ String "/" ("Spells" +:+ String "/"
              (folder +:+ String "/" ("icons" +:+ String "/" "spell_icon.bmp")))))
      by (unfold folder; rewrite !append_assoc; reflexivity).
    rewrite !split_app_sep by (reflexivity || exact Hfolder).
    rewrite split_free by reflexivity. reflexivity.
  - unfold sanitizeName. destruct (negb (Js.truthy name)); [simpl; lia|].
    apply length_substring_le.
Qed.

Lemma X21_image_path_has_fixed_shape_witness :
  sanitizeName "<|>" = EmptyString /\
  sanitizeName "Gold: Bar?" = "Gold Bar" /\
  Js.indexOf ":" (sanitizeName "Gold: Bar?") = None.
Proof.
  destruct (X21_image_path_has_fixed_shape 1 "<|>") as (_ & _ & _ & _ & _ & _ & Hempty).
  destruct (X21_image_path_has_fixed_shape 1 "Gold: Bar?")
    as (_ & _ & _ & Hsafe & _).
  split; [|split; [reflexivity|]].
  - apply Hempty. split; [discriminate|].
    repeat constructor.
  - apply Hsafe. reflexivity.
Defined.

(** ** The pages of a list *)

Lemma paginatedItems_eq {A} (l : list A) (p per : Z) :
  1 <= p -> 0 < per ->
  paginatedItems l p per =
  take (Z.to_nat per) (drop (Z.to_nat ((p - 1) * per)) l).
Proof.
  intros Hp Hper. unfold paginatedItems, slice, sliceIndex.
  assert (0 <= (p - 1) * per) by nia.
  destruct (Z.ltb_spec ((p - 1) * per) 0); [lia|].
  destruct (Z.ltb_spec ((p - 1) * per + per) 0); [lia|].
  set (n := length l).
  destruct (decide ((p - 1) * per <= Z.of_nat n)) as [Hin|Hout].
  - replace (Z.min ((p - 1) * per) (Z.of_nat n)) with ((p - 1) * per) by lia.
    destruct (decide ((p - 1) * per + per <= Z.of_nat n)) as [Hfull|Hpart].
    + f_equal. lia.
    + replace (Z.min ((p - 1) * per + per) (Z.of_nat n)) with (Z.of_nat n) by lia.
      rewrite !take_ge; [reflexivity|rewrite length_drop; lia|rewrite length_drop; lia].
  - replace (Z.min ((p - 1) * per) (Z.of_nat n)) with (Z.of_nat n) by lia.
    rewrite !drop_ge by lia. by rewrite !take_nil.
Qed.

(** The first [k] pages are the first [k] times the page size elements. *)
Lemma pages_concat {A} (l : list A) (per : Z) (k : nat) :
  0 < per ->
  concat ((fun p => paginatedItems l p per) <$> idRange 1 (Z.of_nat k)) =
  take (k * Z.to_nat per) l.
Proof.
  intros Hper. unfold idRange.
  replace (Z.to_nat (Z.of_nat k - 1 + 1)) with k by lia.
  induction k as [|k IH]; [reflexivity|].
  rewrite seq_S, !fmap_app, concat_app, IH. simpl.
  rewrite app_nil_r, paginatedItems_eq by lia.
  replace (Z.to_nat ((1 + Z.of_nat k - 1) * per)) with (k * Z.to_nat per)%nat by nia.
  rewrite take_take_drop. f_equal. lia.
Qed.

Lemma pageCount_bounds (n per : Z) :
  0 <= n -> 0 < per ->
  0 <= pageCount n per /\ (pageCount n per - 1) * per < n <= pageCount n per * per \/
  n = 0 /\ pageCount n per = 0.
Proof.
  intros Hn Hper. unfold pageCount.
  pose proof (Z.div_mod (- n) per ltac:(lia)) as Hdiv.
  pose proof (Z.mod_pos_bound (- n) per Hper) as Hmod.
  destruct (decide (n = 0)) as [->|Hne]; [right; by split|].
  left. split; nia.
Qed.

(** X22. The pages of a list page, for a positive page size: the pages 1 to
    the page count, one after the other, are the filtered list, nothing
    lost, repeated or reordered; each of those pages shows at least one and
    at most the page size of entries, and as many as the range that the
    pagination bar announces for it; a page after the last one is empty. *)
Theorem X22_pages_partition_the_list (A : Type) (filtered : list A)
    (itemsPerPage : Z) :
  0 < itemsPerPage ->
  let totalItems := Z.of_nat (length filtered) in
  let totalPages := pageCount totalItems itemsPerPage in
  concat ((fun p => paginatedItems filtered p itemsPerPage) <$> idRange 1 totalPages)
    = filtered /\
  (forall p,
     1 <= p <= totalPages ->
     1 <= Z.of_nat (length (paginatedItems filtered p itemsPerPage)) <= itemsPerPage /\
     Z.of_nat (length (paginatedItems filtered p itemsPerPage)) =
       endItem p itemsPerPage totalItems - startItem p itemsPerPage + 1) /\
  (forall p, totalPages < p -> paginatedItems filtered p itemsPerPage = []).
Proof.
  intros Hper. cbv zeta.
  set (totalItems := Z.of_nat (length filtered)).
  pose proof (pageCount_bounds totalItems itemsPerPage ltac:(lia) Hper) as Hbounds.
  set (totalPages := pageCount totalItems itemsPerPage) in *.
  destruct Hbounds as [(Hpos & Hlo & Hhi)|[Hzero Hnone]].
  - split; [|split].
    + replace totalPages with (Z.of_nat (Z.to_nat totalPages)) by lia.
      rewrite pages_concat by exact Hper. apply take_ge. subst totalItems. nia.
    + intros p Hp. rewrite paginatedItems_eq by lia.
      rewrite length_take, length_drop. unfold endItem, startItem.
      subst totalItems. nia.
    + intros p Hp. rewrite paginatedItems_eq by lia.
      rewrite drop_ge; [apply take_nil|]. subst totalItems. nia.
  - assert (Hnil : filtered = []).
    { subst totalItems. destruct filtered; [reflexivity | simpl in Hzero; lia]. }
    rewrite Hnone. subst filtered. split; [reflexivity|].
    split; [intros p; lia|]. intros p Hp. rewrite paginatedItems_eq by lia.
    by rewrite drop_nil, take_nil.
Qed.

Lemma X22_pages_partition_the_list_witness :
  paginatedItems [10; 20; 30; 40; 50] 2 2 = [30; 40] /\
  paginatedItems [10; 20; 30; 40; 50] 3 2 = [50] /\
  concat ((fun p => paginatedItems [10; 20; 30; 40; 50] p 2) <$> idRange 1 3)
    = [10; 20; 30; 40; 50] /\
  paginatedItems [10; 20; 30; 40; 50] 4 2 = [].
Proof.
  destruct (X22_pages_partition_the_list Z [10; 20; 30; 40; 50] 2 ltac:(lia))
    as (Hall & _ & Hlast).
  split; [reflexivity|]. split; [reflexivity|]. split; [exact Hall|].
  apply Hlast. vm_compute. reflexivity.
Defined.

(** ** The filtered search *)

Lemma insertBy_Permutation {A} (cmp : A -> A -> Z) (x : A) (l : list A) :
  insertBy cmp x l ≡ₚ x :: l.
Proof.
  induction l as [|y l IH]; simpl; [reflexivity|].
  destruct (cmp x y <=? 0); [reflexivity|].
  rewrite IH. apply perm_swap.
Qed.

Lemma insertionSort_Permutation (A : Type) (cmp : A -> A -> Z) (l : list A) :
  insertionSort A cmp l ≡ₚ l.
Proof.
  unfold insertionSort. induction l as [|x l IH]; simpl; [reflexivity|].
  by rewrite insertBy_Permutation, IH.
Qed.

(** X23. The filtered search shows a category only when the type filters
    allow it: with item types selected and no NPC types, only items; with NPC
    types and no item types, only NPCs; with both, items and NPCs; spells and
    quests only when no type is selected. No list is longer than fifty
    entries when there is a query, or a hundred when there is none. Every
    item shown is an item of the database whose name contains the trimmed
    query up to case, when there is one, and whose type is selected, when
    item types are. Without a database the four lists are empty. The engine's
    sort is any function that permutes its input. *)
Theorem X23_filtered_search_gating (sort : forall A : Type, (A -> A -> Z) -> list A -> list A)
    (localeCompare : string -> string -> Z)
    (database : GameDatabase.t) (query : string) (filters : SearchFilters.t) :
  (forall A cmp l, sort A cmp l ≡ₚ l) ->
  let results := useFilteredGlobalSearch sort localeCompare (Some database) query filters in
  let lowerQuery := Js.trim (Js.toLowerCase query) in
  let limit := if decide (lowerQuery = EmptyString) then 100%nat else 50%nat in
  (SearchFilters.itemTypes filters <> [] -> SearchFilters.npcTypes filters = [] ->
   SearchResults.npcs results = []) /\
  (SearchFilters.npcTypes filters <> [] -> SearchFilters.itemTypes filters = [] ->
   SearchResults.items results = []) /\
  (SearchFilters.itemTypes filters <> [] \/ SearchFilters.npcTypes filters <> [] ->
   SearchResults.spells results = [] /\ SearchResults.quests results = []) /\
  ((length (SearchResults.items results) <= limit)%nat /\
   (length (SearchResults.npcs results) <= limit)%nat /\
   (length (SearchResults.spells results) <= limit)%nat /\
   (length (SearchResults.quests results) <= limit)%nat) /\
  (forall item,
     item ∈ SearchResults.items results ->
     item ∈ JsMap.values (GameDatabase.items database) /\
     (lowerQuery <> EmptyString ->
      includes lowerQuery (Js.toLowerCase (GameItem.name item)) = true) /\
     (SearchFilters.itemTypes filters <> [] ->
      ItemStats.type (GameItem.stats item) ∈ SearchFilters.itemTypes filters)) /\
  useFilteredGlobalSearch sort localeCompare None query filters =
    SearchResults.mk [] [] [] [].
Proof.
  intros Hsort results lowerQuery limit. subst results. unfold useFilteredGlobalSearch.
  fold lowerQuery.
  assert (Hnil : forall A cmp, sort A cmp [] = []).
  { intros A cmp. apply Permutation_nil_r, Hsort. }
  assert (HhasQuery : (0 <? String.length lowerQuery)%nat =
                      if decide (lowerQuery = EmptyString) then false else true).
  { destruct lowerQuery; [reflexivity|]. by rewrite decide_False. }
  assert (Hlimit : (if (0 <? String.length lowerQuery)%nat then 50%nat else 100%nat)
                   = limit).
  { rewrite HhasQuery. subst limit. by destruct (decide (lowerQuery = EmptyString)). }
  rewrite Hlimit.
  cbn [SearchResults.items SearchResults.npcs SearchResults.spells
       SearchResults.quests].
  split; [|split; [|split; [|split; [|split; [|reflexivity]]]]].
  - intros Hitems Hnpcs. rewrite Hnpcs.
    destruct (SearchFilters.itemTypes filters); [done|]. simpl.
    by rewrite Hnil, take_nil.
  - intros Hnpcs Hitems. rewrite Hitems.
    destruct (SearchFilters.npcTypes filters); [done|]. simpl.
    by rewrite Hnil, take_nil.
  - intros Hany.
    assert (Hgate : negb (nonEmpty (SearchFilters.itemTypes filters)) &&
                    negb (nonEmpty (SearchFilters.npcTypes filters)) = false).
    { destruct (SearchFilters.itemTypes filters), (SearchFilters.npcTypes filters);
        simpl; try reflexivity. by destruct Hany. }
    rewrite Hgate, !Hnil, !take_nil. by split.
  - repeat split; rewrite length_take; lia.
  - intros item Hin. apply elem_of_take in Hin as (i & Hin & _).
    apply list_elem_of_lookup_2 in Hin. rewrite Hsort in Hin.
    destruct (negb _ || _); [|by apply elem_of_nil in Hin].
    apply list_elem_of_filter in Hin as [Hpass Hin]. split; [exact Hin|].
    apply andb_true_iff in Hpass as [Hq Ht]. unfold queryOk, typeOk in *.
    rewrite HhasQuery in Hq. split.
    + intros Hquery. rewrite decide_False in Hq by exact Hquery.
      simpl in Hq. by apply negb_true_iff, negb_false_iff in Hq.
    + intros Htypes.
      destruct (SearchFilters.itemTypes filters) as [|t types] eqn:Hset; [done|].
      simpl in Ht. apply negb_true_iff, negb_false_iff in Ht.
      unfold has in Ht. by apply bool_decide_eq_true in Ht.
Qed.

Lemma X23_filtered_search_gating_witness :
  let results :=
    useFilteredGlobalSearch insertionSort codeUnitCompare (Some goldItems) " GOLD "
      (SearchFilters.mk [] [] byId) in
  SearchResults.items results =
    [exampleItem 1 "Marigold"; exampleItem 2 "Gold"; exampleItem 3 "Golden Axe"] /\
  (length (SearchResults.items results) <= 50)%nat /\
  SearchResults.npcs
    (useFilteredGlobalSearch insertionSort codeUnitCompare (Some goldItems) "gold"
       (SearchFilters.mk [0] [] byName)) = [].
Proof.
  split; [vm_compute; reflexivity|].
  destruct (X23_filtered_search_gating insertionSort codeUnitCompare goldItems
              " GOLD " (SearchFilters.mk [] [] byId) insertionSort_Permutation)
    as (_ & _ & _ & (Hlen & _) & _).
  split; [exact Hlen|].
  destruct (X23_filtered_search_gating insertionSort codeUnitCompare goldItems
              "gold" (SearchFilters.mk [0] [] byName) insertionSort_Permutation)
    as (Hgate & _).
  by apply Hgate.
Defined.

(** ** Looking an entity up by id and by name *)

Lemma forEachIndexed_wf {A V} (add : list (Z * V) -> A -> nat -> list (Z * V))
    (records : list A) :
  (forall m record index, JsMap.wf m -> JsMap.wf (add m record index)) ->
  JsMap.wf (forEachIndexed add records JsMap.empty).
Proof.
  intros Hadd. unfold forEachIndexed.
  apply (fold_left_invariant JsMap.wf); [|apply wf_empty].
  intros m [index record] _. apply Hadd.
Qed.

Lemma loadItems_wf (lib : Eolib.t) (origin : Origin) (items : Items) :
  loadItems lib origin = Ok items -> JsMap.wf items.
Proof.
  unfold loadItems. intros Hload.
  apply bind_Ok in Hload as (bytes & _ & Hload).
  apply bind_Ok in Hload as (eif & _ & [= <-]).
  apply forEachIndexed_wf. intros m record index Hwf. unfold addItem.
  destruct (hasName _); [by apply wf_set | exact Hwf].
Qed.

Lemma loadNpcs_wf (lib : Eolib.t) (origin : Origin) (npcs : Npcs) :
  loadNpcs lib origin = Ok npcs -> JsMap.wf npcs.
Proof.
  unfold loadNpcs. intros Hload.
  apply bind_Ok in Hload as (bytes & _ & Hload).
  apply bind_Ok in Hload as (enf & _ & [= <-]).
  apply forEachIndexed_wf. intros m record index Hwf. unfold addNpc.
  destruct (hasName _); [by apply wf_set | exact Hwf].
Qed.

Lemma elem_of_values {V} (m : list (Z * V)) (v : V) :
  v ∈ JsMap.values m <-> exists k, (k, v) ∈ m.
Proof.
  unfold JsMap.values. rewrite list_elem_of_fmap. split.
  - intros ([k v'] & -> & Hin). by exists k.
  - intros [k Hin]. by exists (k, v).
Qed.

Lemma hasName_nonempty (name : string) : hasName name = true -> name <> EmptyString.
Proof. by destruct name. Qed.

(** An index by name over a table that stores every entity once, under its
    id, with a name: what is found by name is found by its id, and every
    entity of the table has an entity of its name in the index. *)
Lemma name_index_of_table {V} (id : V -> Z) (name : V -> string) (m : list (Z * V)) :
  JsMap.wf m ->
  (forall k v, JsMap.get k m = Some v -> id v = k /\ name v <> EmptyString) ->
  (forall key v,
     JsMap.get key (buildNameIndex name (JsMap.values m)) = Some v ->
     JsMap.get (id v) m = Some v /\ Js.toLowerCase (name v) = key) /\
  (forall k v,
     JsMap.get k m = Some v ->
     exists found,
       JsMap.get (Js.toLowerCase (name v)) (buildNameIndex name (JsMap.values m))
         = Some found /\
       Js.toLowerCase (name found) = Js.toLowerCase (name v)).
Proof.
  intros Hwf Hkeyed. split.
  - intros key v. rewrite buildNameIndex_get. intros Hlast.
    apply last_Some_elem_of, list_elem_of_filter in Hlast as [[_ Hkey] Hin].
    apply elem_of_values in Hin as [k Hin].
    apply get_Some_elem_of in Hin; [|exact Hwf].
    destruct (Hkeyed k v Hin) as [-> _]. by split.
  - intros k v Hget. rewrite buildNameIndex_get.
    destruct (Hkeyed k v Hget) as [_ Hname].
    assert (Hin : v ∈ filter (fun x => name x <> EmptyString /\
                                       Js.toLowerCase (name x) = Js.toLowerCase (name v))
                             (JsMap.values m)).
    { apply list_elem_of_filter. split; [by split|].
      apply elem_of_values. exists k. by apply get_Some_elem_of. }
    destruct (last _) as [found|] eqn:Hlast.
    + exists found. split; [reflexivity|].
      by apply last_Some_elem_of, list_elem_of_filter in Hlast as [[_ Hkey] _].
    + apply last_None in Hlast. rewrite Hlast in Hin. by apply elem_of_nil in Hin.
Qed.

(** X24. In a published database the lookups agree. Every item is stored
    once, under its own id, with a name that is not blank. An item found in
    the name index is the very item found under its id, relationships
    included, and its lowercased name is the key it was found under. Every
    item of the table has an item of its name in the index: itself, or a
    later item of the same name up to case. The same holds of the NPCs. *)
Theorem X24_lookups_agree (lib : Eolib.t) (scheds : Schedules.t)
    (origin : Origin) (db : GameDatabase.t) :
  loadGameDatabase lib scheds origin = Ok db ->
  (JsMap.wf (GameDatabase.items db) /\
   (forall k item,
      JsMap.get k (GameDatabase.items db) = Some item ->
      GameItem.id item = k /\ hasName (GameItem.name item) = true) /\
   (forall key item,
      JsMap.get key (GameDatabase.itemsByName db) = Some item ->
      useItem (Some db) (GameItem.id item) = Some item /\
      Js.toLowerCase (GameItem.name item) = key) /\
   (forall k item,
      JsMap.get k (GameDatabase.items db) = Some item ->
      exists found,
        JsMap.get (Js.toLowerCase (GameItem.name item)) (GameDatabase.itemsByName db)
          = Some found /\
        Js.toLowerCase (GameItem.name found) = Js.toLowerCase (GameItem.name item))) /\
  (JsMap.wf (GameDatabase.npcs db) /\
   (forall k npc,
      JsMap.get k (GameDatabase.npcs db) = Some npc ->
      GameNpc.id npc = k /\ hasName (GameNpc.name npc) = true) /\
   (forall key npc,
      JsMap.get key (GameDatabase.npcsByName db) = Some npc ->
      useNpc (Some db) (GameNpc.id npc) = Some npc /\
      Js.toLowerCase (GameNpc.name npc) = key) /\
   (forall k npc,
      JsMap.get k (GameDatabase.npcs db) = Some npc ->
      exists found,
        JsMap.get (Js.toLowerCase (GameNpc.name npc)) (GameDatabase.npcsByName db)
          = Some found /\
        Js.toLowerCase (GameNpc.name found) = Js.toLowerCase (GameNpc.name npc))).
Proof.
  intros Hbuild.
  apply loadGameDatabase_indexPhase in Hbuild
    as (items & npcs & spells & classes & drops & shops & pets & specialDrops &
        specialMobs & npcSpellcasts & mapData & quests &
        Hitems & Hnpcs & _ & _ & _ & _ & _ & _ & _ & _ & _ & _ & ->).
  destruct (indexPhase_same items npcs spells classes drops shops pets specialDrops
              specialMobs npcSpellcasts mapData quests) as [[HkI HcI] [HkN HcN]].
  pose proof (loadItems_wf _ _ _ Hitems) as HwfI.
  pose proof (loadNpcs_wf _ _ _ Hnpcs) as HwfN.
  apply loadItems_pristine in Hitems. apply loadNpcs_pristine in Hnpcs.
  rewrite indexPhase_stages in *.
  cbn [GameDatabase.items GameDatabase.npcs GameDatabase.itemsByName
       GameDatabase.npcsByName useItem useNpc mbind option_bind] in *.
  match goal with
  | |- context [indexQuests ?n ?i ?q ?v] => set (quested := indexQuests n i q v) in *
  end.
  assert (HwfI' : JsMap.wf quested.1.2) by (unfold JsMap.wf; by rewrite HkI).
  assert (HwfN' : JsMap.wf quested.1.1) by (unfold JsMap.wf; by rewrite HkN).
  assert (HkeyedI : forall k item, JsMap.get k quested.1.2 = Some item ->
                      GameItem.id item = k /\ hasName (GameItem.name item) = true).
  { intros k item' Hget.
    destruct (same_view_Some itemCore items quested.1.2 k item' (HcI k) Hget)
      as (item & Hitem & Hcore).
    injection Hcore as Hid Hname _.
    destruct (Hitems k item Hitem) as (Hk & Hn & _). split; congruence. }
  assert (HkeyedN : forall k npc, JsMap.get k quested.1.1 = Some npc ->
                      GameNpc.id npc = k /\ hasName (GameNpc.name npc) = true).
  { intros k npc' Hget.
    destruct (same_view_Some npcCore npcs quested.1.1 k npc' (HcN k) Hget)
      as (npc & Hnpc & Hcore).
    injection Hcore as Hid Hname _ _.
    destruct (Hnpcs k npc Hnpc) as (Hk & Hn & _). split; congruence. }
  split.
  - destruct (name_index_of_table GameItem.id GameItem.name quested.1.2 HwfI')
      as [Hfound Hall].
    { intros k v Hget. destruct (HkeyedI k v Hget) as [Hk Hn].
      split; [exact Hk | by apply hasName_nonempty]. }
    split; [exact HwfI'|]. split; [exact HkeyedI|]. split; [exact Hfound | exact Hall].
  - destruct (name_index_of_table GameNpc.id GameNpc.name quested.1.1 HwfN')
      as [Hfound Hall].
    { intros k v Hget. destruct (HkeyedN k v Hget) as [Hk Hn].
      split; [exact Hk | by apply hasName_nonempty]. }
    split; [exact HwfN'|]. split; [exact HkeyedN|]. split; [exact Hfound | exact Hall].
Qed.

Lemma X24_lookups_agree_witness :
  exists db item,
    loadGameDatabase exampleLib exampleSchedules stockedOrigin = Ok db /\
    JsMap.get "potion" (GameDatabase.itemsByName db) = Some item /\
    useItem (Some db) (GameItem.id item) = Some item /\
    GameItem.id item = 2.
Proof.
  eexists.
  destruct (X24_lookups_agree exampleLib exampleSchedules stockedOrigin _
              ltac:(vm_compute; reflexivity)) as ((_ & _ & Hfound & _) & _).
  eexists. split; [vm_compute; reflexivity|].
  split; [vm_compute; reflexivity|].
  split; [|vm_compute; reflexivity].
  exact (proj1 (Hfound "potion" _ ltac:(vm_compute; reflexivity))).
Defined.

(** ** The quest pass keeps the quests *)

(** A loop that updates each element keeps what every step keeps of its
    element. *)
Lemma forEachUpdate_shape {S A B} (view : A -> B) (f : S -> A -> S * A) :
  (forall s a, view (f s a).2 = view a) ->
  forall (l : list A) (s : S), view <$> (forEachUpdate f s l).2 = view <$> l.
Proof.
  intros Hf. induction l as [|a l IH]; intros s; [reflexivity|].
  simpl. specialize (Hf s a). destruct (f s a) as [s1 a'].
  specialize (IH s1). destruct (forEachUpdate f s1 l) as [s2 l'].
  simpl in *. f_equal; assumption.
Qed.

Lemma indexQuest_shape (npcsByVendorId : list (Z * Z)) (st : Npcs * Items)
    (entry : Z * GameQuest.t) :
  questShape (indexQuest npcsByVendorId st entry).2 = questShape entry.
Proof.
  destruct st as [npcs items], entry as [key quest].
  rewrite indexQuest_loops. unfold questShape.
  cbn [fst snd GameQuest.id GameQuest.name GameQuest.rewardExp
       GameQuest.involvedNpcs GameQuest.rewardItems GameQuest.killRequirements
       GameQuest.itemRequirements].
  rewrite (forEachUpdate_shape QuestNpc.npcId).
  2:{ intros s npcData. unfold indexQuestNpc.
      by destruct (vendorLookup _ _ _) as [[k npc]|]. }
  rewrite (forEachUpdate_shape
             (fun r => (QuestRewardItem.itemId r, QuestRewardItem.amount r))).
  2:{ intros s reward. unfold indexQuestReward. by destruct (JsMap.get _ s). }
  rewrite (forEachUpdate_shape (fun r => (QuestKill.npcId r, QuestKill.count r))).
  2:{ intros s killReq. unfold indexQuestKill. by destruct (JsMap.get _ s). }
  rewrite (forEachUpdate_shape
             (fun r => (QuestItemReq.itemId r, QuestItemReq.count r))).
  2:{ intros s itemReq. unfold indexQuestItemReq. by destruct (JsMap.get _ s). }
  reflexivity.
Qed.

(** X25. A successful build publishes the quests that the quest loader
    gave, in the same order and under the same keys: each with its id, name
    and experience reward, and with the same dialogue NPCs, reward items,
    kill requirements and item requirements, reference by reference, by id
    and amount. Indexing fills in names; it adds, drops, reorders and
    renumbers nothing. *)
Theorem X25_build_publishes_loaded_quests (lib : Eolib.t) (scheds : Schedules.t)
    (origin : Origin) (db : GameDatabase.t) :
  loadGameDatabase lib scheds origin = Ok db ->
  exists quests,
    loadQuests (Schedules.questFiles scheds) origin = Ok quests /\
    questShape <$> GameDatabase.quests db = questShape <$> quests.
Proof.
  intros Hbuild. build_stages Hbuild. exists quests. split; [exact Hquests|].
  unfold indexQuests. apply forEachUpdate_shape.
  intros s entry. apply indexQuest_shape.
Qed.

Lemma X25_build_publishes_loaded_quests_witness :
  exists db,
    loadGameDatabase exampleLib exampleSchedules stockedOrigin = Ok db /\
    questShape <$> GameDatabase.quests db =
      [(1, 1, "Errand", 0, [500], [], [(1, 3)], [])].
Proof.
  eexists. split; [vm_compute; reflexivity|].
  destruct (X25_build_publishes_loaded_quests exampleLib exampleSchedules
              stockedOrigin _ ltac:(vm_compute; reflexivity))
    as (quests & Hquests & Hshape).
  rewrite loadQuests_eq in Hquests. injection Hquests as <-.
  etransitivity; [exact Hshape|]. vm_compute. reflexivity.
Defined.

(** ** The maps of the spawns *)

Lemma get_scan {A V} (find : Z -> option A) (make : Z -> A -> V)
    (ids : list Z) (id : Z) (a : A) :
  NoDup ids -> id ∈ ids -> find id = Some a ->
  JsMap.get id (omap (fun id => (fun a => (id, make id a)) <$> find id) ids) =
    Some (make id a).
Proof.
  intros Hnodup Hin Hfind. induction ids as [|i ids IH]; [by apply elem_of_nil in Hin|].
  apply NoDup_cons in Hnodup as [Hi Hnodup]. simpl.
  apply elem_of_cons in Hin as [->|Hin].
  - rewrite Hfind. simpl. by rewrite decide_True.
  - destruct (find i) as [w|]; simpl; [|by apply IH].
    rewrite decide_False; [by apply IH|]. intros ->. contradiction.
Qed.

Lemma Ok_inj {A} (a b : A) : Ok a = Ok b -> a = b.
Proof. by intros [= ->]. Qed.

(** Every spawn the map loader gives belongs to a map it gives, and carries
    the id and the name of that map. *)
Lemma loadMaps_spawn_map (lib : Eolib.t) (sched : Promise.Schedule) (origin : Origin)
    (mapData : MapData.t) (spawn : MapNpcSpawn.t) :
  loadMaps lib sched origin = Ok mapData ->
  spawn ∈ MapData.npcSpawns mapData ->
  JsMap.get (MapNpcSpawn.mapId spawn) (MapData.maps mapData) =
    Some (GameMap.mk (MapNpcSpawn.mapId spawn) (MapNpcSpawn.mapName spawn)).
Proof.
  rewrite loadMaps_content. intros Heq%Ok_inj. rewrite <- Heq. clear Heq.
  cbn [MapData.maps MapData.npcSpawns]. intros Hin.
  apply list_elem_of_bind in Hin as (id & Hspawn & Hid).
  destruct (decodedMap lib origin id) as [emf|] eqn:Hmap;
    [|by apply elem_of_nil in Hspawn].
  apply list_elem_of_fmap in Hspawn as (npc & -> & _).
  cbn [spawnOfNpc MapNpcSpawn.mapId MapNpcSpawn.mapName].
  apply (get_scan (decodedMap lib origin)
                  (fun id emf => GameMap.mk id (mapNameOf id emf)));
    [apply NoDup_idRange | exact Hid | exact Hmap].
Qed.

(** X26. In a published database every spawn of an NPC points to a map of
    the database: the map stored under the spawn's map id exists, has that
    id, and has the name the spawn shows. *)
Theorem X26_spawns_point_to_published_maps (lib : Eolib.t) (scheds : Schedules.t)
    (origin : Origin) (db : GameDatabase.t) :
  loadGameDatabase lib scheds origin = Ok db ->
  forall k npc spawn,
    JsMap.get k (GameDatabase.npcs db) = Some npc ->
    spawn ∈ arr (GameNpc.spawnsOnMaps npc) ->
    JsMap.get (MapSpawnInfo.mapId spawn) (GameDatabase.maps db) =
      Some (GameMap.mk (MapSpawnInfo.mapId spawn) (MapSpawnInfo.mapName spawn)).
Proof.
  intros Hbuild k npc spawn Hget Hin.
  destruct (published_spawns lib scheds origin db Hbuild) as (mapData & Hmaps & Hall).
  destruct (loadGameDatabase_Ok lib scheds origin db Hbuild)
    as (mapData' & _ & _ & _ & _ & Hmaps' & _ & _ & Hdb & _).
  assert (mapData' = mapData) as -> by congruence.
  rewrite Hdb. rewrite (Hall k npc Hget) in Hin.
  assert (Hfound : exists raw, raw ∈ spawnsOf k (MapData.npcSpawns mapData) /\
                               spawn = spawnInfoOf raw).
  { destruct (spawnsOf k (MapData.npcSpawns mapData)) as [|r rs];
      [by apply elem_of_nil in Hin|].
    change (spawn ∈ spawnInfoOf <$> r :: rs) in Hin.
    apply list_elem_of_fmap in Hin as (raw & -> & Hraw). eauto. }
  destruct Hfound as (raw & Hraw & ->).
  apply list_elem_of_filter in Hraw as [_ Hraw].
  by apply (loadMaps_spawn_map lib (Schedules.mapFiles scheds) origin).
Qed.

Lemma X26_spawns_point_to_published_maps_witness :
  exists db npc,
    loadGameDatabase exampleLib exampleSchedules stockedOrigin = Ok db /\
    JsMap.get 1 (GameDatabase.npcs db) = Some npc /\
    MapSpawnInfo.mk 1 "Aeven" 4 5 0 30 2 ∈ arr (GameNpc.spawnsOnMaps npc) /\
    JsMap.get 1 (GameDatabase.maps db) = Some (GameMap.mk 1 "Aeven").
Proof.
  eexists. eexists. split; [vm_compute; reflexivity|].
  assert (Hin : MapSpawnInfo.mk 1 "Aeven" 4 5 0 30 2 ∈
                [MapSpawnInfo.mk 1 "Aeven" 4 5 0 30 2]) by apply list_elem_of_here.
  split; [vm_compute; reflexivity|]. split; [exact Hin|].
  exact (X26_spawns_point_to_published_maps exampleLib exampleSchedules
           stockedOrigin _ ltac:(vm_compute; reflexivity) 1 _
           (MapSpawnInfo.mk 1 "Aeven" 4 5 0 30 2)
           ltac:(vm_compute; reflexivity) Hin).
Defined.

(** ** The scan ranges *)

(** What a scan stores under a key: the find of that key when the key is
    scanned, and nothing otherwise. *)
Lemma get_scan_exact {A V} (find : Z -> option A) (make : Z -> A -> V)
    (ids : list Z) (k : Z) :
  NoDup ids ->
  JsMap.get k (omap (fun id => (fun a => (id, make id a)) <$> find id) ids) =
    if decide (k ∈ ids) then make k <$> find k else None.
Proof.
  intros Hnodup. destruct (decide (k ∈ ids)) as [Hin|Hout].
  - destruct (find k) as [a|] eqn:Hfind; [by apply get_scan|].
    clear Hnodup Hin. induction ids as [|i ids IH]; [reflexivity|]. simpl.
    destruct (find i) as [w|] eqn:Hi; simpl; [|exact IH].
    rewrite decide_False; [exact IH|]. intros ->. congruence.
  - clear Hnodup. induction ids as [|i ids IH]; [reflexivity|]. simpl.
    apply not_elem_of_cons in Hout as [Hne Hout].
    destruct (find i) as [w|]; simpl; [|by apply IH].
    rewrite decide_False by exact Hne. by apply IH.
Qed.

Lemma in_range_idRange {V} (lo hi k : Z) (found : option V) :
  (if decide (k ∈ idRange lo hi) then found else None) =
  (if decide (lo <= k <= hi) then found else None).
Proof.
  destruct (decide (k ∈ idRange lo hi)) as [Hin|Hout], (decide (lo <= k <= hi)) as [Hk|Hk];
    try reflexivity.
  - by apply elem_of_idRange in Hin.
  - by apply elem_of_idRange in Hk.
Qed.

(** The map stored under a key by the map loader. *)
Lemma loadMaps_get (lib : Eolib.t) (sched : Promise.Schedule) (origin : Origin)
    (mapData : MapData.t) (k : Z) :
  loadMaps lib sched origin = Ok mapData ->
  JsMap.get k (MapData.maps mapData) =
    if decide (0 <= k <= 400)
    then (fun emf => GameMap.mk k (mapNameOf k emf)) <$> decodedMap lib origin k
    else None.
Proof.
  rewrite loadMaps_content. intros Heq%Ok_inj. rewrite <- Heq. clear Heq.
  cbn [MapData.maps].
  rewrite (get_scan_exact (decodedMap lib origin)
             (fun id emf => GameMap.mk id (mapNameOf id emf)) mapIds k
             (NoDup_idRange 0 400)).
  apply in_range_idRange.
Qed.

(** The quest stored under a key by the quest loader. *)
Lemma loadQuests_get (sched : Promise.Schedule) (origin : Origin)
    (quests : list (Z * GameQuest.t)) (k : Z) :
  loadQuests sched origin = Ok quests ->
  JsMap.get k quests =
    if decide (1 <= k <= 150) then parsedQuest origin k else None.
Proof.
  rewrite loadQuests_content. intros Heq%Ok_inj. rewrite <- Heq. clear Heq.
  rewrite (get_scan_exact (parsedQuest origin) (fun _ quest => quest) questIds k
             (NoDup_idRange 1 150)).
  rewrite option_fmap_id. apply in_range_idRange.
Qed.

(** The quest pass keeps the keys of the quests, in their order. *)
Lemma indexQuests_keys (npcs : Npcs) (items : Items)
    (quests : list (Z * GameQuest.t)) (npcsByVendorId : list (Z * Z)) :
  JsMap.keys (indexQuests npcs items quests npcsByVendorId).2 = JsMap.keys quests.
Proof.
  unfold indexQuests, JsMap.keys. apply forEachUpdate_shape.
  intros s entry. pose proof (indexQuest_shape npcsByVendorId s entry) as Hshape.
  unfold questShape in Hshape. congruence.
Qed.

(** C9. The map loader requests the ids 0 to 400 and the quest loader the
    ids 1 to 150, each once. Both loaders always give a result; every map
    they give has a key in [0, 400], every quest a key in [1, 150], and the
    id of the entity is its key; the same holds of the maps and quests of a
    published database. What the origin answers for any other map or quest
    file has no effect on the result.

    The loaders do scan the whole range. Whatever the order in which the
    requests complete, the map loader folds its loop over the answers to one
    request for each id of 0 to 400, in ascending order, and the quest loader
    over one for each id of 1 to 150. The result is exactly the maps and
    quests found under these ids: a key of the range holds the map that its
    file decodes to, or the quest that its file parses to, and nothing when
    there is none; a key outside the range holds nothing. A published
    database holds the same maps, and a quest under exactly the keys of the
    range whose file parses to a quest. *)
Theorem C9_fixed_scan_ranges :
  ((forall id, id ∈ mapIds <-> 0 <= id <= 400) /\ length mapIds = 401%nat /\
   NoDup mapIds) /\
  ((forall id, id ∈ questIds <-> 1 <= id <= 150) /\ length questIds = 150%nat /\
   NoDup questIds) /\
  (forall lib sched origin,
     exists mapData,
       loadMaps lib sched origin = Ok mapData /\
       (forall k m, JsMap.get k (MapData.maps mapData) = Some m ->
                    0 <= k <= 400 /\ GameMap.id m = k) /\
       Forall (fun spawn => 0 <= MapNpcSpawn.mapId spawn <= 400)
              (MapData.npcSpawns mapData)) /\
  (forall sched origin,
     exists quests,
       loadQuests sched origin = Ok quests /\
       forall k q, JsMap.get k quests = Some q ->
                   1 <= k <= 150 /\ GameQuest.id q = k) /\
  (forall lib scheds origin db,
     loadGameDatabase lib scheds origin = Ok db ->
     (forall k m, JsMap.get k (GameDatabase.maps db) = Some m ->
                  0 <= k <= 400 /\ GameMap.id m = k) /\
     (forall k q, JsMap.get k (GameDatabase.quests db) = Some q ->
                  1 <= k <= 150 /\ GameQuest.id q = k)) /\
  (forall lib sched origin origin',
     (forall id, 0 <= id <= 400 -> origin (mapUrl id) = origin' (mapUrl id)) ->
     loadMaps lib sched origin = loadMaps lib sched origin') /\
  (forall sched origin origin',
     (forall id, 1 <= id <= 150 -> origin (questUrl id) = origin' (questUrl id)) ->
     loadQuests sched origin = loadQuests sched origin') /\
  (forall lib sched origin,
     loadMaps lib sched origin =
       Ok (fold_left (addMap lib) ((fun id => (id, loadMapFile origin id)) <$> mapIds)
             (MapData.mk JsMap.empty [])) /\
     loadMaps lib sched origin =
       Ok (MapData.mk
             (omap (fun id => (fun emf => (id, GameMap.mk id (mapNameOf id emf)))
                                <$> decodedMap lib origin id) mapIds)
             (mapIds ≫= fun id =>
                match decodedMap lib origin id with
                | Some emf => spawnOfNpc id (mapNameOf id emf) <$> Emf.npcs emf
                | None => []
                end))) /\
  (forall sched origin,
     loadQuests sched origin =
       Ok (fold_left addQuest ((fun id => (id, loadQuestFile origin id)) <$> questIds)
             JsMap.empty) /\
     loadQuests sched origin =
       Ok (omap (fun id => (fun quest => (id, quest)) <$> parsedQuest origin id)
             questIds)) /\
  (forall lib sched origin mapData,
     loadMaps lib sched origin = Ok mapData ->
     forall k,
       JsMap.get k (MapData.maps mapData) =
         if decide (0 <= k <= 400)
         then (fun emf => GameMap.mk k (mapNameOf k emf)) <$> decodedMap lib origin k
         else None) /\
  (forall sched origin quests,
     loadQuests sched origin = Ok quests ->
     forall k,
       JsMap.get k quests =
         if decide (1 <= k <= 150) then parsedQuest origin k else None) /\
  (forall lib scheds origin db,
     loadGameDatabase lib scheds origin = Ok db ->
     (forall k,
        JsMap.get k (GameDatabase.maps db) =
          if decide (0 <= k <= 400)
          then (fun emf => GameMap.mk k (mapNameOf k emf)) <$> decodedMap lib origin k
          else None) /\
     (forall k,
        is_Some (JsMap.get k (GameDatabase.quests db)) <->
        1 <= k <= 150 /\ is_Some (parsedQuest origin k))).
Proof.
  assert (Hmaps : forall lib sched origin,
    exists mapData,
      loadMaps lib sched origin = Ok mapData /\
      (forall k m, JsMap.get k (MapData.maps mapData) = Some m ->
                   0 <= k <= 400 /\ GameMap.id m = k) /\
      Forall (fun spawn => 0 <= MapNpcSpawn.mapId spawn <= 400)
             (MapData.npcSpawns mapData)).
  { intros lib sched origin. rewrite loadMaps_eq. eexists. split; [reflexivity|].
    destruct (addMap_range lib mapIds (loadMapFile origin)
                (MapData.mk JsMap.empty [])) as [Hm Hs].
    - intros k m. discriminate.
    - constructor.
    - split.
      + intros k m Hget. destruct (Hm k m Hget) as [Hin Hid].
        by apply elem_of_idRange in Hin.
      + eapply Forall_impl; [exact Hs|]. intros spawn Hin.
        by apply elem_of_idRange in Hin. }
  assert (Hquests : forall sched origin,
    exists quests,
      loadQuests sched origin = Ok quests /\
      forall k q, JsMap.get k quests = Some q ->
                  1 <= k <= 150 /\ GameQuest.id q = k).
  { intros sched origin. rewrite loadQuests_eq. eexists. split; [reflexivity|].
    intros k q Hget.
    destruct (addQuest_range questIds (loadQuestFile origin) JsMap.empty
                ltac:(intros ? ?; discriminate) k q Hget) as [Hin Hid].
    by apply elem_of_idRange in Hin. }
  split; [|split; [|split; [exact Hmaps|split; [exact Hquests|
    split; [|split; [|split; [|split; [|split; [|split; [|split]]]]]]]]]].
  - split; [intros id; apply elem_of_idRange|]. split; [reflexivity|].
    apply NoDup_idRange.
  - split; [intros id; apply elem_of_idRange|]. split; [reflexivity|].
    apply NoDup_idRange.
  - intros lib scheds origin db Hbuild.
    apply loadGameDatabase_Ok in Hbuild
      as (mapData & quests & npcs & items & vend & HM & HQ & _ & -> & ->).
    destruct (Hmaps lib (Schedules.mapFiles scheds) origin) as (mapData' & HM' & Hm & _).
    destruct (Hquests (Schedules.questFiles scheds) origin) as (quests' & HQ' & Hq).
    assert (mapData' = mapData) as -> by congruence.
    assert (quests' = quests) as -> by congruence.
    split; [exact Hm|].
    intros k q' Hget. apply indexQuests_get in Hget as (q & Hget & ->). eauto.
  - intros lib sched origin origin' Hsame. rewrite !loadMaps_eq. do 2 f_equal.
    apply list_fmap_ext. intros i id Hi. unfold loadMapFile.
    rewrite Hsame; [reflexivity|].
    apply elem_of_idRange. by eapply list_elem_of_lookup_2.
  - intros sched origin origin' Hsame. rewrite !loadQuests_eq. do 2 f_equal.
    apply list_fmap_ext. intros i id Hi. unfold loadQuestFile.
    rewrite Hsame; [reflexivity|].
    apply elem_of_idRange. by eapply list_elem_of_lookup_2.
  - intros lib sched origin. split; [apply loadMaps_eq | apply loadMaps_content].
  - intros sched origin. split; [apply loadQuests_eq | apply loadQuests_content].
  - intros lib sched origin mapData Hload k. by apply (loadMaps_get lib sched).
  - intros sched origin quests Hload k. by apply (loadQuests_get sched).
  - intros lib scheds origin db Hbuild.
    apply loadGameDatabase_Ok in Hbuild
      as (mapData & quests & npcs & items & vend & HM & HQ & _ & -> & ->).
    split.
    + intros k. by apply (loadMaps_get lib (Schedules.mapFiles scheds)).
    + intros k. rewrite get_is_Some_keys, indexQuests_keys, <- get_is_Some_keys.
      rewrite (loadQuests_get _ _ _ k HQ).
      destruct (decide (1 <= k <= 150)) as [Hk|Hk]; [tauto|].
      split; [by intros [q Hq] | tauto].
Qed.

Lemma C9_fixed_scan_ranges_witness :
  exists db,
    loadGameDatabase exampleLib exampleSchedules exampleOrigin = Ok db /\
    (forall k m, JsMap.get k (GameDatabase.maps db) = Some m ->
                 0 <= k <= 400 /\ GameMap.id m = k) /\
    loadMaps exampleLib (fun _ => 0%nat) exampleOrigin =
    loadMaps exampleLib (fun _ => 0%nat) (withoutFile "/maps/00401.emf" exampleOrigin) /\
    JsMap.get 1 (GameDatabase.maps db) = Some (GameMap.mk 1 "Aeven") /\
    JsMap.get 2 (GameDatabase.maps db) = None /\
    is_Some (JsMap.get 1 (GameDatabase.quests db)).
Proof.
  destruct C9_fixed_scan_ranges
    as (_ & _ & _ & _ & Hdb & Hframe & _ & _ & _ & _ & _ & Hexact).
  eexists. split; [vm_compute; reflexivity|].
  destruct (Hexact exampleLib exampleSchedules exampleOrigin _
              ltac:(vm_compute; reflexivity)) as [Hmap Hquest].
  split; [|split; [|split; [|split]]].
  - apply (Hdb exampleLib exampleSchedules exampleOrigin). vm_compute. reflexivity.
  - apply Hframe. intros id Hid. unfold withoutFile.
    destruct (String.eqb (mapUrl id) "/maps/00401.emf") eqn:Heq; [|reflexivity].
    exfalso. apply String.eqb_eq in Heq.
    assert (Hin : id ∈ mapIds) by (by apply elem_of_idRange).
    assert (Hall : Forall (fun i => mapUrl i <> "/maps/00401.emf") mapIds).
    { apply (bool_decide_unpack _). vm_compute. exact I. }
    rewrite Forall_forall in Hall. exact (Hall id Hin Heq).
  - etransitivity; [exact (Hmap 1)|]. vm_compute. reflexivity.
  - etransitivity; [exact (Hmap 2)|]. vm_compute. reflexivity.
  - apply (Hquest 1). split; [lia|]. vm_compute. eauto.
Defined.
